(** * go-cache: FIFO, LIFO, LRU, Random and TTL engines

  A shallow embedding of the cache engines of [sethvargo/go-cache]
  ([fifo.go], [lifo.go], [lru.go], [random.go], [ttl.go] and the
  heap-ordered revision of the TTL engine) together with the properties
  their specification states about them.

  Go pointers are modelled as optional addresses into a store of list
  items ([None] is [nil]); a Go map is a [gmap]; a panic is an explicit
  outcome.  The lock of every engine only serialises whole operations,
  so each operation is a function from the state before to the state
  after. *)

From stdpp Require Import gmap strings list fin_maps.
From Stdlib Require Import ZArith Lia.

(** ** Outcomes of an operation *)

Inductive panic : Type :=
| CapacityNotPositive  (* panic("capacity must be greater than 0") *)
| TTLNotPositive       (* panic("ttl must be greater than 0") *)
| CacheStopped         (* panic("cache is stopped") *)
| NilDereference       (* runtime error: nil pointer dereference *)
| IndexOutOfRange.     (* runtime error: index out of range *)

Inductive result (A : Type) : Type :=
| Ok (a : A)
| Panicked (p : panic)
| OutOfFuel.

Arguments Ok {A} a.
Arguments Panicked {A} p.
Arguments OutOfFuel {A}.

#[global] Instance result_ret : MRet result := λ A a, Ok a.
#[global] Instance result_bind : MBind result := λ A B f r,
match r with
| Ok a => f a
| Panicked p => Panicked p
| OutOfFuel => OutOfFuel
end.

Definition is_Ok {A} (r : result A) : Prop := ∃ a, r = Ok a.

(** ** The store of list items *)

(* an address is an index into the store *)
Abbreviation loc := nat (only parsing).

Section memory.
Context {N : Type}.

(* [*p], for a pointer [p] *)
Definition load (m : list N) (p : option loc) : result N :=
  match p with
  | None => Panicked NilDereference
  | Some a =>
      match m !! a with
      | Some n => Ok n
      | None => Panicked NilDereference
      end
  end.

(* [p.field = x]: the item at [p] is replaced by [f] of it *)
Definition modify (m : list N) (p : option loc) (f : N → N) : result (list N) :=
  match p with
  | None => Panicked NilDereference
  | Some a =>
      match m !! a with
      | Some n => Ok (<[a := f n]> m)
      | None => Panicked NilDereference
      end
  end.

(* [&item{...}]: a new item at a fresh address *)
Definition alloc (m : list N) (n : N) : loc * list N := (length m, m ++ [n]).
End memory.

Arguments load {N} m p : simpl never.
Arguments modify {N} m p f : simpl never.

(* [*p] for a pointer to an immutable value *)
Definition deref {A} (p : option A) : result A :=
match p with
| Some a => Ok a
| None => Panicked NilDereference
end.

(** ** Linked lists in the store

    The engines of [fifo.go], [lifo.go], [lru.go] and [ttl.go] link their
    items through a [next] field. *)

Section linked.
Context {N : Type} (next : N → option loc).

(** The list of addresses [ls] is the linked list that starts at [h] and
    ends in [nil]. *)
Fixpoint chain (m : list N) (h : option loc) (ls : list loc) : Prop :=
  match ls with
  | [] => h = None
  | p :: ls => h = Some p ∧ ∃ n, m !! p = Some n ∧ chain m (next n) ls
  end.

(** The loop of every [Stop],
    [for node != nil { ...; node, node.next = node.next, nil }]:
    [clear] is what one round does to the item it visits (it sets at
    least [next] to [nil]). *)
Fixpoint unlink (clear : N → N) (fuel : nat) (m : list N) (node : option loc)
  : result (list N) :=
  match node with
  | None => Ok m
  | Some _ =>
      match fuel with
      | O => OutOfFuel
      | S fuel =>
          n ← load m node;
          m ← modify m node clear;
          unlink clear fuel m (next n)
      end
  end.

(** The addresses met from [h] along [next], [fuel] of them at most. *)
Fixpoint walk (fuel : nat) (m : list N) (h : option loc) : list loc :=
  match fuel, h with
  | S fuel, Some p =>
      p :: match m !! p with
           | Some n => walk fuel m (next n)
           | None => []
           end
  | _, _ => []
  end.

(** No [next] link dangles. *)
Definition closed (m : list N) : Prop :=
  ∀ p n q, m !! p = Some n → next n = Some q → q < length m.

(** The number of items with a [next] link: a loop that cuts the link it
    follows ends within that many rounds, and one. *)
Definition links (m : list N) : nat :=
  length (filter (λ n, is_Some (next n)) m).
End linked.

(** What a caller can read off a linked list: the keys and the values of
    its items, from the first item on. *)

Section listing.
Context {N K V : Type}.
Context (next : N → option loc) (key : N → option K) (value : N → V).

(** The key and the value of the item at [p], if it has a key. *)
Definition entry (m : list N) (p : loc) : option (K * V) :=
  n ← m !! p; k ← key n; Some (k, value n).

(** The entries of the list that starts at [h]. *)
Definition list_entries (m : list N) (h : option loc) : list (K * V) :=
  omap (entry m) (walk next (length m) m h).
End listing.

(** ** fifo.go *)

Module FIFO.
Section fifo.
Context `{Countable K} {V E : Type} (zeroV : V).

Record fifoListItem : Type := Item {
  next : option loc;
  key : option K;
  value : V
}.

Record FIFO : Type := Cache {
  cache : gmap K loc;
  head : option loc;
  tail : option loc;
  capacity : Z;
  stopped : N;
  mem : list fifoListItem
}.

Definition zeroItem : fifoListItem :=
  {| next := None; key := None; value := zeroV |}.

Definition with_next (x : option loc) (n : fifoListItem) : fifoListItem :=
  {| next := x; key := key n; value := value n |}.

Definition with_value (v : V) (n : fifoListItem) : fifoListItem :=
  {| next := next n; key := key n; value := v |}.

Definition NewFIFO (capacity : Z) : result FIFO :=
  if (capacity <=? 0)%Z then Panicked CapacityNotPositive
  else Ok {| cache := ∅; head := None; tail := None;
             capacity := capacity; stopped := 0; mem := [] |}.

Definition isStopped (l : FIFO) : bool := (stopped l =? 1)%N.

Definition get (l : FIFO) (k : K) : result ((V * bool) * FIFO) :=
  if isStopped l then Panicked CacheStopped
  else match cache l !! k with
       | None => Ok ((zeroV, false), l)
       | Some node => n ← load (mem l) (Some node); Ok ((value n, true), l)
       end.

(* the [if int64(len(l.cache)) >= l.capacity { ... }] block of [set] *)
Definition evict (l : FIFO) : result FIFO :=
  if (capacity l <=? Z.of_nat (size (cache l)))%Z then
    hd ← load (mem l) (head l);
    k ← deref (key hd);
    m ← modify (mem l) (head l) (λ _, zeroItem);
    Ok {| cache := delete k (cache l); head := next hd; tail := tail l;
          capacity := capacity l; stopped := stopped l; mem := m |}
  else Ok l.

(* the rest of [set], from [node, ok := l.cache[key]] on *)
Definition store (l : FIFO) (k : K) (val : V) : result FIFO :=
  match cache l !! k with
  | None =>
      let '(node, m) := alloc (mem l) {| next := None; key := Some k; value := zeroV |} in
      m ← match tail l with
          | Some _ => modify m (tail l) (with_next (Some node))
          | None => Ok m
          end;
      let hd := match head l with None => Some node | Some h => Some h end in
      m ← modify m (Some node) (with_value val);
      Ok {| cache := <[k := node]> (cache l); head := hd; tail := Some node;
            capacity := capacity l; stopped := stopped l; mem := m |}
  | Some node =>
      m ← modify (mem l) (Some node) (with_value val);
      Ok {| cache := cache l; head := head l; tail := tail l;
            capacity := capacity l; stopped := stopped l; mem := m |}
  end.

Definition set (l : FIFO) (k : K) (val : V) : result FIFO :=
  if isStopped l then Panicked CacheStopped
  else l ← evict l; store l k val.

Definition FetchFunc : Type := unit → V * option E.

Definition Fetch (l : FIFO) (k : K) (fn : FetchFunc)
  : result ((V * option E) * FIFO) :=
  if isStopped l then Panicked CacheStopped
  else
    '((v, ok), l) ← get l k;
    if ok : bool then Ok ((v, None), l)
    else
      let '(v, err) := fn () in
      match err with
      | Some e => Ok ((zeroV, Some e), l)
      | None => l ← set l k v; Ok ((v, None), l)
      end.

(* The loop [for node != nil { node.key = zeroK; node.value = zeroV;
   node, node.next = node.next, nil }] visits at most every item of the
   store once, since it cuts the link it follows. *)
Definition Stop (l : FIFO) : result FIFO :=
  if (stopped l =? 0)%N then
    m ← unlink next (λ _, zeroItem) (S (length (mem l))) (mem l) (head l);
    Ok {| cache := ∅; head := None; tail := None;
          capacity := capacity l; stopped := 1; mem := m |}
  else Ok l.

(** Representation invariant: the index and the linked list [ls] hold the
    same entries, the tail pointer is the last item of a non-empty list,
    and the index is within capacity. *)
Record wf (l : FIFO) (ls : list loc) : Prop := Wf {
  wf_chain : chain next (mem l) (head l) ls;
  wf_last : ls ≠ [] → tail l = last ls;
  wf_tail : ∀ t, tail l = Some t → t < length (mem l);
  wf_nodup : NoDup ls;
  wf_key : ∀ p, p ∈ ls →
    ∃ n k, mem l !! p = Some n ∧ key n = Some k ∧ cache l !! k = Some p;
  wf_cache : ∀ k p, cache l !! k = Some p →
    p ∈ ls ∧ ∃ n, mem l !! p = Some n ∧ key n = Some k;
  wf_capacity : (0 < capacity l)%Z;
  wf_size : (Z.of_nat (size (cache l)) ≤ capacity l)%Z
}.

(** The stopped flag is 0 or 1, and a stopped cache is empty. *)
Definition stop_inv (l : FIFO) : Prop :=
  stopped l = 0%N ∨
  (stopped l = 1%N ∧ cache l = ∅ ∧ head l = None ∧ tail l = None).

Definition inv (l : FIFO) : Prop := stop_inv l ∧ ∃ ls, wf l ls.

(** The states a program can observe: built by [NewFIFO], then changed
    by [set], [get] and [Stop] ([Fetch] is a [get] and maybe a [set]). *)
Inductive reachable : FIFO → Prop :=
| reach_new c l : NewFIFO c = Ok l → reachable l
| reach_set l k v l' : reachable l → set l k v = Ok l' → reachable l'
| reach_get l k r l' : reachable l → get l k = Ok (r, l') → reachable l'
| reach_stop l l' : reachable l → Stop l = Ok l' → reachable l'.

(** [Set] after [Set]: the run of a list of writes. *)
(** The keys of the linked list, from the head. *)
Definition order (l : FIFO) : list K :=
  omap (λ p, mem l !! p ≫= key) (walk next (length (mem l)) (mem l) (head l)).

Fixpoint sets (l : FIFO) (ops : list (K * V)) : result FIFO :=
  match ops with
  | [] => Ok l
  | (k, v) :: ops => l ← set l k v; sets l ops
  end.

(** The entries of the cache, from the head of the list. *)
Definition entries (l : FIFO) : list (K * V) :=
  list_entries next key value (mem l) (head l).

End fifo.

Arguments fifoListItem : clear implicits.
Arguments FIFO K {_ _} V.
Arguments FetchFunc : clear implicits.
End FIFO.


(** ** lifo.go *)

Module LIFO.
Section lifo.
Context `{Countable K} {V E : Type} (zeroV : V).

Record lifoListItem : Type := Item {
  next : option loc;
  key : option K;
  value : V
}.

Record LIFO : Type := Cache {
  cache : gmap K loc;
  head : option loc;
  capacity : Z;
  stopped : N;
  mem : list lifoListItem
}.

Definition zeroItem : lifoListItem :=
  {| next := None; key := None; value := zeroV |}.

Definition with_next (x : option loc) (n : lifoListItem) : lifoListItem :=
  {| next := x; key := key n; value := value n |}.

Definition with_value (v : V) (n : lifoListItem) : lifoListItem :=
  {| next := next n; key := key n; value := v |}.

Definition NewLIFO (capacity : Z) : result LIFO :=
  if (capacity <=? 0)%Z then Panicked CapacityNotPositive
  else Ok {| cache := ∅; head := None;
             capacity := capacity; stopped := 0; mem := [] |}.

Definition isStopped (l : LIFO) : bool := (stopped l =? 1)%N.

Definition get (l : LIFO) (k : K) : result ((V * bool) * LIFO) :=
  if isStopped l then Panicked CacheStopped
  else match cache l !! k with
       | None => Ok ((zeroV, false), l)
       | Some node => n ← load (mem l) (Some node); Ok ((value n, true), l)
       end.

(* the [if int64(len(l.cache)) >= l.capacity { ... }] block of [set] *)
Definition evict (l : LIFO) : result LIFO :=
  if (capacity l <=? Z.of_nat (size (cache l)))%Z then
    hd ← load (mem l) (head l);
    k ← deref (key hd);
    m ← modify (mem l) (head l) (λ _, zeroItem);
    Ok {| cache := delete k (cache l); head := next hd;
          capacity := capacity l; stopped := stopped l; mem := m |}
  else Ok l.

(* the rest of [set], from [node, ok := l.cache[key]] on *)
Definition store (l : LIFO) (k : K) (val : V) : result LIFO :=
  match cache l !! k with
  | None =>
      let '(node, m) := alloc (mem l) {| next := None; key := Some k; value := zeroV |} in
      m ← modify m (Some node) (with_next (head l));
      m ← modify m (Some node) (with_value val);
      Ok {| cache := <[k := node]> (cache l); head := Some node;
            capacity := capacity l; stopped := stopped l; mem := m |}
  | Some node =>
      m ← modify (mem l) (Some node) (with_value val);
      Ok {| cache := cache l; head := head l;
            capacity := capacity l; stopped := stopped l; mem := m |}
  end.

Definition set (l : LIFO) (k : K) (val : V) : result LIFO :=
  if isStopped l then Panicked CacheStopped
  else l ← evict l; store l k val.

Definition FetchFunc : Type := unit → V * option E.

Definition Fetch (l : LIFO) (k : K) (fn : FetchFunc)
  : result ((V * option E) * LIFO) :=
  if isStopped l then Panicked CacheStopped
  else
    '((v, ok), l) ← get l k;
    if ok : bool then Ok ((v, None), l)
    else
      let '(v, err) := fn () in
      match err with
      | Some e => Ok ((zeroV, Some e), l)
      | None => l ← set l k v; Ok ((v, None), l)
      end.

Definition Stop (l : LIFO) : result LIFO :=
  if (stopped l =? 0)%N then
    m ← unlink next (λ _, zeroItem) (S (length (mem l))) (mem l) (head l);
    Ok {| cache := ∅; head := None;
          capacity := capacity l; stopped := 1; mem := m |}
  else Ok l.

(** Representation invariant: the index and the linked list [ls] hold the
    same entries, and the index is within capacity. *)
Record wf (l : LIFO) (ls : list loc) : Prop := Wf {
  wf_chain : chain next (mem l) (head l) ls;
  wf_nodup : NoDup ls;
  wf_key : ∀ p, p ∈ ls →
    ∃ n k, mem l !! p = Some n ∧ key n = Some k ∧ cache l !! k = Some p;
  wf_cache : ∀ k p, cache l !! k = Some p →
    p ∈ ls ∧ ∃ n, mem l !! p = Some n ∧ key n = Some k;
  wf_capacity : (0 < capacity l)%Z;
  wf_size : (Z.of_nat (size (cache l)) ≤ capacity l)%Z
}.

Definition stop_inv (l : LIFO) : Prop :=
  stopped l = 0%N ∨ (stopped l = 1%N ∧ cache l = ∅ ∧ head l = None).

Definition inv (l : LIFO) : Prop := stop_inv l ∧ ∃ ls, wf l ls.

Inductive reachable : LIFO → Prop :=
| reach_new c l : NewLIFO c = Ok l → reachable l
| reach_set l k v l' : reachable l → set l k v = Ok l' → reachable l'
| reach_get l k r l' : reachable l → get l k = Ok (r, l') → reachable l'
| reach_stop l l' : reachable l → Stop l = Ok l' → reachable l'.

(** The keys of the linked list, from the head. *)
Definition order (l : LIFO) : list K :=
  omap (λ p, mem l !! p ≫= key) (walk next (length (mem l)) (mem l) (head l)).

Fixpoint sets (l : LIFO) (ops : list (K * V)) : result LIFO :=
  match ops with
  | [] => Ok l
  | (k, v) :: ops => l ← set l k v; sets l ops
  end.

(** The entries of the cache, from the head of the list. *)
Definition entries (l : LIFO) : list (K * V) :=
  list_entries next key value (mem l) (head l).

End lifo.

Arguments lifoListItem : clear implicits.
Arguments LIFO K {_ _} V.
Arguments FetchFunc : clear implicits.
End LIFO.

(** ** lru.go *)

Module LRU.
Section lru.
Context `{Countable K} {V E : Type} (zeroV : V).

Record lruListItem : Type := Item {
  prev : option loc;
  next : option loc;
  key : option K;
  value : V
}.

Record LRU : Type := Cache {
  cache : gmap K loc;
  head : option loc;
  tail : option loc;
  capacity : Z;
  stopped : N;
  mem : list lruListItem
}.

Definition zeroItem : lruListItem :=
  {| prev := None; next := None; key := None; value := zeroV |}.

Definition with_prev (x : option loc) (n : lruListItem) : lruListItem :=
  {| prev := x; next := next n; key := key n; value := value n |}.

Definition with_next (x : option loc) (n : lruListItem) : lruListItem :=
  {| prev := prev n; next := x; key := key n; value := value n |}.

Definition with_value (v : V) (n : lruListItem) : lruListItem :=
  {| prev := prev n; next := next n; key := key n; value := v |}.

Definition with_head (h : option loc) (l : LRU) : LRU :=
  {| cache := cache l; head := h; tail := tail l;
     capacity := capacity l; stopped := stopped l; mem := mem l |}.

Definition with_tail (t : option loc) (l : LRU) : LRU :=
  {| cache := cache l; head := head l; tail := t;
     capacity := capacity l; stopped := stopped l; mem := mem l |}.

Definition with_mem (m : list lruListItem) (l : LRU) : LRU :=
  {| cache := cache l; head := head l; tail := tail l;
     capacity := capacity l; stopped := stopped l; mem := m |}.

Definition NewLRU (capacity : Z) : result LRU :=
  if (capacity <=? 0)%Z then Panicked CapacityNotPositive
  else Ok {| cache := ∅; head := None; tail := None;
             capacity := capacity; stopped := 0; mem := [] |}.

Definition isStopped (l : LRU) : bool := (stopped l =? 1)%N.

(* the first half of [moveToTail]: the node leaves its place *)
Definition detach (l : LRU) (node : loc) : result LRU :=
  (* if node == l.head { l.head = node.next } *)
  n ← load (mem l) (Some node);
  let l := if bool_decide (head l = Some node) then with_head (next n) l else l in
  (* if node.prev != nil { node.prev.next = node.next } *)
  n ← load (mem l) (Some node);
  m ← match prev n with
      | Some _ => modify (mem l) (prev n) (with_next (next n))
      | None => Ok (mem l)
      end;
  (* if node.next != nil { node.next.prev = node.prev } *)
  n ← load m (Some node);
  m ← match next n with
      | Some _ => modify m (next n) (with_prev (prev n))
      | None => Ok m
      end;
  Ok (with_mem m l).

(* the second half of [moveToTail]: the node becomes the tail *)
Definition attach (l : LRU) (node : loc) : result LRU :=
  (* if l.tail != nil { l.tail.next = node } *)
  m ← match tail l with
      | Some _ => modify (mem l) (tail l) (with_next (Some node))
      | None => Ok (mem l)
      end;
  (* node.next = nil; node.prev = l.tail; l.tail = node *)
  m ← modify m (Some node) (with_next None);
  m ← modify m (Some node) (with_prev (tail l));
  let l := with_tail (Some node) (with_mem m l) in
  (* if l.head == nil { l.head = node } *)
  Ok (match head l with None => with_head (Some node) l | Some _ => l end).

Definition moveToTail (l : LRU) (node : loc) : result LRU :=
  if bool_decide (tail l = Some node) then Ok l
  else l ← detach l node; attach l node.

Definition get (l : LRU) (k : K) : result ((V * bool) * LRU) :=
  if isStopped l then Panicked CacheStopped
  else match cache l !! k with
       | None => Ok ((zeroV, false), l)
       | Some node =>
           l ← moveToTail l node;
           n ← load (mem l) (Some node);
           Ok ((value n, true), l)
       end.

(* the [if int64(len(l.cache)) >= l.capacity { ... }] block of [set] *)
Definition evict (l : LRU) : result LRU :=
  if (capacity l <=? Z.of_nat (size (cache l)))%Z then
    hd ← load (mem l) (head l);
    k ← deref (key hd);
    m ← modify (mem l) (head l) (λ _, zeroItem);
    m ← match next hd with
        | Some _ => modify m (next hd) (with_prev None)
        | None => Ok m
        end;
    Ok {| cache := delete k (cache l); head := next hd; tail := tail l;
          capacity := capacity l; stopped := stopped l; mem := m |}
  else Ok l.

(* the rest of [set], from [node, ok := l.cache[key]] on *)
Definition store (l : LRU) (k : K) (val : V) : result LRU :=
  '(node, l) ← match cache l !! k with
               | None =>
                   let '(node, m) :=
                     alloc (mem l)
                       {| prev := None; next := None; key := Some k; value := zeroV |} in
                   Ok (node, {| cache := <[k := node]> (cache l);
                                head := head l; tail := tail l;
                                capacity := capacity l; stopped := stopped l;
                                mem := m |})
               | Some node => Ok (node, l)
               end;
  m ← modify (mem l) (Some node) (with_value val);
  moveToTail (with_mem m l) node.

Definition set (l : LRU) (k : K) (val : V) : result LRU :=
  if isStopped l then Panicked CacheStopped
  else l ← evict l; store l k val.

Definition FetchFunc : Type := unit → V * option E.

Definition Fetch (l : LRU) (k : K) (fn : FetchFunc)
  : result ((V * option E) * LRU) :=
  if isStopped l then Panicked CacheStopped
  else
    '((v, ok), l) ← get l k;
    if ok : bool then Ok ((v, None), l)
    else
      let '(v, err) := fn () in
      match err with
      | Some e => Ok ((zeroV, Some e), l)
      | None => l ← set l k v; Ok ((v, None), l)
      end.

Definition Stop (l : LRU) : result LRU :=
  if (stopped l =? 0)%N then
    m ← unlink next (λ _, zeroItem) (S (length (mem l))) (mem l) (head l);
    Ok {| cache := ∅; head := None; tail := None;
          capacity := capacity l; stopped := 1; mem := m |}
  else Ok l.

(** The doubly linked list [ls] from [h] to [e]; [pv] is the [prev] field
    of its first item. *)
Fixpoint dllseg (m : list lruListItem) (pv h : option loc) (ls : list loc)
    (e : option loc) : Prop :=
  match ls with
  | [] => h = e
  | p :: ls =>
      h = Some p ∧ ∃ n, m !! p = Some n ∧ prev n = pv ∧ dllseg m (Some p) (next n) ls e
  end.

(* the last item of [ls], or [pv] in front of an empty list *)
Definition last_or (pv : option loc) (ls : list loc) : option loc :=
  match last ls with
  | Some p => Some p
  | None => pv
  end.

(** [m'] has the items of [m], with their keys and values: only links
    were written. *)
Definition kv_le (m m' : list lruListItem) : Prop :=
  length m' = length m ∧
  ∀ a na, m !! a = Some na →
    ∃ na', m' !! a = Some na' ∧ key na' = key na ∧ value na' = value na.

(** [m'] has the items of [m], with their keys. *)
Definition kv_key_le (m m' : list lruListItem) : Prop :=
  length m' = length m ∧
  ∀ a na, m !! a = Some na → ∃ na', m' !! a = Some na' ∧ key na' = key na.

(** Representation invariant.  The [prev] field of the head is [nil],
    except in a cache of capacity 1, where the tail pointer is not reset
    when the only item is evicted and the next item takes the evicted
    one as its [prev]. *)
Record wf (l : LRU) (ls : list loc) : Prop := Wf {
  wf_dll : ∃ pv, dllseg (mem l) pv (head l) ls None ∧ (pv = None ∨ (capacity l = 1)%Z);
  wf_last : ls ≠ [] → tail l = last ls;
  wf_empty : ls = [] → tail l = None ∨ (capacity l = 1)%Z;
  wf_tail : ∀ t, tail l = Some t → t < length (mem l);
  wf_nodup : NoDup ls;
  wf_key : ∀ p, p ∈ ls →
    ∃ n k, mem l !! p = Some n ∧ key n = Some k ∧ cache l !! k = Some p;
  wf_cache : ∀ k p, cache l !! k = Some p →
    p ∈ ls ∧ ∃ n, mem l !! p = Some n ∧ key n = Some k;
  wf_capacity : (0 < capacity l)%Z;
  wf_size : (Z.of_nat (size (cache l)) ≤ capacity l)%Z;
  wf_length : length ls = size (cache l)
}.

Definition stop_inv (l : LRU) : Prop :=
  stopped l = 0%N ∨
  (stopped l = 1%N ∧ cache l = ∅ ∧ head l = None ∧ tail l = None).

Definition inv (l : LRU) : Prop := stop_inv l ∧ ∃ ls, wf l ls.

Inductive reachable : LRU → Prop :=
| reach_new c l : NewLRU c = Ok l → reachable l
| reach_set l k v l' : reachable l → set l k v = Ok l' → reachable l'
| reach_get l k r l' : reachable l → get l k = Ok (r, l') → reachable l'
| reach_stop l l' : reachable l → Stop l = Ok l' → reachable l'.

(** The keys of the linked list, from the head. *)
Definition order (l : LRU) : list K :=
  omap (λ p, mem l !! p ≫= key) (walk next (length (mem l)) (mem l) (head l)).

Fixpoint sets (l : LRU) (ops : list (K * V)) : result LRU :=
  match ops with
  | [] => Ok l
  | (k, v) :: ops => l ← set l k v; sets l ops
  end.

(** The entries of the cache, from the head of the list. *)
Definition entries (l : LRU) : list (K * V) :=
  list_entries next key value (mem l) (head l).

End lru.

Arguments lruListItem : clear implicits.
Arguments LRU K {_ _} V.
Arguments FetchFunc : clear implicits.
End LRU.

(** ** random.go *)

Module Random.
Section random.
Context `{Countable K} {V E : Type} (zeroV : V).

Record Random : Type := Cache {
  cache : gmap K V;
  capacity : Z;
  stopped : N
}.

Definition NewRandom (capacity : Z) : result Random :=
  if (capacity <=? 0)%Z then Panicked CapacityNotPositive
  else Ok {| cache := ∅; capacity := capacity; stopped := 0 |}.

Definition isStopped (l : Random) : bool := (stopped l =? 1)%N.

Definition get (l : Random) (k : K) : result ((V * bool) * Random) :=
  if isStopped l then Panicked CacheStopped
  else match cache l !! k with
       | None => Ok ((zeroV, false), l)
       | Some v => Ok ((v, true), l)
       end.

(** Go leaves the order in which [for k := range l.cache] visits the keys
    open: any list of the keys of the map, each once, is a possible
    [order] of one [range] statement. *)
Definition range_order (m : gmap K V) (order : list K) : Prop :=
  NoDup order ∧ ∀ k, k ∈ order ↔ is_Some (m !! k).

(* [for k := range l.cache { delete(l.cache, k); break }] *)
Definition delete_first (order : list K) (m : gmap K V) : gmap K V :=
  match order with
  | [] => m
  | k :: _ => delete k m
  end.

(* the map after the [if int64(len(l.cache)) >= l.capacity { ... }] block
   of [set], for the [order] its [range] statement takes *)
Definition evicted (order : list K) (l : Random) : gmap K V :=
  if (capacity l <=? Z.of_nat (size (cache l)))%Z
  then delete_first order (cache l) else cache l.

Definition set (order : list K) (l : Random) (k : K) (val : V) : result Random :=
  if isStopped l then Panicked CacheStopped
  else Ok {| cache := <[k := val]> (evicted order l);
             capacity := capacity l; stopped := stopped l |}.

Definition FetchFunc : Type := unit → V * option E.

Definition Fetch (order : list K) (l : Random) (k : K) (fn : FetchFunc)
  : result ((V * option E) * Random) :=
  if isStopped l then Panicked CacheStopped
  else
    '((v, ok), l) ← get l k;
    if ok : bool then Ok ((v, None), l)
    else
      let '(v, err) := fn () in
      match err with
      | Some e => Ok ((zeroV, Some e), l)
      | None => l ← set order l k v; Ok ((v, None), l)
      end.

(* [for k := range l.cache { delete(l.cache, k) }; l.cache = nil]:
   a [nil] map reads as the empty map *)
Definition Stop (l : Random) : result Random :=
  if (stopped l =? 0)%N then
    Ok {| cache := ∅; capacity := capacity l; stopped := 1 |}
  else Ok l.

Definition inv (l : Random) : Prop :=
  (0 < capacity l)%Z ∧ (Z.of_nat (size (cache l)) ≤ capacity l)%Z ∧
  (stopped l = 0%N ∨ (stopped l = 1%N ∧ cache l = ∅)).

Inductive reachable : Random → Prop :=
| reach_new c l : NewRandom c = Ok l → reachable l
| reach_set l order k v l' :
    reachable l → range_order (cache l) order → set order l k v = Ok l' →
    reachable l'
| reach_get l k r l' : reachable l → get l k = Ok (r, l') → reachable l'
| reach_stop l l' : reachable l → Stop l = Ok l' → reachable l'.

(** [Set] after [Set]: the runs of a list of writes, one for every choice
    of the orders. *)
Inductive sets : Random → list (K * V) → Random → Prop :=
| sets_nil l : sets l [] l
| sets_cons l order k v l1 ops l2 :
    range_order (cache l) order → set order l k v = Ok l1 → sets l1 ops l2 →
    sets l ((k, v) :: ops) l2.

End random.

Arguments Random K {_ _} V.
Arguments FetchFunc : clear implicits.
End Random.

(** ** ttl.go

    A [time.Time] is an instant on the integer line and a [time.Duration]
    a difference of instants; an operation takes the instant [now] that
    its exported wrapper reads from the clock. *)

Module TTL.
Section ttl.
Context `{Countable K} {V E : Type} (zeroV : V).

Record ttlListItem : Type := Item {
  next : option loc;
  key : option K;
  value : V;
  expiresAt : option Z
}.

Record TTL : Type := Cache {
  cache : gmap K loc;
  head : option loc;
  tail : option loc;
  ttl : Z;
  stopped : N;
  mem : list ttlListItem
}.

Definition zeroItem : ttlListItem :=
  {| next := None; key := None; value := zeroV; expiresAt := None |}.

Definition with_next (x : option loc) (n : ttlListItem) : ttlListItem :=
  {| next := x; key := key n; value := value n; expiresAt := expiresAt n |}.

Definition with_value (v : V) (n : ttlListItem) : ttlListItem :=
  {| next := next n; key := key n; value := v; expiresAt := expiresAt n |}.

Definition with_expiresAt (e : option Z) (n : ttlListItem) : ttlListItem :=
  {| next := next n; key := key n; value := value n; expiresAt := e |}.

(* [v.key = nil; v.value = zeroV; v.expiresAt = nil] *)
Definition neutralize (n : ttlListItem) : ttlListItem :=
  {| next := next n; key := None; value := zeroV; expiresAt := None |}.

(* [node.key = zeroK; node.value = zeroV; node.next = nil] *)
Definition clear (n : ttlListItem) : ttlListItem :=
  {| next := None; key := None; value := zeroV; expiresAt := expiresAt n |}.

(* The sweeper that [NewTTL] starts is [sweep], below: one call for every
   tick. *)
Definition NewTTL (ttl : Z) : result TTL :=
  if (ttl <=? 0)%Z then Panicked TTLNotPositive
  else Ok {| cache := ∅; head := None; tail := None;
             ttl := ttl; stopped := 0; mem := [] |}.

Definition isStopped (l : TTL) : bool := (stopped l =? 1)%N.

(* [t.Before(u)] and [t.After(u)] *)
Definition Before (t u : Z) : bool := (t <? u)%Z.
Definition After (t u : Z) : bool := (u <? t)%Z.

Definition get (l : TTL) (k : K) (now : Z) : result ((V * bool) * TTL) :=
  if isStopped l then Panicked CacheStopped
  else match cache l !! k with
       | None => Ok ((zeroV, false), l)
       | Some v =>
           n ← load (mem l) (Some v);
           e ← deref (expiresAt n);
           if Before e now then Ok ((zeroV, false), l)
           else Ok ((value n, true), l)
       end.

Definition set (l : TTL) (k : K) (val : V) (now : Z) : result TTL :=
  if isStopped l then Panicked CacheStopped
  else
    let '(node, c, m) :=
      match cache l !! k with
      | None =>
          let '(node, m) :=
            alloc (mem l)
              {| next := None; key := Some k; value := zeroV; expiresAt := None |} in
          (node, <[k := node]> (cache l), m)
      | Some node => (node, cache l, mem l)
      end in
    m ← modify m (Some node) (with_value val);
    m ← modify m (Some node) (with_expiresAt (Some (now + ttl l)%Z));
    (* if l.head == nil { l.head = node } *)
    let hd := match head l with None => Some node | Some h => Some h end in
    (* if l.tail != nil { l.tail.next = node } *)
    m ← match tail l with
        | Some _ => modify m (tail l) (with_next (Some node))
        | None => Ok m
        end;
    Ok {| cache := c; head := hd; tail := Some node;
          ttl := ttl l; stopped := stopped l; mem := m |}.

Definition FetchFunc : Type := unit → V * option E.

Definition Fetch (l : TTL) (k : K) (fn : FetchFunc) (now : Z)
  : result ((V * option E) * TTL) :=
  if isStopped l then Panicked CacheStopped
  else
    '((v, ok), l) ← get l k now;
    if ok : bool then Ok ((v, None), l)
    else
      let '(v, err) := fn () in
      match err with
      | Some e => Ok ((zeroV, Some e), l)
      | None => l ← set l k v now; Ok ((v, None), l)
      end.

(* [for k, v := range l.cache { v.key = nil; v.value = zeroV;
   v.expiresAt = nil; delete(l.cache, k) }]: the items of the index are
   neutralized, in the order [ps] of the range statement *)
Fixpoint neutralize_all (m : list ttlListItem) (ps : list loc)
  : result (list ttlListItem) :=
  match ps with
  | [] => Ok m
  | p :: ps => m ← modify m (Some p) neutralize; neutralize_all m ps
  end.

Definition Stop (l : TTL) : result TTL :=
  if (stopped l =? 0)%N then
    m ← neutralize_all (mem l) (map_to_list (cache l)).*2;
    m ← unlink next clear (S (length m)) m (head l);
    Ok {| cache := ∅; head := None; tail := None;
          ttl := ttl l; stopped := 1; mem := m |}
  else Ok l.

(* the loop of the sweeper: from the head, every item that does not
   expire after [now] leaves the index and the list *)
Fixpoint sweep_loop (fuel : nat) (c : gmap K loc) (m : list ttlListItem)
    (node : option loc) (now : Z)
  : result (gmap K loc * list ttlListItem * option loc) :=
  match node with
  | None => Ok (c, m, None)
  | Some _ =>
      match fuel with
      | O => OutOfFuel
      | S fuel =>
          n ← load m node;
          e ← deref (expiresAt n);
          if After e now then Ok (c, m, node)
          else
            k ← deref (key n);
            m ← modify m node (λ _, zeroItem);
            sweep_loop fuel (delete k c) m (next n) now
      end
  end.

(* what the sweeper does at one tick, under the lock *)
Definition sweep (l : TTL) (now : Z) : result TTL :=
  '(c, m, node) ← sweep_loop (S (length (mem l))) (cache l) (mem l) (head l) now;
  Ok {| cache := c; head := node;
        tail := match node with None => None | Some _ => tail l end;
        ttl := ttl l; stopped := stopped l; mem := m |}.

(** Invariant of the index [c] and the store [m]: an item is neutral or
    is the item of its key in the index; the index points to live items;
    no link dangles. *)
Record heap_inv (c : gmap K loc) (m : list ttlListItem) : Prop := HeapInv {
  inv_item : ∀ p n, m !! p = Some n →
    (key n = None ∧ expiresAt n = None) ∨
    (∃ k e, key n = Some k ∧ expiresAt n = Some e ∧ c !! k = Some p);
  inv_cache : ∀ k p, c !! k = Some p →
    ∃ n e, m !! p = Some n ∧ key n = Some k ∧ expiresAt n = Some e;
  inv_closed : closed next m
}.

Record wf (l : TTL) : Prop := Wf {
  wf_heap : heap_inv (cache l) (mem l);
  wf_head : ∀ p, head l = Some p → p < length (mem l);
  wf_tail : ∀ p, tail l = Some p → p < length (mem l);
  wf_ttl : (0 < ttl l)%Z;
  wf_stopped : stopped l = 0%N ∨
    (stopped l = 1%N ∧ cache l = ∅ ∧ head l = None ∧ tail l = None)
}.

(** A key is missing at [now]: it is not in the index, or the expiry of
    its entry is before [now]. *)
Definition missing (l : TTL) (k : K) (now : Z) : Prop :=
  cache l !! k = None ∨
  ∃ p n e, cache l !! k = Some p ∧ mem l !! p = Some n ∧
    expiresAt n = Some e ∧ (e < now)%Z.

Inductive reachable : TTL → Prop :=
| reach_new d l : NewTTL d = Ok l → reachable l
| reach_set l k v now l' : reachable l → set l k v now = Ok l' → reachable l'
| reach_get l k now r l' : reachable l → get l k now = Ok (r, l') → reachable l'
| reach_sweep l now l' : reachable l → sweep l now = Ok l' → reachable l'
| reach_stop l l' : reachable l → Stop l = Ok l' → reachable l'.

(** The expiry of the item at [p]. *)
Definition expiry (m : list ttlListItem) (p : loc) : option Z :=
  n ← m !! p; expiresAt n.

(** The keys and the expiries of the list, from the head. *)
Definition expiries (l : TTL) : list (K * option Z) :=
  list_entries next key expiresAt (mem l) (head l).

(** The runs in which the instants of the writes do not decrease and no
    write is to a key of the index; [t] is the instant of the last
    write. *)
Inductive in_order : Z → TTL → Prop :=
| order_new d l t : NewTTL d = Ok l → in_order t l
| order_set t l k v now l' :
    in_order t l → (t ≤ now)%Z → cache l !! k = None →
    set l k v now = Ok l' → in_order now l'
| order_get t l k now r l' :
    in_order t l → get l k now = Ok (r, l') → in_order t l'
| order_sweep t l now l' : in_order t l → sweep l now = Ok l' → in_order t l'
| order_stop t l l' : in_order t l → Stop l = Ok l' → in_order t l'.

(** Invariant of these runs: the list [ls] from the head ends in [nil] at
    the tail, holds the items of the index, and is in the order of the
    expiries, none of them after [t + ttl]. *)
Record ordered (l : TTL) (t : Z) (ls : list loc) : Prop := Ordered {
  ord_chain : chain next (mem l) (head l) ls;
  ord_last : tail l = last ls;
  ord_nodup : NoDup ls;
  ord_item : ∀ p, p ∈ ls →
    ∃ n k e, mem l !! p = Some n ∧ key n = Some k ∧ expiresAt n = Some e ∧
      cache l !! k = Some p ∧ (e ≤ t + ttl l)%Z;
  ord_cache : ∀ k p, cache l !! k = Some p →
    p ∈ ls ∧ ∃ n, mem l !! p = Some n ∧ key n = Some k;
  ord_sorted : ∀ i j p q e1 e2, i ≤ j → ls !! i = Some p → ls !! j = Some q →
    expiry (mem l) p = Some e1 → expiry (mem l) q = Some e2 → (e1 ≤ e2)%Z;
  ord_ttl : (0 < ttl l)%Z
}.

End ttl.

Arguments ttlListItem : clear implicits.
Arguments TTL K {_ _} V.
Arguments FetchFunc : clear implicits.
End TTL.

(** ** The heap-ordered TTL engine

    The second engine of the TTL policy in the sources: the same index,
    with a binary heap of the items in place of the linked list.
    [heap_Push], [heap_Pop], [up] and [down] are those of Go's
    [container/heap], over the methods [Len], [Less], [Swap], [Push] and
    [Pop] that the engine gives its heap. *)

Module TTLHeap.
Section ttlheap.
Context `{Countable K} {V E : Type} (zeroV : V).

Record ttlItem : Type := Item {
  key : option K;
  value : V;
  expiresAt : option Z
}.

Record TTL : Type := Cache {
  cache : gmap K loc;
  heap : list loc;
  ttl : Z;
  stopped : N;
  mem : list ttlItem
}.

Definition zeroItem : ttlItem :=
  {| key := None; value := zeroV; expiresAt := None |}.

Definition NewTTL (ttl : Z) : result TTL :=
  if (ttl <=? 0)%Z then Panicked TTLNotPositive
  else Ok {| cache := ∅; heap := []; ttl := ttl; stopped := 0; mem := [] |}.

Definition isStopped (l : TTL) : bool := (stopped l =? 1)%N.

Definition Before (t u : Z) : bool := (t <? u)%Z.

(* [h[i]] *)
Definition index (h : list loc) (i : nat) : result loc :=
  match h !! i with
  | Some p => Ok p
  | None => Panicked IndexOutOfRange
  end.

(* [h[i].expiresAt.Before( *h[j].expiresAt)] *)
Definition Less (m : list ttlItem) (h : list loc) (i j : nat) : result bool :=
  pi ← index h i;
  ni ← load m (Some pi);
  pj ← index h j;
  nj ← load m (Some pj);
  ej ← deref (expiresAt nj);
  ei ← deref (expiresAt ni);
  Ok (Before ei ej).

(* [h[i], h[j] = h[j], h[i]] *)
Definition Swap (h : list loc) (i j : nat) : result (list loc) :=
  pi ← index h i;
  pj ← index h j;
  Ok (<[j := pi]> (<[i := pj]> h)).

(* [ttlHeap.Pop], without the item it returns *)
Definition Pop (h : list loc) : list loc :=
  match h with
  | [] => []
  | _ => removelast h
  end.

Definition Peek (h : list loc) : option loc := h !! 0.

(* container/heap: [for { i := (j - 1) / 2; if i == j || !h.Less(j, i)
   { break }; h.Swap(i, j); j = i }]; in Go [(0 - 1) / 2] is [0] *)
Fixpoint up (fuel : nat) (m : list ttlItem) (h : list loc) (j : nat)
  : result (list loc) :=
  match fuel with
  | O => OutOfFuel
  | S fuel =>
      let i := (j - 1) / 2 in
      if bool_decide (i = j) then Ok h
      else
        b ← Less m h j i;
        if negb b then Ok h
        else h ← Swap h i j; up fuel m h i
  end.

(* container/heap: [for { j1 := 2*i + 1; if j1 >= n || j1 < 0 { break };
   j := j1; if j2 := j1 + 1; j2 < n && h.Less(j2, j1) { j = j2 };
   if !h.Less(j, i) { break }; h.Swap(i, j); i = j }] *)
Fixpoint down (fuel : nat) (m : list ttlItem) (h : list loc) (i n : nat)
  : result (list loc) :=
  match fuel with
  | O => OutOfFuel
  | S fuel =>
      let j1 := 2 * i + 1 in
      if bool_decide (n ≤ j1) then Ok h
      else
        let j2 := j1 + 1 in
        b ← (if bool_decide (j2 < n) then Less m h j2 j1 else Ok false);
        let j := if b : bool then j2 else j1 in
        b ← Less m h j i;
        if negb b then Ok h
        else h ← Swap h i j; down fuel m h j n
  end.

(* container/heap: [h.Push(x); up(h, h.Len()-1)] *)
Definition heap_Push (m : list ttlItem) (h : list loc) (x : loc)
  : result (list loc) :=
  let h := h ++ [x] in
  up (length h) m h (length h - 1).

(* container/heap: [n := h.Len() - 1; h.Swap(0, n); down(h, 0, n);
   return h.Pop()] *)
Definition heap_Pop (m : list ttlItem) (h : list loc) : result (list loc) :=
  match length h with
  | O => Panicked IndexOutOfRange
  | S n => h ← Swap h 0 n; h ← down (S n) m h 0 n; Ok (Pop h)
  end.

Definition get (l : TTL) (k : K) (now : Z) : result ((V * bool) * TTL) :=
  if isStopped l then Panicked CacheStopped
  else match cache l !! k with
       | None => Ok ((zeroV, false), l)
       | Some v =>
           n ← load (mem l) (Some v);
           e ← deref (expiresAt n);
           if Before e now then Ok ((zeroV, false), l)
           else Ok ((value n, true), l)
       end.

Definition set (l : TTL) (k : K) (val : V) (now : Z) : result TTL :=
  if isStopped l then Panicked CacheStopped
  else
    (* Allow existing TTL item to be garbage collected. *)
    m ← match cache l !! k with
        | Some v => modify (mem l) (Some v) (λ _, zeroItem)
        | None => Ok (mem l)
        end;
    let '(item, m) :=
      alloc m {| key := Some k; value := val;
                 expiresAt := Some (now + ttl l)%Z |} in
    h ← heap_Push m (heap l) item;
    Ok {| cache := <[k := item]> (cache l); heap := h;
          ttl := ttl l; stopped := stopped l; mem := m |}.

Definition FetchFunc : Type := unit → V * option E.

Definition Fetch (l : TTL) (k : K) (fn : FetchFunc) (now : Z)
  : result ((V * option E) * TTL) :=
  if isStopped l then Panicked CacheStopped
  else
    '((v, ok), l) ← get l k now;
    if ok : bool then Ok ((v, None), l)
    else
      let '(v, err) := fn () in
      match err with
      | Some e => Ok ((zeroV, Some e), l)
      | None => l ← set l k v now; Ok ((v, None), l)
      end.

(* [for k, v := range l.cache { v.key = nil; v.value = zeroV;
   v.expiresAt = nil; delete(l.cache, k) }] *)
Fixpoint neutralize_all (m : list ttlItem) (ps : list loc)
  : result (list ttlItem) :=
  match ps with
  | [] => Ok m
  | p :: ps => m ← modify m (Some p) (λ _, zeroItem); neutralize_all m ps
  end.

(* [item := l.heap.Pop(); for item != nil { item = l.heap.Pop() }] *)
Fixpoint drain (fuel : nat) (h : list loc) : result (list loc) :=
  match h with
  | [] => Ok []
  | _ =>
      match fuel with
      | O => OutOfFuel
      | S fuel => drain fuel (Pop h)
      end
  end.

Definition Stop (l : TTL) : result TTL :=
  if (stopped l =? 0)%N then
    m ← neutralize_all (mem l) (map_to_list (cache l)).*2;
    h ← drain (length (heap l)) (heap l);
    Ok {| cache := ∅; heap := h; ttl := ttl l; stopped := 1; mem := m |}
  else Ok l.

(* the loop of the sweeper *)
Fixpoint sweep_loop (fuel : nat) (c : gmap K loc) (h : list loc)
    (m : list ttlItem) (now : Z)
  : result (gmap K loc * list loc * list ttlItem) :=
  match Peek h with
  | None => Ok (c, h, m)
  | Some item =>
      match fuel with
      | O => OutOfFuel
      | S fuel =>
          n ← load m (Some item);
          e ← deref (expiresAt n);
          if Before e now then
            h ← heap_Pop m h;
            k ← deref (key n);
            m ← modify m (Some item) (λ _, zeroItem);
            sweep_loop fuel (delete k c) h m now
          else Ok (c, h, m)
      end
  end.

(* what the sweeper does at one tick, under the lock *)
Definition sweep (l : TTL) (now : Z) : result TTL :=
  '(c, h, m) ← sweep_loop (length (heap l)) (cache l) (heap l) (mem l) now;
  Ok {| cache := c; heap := h; ttl := ttl l; stopped := stopped l; mem := m |}.

(** Invariant: an item is neutral or is the item of its key in the index;
    the index points to live items; the heap holds items of the store. *)
Record wf (l : TTL) : Prop := Wf {
  wf_item : ∀ p n, mem l !! p = Some n →
    (key n = None ∧ expiresAt n = None) ∨
    (∃ k e, key n = Some k ∧ expiresAt n = Some e ∧ cache l !! k = Some p);
  wf_cache : ∀ k p, cache l !! k = Some p →
    ∃ n e, mem l !! p = Some n ∧ key n = Some k ∧ expiresAt n = Some e;
  wf_heap : ∀ p, p ∈ heap l → p < length (mem l);
  wf_ttl : (0 < ttl l)%Z;
  wf_stopped : stopped l = 0%N ∨ (stopped l = 1%N ∧ cache l = ∅ ∧ heap l = [])
}.

(** A key is missing at [now]: it is not in the index, or the expiry of
    its entry is before [now]. *)
Definition missing (l : TTL) (k : K) (now : Z) : Prop :=
  cache l !! k = None ∨
  ∃ p n e, cache l !! k = Some p ∧ mem l !! p = Some n ∧
    expiresAt n = Some e ∧ (e < now)%Z.

Inductive reachable : TTL → Prop :=
| reach_new d l : NewTTL d = Ok l → reachable l
| reach_set l k v now l' : reachable l → set l k v now = Ok l' → reachable l'
| reach_get l k now r l' : reachable l → get l k now = Ok (r, l') → reachable l'
| reach_sweep l now l' : reachable l → sweep l now = Ok l' → reachable l'
| reach_stop l l' : reachable l → Stop l = Ok l' → reachable l'.

(** The runs in which no write is to a key of the index. *)
Inductive write_once : TTL → Prop :=
| once_new d l : NewTTL d = Ok l → write_once l
| once_set l k v now l' :
    write_once l → cache l !! k = None → set l k v now = Ok l' → write_once l'
| once_get l k now r l' : write_once l → get l k now = Ok (r, l') → write_once l'
| once_sweep l now l' : write_once l → sweep l now = Ok l' → write_once l'
| once_stop l l' : write_once l → Stop l = Ok l' → write_once l'.

(** The expiry of the item at [p]. *)
Definition expiry (m : list ttlItem) (p : loc) : option Z :=
  n ← m !! p; expiresAt n.

(** The expiry of the item at the index [a] of the heap. *)
Definition expiry_at (m : list ttlItem) (h : list loc) (a : nat) : Z :=
  default 0%Z (p ← h !! a; expiry m p).

(** The heap order of the first [n] items: no item expires before its
    parent. *)
Definition heap_ordered (m : list ttlItem) (h : list loc) (n : nat) : Prop :=
  ∀ a, 0 < a < n → (expiry_at m h ((a - 1) / 2) ≤ expiry_at m h a)%Z.

(** Invariant of these runs: the heap holds the items of the index, each
    once, in heap order. *)
Record tidy (c : gmap K loc) (h : list loc) (m : list ttlItem) : Prop := Tidy {
  tidy_nodup : NoDup h;
  tidy_item : ∀ p, p ∈ h →
    ∃ n k e, m !! p = Some n ∧ key n = Some k ∧ expiresAt n = Some e ∧
      c !! k = Some p;
  tidy_cache : ∀ k p, c !! k = Some p →
    p ∈ h ∧ ∃ n, m !! p = Some n ∧ key n = Some k;
  tidy_order : heap_ordered m h (length h)
}.

End ttlheap.

Arguments ttlItem : clear implicits.
Arguments TTL K {_ _} V.
Arguments FetchFunc : clear implicits.
End TTLHeap.

(** * The scenarios of the specification

    Caches of strings and numbers, the runs the specification names, and
    what a caller can observe of a run. *)

Module Scenario.

Definition fifo_new : FIFO.FIFO string nat :=
  {| FIFO.cache := ∅; FIFO.head := None; FIFO.tail := None;
     FIFO.capacity := 2; FIFO.stopped := 0; FIFO.mem := [] |}.

Definition lifo_new : LIFO.LIFO string nat :=
  {| LIFO.cache := ∅; LIFO.head := None;
     LIFO.capacity := 2; LIFO.stopped := 0; LIFO.mem := [] |}.

Definition lru_new : LRU.LRU string nat :=
  {| LRU.cache := ∅; LRU.head := None; LRU.tail := None;
     LRU.capacity := 3; LRU.stopped := 0; LRU.mem := [] |}.

Definition random_new : Random.Random string nat :=
  {| Random.cache := ∅; Random.capacity := 2; Random.stopped := 0 |}.

Definition ttl_new : TTL.TTL string nat :=
  {| TTL.cache := ∅; TTL.head := None; TTL.tail := None;
     TTL.ttl := 10; TTL.stopped := 0; TTL.mem := [] |}.

Definition heap_new : TTLHeap.TTL string nat :=
  {| TTLHeap.cache := ∅; TTLHeap.heap := [];
     TTLHeap.ttl := 10; TTLHeap.stopped := 0; TTLHeap.mem := [] |}.

(* a TTL of 10 with the key "a" written at the instant 0 *)
Definition ttl_a : TTL.TTL string nat :=
  {| TTL.cache := {["a" := 0]}; TTL.head := Some 0; TTL.tail := Some 0;
     TTL.ttl := 10; TTL.stopped := 0;
     TTL.mem := [{| TTL.next := None; TTL.key := Some "a"; TTL.value := 1;
                    TTL.expiresAt := Some 10%Z |}] |}.

Definition heap_a : TTLHeap.TTL string nat :=
  {| TTLHeap.cache := {["a" := 0]}; TTLHeap.heap := [0];
     TTLHeap.ttl := 10; TTLHeap.stopped := 0;
     TTLHeap.mem := [{| TTLHeap.key := Some "a"; TTLHeap.value := 1;
                        TTLHeap.expiresAt := Some 10%Z |}] |}.

(* an LRU of capacity 3 with "a" then "b" written *)
Definition lru_ab : LRU.LRU string nat :=
  {| LRU.cache := {["a" := 0; "b" := 1]}; LRU.head := Some 0; LRU.tail := Some 1;
     LRU.capacity := 3; LRU.stopped := 0;
     LRU.mem := [{| LRU.prev := None; LRU.next := Some 1;
                    LRU.key := Some "a"; LRU.value := 1 |};
                 {| LRU.prev := Some 0; LRU.next := None;
                    LRU.key := Some "b"; LRU.value := 2 |}] |}.

(* a FIFO of capacity 2 with "a" then "b" written *)
Definition fifo_full : FIFO.FIFO string nat :=
  {| FIFO.cache := {["a" := 0; "b" := 1]}; FIFO.head := Some 0; FIFO.tail := Some 1;
     FIFO.capacity := 2; FIFO.stopped := 0;
     FIFO.mem := [{| FIFO.next := Some 1; FIFO.key := Some "a"; FIFO.value := 1 |};
                  {| FIFO.next := None; FIFO.key := Some "b"; FIFO.value := 2 |}] |}.

(* a LIFO of capacity 2 with "a" then "b" written *)
Definition lifo_full : LIFO.LIFO string nat :=
  {| LIFO.cache := {["a" := 0; "b" := 1]}; LIFO.head := Some 1;
     LIFO.capacity := 2; LIFO.stopped := 0;
     LIFO.mem := [{| LIFO.next := None; LIFO.key := Some "a"; LIFO.value := 1 |};
                  {| LIFO.next := Some 0; LIFO.key := Some "b"; LIFO.value := 2 |}] |}.

(* a Random cache of capacity 2 with "a" and "b" written *)
Definition random_full : Random.Random string nat :=
  {| Random.cache := {["a" := 1; "b" := 2]}; Random.capacity := 2;
     Random.stopped := 0 |}.

(* a TTL of 10 with "a" written at the instant 0 and "b" at the instant 1 *)
Definition ttl_ab : TTL.TTL string nat :=
  {| TTL.cache := {["a" := 0; "b" := 1]}; TTL.head := Some 0; TTL.tail := Some 1;
     TTL.ttl := 10; TTL.stopped := 0;
     TTL.mem := [{| TTL.next := Some 1; TTL.key := Some "a"; TTL.value := 1;
                    TTL.expiresAt := Some 10%Z |};
                 {| TTL.next := None; TTL.key := Some "b"; TTL.value := 2;
                    TTL.expiresAt := Some 11%Z |}] |}.

(* the TTL of 10 after "a" at 0, "b" at 1 and "a" again at 5: the list
   from the head is a cycle *)
Definition ttl_cycle : TTL.TTL string nat :=
  {| TTL.cache := {["a" := 0; "b" := 1]}; TTL.head := Some 0; TTL.tail := Some 0;
     TTL.ttl := 10; TTL.stopped := 0;
     TTL.mem := [{| TTL.next := Some 1; TTL.key := Some "a"; TTL.value := 3;
                    TTL.expiresAt := Some 15%Z |};
                 {| TTL.next := Some 0; TTL.key := Some "b"; TTL.value := 2;
                    TTL.expiresAt := Some 11%Z |}] |}.

(* the heap-ordered TTL of 10 with "a" written at the instant 5 and then
   "b" at the instant 1 *)
Definition heap_ba : TTLHeap.TTL string nat :=
  {| TTLHeap.cache := {["a" := 0; "b" := 1]}; TTLHeap.heap := [1; 0];
     TTLHeap.ttl := 10; TTLHeap.stopped := 0;
     TTLHeap.mem := [{| TTLHeap.key := Some "a"; TTLHeap.value := 1;
                        TTLHeap.expiresAt := Some 15%Z |};
                     {| TTLHeap.key := Some "b"; TTLHeap.value := 2;
                        TTLHeap.expiresAt := Some 11%Z |}] |}.

(* a compute function that succeeds *)
Definition fetching : FIFO.FetchFunc nat string := λ _, (5, None).

(* a compute function that fails *)
Definition failing : FIFO.FetchFunc nat string := λ _, (5, Some "boom").

(* FIFO and LIFO of capacity 2 after [Set("a", 1); Set("b", 2)] *)
Definition fifo_ab : result (FIFO.FIFO string nat) :=
  l ← FIFO.NewFIFO 2; FIFO.sets 0 l [("a", 1); ("b", 2)].

Definition lifo_ab : result (LIFO.LIFO string nat) :=
  l ← LIFO.NewLIFO 2; LIFO.sets 0 l [("a", 1); ("b", 2)].


(* TTL of 10 after [Set("a")] at 0, [Set("b")] at 1 and [Set("a")] at 5 *)
Definition ttl_aba : result (TTL.TTL string nat) :=
  l ← TTL.NewTTL 10;
  l ← TTL.set 0 l "a" 1 0;
  l ← TTL.set 0 l "b" 2 1;
  TTL.set 0 l "a" 3 5.

(* heap-ordered TTL of 10 after [Set("a")] at 0, [Set("b")] at 1 and
   [Set("b")] at 2 *)
Definition heap_abb : result (TTLHeap.TTL string nat) :=
  l ← TTLHeap.NewTTL 10;
  l ← TTLHeap.set 0 l "a" 1 0;
  l ← TTLHeap.set 0 l "b" 2 1;
  TTLHeap.set 0 l "b" 3 2.

(* heap-ordered TTL of 10 after [Set("a")] at 0 and [Set("a")] at 1 *)
Definition heap_aa : result (TTLHeap.TTL string nat) :=
  l ← TTLHeap.NewTTL 10;
  l ← TTLHeap.set 0 l "a" 1 0;
  TTLHeap.set 0 l "a" 2 1.

(* what [Get] answers *)
Definition fifo_get (r : result (FIFO.FIFO string nat)) (k : string)
  : result (nat * bool) :=
  l ← r; '(x, _) ← FIFO.get 0 l k; Ok x.

Definition lifo_get (r : result (LIFO.LIFO string nat)) (k : string)
  : result (nat * bool) :=
  l ← r; '(x, _) ← LIFO.get 0 l k; Ok x.


(* the expiries met from the head of the list of a TTL, [n] of them *)
Definition ttl_expiries (n : nat) (l : TTL.TTL string nat) : list (option Z) :=
  (λ p, TTL.mem l !! p ≫= TTL.expiresAt)
    <$> walk TTL.next n (TTL.mem l) (TTL.head l).

(* the keys of the items of the heap *)
Definition heap_keys (l : TTLHeap.TTL string nat) : list (option string) :=
  (λ p, TTLHeap.mem l !! p ≫= TTLHeap.key) <$> TTLHeap.heap l.

End Scenario.

(** * Facts *)

(** ** Outcomes and the store *)

Lemma bind_Ok {A B} (r : result A) (f : A → result B) (b : B) :
  r ≫= f = Ok b ↔ ∃ a, r = Ok a ∧ f a = Ok b.
Proof.
  destruct r as [a| |]; simpl; split; try (intros [? [? ?]]); try discriminate; eauto.
  intros; simplify_eq; done.
Qed.

Lemma bind_ret {A B} (a : A) (f : A → result B) : Ok a ≫= f = f a.
Proof. done. Qed.

Lemma load_Some {N} (m : list N) a n : m !! a = Some n → load m (Some a) = Ok n.
Proof. intros Hm. unfold load. by rewrite Hm. Qed.

Lemma load_Ok {N} (m : list N) p n :
  load m p = Ok n ↔ ∃ a, p = Some a ∧ m !! a = Some n.
Proof.
  unfold load. destruct p as [a|]; [destruct (m !! a) eqn:E|]; split;
    try (intros [? [? ?]]); intros; simplify_eq; eauto; congruence.
Qed.

Lemma modify_Some {N} (m : list N) a n f :
  m !! a = Some n → modify m (Some a) f = Ok (<[a := f n]> m).
Proof. intros Hm. unfold modify. by rewrite Hm. Qed.

Lemma list_snoc_or_nil {A} (xs : list A) : xs = [] ∨ ∃ ys y, xs = ys ++ [y].
Proof.
  destruct xs as [|x xs] using rev_ind; [by left|right; eauto].
Qed.

Lemma filter_ne_notin {A} `{EqDecision A} (x : A) (xs : list A) :
  x ∉ xs → filter (λ y, y ≠ x) xs = xs.
Proof.
  induction xs as [|y xs IH]; intros Hx; [done|].
  apply not_elem_of_cons in Hx as [Hne Hx].
  rewrite filter_cons_True by done. by rewrite IH.
Qed.

Lemma filter_ne_split {A} `{EqDecision A} (x : A) (xs ys : list A) :
  NoDup (xs ++ x :: ys) → filter (λ y, y ≠ x) (xs ++ x :: ys) = xs ++ ys.
Proof.
  intros Hnd. apply NoDup_app in Hnd as (_ & Hxs & Hnd).
  apply NoDup_cons in Hnd as [Hys _].
  rewrite filter_app, filter_cons_False by (by intros ?).
  rewrite !filter_ne_notin; [done..|]. intros Hx. by apply (Hxs x); [|left].
Qed.

Lemma filter_fst_ne_notin {A B} `{EqDecision A} (k : A) (es : list (A * B)) :
  k ∉ es.*1 → filter (λ x, x.1 ≠ k) es = es.
Proof.
  induction es as [|x es IH]; intros Hk; [done|].
  rewrite fmap_cons in Hk. apply not_elem_of_cons in Hk as [Hne Hk].
  rewrite filter_cons_True by done. by rewrite IH.
Qed.

(* filtering two lists that correspond item by item *)
Lemma Forall2_filter_both {A B} (R : A → B → Prop) (P : A → Prop) (Q : B → Prop)
    `{∀ x, Decision (P x)} `{∀ y, Decision (Q y)} (xs : list A) (ys : list B) :
  Forall2 (λ x y, (P x → R x y) ∧ (P x ↔ Q y)) xs ys →
  Forall2 R (filter P xs) (filter Q ys).
Proof.
  induction 1 as [|x y xs ys [HR HPQ] _ IH]; [constructor|].
  destruct (decide (P x)) as [HP|HP].
  - rewrite !filter_cons_True by tauto. constructor; [by apply HR|done].
  - rewrite !filter_cons_False by tauto. done.
Qed.

Lemma bounded_NoDup_length (ls : list nat) (n : nat) :
  NoDup ls → (∀ p, p ∈ ls → p < n) → length ls ≤ n.
Proof.
  intros Hnd Hb. pose proof (submseteq_length ls (seq 0 n)) as Hl.
  rewrite length_seq in Hl. apply Hl, NoDup_submseteq; [done|].
  intros p Hp. apply elem_of_seq. specialize (Hb p Hp). lia.
Qed.

(** ** Linked lists *)

Section linked_facts.
Context {N : Type} (next : N → option loc).
Implicit Types (m : list N) (ls : list loc).

Lemma chain_bound m h ls p : chain next m h ls → p ∈ ls → p < length m.
Proof.
  revert h. induction ls as [|q ls IH]; intros h Hc Hp; [by apply elem_of_nil in Hp|].
  destruct Hc as [_ (n & Hn & Hc)].
  apply elem_of_cons in Hp as [->|Hp]; [by eapply lookup_lt_Some|eauto].
Qed.

Lemma chain_length m h ls : chain next m h ls → NoDup ls → length ls ≤ length m.
Proof.
  intros Hc Hnd. apply bounded_NoDup_length; [done|].
  intros p. by apply chain_bound with (h := h).
Qed.

(* a write outside the list *)
Lemma chain_frame m h ls a n :
  a ∉ ls → chain next m h ls → chain next (<[a := n]> m) h ls.
Proof.
  revert h. induction ls as [|q ls IH]; intros h Ha Hc; [done|].
  apply not_elem_of_cons in Ha as [Hne Ha].
  destruct Hc as [-> (nq & Hq & Hc)]. split; [done|].
  exists nq. rewrite list_lookup_insert_ne by done. eauto.
Qed.

Lemma chain_alloc m h ls n : chain next m h ls → chain next (m ++ [n]) h ls.
Proof.
  revert h. induction ls as [|q ls IH]; intros h Hc; [done|].
  destruct Hc as [-> (nq & Hq & Hc)]. split; [done|].
  exists nq. split; [by apply lookup_app_l_Some|eauto].
Qed.

(* a write that keeps the [next] field *)
Lemma chain_update m h ls a n n' :
  m !! a = Some n → next n' = next n →
  chain next m h ls → chain next (<[a := n']> m) h ls.
Proof.
  intros Ha Hn. revert h. induction ls as [|q ls IH]; intros h Hc; [done|].
  destruct Hc as [-> (nq & Hq & Hc)]. split; [done|].
  destruct (decide (a = q)) as [->|Hne].
  - exists n'. rewrite list_lookup_insert_eq by (by eapply lookup_lt_Some).
    assert (nq = n) as -> by congruence. rewrite Hn. eauto.
  - exists nq. rewrite list_lookup_insert_ne by done. eauto.
Qed.

(* linking a new last item behind the last item of a list *)
Lemma chain_snoc m h ls t nt' node nn :
  chain next m h ls → NoDup ls → last ls = Some t → next nt' = Some node →
  node ∉ ls → m !! node = Some nn → next nn = None →
  chain next (<[t := nt']> m) h (ls ++ [node]).
Proof.
  revert h. induction ls as [|q ls IH]; intros h Hc Hnd Hl Ht Hno Hn Hnn; [done|].
  destruct Hc as [-> (nq & Hq & Hc)]. apply NoDup_cons in Hnd as [Hq' Hnd].
  apply not_elem_of_cons in Hno as [Hne Hno].
  simpl. split; [done|]. destruct ls as [|q' ls].
  - simpl in Hl. simplify_eq. simpl in Hc.
    exists nt'. split.
    + apply list_lookup_insert_eq. by eapply lookup_lt_Some.
    + rewrite Ht. simpl. split; [done|]. exists nn.
      rewrite list_lookup_insert_ne by done. by rewrite Hnn.
  - rewrite last_cons_cons in Hl.
    assert (t ≠ q).
    { intros ->. apply Hq'. by apply last_Some_elem_of. }
    exists nq. rewrite list_lookup_insert_ne by done. split; [done|].
    by apply IH.
Qed.

(* a store with the same items in the list *)
Lemma chain_agree m m' h ls :
  (∀ p, p ∈ ls → m' !! p = m !! p) → chain next m h ls → chain next m' h ls.
Proof.
  revert h. induction ls as [|q ls IH]; intros h Hm Hc; [done|].
  destruct Hc as [-> (nq & Hq & Hc)]. split; [done|].
  exists nq. rewrite Hm by (by left). split; [done|].
  apply IH; [|done]. intros p Hp. apply Hm. by right.
Qed.

(* the loop of [Stop] on a list that ends in [nil] *)
Lemma unlink_chain clear fuel m h ls :
  chain next m h ls → NoDup ls → length ls ≤ fuel →
  ∃ m', unlink next clear fuel m h = Ok m' ∧ length m' = length m.
Proof.
  revert fuel m h. induction ls as [|p ls IH]; intros fuel m h Hc Hnd Hf.
  - simpl in Hc. subst h. destruct fuel; by eexists.
  - destruct Hc as [-> (n & Hn & Hc)]. apply NoDup_cons in Hnd as [Hp Hnd].
    destruct fuel as [|fuel]; [simpl in Hf; lia|]. simpl.
    rewrite (load_Some _ _ _ Hn), (modify_Some _ _ _ _ Hn). simpl.
    destruct (IH fuel (<[p := clear n]> m) (next n)) as (m' & -> & Hlen);
      [by apply chain_frame|done|simpl in Hf; lia|].
    exists m'. by rewrite Hlen, length_insert.
Qed.


(* a loop that cuts the link it follows *)
Lemma links_le_length m : links next m ≤ length m.
Proof. apply length_filter. Qed.

Lemma links_insert m a n n' :
  m !! a = Some n → next n' = None →
  links next (<[a := n']> m) + match next n with Some _ => 1 | None => 0 end
    = links next m.
Proof.
  unfold links. revert a. induction m as [|x m IH]; intros a Ha Hn'; [done|].
  destruct a as [|a]; simpl in *.
  - simplify_eq. rewrite !filter_cons. rewrite Hn'.
    destruct (decide (is_Some None)) as [[? ?]|_]; [done|].
    destruct (next n) eqn:Hn.
    + destruct (decide (is_Some (Some n0))) as [_|Hno]; [simpl; lia|].
      exfalso. apply Hno. eauto.
    + destruct (decide (is_Some None)) as [[? ?]|_]; [done|]. lia.
  - rewrite !filter_cons. specialize (IH a Ha Hn').
    destruct (decide (is_Some (next x))); simpl; lia.
Qed.

Lemma closed_insert m a n' :
  closed next m → (∀ q, next n' = Some q → q < length m) →
  closed next (<[a := n']> m).
Proof.
  intros Hc Hn' p n q Hp Hq. rewrite length_insert.
  apply list_lookup_insert_Some in Hp as [(-> & <- & _)|[_ Hp]]; eauto.
Qed.

Lemma unlink_None clear fuel m : unlink next clear fuel m None = Ok m.
Proof. by destruct fuel. Qed.

(* the loop of [Stop] on any closed store, with or without cycles *)
Lemma unlink_closed clear (P : N → Prop) fuel m node :
  (∀ n, next (clear n) = None) → (∀ n, P n → P (clear n)) →
  closed next m → (∀ p n, m !! p = Some n → P n) →
  (∀ a, node = Some a → a < length m) → links next m < fuel →
  ∃ m', unlink next clear fuel m node = Ok m' ∧ length m' = length m ∧
    ∀ p n, m' !! p = Some n → P n.
Proof.
  intros Hcl HP. revert m node.
  induction fuel as [|fuel IH]; intros m node Hc Hm Hnode Hl; [lia|].
  destruct node as [a|]; [|by exists m].
  destruct (lookup_lt_is_Some_2 m a) as [n Hn]; [by apply Hnode|].
  simpl. rewrite (load_Some _ _ _ Hn), (modify_Some _ _ _ _ Hn). simpl.
  pose proof (links_insert m a n (clear n) Hn (Hcl n)) as Hli.
  assert (closed next (<[a := clear n]> m)) as Hc1.
  { apply closed_insert; [done|]. intros q. by rewrite Hcl. }
  assert (∀ p n', <[a := clear n]> m !! p = Some n' → P n') as Hm1.
  { intros p n' Hp.
    apply list_lookup_insert_Some in Hp as [(-> & <- & _)|[_ Hp]]; eauto. }
  destruct (next n) as [b|] eqn:Hb.
  - destruct (IH (<[a := clear n]> m) (Some b)) as (m' & -> & Hlen & Hm');
      [done|done| |lia|].
    { intros ? [= <-]. rewrite length_insert. by eapply Hc. }
    exists m'. by rewrite Hlen, length_insert.
  - rewrite unlink_None. eexists. split; [done|]. by rewrite length_insert.
Qed.

End linked_facts.

(** ** The entries of a linked list *)

Section listing_facts.
Context {N K V : Type}.
Context (next : N → option loc) (key : N → option K) (value : N → V).
Implicit Types (m : list N) (ls : list loc) (es : list (K * V)).

Lemma walk_chain fuel m h ls :
  chain next m h ls → length ls ≤ fuel → walk next fuel m h = ls.
Proof.
  revert fuel h. induction ls as [|p ls IH]; intros fuel h Hc Hf.
  - simpl in Hc. subst h. by destruct fuel.
  - destruct Hc as [-> (n & Hn & Hc)]. destruct fuel as [|fuel]; [simpl in Hf; lia|].
    simpl. rewrite Hn. f_equal. apply IH; [done|simpl in Hf; lia].
Qed.

Lemma entry_Some m p e :
  entry key value m p = Some e ↔
  ∃ n, m !! p = Some n ∧ key n = Some e.1 ∧ value n = e.2.
Proof.
  unfold entry. destruct e as [k v]. split.
  - intros He. destruct (m !! p) as [n|]; [|done]. simpl in He.
    destruct (key n) as [k'|] eqn:Hk; [|done]. simpl in He. simplify_eq. eauto.
  - intros (n & -> & Hk & Hv). simpl in *. rewrite Hk. simpl. by rewrite Hv.
Qed.

Lemma entry_insert_ne m a n p : a ≠ p → entry key value (<[a := n]> m) p = entry key value m p.
Proof. intros Hne. unfold entry. by rewrite list_lookup_insert_ne. Qed.

Lemma entry_alloc m n p : p < length m → entry key value (m ++ [n]) p = entry key value m p.
Proof. intros Hp. unfold entry. by rewrite lookup_app_l. Qed.

(* the entries of a list that ends in [nil] *)
Lemma list_entries_chain m h ls es :
  chain next m h ls → NoDup ls →
  Forall2 (λ p e, entry key value m p = Some e) ls es →
  list_entries next key value m h = es.
Proof.
  intros Hc Hnd Hes. unfold list_entries.
  rewrite (walk_chain _ m h ls) by (done || by eapply chain_length).
  clear Hc Hnd. induction Hes as [|p e ls es Hp _ IH]; [done|].
  simpl. rewrite Hp. f_equal. exact IH.
Qed.

Lemma list_entries_exist m ls :
  (∀ p, p ∈ ls → is_Some (entry key value m p)) →
  ∃ es, Forall2 (λ p e, entry key value m p = Some e) ls es.
Proof.
  induction ls as [|p ls IH]; intros Hls; [by exists []|].
  destruct (Hls p) as [e He]; [by left|].
  destruct IH as [es Hes]; [intros q Hq; apply Hls; by right|].
  exists (e :: es). by constructor.
Qed.

End listing_facts.

(* an index [c] and a list [ls] of items that name each other have the
   same size *)
Lemma index_list_size `{Countable K} (c : gmap K loc) (ls : list loc)
    (keyof : loc → option K) :
  NoDup ls →
  (∀ p, p ∈ ls → ∃ k, keyof p = Some k ∧ c !! k = Some p) →
  (∀ k p, c !! k = Some p → p ∈ ls ∧ keyof p = Some k) →
  length ls = size c.
Proof.
  revert c. induction ls as [|p ls IH]; intros c Hnd Hls Hc.
  - simpl. symmetry. apply map_size_empty_iff, map_empty. intros k.
    destruct (c !! k) as [p|] eqn:Hk; [|done].
    destruct (Hc k p Hk) as [Hp _]. by apply elem_of_nil in Hp.
  - apply NoDup_cons in Hnd as [Hp Hnd].
    destruct (Hls p) as (k & Hkp & Hk); [by left|].
    rewrite <- (insert_delete_id c k p Hk), map_size_insert_None by apply lookup_delete_eq.
    simpl. f_equal. apply IH; [done| |].
    + intros q Hq. destruct (Hls q) as (kq & Hkq & Hcq); [by right|].
      exists kq. split; [done|]. rewrite lookup_delete_ne; [done|].
      intros ->. assert (q = p) by congruence. by subst.
    + intros kq q Hq. apply lookup_delete_Some in Hq as [Hne Hq].
      destruct (Hc kq q Hq) as [Hin Hkq]. split; [|done].
      apply elem_of_cons in Hin as [->|?]; [|done]. congruence.
Qed.

(** ** FIFO: the representation invariant *)

Module FIFO_facts.
Import FIFO.
Section facts.
Context `{Countable K} {V : Type} (zeroV : V).
Implicit Types (l : FIFO K V) (m : list (fifoListItem K V)) (ls : list loc).

Lemma fifo_wf_nonempty l ls :
  wf l ls → size (cache l) ≠ 0 → ∃ p ls', ls = p :: ls'.
Proof.
  intros Hwf Hs. apply map_size_ne_0_lookup in Hs as (k & p & Hk).
  apply Hwf in Hk as [Hp _]. destruct ls; [by apply elem_of_nil in Hp|eauto].
Qed.

(* the eviction block: at capacity the head leaves the list, and the other
   items stay as they are *)
Lemma fifo_evict_list l ls :
  wf l ls →
  ∃ l', evict zeroV l = Ok l' ∧
    wf l' (if (capacity l <=? Z.of_nat (size (cache l)))%Z then drop 1 ls else ls) ∧
    (Z.of_nat (size (cache l')) < capacity l')%Z ∧
    capacity l' = capacity l ∧ stopped l' = stopped l ∧
    ∀ q, q ∈ (if (capacity l <=? Z.of_nat (size (cache l)))%Z then drop 1 ls else ls) →
      mem l' !! q = mem l !! q.
Proof.
  intros Hwf. unfold evict.
  destruct (capacity l <=? Z.of_nat (size (cache l)))%Z eqn:Hcap; cycle 1.
  { apply Z.leb_gt in Hcap. by exists l. }
  apply Z.leb_le in Hcap.
  pose proof (wf_capacity _ _ Hwf) as Hpos.
  pose proof (wf_size _ _ Hwf) as Hsz.
  destruct (fifo_wf_nonempty l ls Hwf) as (p & ls' & ->); [lia|].
  destruct (wf_chain _ _ Hwf) as [Hhd (n & Hn & Hc)].
  destruct (wf_key _ _ Hwf p) as (n' & k & Hn' & Hk & Hck); [by left|].
  simplify_eq. pose proof (wf_nodup _ _ Hwf) as Hnd.
  apply NoDup_cons in Hnd as [Hp Hnd].
  rewrite Hhd, (load_Some _ _ _ Hn). simpl. rewrite Hk. simpl.
  rewrite (modify_Some _ _ _ _ Hn). simpl.
  eexists. split; [done|]. split; [split; simpl|].
  - by apply chain_frame.
  - intros Hne. rewrite (wf_last _ _ Hwf) by done.
    destruct ls'; [done|]. by rewrite last_cons_cons.
  - intros t Ht. rewrite length_insert. by eapply wf_tail.
  - done.
  - intros q Hq. destruct (wf_key _ _ Hwf q) as (nq & kq & Hnq & Hkq & Hcq); [by right|].
    assert (q ≠ p) by (by intros ->).
    exists nq, kq. rewrite list_lookup_insert_ne by done.
    split_and!; [done..|]. rewrite lookup_delete_ne; [done|]. by intros ->; simplify_eq.
  - intros kq q Hq.
    apply lookup_delete_Some in Hq as [Hne Hq].
    destruct (wf_cache _ _ Hwf _ _ Hq) as [Hin (nq & Hnq & Hkq)].
    assert (q ≠ p) by (intros ->; simplify_eq; congruence).
    apply elem_of_cons in Hin as [?|Hin]; [done|]. split; [done|].
    exists nq. by rewrite list_lookup_insert_ne.
  - done.
  - rewrite map_size_delete_Some by eauto. lia.
  - simpl. split_and!; [|done..|].
    + rewrite map_size_delete_Some by eauto.
      pose proof (map_size_ne_0_lookup_2 _ _ (mk_is_Some _ _ Hck)). lia.
    + intros q Hq. apply list_lookup_insert_ne. by intros ->.
Qed.

Lemma fifo_evict_wf l ls :
  wf l ls →
  ∃ l' ls', evict zeroV l = Ok l' ∧ wf l' ls' ∧
    (Z.of_nat (size (cache l')) < capacity l')%Z ∧
    capacity l' = capacity l ∧ stopped l' = stopped l.
Proof.
  intros Hwf. destruct (fifo_evict_list l ls Hwf) as (l' & ? & ? & ? & ? & ? & _).
  eexists l', _. by split_and!.
Qed.

Lemma fifo_lookup_update m a n n' p np :
  m !! a = Some n → key n' = key n → m !! p = Some np →
  ∃ np', <[a := n']> m !! p = Some np' ∧ key np' = key np.
Proof.
  intros Ha Hk Hp. destruct (decide (a = p)) as [->|Hne].
  - exists n'. rewrite list_lookup_insert_eq by (by eapply lookup_lt_Some).
    split; [done|congruence].
  - exists np. by rewrite list_lookup_insert_ne.
Qed.

(* a write that keeps the key and the value *)
Lemma fifo_lookup_link m a n n' p np :
  m !! a = Some n → key n' = key n → value n' = value n → m !! p = Some np →
  ∃ np', <[a := n']> m !! p = Some np' ∧ key np' = key np ∧ value np' = value np.
Proof.
  intros Ha Hk Hv Hp. destruct (decide (a = p)) as [->|Hne].
  - exists n'. rewrite list_lookup_insert_eq by (by eapply lookup_lt_Some).
    split; [done|split; congruence].
  - exists np. by rewrite list_lookup_insert_ne.
Qed.

(* the rest of [set] below capacity: the item of a cached key gets the
   value where it is, and a new key gets a new item behind the tail *)
Lemma fifo_store_list l ls k v :
  wf l ls → (Z.of_nat (size (cache l)) < capacity l)%Z →
  ∃ l', store zeroV l k v = Ok l' ∧
    capacity l' = capacity l ∧ stopped l' = stopped l ∧
    match cache l !! k with
    | Some p =>
        wf l' ls ∧ cache l' !! k = Some p ∧
        ∃ n, mem l !! p = Some n ∧ mem l' = <[p := with_value v n]> (mem l)
    | None =>
        wf l' (ls ++ [length (mem l)]) ∧ cache l' !! k = Some (length (mem l)) ∧
        mem l' !! length (mem l) = Some {| next := None; key := Some k; value := v |} ∧
        ∀ q, q ∈ ls → entry key value (mem l') q = entry key value (mem l) q
    end.
Proof.
  intros Hwf Hsz. unfold store. destruct (cache l !! k) as [node|] eqn:Hk.
  - (* the key is cached: only the value of its item changes *)
    destruct (wf_cache _ _ Hwf _ _ Hk) as [Hin (n & Hn & Hkn)].
    rewrite (modify_Some _ _ _ _ Hn). simpl.
    eexists. split; [done|]. simpl. split_and!; [done|done| |done|by exists n].
    split; simpl; try apply Hwf.
    + eapply chain_update; [done|done|apply Hwf].
    + intros t Ht. rewrite length_insert. by eapply wf_tail.
    + intros p Hp. destruct (wf_key _ _ Hwf p Hp) as (np & kp & Hnp & Hkp & Hcp).
      destruct (fifo_lookup_update (mem l) node n (with_value v n) p np) as (np' & ? & ?);
        [done..|]. exists np', kp. split_and!; [done|congruence|done].
    + intros kp p Hp. destruct (wf_cache _ _ Hwf _ _ Hp) as [? (np & Hnp & Hkp)].
      split; [done|].
      destruct (fifo_lookup_update (mem l) node n (with_value v n) p np) as (np' & ? & ?);
        [done..|]. exists np'. split; [done|congruence].
  - (* a new key: a new item is linked behind the tail *)
    unfold alloc. set (new := {| next := None; key := Some k; value := zeroV |}).
    set (node := length (mem l)).
    assert (Hfresh : ∀ p, p ∈ ls → p ≠ node).
    { intros p Hp. pose proof (chain_bound _ _ _ _ p (wf_chain _ _ Hwf) Hp). unfold node. lia. }
    assert (Hnew : (mem l ++ [new]) !! node = Some new).
    { unfold node. by rewrite lookup_app_r, Nat.sub_diag by done. }
    assert (∃ m2, match tail l with
                  | Some _ => modify (mem l ++ [new]) (tail l) (with_next (Some node))
                  | None => Ok (mem l ++ [new])
                  end = Ok m2 ∧ length m2 = S node ∧ m2 !! node = Some new ∧
            (∀ p np, mem l !! p = Some np →
               ∃ np', m2 !! p = Some np' ∧ key np' = key np ∧ value np' = value np) ∧
            chain next m2 (match head l with None => Some node | Some h => Some h end)
              (ls ++ [node])) as (m2 & -> & Hlen & Hnode & Hold & Hchain).
    { destruct (tail l) as [t|] eqn:Ht.
      - pose proof (wf_tail _ _ Hwf t Ht) as Hlt.
        destruct (lookup_lt_is_Some_2 (mem l) t Hlt) as [nt Hnt].
        rewrite (modify_Some _ _ nt) by (by apply lookup_app_l_Some).
        eexists. split; [done|]. split_and!.
        + rewrite length_insert, length_app. simpl. unfold node. lia.
        + rewrite list_lookup_insert_ne by (unfold node; lia). done.
        + intros p np Hp.
          eapply (fifo_lookup_link _ t nt); [by apply lookup_app_l_Some|done|done|].
          by apply lookup_app_l_Some.
        + destruct ls as [|p ls].
          * rewrite (wf_chain _ _ Hwf). simpl. split; [done|]. exists new.
            rewrite list_lookup_insert_ne by (unfold node; lia). done.
          * destruct (wf_chain _ _ Hwf) as [Hhd _]. rewrite Hhd. rewrite <- Hhd.
            eapply chain_snoc; [apply chain_alloc, Hwf|apply Hwf| |done| |done|done].
            -- rewrite <- Ht. symmetry. by apply Hwf.
            -- intros Hin. by apply (Hfresh node).
      - exists (mem l ++ [new]). split; [done|]. split_and!.
        + rewrite length_app. simpl. unfold node. lia.
        + done.
        + intros p np Hp. exists np. split; [by apply lookup_app_l_Some|done].
        + destruct ls as [|p ls].
          * rewrite (wf_chain _ _ Hwf). simpl. split; [done|]. by exists new.
          * rewrite (wf_last _ _ Hwf) in Ht by done.
            apply last_None in Ht. done. }
    simpl. rewrite (modify_Some _ _ _ _ Hnode). simpl.
    eexists. split; [done|]. simpl. split_and!; [done|done| | | |].
    + split; simpl.
      * eapply chain_update; [done|done|done].
      * intros _. by rewrite last_snoc.
      * intros t [= <-]. rewrite length_insert. lia.
      * apply NoDup_app. split_and!; [apply Hwf| |apply NoDup_singleton].
        intros p Hp Hp'. apply list_elem_of_singleton in Hp'. by apply (Hfresh p).
      * intros p Hp. apply elem_of_app in Hp as [Hp|Hp].
        -- destruct (wf_key _ _ Hwf p Hp) as (np & kp & Hnp & Hkp & Hcp).
           destruct (Hold _ _ Hnp) as (np' & Hnp' & Hkp' & _).
           exists np', kp. rewrite list_lookup_insert_ne by (symmetry; by apply Hfresh).
           split_and!; [done|congruence|]. rewrite lookup_insert_ne; [done|congruence].
        -- apply list_elem_of_singleton in Hp as ->.
           exists (with_value v new), k. rewrite list_lookup_insert_eq by lia.
           split_and!; [done|done|]. by rewrite lookup_insert_eq.
      * intros kp p Hp. apply lookup_insert_Some in Hp as [[<- <-]|[Hne Hp]].
        -- split; [apply elem_of_app; right; by left|].
           exists (with_value v new). by rewrite list_lookup_insert_eq by lia.
        -- destruct (wf_cache _ _ Hwf _ _ Hp) as [Hin (np & Hnp & Hkp)].
           split; [apply elem_of_app; by left|].
           destruct (Hold _ _ Hnp) as (np' & Hnp' & Hkp' & _).
           exists np'. rewrite list_lookup_insert_ne by (symmetry; by apply Hfresh).
           split; [done|congruence].
      * apply Hwf.
      * rewrite map_size_insert_None by done. lia.
    + by rewrite lookup_insert_eq.
    + by rewrite list_lookup_insert_eq by lia.
    + intros q Hq. rewrite entry_insert_ne by (symmetry; by apply Hfresh).
      pose proof (chain_bound _ _ _ _ q (wf_chain _ _ Hwf) Hq) as Hlt.
      destruct (lookup_lt_is_Some_2 (mem l) q Hlt) as [nq Hnq].
      destruct (Hold _ _ Hnq) as (nq' & Hnq' & Hkq' & Hvq').
      unfold entry. by rewrite Hnq, Hnq'; simpl; rewrite Hkq', Hvq'.
Qed.

Lemma fifo_store_wf l ls k v :
  wf l ls → (Z.of_nat (size (cache l)) < capacity l)%Z →
  ∃ l' ls', store zeroV l k v = Ok l' ∧ wf l' ls' ∧
    capacity l' = capacity l ∧ stopped l' = stopped l ∧
    ∃ p n, cache l' !! k = Some p ∧ mem l' !! p = Some n ∧ value n = v.
Proof.
  intros Hwf Hsz.
  destruct (fifo_store_list l ls k v Hwf Hsz) as (l' & Hst & Hc & Hs & Hcase).
  destruct (cache l !! k) as [p|].
  - destruct Hcase as (Hwf' & Hk & n & Hn & Hm).
    exists l', ls. split_and!; [done..|]. exists p, (with_value v n).
    split_and!; [done| |done]. rewrite Hm.
    apply list_lookup_insert_eq. by eapply lookup_lt_Some.
  - destruct Hcase as (Hwf' & Hk & Hn & _).
    eexists l', _. split_and!; [done..|]. by eexists _, _.
Qed.

Lemma fifo_set_wf l ls k v :
  wf l ls → stopped l = 0%N →
  ∃ l' ls', set zeroV l k v = Ok l' ∧ wf l' ls' ∧
    capacity l' = capacity l ∧ stopped l' = 0%N ∧
    ∃ p n, cache l' !! k = Some p ∧ mem l' !! p = Some n ∧ value n = v.
Proof.
  intros Hwf Hs. unfold set, isStopped. rewrite Hs. simpl.
  destruct (fifo_evict_wf l ls Hwf) as (l1 & ls1 & -> & Hwf1 & Hsz & Hc1 & Hs1).
  simpl. destruct (fifo_store_wf l1 ls1 k v Hwf1 Hsz)
    as (l2 & ls2 & -> & Hwf2 & Hc2 & Hs2 & Hget).
  exists l2, ls2. split_and!; [done|done|congruence|congruence|done].
Qed.

Lemma fifo_get_wf l ls k :
  wf l ls → stopped l = 0%N →
  match cache l !! k with
  | None => get zeroV l k = Ok ((zeroV, false), l)
  | Some p => ∃ n, mem l !! p = Some n ∧ get zeroV l k = Ok ((value n, true), l)
  end.
Proof.
  intros Hwf Hs. unfold get, isStopped. rewrite Hs. simpl.
  destruct (cache l !! k) as [p|] eqn:Hk; [|done].
  destruct (wf_cache _ _ Hwf _ _ Hk) as [_ (n & Hn & _)].
  exists n. by rewrite (load_Some _ _ _ Hn).
Qed.

Lemma fifo_Stop_wf l ls :
  wf l ls → stop_inv l →
  ∃ l', Stop zeroV l = Ok l' ∧ wf l' [] ∧ stopped l' = 1%N ∧
    cache l' = ∅ ∧ head l' = None ∧ tail l' = None ∧
    (stopped l = 1%N → l' = l).
Proof.
  intros Hwf [Hs|(Hs & Hc & Hh & Ht)]; unfold Stop; rewrite Hs.
  - destruct (unlink_chain next (λ _, zeroItem zeroV) (S (length (mem l)))
                  (mem l) (head l) ls) as (m' & Hm & _); [apply Hwf..| |].
    { apply Nat.le_le_succ_r. eapply chain_length; apply Hwf. }
    change (0 =? 0)%N with true. cbv iota. rewrite Hm. simpl. eexists. split; [done|]. split_and!; try done.
    split; simpl; try done; try apply Hwf.
    + apply NoDup_nil_2.
    + intros p Hp. by apply elem_of_nil in Hp.
    + rewrite map_size_empty. pose proof (wf_capacity _ _ Hwf). lia.
  - exists l. split_and!; try done.
    assert (ls = []) as ->; [|done].
    destruct ls; [done|]. destruct (wf_chain _ _ Hwf) as [? _]. congruence.
Qed.

Lemma fifo_reachable_inv l : reachable zeroV l → inv l.
Proof.
  induction 1 as [c l Hnew|l k v l' _ [Hs [ls Hwf]] Hset
                 |l k r l' _ IH Hget|l l' _ [Hs [ls Hwf]] Hstop].
  - unfold NewFIFO in Hnew. case_match eqn:Hc; [done|]. apply Z.leb_gt in Hc.
    simplify_eq. split; [by left|]. exists []. split; simpl; try done.
    + apply NoDup_nil_2.
    + intros p Hp. by apply elem_of_nil in Hp.
    + rewrite map_size_empty. lia.
  - destruct Hs as [Hs|(Hs & _)]; cycle 1.
    { unfold set, isStopped in Hset. by rewrite Hs in Hset. }
    destruct (fifo_set_wf l ls k v Hwf Hs) as (l2 & ls2 & Hset' & Hwf2 & _ & Hs2 & _).
    assert (l' = l2) as -> by congruence. split; [by left|by exists ls2].
  - unfold get in Hget. destruct (isStopped l); [done|].
    destruct (cache l !! k); [|by simplify_eq].
    apply bind_Ok in Hget as (? & _ & ?). by simplify_eq.
  - destruct (fifo_Stop_wf l ls Hwf Hs) as (l2 & Hstop' & Hwf2 & Hs2 & ? & ? & ? & _).
    assert (l' = l2) as -> by congruence. split; [by right|by exists []].
Qed.

Lemma fifo_active l :
  reachable zeroV l → isStopped l = false → stopped l = 0%N ∧ ∃ ls, wf l ls.
Proof.
  intros Hr Hst. destruct (fifo_reachable_inv l Hr) as [[Hs|(Hs & _)] Hwf]; [done|].
  unfold isStopped in Hst. by rewrite Hs in Hst.
Qed.

Lemma fifo_sets_wf l ls ops :
  wf l ls → stopped l = 0%N →
  ∃ l' ls', sets zeroV l ops = Ok l' ∧ wf l' ls' ∧
    capacity l' = capacity l ∧ stopped l' = 0%N.
Proof.
  revert l ls. induction ops as [|[k v] ops IH]; intros l ls Hwf Hs.
  { by exists l, ls. }
  destruct (fifo_set_wf l ls k v Hwf Hs) as (l1 & ls1 & Hset & Hwf1 & Hc1 & Hs1 & _).
  destruct (IH l1 ls1 Hwf1 Hs1) as (l2 & ls2 & Hsets & Hwf2 & Hc2 & Hs2).
  exists l2, ls2. simpl. rewrite Hset. simpl. split_and!; [done..|congruence|done].
Qed.

(* the bound of the index, after every write and between the eviction and
   the insertion of the next one *)
Lemma fifo_capacity_bound (N : Z) ops :
  (0 < N)%Z →
  ∃ l0 l l1, NewFIFO N = Ok l0 ∧ sets zeroV l0 ops = Ok l ∧
    (Z.of_nat (size (cache l)) ≤ N)%Z ∧
    evict zeroV l = Ok l1 ∧ (Z.of_nat (size (cache l1)) < N)%Z.
Proof.
  intros HN. pose (l0 := {| cache := ∅; head := None; tail := None;
                            capacity := N; stopped := 0; mem := [] |} : FIFO K V).
  assert (NewFIFO N = Ok l0) as Hnew.
  { unfold NewFIFO. by rewrite (proj2 (Z.leb_gt N 0)). }
  destruct (fifo_active l0) as [Hs0 [ls0 Hwf0]]; [by eapply reach_new|done|].
  destruct (fifo_sets_wf l0 ls0 ops Hwf0 Hs0) as (l & ls & Hsets & Hwf & Hc & Hs).
  destruct (fifo_evict_wf l ls Hwf) as (l1 & ls1 & Hev & _ & Hlt & Hc1 & _).
  exists l0, l, l1. split_and!; [done..| |done|].
  - pose proof (wf_size _ _ Hwf). simpl in *. lia.
  - simpl in *. lia.
Qed.

Lemma fifo_set_get l k v :
  reachable zeroV l → isStopped l = false →
  ∃ l', set zeroV l k v = Ok l' ∧ get zeroV l' k = Ok ((v, true), l').
Proof.
  intros Hr Hst. destruct (fifo_active l Hr Hst) as [Hs [ls Hwf]].
  destruct (fifo_set_wf l ls k v Hwf Hs)
    as (l' & ls' & Hset & Hwf' & _ & Hs' & p & n & Hc & Hn & Hv).
  exists l'. split; [done|]. pose proof (fifo_get_wf l' ls' k Hwf' Hs') as Hg.
  rewrite Hc in Hg. destruct Hg as (n' & Hn' & ->). congruence.
Qed.

Lemma fifo_get_pure l k :
  reachable zeroV l → isStopped l = false → ∃ r, get zeroV l k = Ok (r, l).
Proof.
  intros Hr Hst. destruct (fifo_active l Hr Hst) as [Hs [ls Hwf]].
  pose proof (fifo_get_wf l ls k Hwf Hs) as Hg.
  destruct (cache l !! k); [destruct Hg as (? & _ & ->)|]; eauto.
Qed.

Lemma fifo_Fetch_error {E} l k (fn : FetchFunc V E) v e :
  isStopped l = false → cache l !! k = None → fn () = (v, Some e) →
  Fetch zeroV l k fn = Ok ((zeroV, Some e), l) ∧
  get zeroV l k = Ok ((zeroV, false), l).
Proof.
  intros Hst Hk Hfn. unfold Fetch, get. rewrite Hst, Hk. simpl. by rewrite Hfn.
Qed.

Lemma fifo_Stop_spec l :
  reachable zeroV l →
  ∃ l', Stop zeroV l = Ok l' ∧
    cache l' = ∅ ∧ head l' = None ∧ tail l' = None ∧
    (∀ k, get zeroV l' k = Panicked CacheStopped) ∧
    (∀ k v, set zeroV l' k v = Panicked CacheStopped) ∧
    Stop zeroV l' = Ok l'.
Proof.
  intros Hr. destruct (fifo_reachable_inv l Hr) as [Hsi [ls Hwf]].
  destruct (fifo_Stop_wf l ls Hwf Hsi) as (l' & Hstop & _ & Hs' & Hc & Hh & Ht & _).
  exists l'. split_and!; try done.
  - intros k. unfold get, isStopped. by rewrite Hs'.
  - intros k v. unfold set, isStopped. by rewrite Hs'.
  - unfold Stop. by rewrite Hs'.
Qed.

(* below capacity, a write to a cached key changes the value of its item
   and nothing else *)
Lemma fifo_overwrite_below_capacity l k v p n :
  isStopped l = false → (Z.of_nat (size (cache l)) < capacity l)%Z →
  cache l !! k = Some p → mem l !! p = Some n →
  set zeroV l k v =
    Ok {| cache := cache l; head := head l; tail := tail l;
          capacity := capacity l; stopped := stopped l;
          mem := <[p := with_value v n]> (mem l) |}.
Proof.
  intros Hst Hsz Hk Hn. unfold set, evict, store. rewrite Hst.
  rewrite (proj2 (Z.leb_gt _ _)) by done. simpl. rewrite Hk.
  by rewrite (modify_Some _ _ _ _ Hn).
Qed.

(* the entries of the cache are those of the items of its list *)
Lemma fifo_wf_entries l ls :
  wf l ls → Forall2 (λ p e, entry key value (mem l) p = Some e) ls (entries l).
Proof.
  intros Hwf. destruct (list_entries_exist key value (mem l) ls) as [es Hes].
  { intros p Hp. destruct (wf_key _ _ Hwf p Hp) as (n & k & Hn & Hk & _).
    exists (k, value n). apply entry_Some. eauto. }
  unfold entries.
  by rewrite (list_entries_chain next key value (mem l) (head l) ls es)
    by (done || apply Hwf).
Qed.

Lemma fifo_wf_length l ls : wf l ls → length ls = size (cache l).
Proof.
  intros Hwf. apply (index_list_size _ _ (λ p, mem l !! p ≫= key)); [apply Hwf| |].
  - intros p Hp. destruct (wf_key _ _ Hwf p Hp) as (n & k & Hn & Hk & Hc).
    exists k. by rewrite Hn.
  - intros k p Hk. destruct (wf_cache _ _ Hwf _ _ Hk) as [Hp (n & Hn & Hkn)].
    by rewrite Hn.
Qed.

Lemma fifo_entries_length l ls : wf l ls → length (entries l) = size (cache l).
Proof.
  intros Hwf. rewrite <- (fifo_wf_length l ls Hwf). symmetry.
  eapply Forall2_length, fifo_wf_entries, Hwf.
Qed.

(* an entry of the list is the entry of its key in the index *)
Lemma fifo_entry_cache l ls p k v :
  wf l ls → p ∈ ls → entry key value (mem l) p = Some (k, v) → cache l !! k = Some p.
Proof.
  intros Hwf Hp He. apply entry_Some in He as (n & Hn & Hk & _).
  destruct (wf_key _ _ Hwf p Hp) as (n' & k' & Hn' & Hk' & Hc). simpl in *. congruence.
Qed.

Lemma fifo_entries_key l ls k :
  wf l ls → k ∈ (entries l).*1 ↔ is_Some (cache l !! k).
Proof.
  intros Hwf. pose proof (fifo_wf_entries l ls Hwf) as Hes. split.
  - intros Hk. apply list_elem_of_fmap in Hk as ([k' v] & -> & He).
    apply list_elem_of_lookup in He as [i Hi].
    destruct (Forall2_lookup_r _ _ _ _ _ Hes Hi) as (p & Hp & He).
    exists p. eapply fifo_entry_cache; [done| |done]. by eapply list_elem_of_lookup_2.
  - intros [p Hk]. destruct (wf_cache _ _ Hwf _ _ Hk) as [Hp (n & Hn & Hkn)].
    apply list_elem_of_lookup in Hp as [i Hi].
    destruct (Forall2_lookup_l _ _ _ _ _ Hes Hi) as ([k' v] & He & Hpe).
    apply list_elem_of_fmap. exists (k', v). split; [|by eapply list_elem_of_lookup_2].
    apply entry_Some in Hpe as (n' & Hn' & Hk' & _). simpl in *. congruence.
Qed.

Lemma fifo_entries_NoDup l ls : wf l ls → NoDup (entries l).*1.
Proof.
  intros Hwf. pose proof (fifo_wf_entries l ls Hwf) as Hes.
  apply NoDup_alt. intros i j k Hi Hj.
  rewrite list_lookup_fmap in Hi, Hj.
  destruct (entries l !! i) as [[k1 v1]|] eqn:Ei; [|done].
  destruct (entries l !! j) as [[k2 v2]|] eqn:Ej; [|done]. simpl in *. simplify_eq.
  destruct (Forall2_lookup_r _ _ _ _ _ Hes Ei) as (p1 & Hp1 & He1).
  destruct (Forall2_lookup_r _ _ _ _ _ Hes Ej) as (p2 & Hp2 & He2).
  pose proof (fifo_entry_cache l ls p1 k v1 Hwf (list_elem_of_lookup_2 _ _ _ Hp1) He1).
  pose proof (fifo_entry_cache l ls p2 k v2 Hwf (list_elem_of_lookup_2 _ _ _ Hp2) He2).
  assert (p1 = p2) as -> by congruence.
  eapply NoDup_lookup; [apply Hwf|done..].
Qed.

(* [Get] reads the entries *)
Lemma fifo_get_entries_wf l ls k :
  wf l ls → stopped l = 0%N →
  (∀ v, (k, v) ∈ entries l → get zeroV l k = Ok ((v, true), l)) ∧
  (k ∉ (entries l).*1 → get zeroV l k = Ok ((zeroV, false), l)).
Proof.
  intros Hwf Hs. pose proof (fifo_wf_entries l ls Hwf) as Hes.
  pose proof (fifo_get_wf l ls k Hwf Hs) as Hg. split.
  - intros v He. apply list_elem_of_lookup in He as [i Hi].
    destruct (Forall2_lookup_r _ _ _ _ _ Hes Hi) as (p & Hp & He).
    rewrite (fifo_entry_cache l ls p k v Hwf (list_elem_of_lookup_2 _ _ _ Hp) He) in Hg.
    destruct Hg as (n & Hn & ->). apply entry_Some in He as (n' & Hn' & _ & Hv).
    simpl in Hv. by assert (n' = n) as -> by congruence; subst.
  - intros Hk. destruct (cache l !! k) as [p|] eqn:Hc; [|done].
    exfalso. apply Hk. apply (fifo_entries_key l ls k Hwf). by rewrite Hc.
Qed.

(* [Set] on the entries: at capacity the first entry leaves; then the
   entry of the key gets the value, or a new entry is added at the end *)
Lemma fifo_set_entries_wf l ls k v :
  wf l ls → stopped l = 0%N →
  ∃ l' ls', set zeroV l k v = Ok l' ∧ wf l' ls' ∧
    capacity l' = capacity l ∧ stopped l' = 0%N ∧
    entries l' =
      (let es := if (capacity l <=? Z.of_nat (length (entries l)))%Z
                 then drop 1 (entries l) else entries l in
       if decide (k ∈ es.*1)
       then (λ e, if decide (e.1 = k) then (k, v) else e) <$> es
       else es ++ [(k, v)]).
Proof.
  intros Hwf Hs. unfold set, isStopped. rewrite Hs. simpl.
  rewrite (fifo_entries_length l ls Hwf).
  destruct (fifo_evict_list l ls Hwf) as (l1 & -> & Hwf1 & Hsz & Hc1 & Hs1 & Hm1).
  simpl.
  set (ls1 := if (capacity l <=? Z.of_nat (size (cache l)))%Z then drop 1 ls else ls) in *.
  set (es1 := if (capacity l <=? Z.of_nat (size (cache l)))%Z
              then drop 1 (entries l) else entries l).
  assert (entries l1 = es1) as He1.
  { eapply list_entries_chain; [apply Hwf1..|].
    apply Forall2_same_length_lookup. split.
    - pose proof (Forall2_length _ _ _ (fifo_wf_entries l ls Hwf)) as Hlen.
      unfold ls1, es1. destruct (_ <=? _)%Z; [|done]. by rewrite !length_drop, Hlen.
    - intros i p e Hp He.
      assert (entry key value (mem l1) p = entry key value (mem l) p) as ->.
      { unfold entry. by rewrite Hm1 by (by eapply list_elem_of_lookup_2). }
      pose proof (fifo_wf_entries l ls Hwf) as Hes. revert Hp He. unfold ls1, es1.
      destruct (_ <=? _)%Z; intros Hp He.
      + rewrite lookup_drop in Hp. rewrite lookup_drop in He.
        destruct (Forall2_lookup_l _ _ _ _ _ Hes Hp) as (e' & He' & Hpe). congruence.
      + destruct (Forall2_lookup_l _ _ _ _ _ Hes Hp) as (e' & He' & Hpe). congruence. }
  pose proof (fifo_wf_entries l1 ls1 Hwf1) as Hes1. rewrite He1 in Hes1.
  pose proof (fifo_entries_key l1 ls1 k Hwf1) as Hkey. rewrite He1 in Hkey.
  destruct (fifo_store_list l1 ls1 k v Hwf1 Hsz) as (l2 & -> & Hc2 & Hs2 & Hcase).
  destruct (cache l1 !! k) as [p|] eqn:Hk.
  - (* the key is cached *)
    destruct Hcase as (Hwf2 & Hk2 & n & Hn & Hm2).
    exists l2, ls1. split_and!; [done|done|congruence|congruence|].
    rewrite decide_True by (apply Hkey; eauto).
    eapply list_entries_chain; [apply Hwf2..|].
    apply Forall2_fmap_r, Forall2_same_length_lookup.
    split; [by eapply Forall2_length|].
    intros i q [kq vq] Hq He.
    destruct (Forall2_lookup_l _ _ _ _ _ Hes1 Hq) as (e' & He' & Hqe).
    assert (e' = (kq, vq)) as -> by congruence. simpl.
    pose proof (fifo_entry_cache l1 ls1 q kq vq Hwf1 (list_elem_of_lookup_2 _ _ _ Hq) Hqe)
      as Hcq.
    rewrite Hm2. destruct (decide (kq = k)) as [->|Hne].
    + assert (q = p) as -> by congruence. apply entry_Some.
      exists (with_value v n). split_and!; [|by apply entry_Some in Hqe as (n' & ? & ? & _); simpl in *; congruence|done].
      apply list_lookup_insert_eq. by eapply lookup_lt_Some.
    + rewrite entry_insert_ne; [done|]. intros ->.
      apply entry_Some in Hqe as (n' & Hn' & Hkq & _).
      destruct (wf_cache _ _ Hwf1 _ _ Hk) as [_ (n'' & Hn'' & Hk'')].
      simpl in *. congruence.
  - (* a new key *)
    destruct Hcase as (Hwf2 & Hk2 & Hn2 & Hm2).
    eexists l2, _. split_and!; [done|done|congruence|congruence|].
    rewrite decide_False by (intros Hin; apply Hkey in Hin as [? ?]; congruence).
    eapply list_entries_chain; [apply Hwf2..|].
    apply Forall2_app.
    + apply Forall2_same_length_lookup. split; [by eapply Forall2_length|].
      intros i q e Hq He. rewrite Hm2 by (by eapply list_elem_of_lookup_2).
      destruct (Forall2_lookup_l _ _ _ _ _ Hes1 Hq) as (e' & He' & Hqe). congruence.
    + constructor; [|constructor]. apply entry_Some. eauto.
Qed.

(* writes of keys that were never written before: the cache holds the
   last [capacity] of them *)
Lemma fifo_sets_entries_wf kvs : ∀ l ls acc,
  wf l ls → stopped l = 0%N →
  entries l = drop (length acc - Z.to_nat (capacity l)) acc →
  NoDup (acc ++ kvs).*1 →
  ∃ l' ls', sets zeroV l kvs = Ok l' ∧ wf l' ls' ∧
    entries l' = drop (length (acc ++ kvs) - Z.to_nat (capacity l)) (acc ++ kvs).
Proof.
  induction kvs as [|[k v] kvs IH]; intros l ls acc Hwf Hs He Hnd.
  { exists l, ls. by rewrite app_nil_r. }
  destruct (fifo_set_entries_wf l ls k v Hwf Hs) as (l1 & ls1 & Hset & Hwf1 & Hc1 & Hs1 & He1).
  simpl. rewrite Hset. simpl.
  pose proof (wf_capacity _ _ Hwf) as Hpos.
  assert (entries l1 =
          drop (length (acc ++ [(k, v)]) - Z.to_nat (capacity l1)) (acc ++ [(k, v)])) as He1'.
  { rewrite He1, Hc1. clear He1. simpl.
    assert (k ∉ acc.*1) as Hk.
    { rewrite fmap_app in Hnd. apply NoDup_app in Hnd as (_ & Hnd & _).
      intros Hin. apply (Hnd k Hin). by left. }
    rewrite decide_False; cycle 1.
    { intros Hin. apply Hk. apply list_elem_of_fmap in Hin as (x & -> & Hx).
      apply list_elem_of_fmap. exists x. split; [done|].
      assert (x ∈ entries l) as Hx'.
      { destruct (_ <=? _)%Z; [by eapply subseteq_drop|done]. }
      rewrite He in Hx'. by eapply subseteq_drop. }
    rewrite He, length_drop, length_app. simpl.
    destruct (Z.leb_spec (capacity l)
                (Z.of_nat (length acc - (length acc - Z.to_nat (capacity l))))) as [Hle|Hgt].
    - rewrite drop_drop, drop_app_le by lia. do 2 f_equal. lia.
    - replace (length acc - Z.to_nat (capacity l)) with 0 by lia.
      by replace (length acc + 1 - Z.to_nat (capacity l)) with 0 by lia. }
  destruct (IH l1 ls1 (acc ++ [(k, v)]) Hwf1 Hs1 He1') as (l2 & ls2 & Hsets & Hwf2 & He2).
  { by rewrite <- app_assoc. }
  exists l2, ls2. split_and!; [done|done|]. by rewrite He2, Hc1, <- app_assoc.
Qed.

(* [Fetch] of a key that is not cached stores what the function
   returns, and the next [Fetch] does not call its function *)
Lemma fifo_Fetch_miss {E} l k (fn : FetchFunc V E) v :
  reachable zeroV l → isStopped l = false →
  cache l !! k = None → fn () = (v, None) →
  ∃ l', Fetch zeroV l k fn = Ok ((v, None), l') ∧ set zeroV l k v = Ok l' ∧
    ∀ fn' : FetchFunc V E, Fetch zeroV l' k fn' = Ok ((v, None), l').
Proof.
  intros Hr Hst Hk Hfn. destruct (fifo_active l Hr Hst) as [Hs [ls Hwf]].
  destruct (fifo_set_wf l ls k v Hwf Hs)
    as (l' & ls' & Hset & Hwf' & _ & Hs' & p & n & Hc & Hn & Hv).
  exists l'. unfold Fetch at 1, get. rewrite Hst, Hk. simpl. rewrite Hfn, Hset. simpl.
  split_and!; [done..|]. intros fn'.
  pose proof (fifo_get_wf l' ls' k Hwf' Hs') as Hg. rewrite Hc in Hg.
  destruct Hg as (n' & Hn' & Hg). unfold Fetch, isStopped. rewrite Hs', Hg. simpl.
  by assert (n' = n) as -> by congruence; subst.
Qed.

(* [Fetch] is a [get] and maybe a [set] *)
Lemma fifo_Fetch_reachable {E} l k (fn : FetchFunc V E) r l' :
  reachable zeroV l → Fetch zeroV l k fn = Ok (r, l') → reachable zeroV l'.
Proof.
  intros Hr Hf. unfold Fetch in Hf. destruct (isStopped l); [done|].
  apply bind_Ok in Hf as ([[x ok] l1] & Hget & Hf).
  assert (reachable zeroV l1) as Hr1 by (by eapply reach_get).
  destruct ok; [by simplify_eq|]. destruct (fn ()) as [v [e|]]; [by simplify_eq|].
  apply bind_Ok in Hf as (l2 & Hset & Hf). simplify_eq. by eapply reach_set.
Qed.

End facts.
End FIFO_facts.

(** ** LIFO: the representation invariant *)

Module LIFO_facts.
Import LIFO.
Section facts.
Context `{Countable K} {V : Type} (zeroV : V).
Implicit Types (l : LIFO K V) (m : list (lifoListItem K V)) (ls : list loc).

Lemma lifo_wf_nonempty l ls :
  wf l ls → size (cache l) ≠ 0 → ∃ p ls', ls = p :: ls'.
Proof.
  intros Hwf Hs. apply map_size_ne_0_lookup in Hs as (k & p & Hk).
  apply Hwf in Hk as [Hp _]. destruct ls; [by apply elem_of_nil in Hp|eauto].
Qed.

(* the eviction block: at capacity the head leaves the list, and the other
   items stay as they are *)
Lemma lifo_evict_list l ls :
  wf l ls →
  ∃ l', evict zeroV l = Ok l' ∧
    wf l' (if (capacity l <=? Z.of_nat (size (cache l)))%Z then drop 1 ls else ls) ∧
    (Z.of_nat (size (cache l')) < capacity l')%Z ∧
    capacity l' = capacity l ∧ stopped l' = stopped l ∧
    ∀ q, q ∈ (if (capacity l <=? Z.of_nat (size (cache l)))%Z then drop 1 ls else ls) →
      mem l' !! q = mem l !! q.
Proof.
  intros Hwf. unfold evict.
  destruct (capacity l <=? Z.of_nat (size (cache l)))%Z eqn:Hcap; cycle 1.
  { apply Z.leb_gt in Hcap. by exists l. }
  apply Z.leb_le in Hcap.
  pose proof (wf_capacity _ _ Hwf) as Hpos.
  pose proof (wf_size _ _ Hwf) as Hsz.
  destruct (lifo_wf_nonempty l ls Hwf) as (p & ls' & ->); [lia|].
  destruct (wf_chain _ _ Hwf) as [Hhd (n & Hn & Hc)].
  destruct (wf_key _ _ Hwf p) as (n' & k & Hn' & Hk & Hck); [by left|].
  simplify_eq. pose proof (wf_nodup _ _ Hwf) as Hnd.
  apply NoDup_cons in Hnd as [Hp Hnd].
  rewrite Hhd, (load_Some _ _ _ Hn). simpl. rewrite Hk. simpl.
  rewrite (modify_Some _ _ _ _ Hn). simpl.
  eexists. split; [done|]. split; [split; simpl|].
  - by apply chain_frame.
  - done.
  - intros q Hq. destruct (wf_key _ _ Hwf q) as (nq & kq & Hnq & Hkq & Hcq); [by right|].
    assert (q ≠ p) by (by intros ->).
    exists nq, kq. rewrite list_lookup_insert_ne by done.
    split_and!; [done..|]. rewrite lookup_delete_ne; [done|]. by intros ->; simplify_eq.
  - intros kq q Hq.
    apply lookup_delete_Some in Hq as [Hne Hq].
    destruct (wf_cache _ _ Hwf _ _ Hq) as [Hin (nq & Hnq & Hkq)].
    assert (q ≠ p) by (intros ->; simplify_eq; congruence).
    apply elem_of_cons in Hin as [?|Hin]; [done|]. split; [done|].
    exists nq. by rewrite list_lookup_insert_ne.
  - done.
  - rewrite map_size_delete_Some by eauto. lia.
  - simpl. split_and!; [|done..|].
    + rewrite map_size_delete_Some by eauto.
      pose proof (map_size_ne_0_lookup_2 _ _ (mk_is_Some _ _ Hck)). lia.
    + intros q Hq. apply list_lookup_insert_ne. by intros ->.
Qed.

Lemma lifo_evict_wf l ls :
  wf l ls →
  ∃ l' ls', evict zeroV l = Ok l' ∧ wf l' ls' ∧
    (Z.of_nat (size (cache l')) < capacity l')%Z ∧
    capacity l' = capacity l ∧ stopped l' = stopped l.
Proof.
  intros Hwf. destruct (lifo_evict_list l ls Hwf) as (l' & ? & ? & ? & ? & ? & _).
  eexists l', _. by split_and!.
Qed.

Lemma lifo_lookup_update m a n n' p np :
  m !! a = Some n → key n' = key n → m !! p = Some np →
  ∃ np', <[a := n']> m !! p = Some np' ∧ key np' = key np.
Proof.
  intros Ha Hk Hp. destruct (decide (a = p)) as [->|Hne].
  - exists n'. rewrite list_lookup_insert_eq by (by eapply lookup_lt_Some).
    split; [done|congruence].
  - exists np. by rewrite list_lookup_insert_ne.
Qed.

(* the rest of [set] below capacity: the item of a cached key gets the
   value where it is, and a new key gets a new item in front of the head *)
Lemma lifo_store_list l ls k v :
  wf l ls → (Z.of_nat (size (cache l)) < capacity l)%Z →
  ∃ l', store zeroV l k v = Ok l' ∧
    capacity l' = capacity l ∧ stopped l' = stopped l ∧
    match cache l !! k with
    | Some p =>
        wf l' ls ∧ cache l' !! k = Some p ∧
        ∃ n, mem l !! p = Some n ∧ mem l' = <[p := with_value v n]> (mem l)
    | None =>
        wf l' (length (mem l) :: ls) ∧ cache l' !! k = Some (length (mem l)) ∧
        mem l' !! length (mem l) = Some {| next := head l; key := Some k; value := v |} ∧
        ∀ q, q ∈ ls → mem l' !! q = mem l !! q
    end.
Proof.
  intros Hwf Hsz. unfold store. destruct (cache l !! k) as [node|] eqn:Hk.
  - (* the key is cached: only the value of its item changes *)
    destruct (wf_cache _ _ Hwf _ _ Hk) as [Hin (n & Hn & Hkn)].
    rewrite (modify_Some _ _ _ _ Hn). simpl.
    eexists. split; [done|]. simpl. split_and!; [done|done| |done|by exists n].
    split; simpl; try apply Hwf.
    + eapply chain_update; [done|done|apply Hwf].
    + intros p Hp. destruct (wf_key _ _ Hwf p Hp) as (np & kp & Hnp & Hkp & Hcp).
      destruct (lifo_lookup_update (mem l) node n (with_value v n) p np) as (np' & ? & ?);
        [done..|]. exists np', kp. split_and!; [done|congruence|done].
    + intros kp p Hp. destruct (wf_cache _ _ Hwf _ _ Hp) as [? (np & Hnp & Hkp)].
      split; [done|].
      destruct (lifo_lookup_update (mem l) node n (with_value v n) p np) as (np' & ? & ?);
        [done..|]. exists np'. split; [done|congruence].
  - (* a new key: a new item is linked in front of the head *)
    unfold alloc. set (new := {| next := None; key := Some k; value := zeroV |}).
    set (node := length (mem l)).
    assert (Hfresh : ∀ p, p ∈ ls → p ≠ node).
    { intros p Hp. pose proof (chain_bound _ _ _ _ p (wf_chain _ _ Hwf) Hp). unfold node. lia. }
    assert (Hnew : (mem l ++ [new]) !! node = Some new).
    { unfold node. by rewrite lookup_app_r, Nat.sub_diag by done. }
    assert (Hlen : node < length (mem l ++ [new])).
    { rewrite length_app. simpl. unfold node. lia. }
    rewrite (modify_Some _ _ _ _ Hnew). simpl.
    rewrite (modify_Some _ _ (with_next (head l) new))
      by (by apply list_lookup_insert_eq).
    simpl. rewrite list_insert_insert_eq.
    set (n3 := with_value v (with_next (head l) new)).
    assert (Hn3 : <[node := n3]> (mem l ++ [new]) !! node = Some n3)
      by (by apply list_lookup_insert_eq).
    assert (Hold : ∀ p np, mem l !! p = Some np →
              <[node := n3]> (mem l ++ [new]) !! p = Some np).
    { intros p np Hp. pose proof (lookup_lt_Some _ _ _ Hp).
      rewrite list_lookup_insert_ne by (unfold node; lia).
      by apply lookup_app_l_Some. }
    eexists. split; [done|]. simpl. split_and!; [done|done| | |done|].
    + split; simpl.
      * split; [done|]. exists n3. split; [done|]. simpl.
        apply chain_frame; [intros Hin; by apply (Hfresh node)|].
        apply chain_alloc, Hwf.
      * apply NoDup_cons. split; [intros Hin; by apply (Hfresh node)|apply Hwf].
      * intros p Hp. apply elem_of_cons in Hp as [->|Hp].
        -- exists n3, k. split_and!; [done|done|]. by rewrite lookup_insert_eq.
        -- destruct (wf_key _ _ Hwf p Hp) as (np & kp & Hnp & Hkp & Hcp).
           exists np, kp. split_and!; [by apply Hold|done|].
           rewrite lookup_insert_ne; [done|congruence].
      * intros kp p Hp. apply lookup_insert_Some in Hp as [[<- <-]|[Hne Hp]].
        -- split; [by left|]. by exists n3.
        -- destruct (wf_cache _ _ Hwf _ _ Hp) as [Hin (np & Hnp & Hkp)].
           split; [by right|]. exists np. split; [by apply Hold|done].
      * apply Hwf.
      * rewrite map_size_insert_None by done. lia.
    + by rewrite lookup_insert_eq.
    + intros q Hq.
      pose proof (chain_bound _ _ _ _ q (wf_chain _ _ Hwf) Hq) as Hlt.
      destruct (lookup_lt_is_Some_2 (mem l) q Hlt) as [nq Hnq].
      by rewrite Hnq, (Hold _ _ Hnq).
Qed.

Lemma lifo_store_wf l ls k v :
  wf l ls → (Z.of_nat (size (cache l)) < capacity l)%Z →
  ∃ l' ls', store zeroV l k v = Ok l' ∧ wf l' ls' ∧
    capacity l' = capacity l ∧ stopped l' = stopped l ∧
    ∃ p n, cache l' !! k = Some p ∧ mem l' !! p = Some n ∧ value n = v.
Proof.
  intros Hwf Hsz.
  destruct (lifo_store_list l ls k v Hwf Hsz) as (l' & Hst & Hc & Hs & Hcase).
  destruct (cache l !! k) as [p|].
  - destruct Hcase as (Hwf' & Hk & n & Hn & Hm).
    exists l', ls. split_and!; [done..|]. exists p, (with_value v n).
    split_and!; [done| |done]. rewrite Hm.
    apply list_lookup_insert_eq. by eapply lookup_lt_Some.
  - destruct Hcase as (Hwf' & Hk & Hn & _).
    eexists l', _. split_and!; [done..|]. by eexists _, _.
Qed.

Lemma lifo_set_wf l ls k v :
  wf l ls → stopped l = 0%N →
  ∃ l' ls', set zeroV l k v = Ok l' ∧ wf l' ls' ∧
    capacity l' = capacity l ∧ stopped l' = 0%N ∧
    ∃ p n, cache l' !! k = Some p ∧ mem l' !! p = Some n ∧ value n = v.
Proof.
  intros Hwf Hs. unfold set, isStopped. rewrite Hs. simpl.
  destruct (lifo_evict_wf l ls Hwf) as (l1 & ls1 & -> & Hwf1 & Hsz & Hc1 & Hs1).
  simpl. destruct (lifo_store_wf l1 ls1 k v Hwf1 Hsz)
    as (l2 & ls2 & -> & Hwf2 & Hc2 & Hs2 & Hget).
  exists l2, ls2. split_and!; [done|done|congruence|congruence|done].
Qed.

Lemma lifo_get_wf l ls k :
  wf l ls → stopped l = 0%N →
  match cache l !! k with
  | None => get zeroV l k = Ok ((zeroV, false), l)
  | Some p => ∃ n, mem l !! p = Some n ∧ get zeroV l k = Ok ((value n, true), l)
  end.
Proof.
  intros Hwf Hs. unfold get, isStopped. rewrite Hs. simpl.
  destruct (cache l !! k) as [p|] eqn:Hk; [|done].
  destruct (wf_cache _ _ Hwf _ _ Hk) as [_ (n & Hn & _)].
  exists n. by rewrite (load_Some _ _ _ Hn).
Qed.

Lemma lifo_Stop_wf l ls :
  wf l ls → stop_inv l →
  ∃ l', Stop zeroV l = Ok l' ∧ wf l' [] ∧ stopped l' = 1%N ∧
    cache l' = ∅ ∧ head l' = None ∧ (stopped l = 1%N → l' = l).
Proof.
  intros Hwf [Hs|(Hs & Hc & Hh)]; unfold Stop; rewrite Hs.
  - destruct (unlink_chain next (λ _, zeroItem zeroV) (S (length (mem l)))
                  (mem l) (head l) ls) as (m' & Hm & _); [apply Hwf..| |].
    { apply Nat.le_le_succ_r. eapply chain_length; apply Hwf. }
    change (0 =? 0)%N with true. cbv iota. rewrite Hm. simpl.
    eexists. split; [done|]. split_and!; try done.
    split; simpl; try done; try apply Hwf.
    + apply NoDup_nil_2.
    + intros p Hp. by apply elem_of_nil in Hp.
    + rewrite map_size_empty. pose proof (wf_capacity _ _ Hwf). lia.
  - exists l. split_and!; try done.
    assert (ls = []) as ->; [|done].
    destruct ls; [done|]. destruct (wf_chain _ _ Hwf) as [? _]. congruence.
Qed.

Lemma lifo_reachable_inv l : reachable zeroV l → inv l.
Proof.
  induction 1 as [c l Hnew|l k v l' _ [Hs [ls Hwf]] Hset
                 |l k r l' _ IH Hget|l l' _ [Hs [ls Hwf]] Hstop].
  - unfold NewLIFO in Hnew. case_match eqn:Hc; [done|]. apply Z.leb_gt in Hc.
    simplify_eq. split; [by left|]. exists []. split; simpl; try done.
    + apply NoDup_nil_2.
    + intros p Hp. by apply elem_of_nil in Hp.
    + rewrite map_size_empty. lia.
  - destruct Hs as [Hs|(Hs & _)]; cycle 1.
    { unfold set, isStopped in Hset. by rewrite Hs in Hset. }
    destruct (lifo_set_wf l ls k v Hwf Hs) as (l2 & ls2 & Hset' & Hwf2 & _ & Hs2 & _).
    assert (l' = l2) as -> by congruence. split; [by left|by exists ls2].
  - unfold get in Hget. destruct (isStopped l); [done|].
    destruct (cache l !! k); [|by simplify_eq].
    apply bind_Ok in Hget as (? & _ & ?). by simplify_eq.
  - destruct (lifo_Stop_wf l ls Hwf Hs) as (l2 & Hstop' & Hwf2 & Hs2 & ? & ? & _).
    assert (l' = l2) as -> by congruence. split; [by right|by exists []].
Qed.

Lemma lifo_active l :
  reachable zeroV l → isStopped l = false → stopped l = 0%N ∧ ∃ ls, wf l ls.
Proof.
  intros Hr Hst. destruct (lifo_reachable_inv l Hr) as [[Hs|(Hs & _)] Hwf]; [done|].
  unfold isStopped in Hst. by rewrite Hs in Hst.
Qed.

Lemma lifo_sets_wf l ls ops :
  wf l ls → stopped l = 0%N →
  ∃ l' ls', sets zeroV l ops = Ok l' ∧ wf l' ls' ∧
    capacity l' = capacity l ∧ stopped l' = 0%N.
Proof.
  revert l ls. induction ops as [|[k v] ops IH]; intros l ls Hwf Hs.
  { by exists l, ls. }
  destruct (lifo_set_wf l ls k v Hwf Hs) as (l1 & ls1 & Hset & Hwf1 & Hc1 & Hs1 & _).
  destruct (IH l1 ls1 Hwf1 Hs1) as (l2 & ls2 & Hsets & Hwf2 & Hc2 & Hs2).
  exists l2, ls2. simpl. rewrite Hset. simpl. split_and!; [done..|congruence|done].
Qed.

(* the bound of the index, after every write and between the eviction and
   the insertion of the next one *)
Lemma lifo_capacity_bound (N : Z) ops :
  (0 < N)%Z →
  ∃ l0 l l1, NewLIFO N = Ok l0 ∧ sets zeroV l0 ops = Ok l ∧
    (Z.of_nat (size (cache l)) ≤ N)%Z ∧
    evict zeroV l = Ok l1 ∧ (Z.of_nat (size (cache l1)) < N)%Z.
Proof.
  intros HN. pose (l0 := {| cache := ∅; head := None;
                            capacity := N; stopped := 0; mem := [] |} : LIFO K V).
  assert (NewLIFO N = Ok l0) as Hnew.
  { unfold NewLIFO. by rewrite (proj2 (Z.leb_gt N 0)). }
  destruct (lifo_active l0) as [Hs0 [ls0 Hwf0]]; [by eapply reach_new|done|].
  destruct (lifo_sets_wf l0 ls0 ops Hwf0 Hs0) as (l & ls & Hsets & Hwf & Hc & Hs).
  destruct (lifo_evict_wf l ls Hwf) as (l1 & ls1 & Hev & _ & Hlt & Hc1 & _).
  exists l0, l, l1. split_and!; [done..| |done|].
  - pose proof (wf_size _ _ Hwf). simpl in *. lia.
  - simpl in *. lia.
Qed.

Lemma lifo_set_get l k v :
  reachable zeroV l → isStopped l = false →
  ∃ l', set zeroV l k v = Ok l' ∧ get zeroV l' k = Ok ((v, true), l').
Proof.
  intros Hr Hst. destruct (lifo_active l Hr Hst) as [Hs [ls Hwf]].
  destruct (lifo_set_wf l ls k v Hwf Hs)
    as (l' & ls' & Hset & Hwf' & _ & Hs' & p & n & Hc & Hn & Hv).
  exists l'. split; [done|]. pose proof (lifo_get_wf l' ls' k Hwf' Hs') as Hg.
  rewrite Hc in Hg. destruct Hg as (n' & Hn' & ->). congruence.
Qed.

Lemma lifo_get_pure l k :
  reachable zeroV l → isStopped l = false → ∃ r, get zeroV l k = Ok (r, l).
Proof.
  intros Hr Hst. destruct (lifo_active l Hr Hst) as [Hs [ls Hwf]].
  pose proof (lifo_get_wf l ls k Hwf Hs) as Hg.
  destruct (cache l !! k); [destruct Hg as (? & _ & ->)|]; eauto.
Qed.

Lemma lifo_Fetch_error {E} l k (fn : FetchFunc V E) v e :
  isStopped l = false → cache l !! k = None → fn () = (v, Some e) →
  Fetch zeroV l k fn = Ok ((zeroV, Some e), l) ∧
  get zeroV l k = Ok ((zeroV, false), l).
Proof.
  intros Hst Hk Hfn. unfold Fetch, get. rewrite Hst, Hk. simpl. by rewrite Hfn.
Qed.

Lemma lifo_Stop_spec l :
  reachable zeroV l →
  ∃ l', Stop zeroV l = Ok l' ∧
    cache l' = ∅ ∧ head l' = None ∧
    (∀ k, get zeroV l' k = Panicked CacheStopped) ∧
    (∀ k v, set zeroV l' k v = Panicked CacheStopped) ∧
    Stop zeroV l' = Ok l'.
Proof.
  intros Hr. destruct (lifo_reachable_inv l Hr) as [Hsi [ls Hwf]].
  destruct (lifo_Stop_wf l ls Hwf Hsi) as (l' & Hstop & _ & Hs' & Hc & Hh & _).
  exists l'. split_and!; try done.
  - intros k. unfold get, isStopped. by rewrite Hs'.
  - intros k v. unfold set, isStopped. by rewrite Hs'.
  - unfold Stop. by rewrite Hs'.
Qed.

(* below capacity, a write to a cached key changes the value of its item
   and nothing else *)
Lemma lifo_overwrite_below_capacity l k v p n :
  isStopped l = false → (Z.of_nat (size (cache l)) < capacity l)%Z →
  cache l !! k = Some p → mem l !! p = Some n →
  set zeroV l k v =
    Ok {| cache := cache l; head := head l;
          capacity := capacity l; stopped := stopped l;
          mem := <[p := with_value v n]> (mem l) |}.
Proof.
  intros Hst Hsz Hk Hn. unfold set, evict, store. rewrite Hst.
  rewrite (proj2 (Z.leb_gt _ _)) by done. simpl. rewrite Hk.
  by rewrite (modify_Some _ _ _ _ Hn).
Qed.

(* what the eviction block of [set] does: nothing below capacity, and at
   capacity the item at the head leaves the index and the list *)
Lemma lifo_evict_head l l' :
  evict zeroV l = Ok l' →
  ((Z.of_nat (size (cache l)) < capacity l)%Z ∧ l' = l) ∨
  ((capacity l ≤ Z.of_nat (size (cache l)))%Z ∧
   ∃ p n k, head l = Some p ∧ mem l !! p = Some n ∧ key n = Some k ∧
     cache l' = delete k (cache l) ∧ head l' = next n).
Proof.
  unfold evict. case_match eqn:Hcap.
  - apply Z.leb_le in Hcap. intros Hev. right. split; [done|].
    apply bind_Ok in Hev as (n & Hn & Hev).
    apply load_Ok in Hn as (p & Hp & Hn).
    apply bind_Ok in Hev as (k & Hk & Hev).
    destruct (key n) as [k'|] eqn:Hk'; [|done]. simpl in Hk. simplify_eq.
    apply bind_Ok in Hev as (m & _ & Hev). simplify_eq.
    by exists p, n, k.
  - apply Z.leb_gt in Hcap. intros [= <-]. by left.
Qed.

(* a new key goes to the head *)
Lemma lifo_set_new_head l k v :
  reachable zeroV l → isStopped l = false → cache l !! k = None →
  ∃ l' p, set zeroV l k v = Ok l' ∧ cache l' !! k = Some p ∧ head l' = Some p.
Proof.
  intros Hr Hst Hk. destruct (lifo_active l Hr Hst) as [Hs [ls Hwf]].
  destruct (lifo_set_wf l ls k v Hwf Hs) as (l' & ls' & Hset & _).
  exists l'. pose proof Hset as Hset0. unfold set in Hset. rewrite Hst in Hset.
  apply bind_Ok in Hset as (l1 & Hev & Hst1).
  assert (cache l1 !! k = None) as Hk1.
  { apply lifo_evict_head in Hev as [[_ ->]|(_ & p & n & k0 & _ & _ & _ & -> & _)];
      [done|]. by apply lookup_delete_None; right. }
  unfold store in Hst1. rewrite Hk1 in Hst1. unfold alloc in Hst1.
  apply bind_Ok in Hst1 as (m1 & _ & Hst1).
  apply bind_Ok in Hst1 as (m2 & _ & Hst1). simplify_eq. simpl.
  exists (length (mem l1)). split; [done|by rewrite lookup_insert_eq].
Qed.

(* the entries of the cache are those of the items of its list *)
Lemma lifo_wf_entries l ls :
  wf l ls → Forall2 (λ p e, entry key value (mem l) p = Some e) ls (entries l).
Proof.
  intros Hwf. destruct (list_entries_exist key value (mem l) ls) as [es Hes].
  { intros p Hp. destruct (wf_key _ _ Hwf p Hp) as (n & k & Hn & Hk & _).
    exists (k, value n). apply entry_Some. eauto. }
  unfold entries.
  by rewrite (list_entries_chain next key value (mem l) (head l) ls es)
    by (done || apply Hwf).
Qed.

Lemma lifo_wf_length l ls : wf l ls → length ls = size (cache l).
Proof.
  intros Hwf. apply (index_list_size _ _ (λ p, mem l !! p ≫= key)); [apply Hwf| |].
  - intros p Hp. destruct (wf_key _ _ Hwf p Hp) as (n & k & Hn & Hk & Hc).
    exists k. by rewrite Hn.
  - intros k p Hk. destruct (wf_cache _ _ Hwf _ _ Hk) as [Hp (n & Hn & Hkn)].
    by rewrite Hn.
Qed.

Lemma lifo_entries_length l ls : wf l ls → length (entries l) = size (cache l).
Proof.
  intros Hwf. rewrite <- (lifo_wf_length l ls Hwf). symmetry.
  eapply Forall2_length, lifo_wf_entries, Hwf.
Qed.

(* an entry of the list is the entry of its key in the index *)
Lemma lifo_entry_cache l ls p k v :
  wf l ls → p ∈ ls → entry key value (mem l) p = Some (k, v) → cache l !! k = Some p.
Proof.
  intros Hwf Hp He. apply entry_Some in He as (n & Hn & Hk & _).
  destruct (wf_key _ _ Hwf p Hp) as (n' & k' & Hn' & Hk' & Hc). simpl in *. congruence.
Qed.

Lemma lifo_entries_key l ls k :
  wf l ls → k ∈ (entries l).*1 ↔ is_Some (cache l !! k).
Proof.
  intros Hwf. pose proof (lifo_wf_entries l ls Hwf) as Hes. split.
  - intros Hk. apply list_elem_of_fmap in Hk as ([k' v] & -> & He).
    apply list_elem_of_lookup in He as [i Hi].
    destruct (Forall2_lookup_r _ _ _ _ _ Hes Hi) as (p & Hp & He).
    exists p. eapply lifo_entry_cache; [done| |done]. by eapply list_elem_of_lookup_2.
  - intros [p Hk]. destruct (wf_cache _ _ Hwf _ _ Hk) as [Hp (n & Hn & Hkn)].
    apply list_elem_of_lookup in Hp as [i Hi].
    destruct (Forall2_lookup_l _ _ _ _ _ Hes Hi) as ([k' v] & He & Hpe).
    apply list_elem_of_fmap. exists (k', v). split; [|by eapply list_elem_of_lookup_2].
    apply entry_Some in Hpe as (n' & Hn' & Hk' & _). simpl in *. congruence.
Qed.

Lemma lifo_entries_NoDup l ls : wf l ls → NoDup (entries l).*1.
Proof.
  intros Hwf. pose proof (lifo_wf_entries l ls Hwf) as Hes.
  apply NoDup_alt. intros i j k Hi Hj.
  rewrite list_lookup_fmap in Hi, Hj.
  destruct (entries l !! i) as [[k1 v1]|] eqn:Ei; [|done].
  destruct (entries l !! j) as [[k2 v2]|] eqn:Ej; [|done]. simpl in *. simplify_eq.
  destruct (Forall2_lookup_r _ _ _ _ _ Hes Ei) as (p1 & Hp1 & He1).
  destruct (Forall2_lookup_r _ _ _ _ _ Hes Ej) as (p2 & Hp2 & He2).
  pose proof (lifo_entry_cache l ls p1 k v1 Hwf (list_elem_of_lookup_2 _ _ _ Hp1) He1).
  pose proof (lifo_entry_cache l ls p2 k v2 Hwf (list_elem_of_lookup_2 _ _ _ Hp2) He2).
  assert (p1 = p2) as -> by congruence.
  eapply NoDup_lookup; [apply Hwf|done..].
Qed.

(* [Get] reads the entries *)
Lemma lifo_get_entries_wf l ls k :
  wf l ls → stopped l = 0%N →
  (∀ v, (k, v) ∈ entries l → get zeroV l k = Ok ((v, true), l)) ∧
  (k ∉ (entries l).*1 → get zeroV l k = Ok ((zeroV, false), l)).
Proof.
  intros Hwf Hs. pose proof (lifo_wf_entries l ls Hwf) as Hes.
  pose proof (lifo_get_wf l ls k Hwf Hs) as Hg. split.
  - intros v He. apply list_elem_of_lookup in He as [i Hi].
    destruct (Forall2_lookup_r _ _ _ _ _ Hes Hi) as (p & Hp & He).
    rewrite (lifo_entry_cache l ls p k v Hwf (list_elem_of_lookup_2 _ _ _ Hp) He) in Hg.
    destruct Hg as (n & Hn & ->). apply entry_Some in He as (n' & Hn' & _ & Hv).
    simpl in Hv. by assert (n' = n) as -> by congruence; subst.
  - intros Hk. destruct (cache l !! k) as [p|] eqn:Hc; [|done].
    exfalso. apply Hk. apply (lifo_entries_key l ls k Hwf). by rewrite Hc.
Qed.

(* [Set] on the entries: at capacity the first entry leaves; then the
   entry of the key gets the value, or a new entry is added in front *)
Lemma lifo_set_entries_wf l ls k v :
  wf l ls → stopped l = 0%N →
  ∃ l' ls', set zeroV l k v = Ok l' ∧ wf l' ls' ∧
    capacity l' = capacity l ∧ stopped l' = 0%N ∧
    entries l' =
      (let es := if (capacity l <=? Z.of_nat (length (entries l)))%Z
                 then drop 1 (entries l) else entries l in
       if decide (k ∈ es.*1)
       then (λ e, if decide (e.1 = k) then (k, v) else e) <$> es
       else (k, v) :: es).
Proof.
  intros Hwf Hs. unfold set, isStopped. rewrite Hs. simpl.
  rewrite (lifo_entries_length l ls Hwf).
  destruct (lifo_evict_list l ls Hwf) as (l1 & -> & Hwf1 & Hsz & Hc1 & Hs1 & Hm1).
  simpl.
  set (ls1 := if (capacity l <=? Z.of_nat (size (cache l)))%Z then drop 1 ls else ls) in *.
  set (es1 := if (capacity l <=? Z.of_nat (size (cache l)))%Z
              then drop 1 (entries l) else entries l).
  assert (entries l1 = es1) as He1.
  { eapply list_entries_chain; [apply Hwf1..|].
    apply Forall2_same_length_lookup. split.
    - pose proof (Forall2_length _ _ _ (lifo_wf_entries l ls Hwf)) as Hlen.
      unfold ls1, es1. destruct (_ <=? _)%Z; [|done]. by rewrite !length_drop, Hlen.
    - intros i p e Hp He.
      assert (entry key value (mem l1) p = entry key value (mem l) p) as ->.
      { unfold entry. by rewrite Hm1 by (by eapply list_elem_of_lookup_2). }
      pose proof (lifo_wf_entries l ls Hwf) as Hes. revert Hp He. unfold ls1, es1.
      destruct (_ <=? _)%Z; intros Hp He.
      + rewrite lookup_drop in Hp. rewrite lookup_drop in He.
        destruct (Forall2_lookup_l _ _ _ _ _ Hes Hp) as (e' & He' & Hpe). congruence.
      + destruct (Forall2_lookup_l _ _ _ _ _ Hes Hp) as (e' & He' & Hpe). congruence. }
  pose proof (lifo_wf_entries l1 ls1 Hwf1) as Hes1. rewrite He1 in Hes1.
  pose proof (lifo_entries_key l1 ls1 k Hwf1) as Hkey. rewrite He1 in Hkey.
  destruct (lifo_store_list l1 ls1 k v Hwf1 Hsz) as (l2 & -> & Hc2 & Hs2 & Hcase).
  destruct (cache l1 !! k) as [p|] eqn:Hk.
  - (* the key is cached *)
    destruct Hcase as (Hwf2 & Hk2 & n & Hn & Hm2).
    exists l2, ls1. split_and!; [done|done|congruence|congruence|].
    rewrite decide_True by (apply Hkey; eauto).
    eapply list_entries_chain; [apply Hwf2..|].
    apply Forall2_fmap_r, Forall2_same_length_lookup.
    split; [by eapply Forall2_length|].
    intros i q [kq vq] Hq He.
    destruct (Forall2_lookup_l _ _ _ _ _ Hes1 Hq) as (e' & He' & Hqe).
    assert (e' = (kq, vq)) as -> by congruence. simpl.
    pose proof (lifo_entry_cache l1 ls1 q kq vq Hwf1 (list_elem_of_lookup_2 _ _ _ Hq) Hqe)
      as Hcq.
    rewrite Hm2. destruct (decide (kq = k)) as [->|Hne].
    + assert (q = p) as -> by congruence. apply entry_Some.
      exists (with_value v n). split_and!; [|by apply entry_Some in Hqe as (n' & ? & ? & _); simpl in *; congruence|done].
      apply list_lookup_insert_eq. by eapply lookup_lt_Some.
    + rewrite entry_insert_ne; [done|]. intros ->.
      apply entry_Some in Hqe as (n' & Hn' & Hkq & _).
      destruct (wf_cache _ _ Hwf1 _ _ Hk) as [_ (n'' & Hn'' & Hk'')].
      simpl in *. congruence.
  - (* a new key *)
    destruct Hcase as (Hwf2 & Hk2 & Hn2 & Hm2).
    eexists l2, _. split_and!; [done|done|congruence|congruence|].
    rewrite decide_False by (intros Hin; apply Hkey in Hin as [? ?]; congruence).
    eapply list_entries_chain; [apply Hwf2..|].
    constructor; [apply entry_Some; eauto|].
    apply Forall2_same_length_lookup. split; [by eapply Forall2_length|].
    intros i q e Hq He.
    assert (entry key value (mem l2) q = entry key value (mem l1) q) as ->.
    { unfold entry. by rewrite Hm2 by (by eapply list_elem_of_lookup_2). }
    destruct (Forall2_lookup_l _ _ _ _ _ Hes1 Hq) as (e' & He' & Hqe). congruence.
Qed.

(* [Fetch] of a key that is not cached stores what the function
   returns, and the next [Fetch] does not call its function *)
Lemma lifo_Fetch_miss {E} l k (fn : FetchFunc V E) v :
  reachable zeroV l → isStopped l = false →
  cache l !! k = None → fn () = (v, None) →
  ∃ l', Fetch zeroV l k fn = Ok ((v, None), l') ∧ set zeroV l k v = Ok l' ∧
    ∀ fn' : FetchFunc V E, Fetch zeroV l' k fn' = Ok ((v, None), l').
Proof.
  intros Hr Hst Hk Hfn. destruct (lifo_active l Hr Hst) as [Hs [ls Hwf]].
  destruct (lifo_set_wf l ls k v Hwf Hs)
    as (l' & ls' & Hset & Hwf' & _ & Hs' & p & n & Hc & Hn & Hv).
  exists l'. unfold Fetch at 1, get. rewrite Hst, Hk. simpl. rewrite Hfn, Hset. simpl.
  split_and!; [done..|]. intros fn'.
  pose proof (lifo_get_wf l' ls' k Hwf' Hs') as Hg. rewrite Hc in Hg.
  destruct Hg as (n' & Hn' & Hg). unfold Fetch, isStopped. rewrite Hs', Hg. simpl.
  by assert (n' = n) as -> by congruence; subst.
Qed.

(* writes of keys that were never written before: the cache holds the
   first [capacity - 1] of them and the last one *)
Lemma lifo_sets_entries_wf kvs : ∀ l ls acc,
  wf l ls → stopped l = 0%N →
  entries l =
    (if decide (length acc < Z.to_nat (capacity l)) then reverse acc
     else drop (length acc - 1) acc ++ reverse (take (Z.to_nat (capacity l) - 1) acc)) →
  NoDup (acc ++ kvs).*1 →
  ∃ l' ls', sets zeroV l kvs = Ok l' ∧ wf l' ls' ∧
    entries l' =
      (if decide (length (acc ++ kvs) < Z.to_nat (capacity l)) then reverse (acc ++ kvs)
       else drop (length (acc ++ kvs) - 1) (acc ++ kvs) ++
            reverse (take (Z.to_nat (capacity l) - 1) (acc ++ kvs))).
Proof.
  induction kvs as [|[k v] kvs IH]; intros l ls acc Hwf Hs He Hnd.
  { exists l, ls. by rewrite app_nil_r. }
  destruct (lifo_set_entries_wf l ls k v Hwf Hs) as (l1 & ls1 & Hset & Hwf1 & Hc1 & Hs1 & He1).
  simpl. rewrite Hset. simpl.
  pose proof (wf_capacity _ _ Hwf) as Hpos.
  set (n := Z.to_nat (capacity l)) in *.
  assert (entries l1 =
          (if decide (length (acc ++ [(k, v)]) < Z.to_nat (capacity l1))
           then reverse (acc ++ [(k, v)])
           else drop (length (acc ++ [(k, v)]) - 1) (acc ++ [(k, v)]) ++
                reverse (take (Z.to_nat (capacity l1) - 1) (acc ++ [(k, v)])))) as He1'.
  { rewrite He1, Hc1. clear He1. fold n. simpl.
    assert (k ∉ acc.*1) as Hk.
    { rewrite fmap_app in Hnd. apply NoDup_app in Hnd as (_ & Hnd & _).
      intros Hin. apply (Hnd k Hin). by left. }
    assert (∀ x, x ∈ entries l → x ∈ acc) as Hsub.
    { intros x. rewrite He. case_decide.
      - by rewrite elem_of_reverse.
      - rewrite elem_of_app, elem_of_reverse. intros [Hx|Hx].
        + by eapply subseteq_drop.
        + by eapply subseteq_take. }
    rewrite decide_False; cycle 1.
    { intros Hin. apply Hk. apply list_elem_of_fmap in Hin as (x & -> & Hx).
      apply list_elem_of_fmap. exists x. split; [done|]. apply Hsub.
      destruct (_ <=? _)%Z; [by eapply subseteq_drop|done]. }
    rewrite length_app. simpl.
    assert (length (entries l) = if decide (length acc < n) then length acc else n)
      as Hlen.
    { rewrite He. case_decide.
      - by rewrite length_reverse.
      - rewrite length_app, length_drop, length_reverse, length_take. lia. }
    rewrite Hlen. rewrite He.
    destruct (decide (length acc < n)) as [Hlt|Hge].
    - rewrite (proj2 (Z.leb_gt _ _)) by lia.
      destruct (decide (length acc + 1 < n)) as [Hlt'|Hge'].
      + by rewrite reverse_app.
      + replace (length acc + 1 - 1) with (length acc) by lia.
        rewrite drop_app_length. replace (n - 1) with (length acc) by lia.
        by rewrite take_app_length.
    - rewrite (proj2 (Z.leb_le _ _)) by lia. rewrite decide_False by lia.
      replace (length acc + 1 - 1) with (length acc) by lia.
      rewrite drop_app_length. rewrite take_app_le by lia.
      assert (length (drop (length acc - 1) acc) = 1) as Hone.
      { rewrite length_drop. lia. }
      destruct (drop (length acc - 1) acc) as [|x [|? ?]]; simpl in Hone; try lia.
      done. }
  destruct (IH l1 ls1 (acc ++ [(k, v)]) Hwf1 Hs1 He1') as (l2 & ls2 & Hsets & Hwf2 & He2).
  { by rewrite <- app_assoc. }
  exists l2, ls2. split_and!; [done|done|]. rewrite He2, Hc1. by rewrite <- app_assoc.
Qed.

(* [Fetch] is a [get] and maybe a [set] *)
Lemma lifo_Fetch_reachable {E} l k (fn : FetchFunc V E) r l' :
  reachable zeroV l → Fetch zeroV l k fn = Ok (r, l') → reachable zeroV l'.
Proof.
  intros Hr Hf. unfold Fetch in Hf. destruct (isStopped l); [done|].
  apply bind_Ok in Hf as ([[x ok] l1] & Hget & Hf).
  assert (reachable zeroV l1) as Hr1 by (by eapply reach_get).
  destruct ok; [by simplify_eq|]. destruct (fn ()) as [v [e|]]; [by simplify_eq|].
  apply bind_Ok in Hf as (l2 & Hset & Hf). simplify_eq. by eapply reach_set.
Qed.

End facts.
End LIFO_facts.

(** ** Random: the capacity bound *)

Module Random_facts.
Import Random.
Section facts.
Context `{Countable K} {V : Type} (zeroV : V).
Implicit Types (l : Random K V) (order : list K).

Lemma random_range_order_exists (m : gmap K V) : ∃ order, range_order m order.
Proof.
  exists (map_to_list m).*1. split; [apply NoDup_fst_map_to_list|].
  intros k. rewrite list_elem_of_fmap. split.
  - intros [[k' v] [-> Hin]]. apply elem_of_map_to_list in Hin. by exists v.
  - intros [v Hv]. exists (k, v). split; [done|]. by apply elem_of_map_to_list.
Qed.

Lemma random_evicted_size order l :
  range_order (cache l) order → inv l →
  (Z.of_nat (size (evicted order l)) < capacity l)%Z.
Proof.
  intros [_ Hord] (Hpos & Hsz & _). unfold evicted.
  case_match eqn:Hcap; [apply Z.leb_le in Hcap|apply Z.leb_gt in Hcap; lia].
  destruct order as [|k order]; simpl.
  - assert (cache l = ∅) as ->; [|rewrite map_size_empty; lia].
    apply map_empty. intros k. apply eq_None_not_Some. rewrite <- Hord.
    apply not_elem_of_nil.
  - destruct (proj1 (Hord k)) as [v Hv]; [by left|].
    rewrite map_size_delete_Some by eauto.
    pose proof (map_size_ne_0_lookup_2 _ _ (mk_is_Some _ _ Hv)). lia.
Qed.

Lemma random_set_inv order l k v :
  range_order (cache l) order → inv l → stopped l = 0%N →
  ∃ l', set order l k v = Ok l' ∧ inv l' ∧ capacity l' = capacity l ∧
    stopped l' = 0%N ∧ cache l' !! k = Some v.
Proof.
  intros Hord Hinv Hs. unfold set, isStopped. rewrite Hs. simpl.
  eexists. split; [done|]. pose proof (random_evicted_size order l Hord Hinv) as Hlt.
  destruct Hinv as (Hpos & Hsz & _).
  assert (Z.of_nat (size (<[k:=v]> (evicted order l))) ≤ capacity l)%Z.
  { pose proof (map_size_insert k v (evicted order l)) as Hi.
    destruct (_ !! k) in Hi; simpl in Hi; lia. }
  split_and!; simpl; [split_and!; simpl; [done|done|by left]|done|done|].
  by rewrite lookup_insert_eq.
Qed.

Lemma random_reachable_inv l : reachable zeroV l → inv l.
Proof.
  induction 1 as [c l Hnew|l order k v l' _ IH Hord Hset
                 |l k r l' _ IH Hget|l l' _ IH Hstop].
  - unfold NewRandom in Hnew. case_match eqn:Hc; [done|]. apply Z.leb_gt in Hc.
    simplify_eq. split_and!; simpl; [done| |by left].
    rewrite map_size_empty. lia.
  - destruct (IH) as (_ & _ & [Hs|[Hs _]]); cycle 1.
    { unfold set, isStopped in Hset. by rewrite Hs in Hset. }
    destruct (random_set_inv order l k v Hord IH Hs) as (l2 & Hset' & ? & _).
    by assert (l' = l2) as -> by congruence.
  - unfold get in Hget. destruct (isStopped l); [done|].
    destruct (cache l !! k); by simplify_eq.
  - unfold Stop in Hstop. destruct IH as (Hpos & Hsz & Hs).
    case_match; simplify_eq; [|done]. split_and!; simpl; [done| |by right].
    rewrite map_size_empty. lia.
Qed.

Lemma random_active l :
  reachable zeroV l → isStopped l = false → stopped l = 0%N ∧ inv l.
Proof.
  intros Hr Hst. pose proof (random_reachable_inv l Hr) as Hinv. split; [|done].
  destruct Hinv as (_ & _ & [Hs|[Hs _]]); [done|].
  unfold isStopped in Hst. by rewrite Hs in Hst.
Qed.

Lemma random_sets_inv l ops l' :
  sets l ops l' → inv l → stopped l = 0%N →
  inv l' ∧ capacity l' = capacity l ∧ stopped l' = 0%N.
Proof.
  induction 1 as [l|l order k v l1 ops l2 Hord Hset _ IH]; intros Hinv Hs; [done|].
  destruct (random_set_inv order l k v Hord Hinv Hs) as (l1' & Hset' & Hinv1 & Hc1 & Hs1 & _).
  assert (l1' = l1) as -> by congruence.
  destruct (IH Hinv1 Hs1) as (? & ? & ?). split_and!; [done|congruence|done].
Qed.

Lemma random_sets_exists l ops :
  inv l → stopped l = 0%N → ∃ l', sets l ops l'.
Proof.
  revert l. induction ops as [|[k v] ops IH]; intros l Hinv Hs.
  { exists l. constructor. }
  destruct (random_range_order_exists (cache l)) as [order Hord].
  destruct (random_set_inv order l k v Hord Hinv Hs) as (l1 & Hset & Hinv1 & _ & Hs1 & _).
  destruct (IH l1 Hinv1 Hs1) as [l2 Hsets].
  exists l2. by eapply sets_cons.
Qed.

(* the bound of the index, after every write and between the eviction and
   the insertion of the next one, whatever the orders of the [range]
   statements *)
Lemma random_capacity_bound (N : Z) ops :
  (0 < N)%Z →
  ∃ l0, NewRandom N = Ok l0 ∧ (∃ l, sets l0 ops l) ∧
    ∀ l, sets l0 ops l →
      (Z.of_nat (size (cache l)) ≤ N)%Z ∧
      ∀ order, range_order (cache l) order →
        (Z.of_nat (size (evicted order l)) < N)%Z.
Proof.
  intros HN. pose (l0 := {| cache := ∅; capacity := N; stopped := 0 |} : Random K V).
  assert (NewRandom N = Ok l0) as Hnew.
  { unfold NewRandom. by rewrite (proj2 (Z.leb_gt N 0)). }
  destruct (random_active l0) as [Hs0 Hinv0]; [by eapply reach_new|done|].
  exists l0. split_and!; [done|by apply random_sets_exists|].
  intros l Hsets. destruct (random_sets_inv _ _ _ Hsets Hinv0 Hs0) as (Hinv & Hc & Hs).
  simpl in Hc. split.
  - destruct Hinv as (_ & ? & _). lia.
  - intros order Hord. pose proof (random_evicted_size order l Hord Hinv). lia.
Qed.

Lemma random_set_get order l k v :
  reachable zeroV l → isStopped l = false → range_order (cache l) order →
  ∃ l', set order l k v = Ok l' ∧ get zeroV l' k = Ok ((v, true), l').
Proof.
  intros Hr Hst Hord. destruct (random_active l Hr Hst) as [Hs Hinv].
  destruct (random_set_inv order l k v Hord Hinv Hs) as (l' & Hset & _ & _ & Hs' & Hc).
  exists l'. split; [done|]. unfold get, isStopped. by rewrite Hs', Hc.
Qed.

Lemma random_get_pure l k :
  isStopped l = false → ∃ r, get zeroV l k = Ok (r, l).
Proof. intros Hst. unfold get. rewrite Hst. destruct (cache l !! k); eauto. Qed.

Lemma random_Fetch_error {E} order l k (fn : FetchFunc V E) v e :
  isStopped l = false → cache l !! k = None → fn () = (v, Some e) →
  Fetch zeroV order l k fn = Ok ((zeroV, Some e), l) ∧
  get zeroV l k = Ok ((zeroV, false), l).
Proof.
  intros Hst Hk Hfn. unfold Fetch, get. rewrite Hst, Hk. simpl. by rewrite Hfn.
Qed.

Lemma random_Stop_spec l :
  reachable zeroV l →
  ∃ l', Stop l = Ok l' ∧ cache l' = ∅ ∧
    (∀ k, get zeroV l' k = Panicked CacheStopped) ∧
    (∀ order k v, set order l' k v = Panicked CacheStopped) ∧
    Stop l' = Ok l'.
Proof.
  intros Hr. destruct (random_reachable_inv l Hr) as (_ & _ & [Hs|[Hs Hc]]).
  - eexists. unfold Stop at 1. rewrite Hs. split; [done|]. by split_and!.
  - exists l. unfold Stop, get, set, isStopped. rewrite Hs. by split_and!.
Qed.

(* [Set] loses nothing below capacity, and at capacity it loses the first
   key that the [range] statement visits, and nothing else *)
Lemma random_set_evicts_one order l k v :
  reachable zeroV l → isStopped l = false → range_order (cache l) order →
  ∃ l', set order l k v = Ok l' ∧
    ((Z.of_nat (size (cache l)) < capacity l)%Z →
       cache l' = <[k := v]> (cache l)) ∧
    ((capacity l ≤ Z.of_nat (size (cache l)))%Z →
       ∃ k0 v0 rest, order = k0 :: rest ∧ cache l !! k0 = Some v0 ∧
         cache l' = <[k := v]> (delete k0 (cache l))).
Proof.
  intros Hr Hst Hord. destruct (random_active l Hr Hst) as [Hs (Hpos & Hsz & _)].
  unfold set. rewrite Hst. eexists. split; [done|]. simpl. unfold evicted. split.
  - intros Hlt. by rewrite (proj2 (Z.leb_gt _ _)) by done.
  - intros Hle. rewrite (proj2 (Z.leb_le _ _)) by done.
    destruct order as [|k0 rest].
    + exfalso. assert (size (cache l) ≠ 0) as Hne by lia.
      apply map_size_ne_0_lookup in Hne as (k1 & v1 & Hk1).
      destruct Hord as [_ Hord]. eapply not_elem_of_nil, Hord. eauto.
    + destruct Hord as [_ Hord]. destruct (proj1 (Hord k0)) as [v0 Hv0]; [by left|].
      by exists k0, v0, rest.
Qed.

(* [Fetch] of a key that is not cached stores what the function
   returns, and the next [Fetch] does not call its function *)
Lemma random_Fetch_miss {E} order l k (fn : FetchFunc V E) v :
  reachable zeroV l → isStopped l = false → range_order (cache l) order →
  cache l !! k = None → fn () = (v, None) →
  ∃ l', Fetch zeroV order l k fn = Ok ((v, None), l') ∧ set order l k v = Ok l' ∧
    ∀ order' (fn' : FetchFunc V E), Fetch zeroV order' l' k fn' = Ok ((v, None), l').
Proof.
  intros Hr Hst Hord Hk Hfn. destruct (random_active l Hr Hst) as [Hs Hinv].
  destruct (random_set_inv order l k v Hord Hinv Hs) as (l' & Hset & _ & _ & Hs' & Hc).
  exists l'. unfold Fetch at 1, get. rewrite Hst, Hk. simpl. rewrite Hfn, Hset. simpl.
  split_and!; [done..|]. intros order' fn'. unfold Fetch, get, isStopped.
  by rewrite Hs', Hc.
Qed.

(* [Fetch] is a [get] and maybe a [set] *)
Lemma random_Fetch_reachable {E} order l k (fn : FetchFunc V E) r l' :
  reachable zeroV l → range_order (cache l) order →
  Fetch zeroV order l k fn = Ok (r, l') → reachable zeroV l'.
Proof.
  intros Hr Hord Hf. unfold Fetch in Hf. destruct (isStopped l) eqn:Hst; [done|].
  destruct (random_get_pure l k Hst) as [[x ok] Hget]. rewrite Hget in Hf.
  simpl in Hf. destruct ok; [by simplify_eq|].
  destruct (fn ()) as [v [e|]]; [by simplify_eq|].
  apply bind_Ok in Hf as (l2 & Hset & Hf). simplify_eq. by eapply reach_set.
Qed.

End facts.
End Random_facts.

(** ** LRU: the representation invariant *)

Module LRU_facts.
Import LRU.
Section facts.
Context `{Countable K} {V : Type} (zeroV : V).
Implicit Types (l : LRU K V) (m : list (lruListItem K V)) (ls : list loc).
Implicit Types (pv h e : option loc).

Lemma last_or_snoc pv ls p : last_or pv (ls ++ [p]) = Some p.
Proof. unfold last_or. by rewrite last_snoc. Qed.

Lemma lru_dllseg_agree m m' pv h ls e :
  (∀ p, p ∈ ls → m' !! p = m !! p) → dllseg m pv h ls e → dllseg m' pv h ls e.
Proof.
  revert pv h. induction ls as [|q ls IH]; intros pv h Hag Hd; [done|].
  destruct Hd as [-> (n & Hn & Hp & Hd)]. split; [done|].
  exists n. rewrite Hag by (by left). split_and!; [done..|].
  apply IH; [|done]. intros p Hp'. apply Hag. by right.
Qed.

Lemma lru_dllseg_frame m pv h ls e a n :
  a ∉ ls → dllseg m pv h ls e → dllseg (<[a := n]> m) pv h ls e.
Proof.
  intros Ha. apply lru_dllseg_agree. intros p Hp.
  apply list_lookup_insert_ne. by intros ->.
Qed.

Lemma lru_dllseg_bound m pv h ls e p : dllseg m pv h ls e → p ∈ ls → p < length m.
Proof.
  revert pv h. induction ls as [|q ls IH]; intros pv h Hd Hp; [by apply elem_of_nil in Hp|].
  destruct Hd as [_ (n & Hn & _ & Hd)].
  apply elem_of_cons in Hp as [->|Hp]; [by eapply lookup_lt_Some|eauto].
Qed.

Lemma lru_dllseg_alloc m pv h ls e n :
  dllseg m pv h ls e → dllseg (m ++ [n]) pv h ls e.
Proof.
  intros Hd. eapply lru_dllseg_agree; [|done]. intros p Hp.
  apply lookup_app_l. by eapply lru_dllseg_bound.
Qed.

Lemma lru_dllseg_app m pv h xs ys e :
  dllseg m pv h (xs ++ ys) e ↔
  ∃ mid, dllseg m pv h xs mid ∧ dllseg m (last_or pv xs) mid ys e.
Proof.
  revert pv h. induction xs as [|p xs IH]; intros pv h; simpl.
  - split; [intros Hd; by exists h|by intros (mid & -> & Hd)].
  - split.
    + intros [-> (n & Hn & Hp & Hd)]. apply IH in Hd as (mid & Hd1 & Hd2).
      exists mid. split; [split; [done|]; by exists n|].
      unfold last_or in *. rewrite last_cons. by destruct (last xs).
    + intros (mid & [-> (n & Hn & Hp & Hd1)] & Hd2). split; [done|].
      exists n. split_and!; [done..|]. apply IH. exists mid. split; [done|].
      unfold last_or in *. rewrite last_cons in Hd2. by destruct (last xs).
Qed.

Lemma lru_dllseg_chain m pv h ls : dllseg m pv h ls None → chain next m h ls.
Proof.
  revert pv h. induction ls as [|p ls IH]; intros pv h Hd; [done|].
  destruct Hd as [-> (n & Hn & _ & Hd)]. split; [done|]. exists n. eauto.
Qed.

(* a write that keeps the links *)
Lemma lru_dllseg_update m pv h ls e a n n' :
  m !! a = Some n → prev n' = prev n → next n' = next n →
  dllseg m pv h ls e → dllseg (<[a := n']> m) pv h ls e.
Proof.
  intros Ha Hp Hn. revert pv h. induction ls as [|q ls IH]; intros pv h Hd; [done|].
  destruct Hd as [-> (nq & Hq & Hpq & Hd)]. split; [done|].
  destruct (decide (a = q)) as [->|Hne].
  - exists n'. rewrite list_lookup_insert_eq by (by eapply lookup_lt_Some).
    assert (nq = n) as -> by congruence. rewrite Hp, Hn. eauto.
  - exists nq. rewrite list_lookup_insert_ne by done. eauto.
Qed.

Lemma lru_kv_le_refl m : kv_le m m.
Proof. split; [done|]. intros a na Ha. by exists na. Qed.

Lemma lru_kv_le_trans m1 m2 m3 : kv_le m1 m2 → kv_le m2 m3 → kv_le m1 m3.
Proof.
  intros [Hl1 H1] [Hl2 H2]. split; [congruence|].
  intros a na Ha. destruct (H1 _ _ Ha) as (na' & Ha' & ? & ?).
  destruct (H2 _ _ Ha') as (na'' & Ha'' & ? & ?).
  exists na''. split_and!; congruence.
Qed.

Lemma lru_kv_le_insert m a n n' :
  m !! a = Some n → key n' = key n → value n' = value n → kv_le m (<[a := n']> m).
Proof.
  intros Ha Hk Hv. split; [apply length_insert|]. intros p np Hp.
  destruct (decide (a = p)) as [->|Hne].
  - exists n'. rewrite list_lookup_insert_eq by (by eapply lookup_lt_Some).
    assert (np = n) as -> by congruence. done.
  - exists np. by rewrite list_lookup_insert_ne.
Qed.

Lemma lru_kv_le_entry m m' q :
  kv_le m m' → q < length m → entry key value m' q = entry key value m q.
Proof.
  intros [_ Hkv] Hq. destruct (lookup_lt_is_Some_2 m q Hq) as [n Hn].
  destruct (Hkv q n Hn) as (n' & Hn' & Hk & Hv).
  unfold entry. by rewrite Hn, Hn'; simpl; rewrite Hk, Hv.
Qed.

Lemma lru_detach_spec l xs node q ys :
  dllseg (mem l) None (head l) (xs ++ node :: q :: ys) None →
  NoDup (xs ++ node :: q :: ys) →
  ∃ l', detach l node = Ok l' ∧
    dllseg (mem l') None (head l') (xs ++ q :: ys) None ∧
    kv_le (mem l) (mem l') ∧
    cache l' = cache l ∧ tail l' = tail l ∧
    capacity l' = capacity l ∧ stopped l' = stopped l.
Proof.
  intros Hd Hnd. apply lru_dllseg_app in Hd as (mid & Hd1 & Hd2).
  destruct Hd2 as [-> (n & Hn & Hpn & [Hnn (nq & Hq & Hpq & Hd2)])].
  apply NoDup_app in Hnd as (Hnd1 & Hdisj & Hnd2).
  apply NoDup_cons in Hnd2 as [Hnode Hnd2].
  apply NoDup_cons in Hnd2 as [Hq2 Hnd2].
  assert (node ≠ q) by (intros ->; apply Hnode; by left).
  unfold detach. rewrite (load_Some _ _ _ Hn). simpl.
  destruct (list_snoc_or_nil xs) as [->|(xs0 & p & ->)].
  - (* the node is the head *)
    simpl in Hd1. rewrite Hd1, bool_decide_eq_true_2 by done. simpl.
    rewrite (load_Some _ _ _ Hn). simpl. unfold last_or in Hpn. simpl in Hpn.
    rewrite Hpn. simpl. rewrite (load_Some _ _ _ Hn). simpl.
    rewrite Hnn, Hpn. rewrite (modify_Some _ _ _ _ Hq). simpl.
    eexists. split; [done|]. simpl. split_and!; try done.
    + exists (with_prev None nq).
      rewrite list_lookup_insert_eq by (by eapply lookup_lt_Some).
      split_and!; [done..|]. simpl. by apply lru_dllseg_frame.
    + by apply (lru_kv_le_insert _ _ nq).
  - (* the node has a predecessor [p] *)
    rewrite last_or_snoc in Hpn.
    apply lru_dllseg_app in Hd1 as (mid & Hd1 & [-> (np & Hp & Hpp & Hnp)]).
    simpl in Hnp.
    assert (p ≠ node).
    { intros ->. apply (Hdisj node); [apply elem_of_app; right|]; by left. }
    assert (p ≠ q).
    { intros ->. apply (Hdisj q); [apply elem_of_app; right; by left|]. right; by left. }
    assert (head l ≠ Some node) as Hhd.
    { intros Hh. destruct xs0 as [|a xs0].
      - simpl in Hd1. congruence.
      - destruct Hd1 as [Ha _]. assert (a = node) as -> by congruence.
        apply (Hdisj node); by left. }
    rewrite bool_decide_eq_false_2 by done.
    rewrite (load_Some _ _ _ Hn). simpl. rewrite Hpn. simpl.
    rewrite (modify_Some _ _ _ _ Hp). simpl.
    rewrite (load_Some _ _ n) by (by rewrite list_lookup_insert_ne). simpl.
    rewrite Hnn, Hpn.
    rewrite (modify_Some _ _ nq) by (by rewrite list_lookup_insert_ne). simpl.
    eexists. split; [done|]. simpl. split_and!; try done.
    + rewrite <- app_assoc. simpl. apply lru_dllseg_app. exists (Some p).
      apply NoDup_app in Hnd1 as (Hnd1 & Hdisj1 & _).
      split.
      * apply lru_dllseg_frame.
        { intros Hin. apply (Hdisj q); [apply elem_of_app; by left|]. right; by left. }
        apply lru_dllseg_frame; [|done].
        intros Hin. apply (Hdisj1 p); [done|by left].
      * split; [done|]. exists (with_next (Some q) np).
        rewrite list_lookup_insert_ne by done.
        rewrite list_lookup_insert_eq by (by eapply lookup_lt_Some).
        split_and!; [done..|]. simpl. split; [done|].
        exists (with_prev (Some p) nq).
        rewrite list_lookup_insert_eq
          by (rewrite length_insert; by eapply lookup_lt_Some).
        split_and!; [done..|]. simpl.
        apply lru_dllseg_frame; [done|]. apply lru_dllseg_frame; [|done].
        intros Hin. apply (Hdisj p); [apply elem_of_app; right; by left|].
        right. by right.
    + apply lru_kv_le_trans with (<[p := with_next (Some q) np]> (mem l));
        [by apply (lru_kv_le_insert _ p np)|].
      apply (lru_kv_le_insert _ q nq); [|done..].
      by rewrite list_lookup_insert_ne.
Qed.

Lemma lru_dllseg_snoc m m' pv h ls t nt node nn :
  dllseg m pv h ls None → NoDup ls → last ls = Some t → m !! t = Some nt →
  (∀ p, p ∈ ls → p ≠ t → m' !! p = m !! p) →
  m' !! t = Some (with_next (Some node) nt) →
  m' !! node = Some nn → prev nn = Some t → next nn = None →
  dllseg m' pv h (ls ++ [node]) None.
Proof.
  intros Hd Hnd Hl Ht Hag Ht' Hn Hpn Hnn. revert pv h Hd Hnd Hl Hag.
  induction ls as [|q ls IH]; intros pv h Hd Hnd Hl Hag; [done|].
  destruct Hd as [-> (nq & Hq & Hpq & Hd)]. apply NoDup_cons in Hnd as [Hq' Hnd].
  simpl. split; [done|]. destruct ls as [|q' ls].
  - simpl in Hl, Hd. assert (q = t) as -> by congruence.
    assert (nq = nt) as -> by congruence.
    exists (with_next (Some node) nt). split_and!; [done..|]. simpl.
    split; [done|]. by exists nn.
  - rewrite last_cons_cons in Hl.
    assert (q ≠ t).
    { intros ->. apply Hq'. by apply last_Some_elem_of. }
    exists nq. rewrite Hag by (done || by left). split_and!; [done..|].
    apply IH; [done..|]. intros p Hp. apply Hag. by right.
Qed.

Lemma lru_attach_spec l ls pv node n :
  dllseg (mem l) pv (head l) ls None → NoDup ls → node ∉ ls →
  mem l !! node = Some n →
  (ls ≠ [] → tail l = last ls) →
  (∀ t, tail l = Some t → t < length (mem l)) →
  tail l ≠ Some node →
  ∃ l', attach l node = Ok l' ∧
    dllseg (mem l') (match ls with [] => tail l | _ => pv end) (head l')
      (ls ++ [node]) None ∧
    tail l' = Some node ∧ kv_le (mem l) (mem l') ∧
    cache l' = cache l ∧ capacity l' = capacity l ∧ stopped l' = stopped l.
Proof.
  intros Hd Hnd Hnode Hn Hlast Hbound Hne. unfold attach.
  pose proof (lookup_lt_Some _ _ _ Hn) as Hlen.
  destruct (tail l) as [t|] eqn:Ht.
  - assert (t ≠ node) by congruence.
    destruct (lookup_lt_is_Some_2 (mem l) t) as [nt Hnt]; [by apply Hbound|].
    rewrite (modify_Some _ _ _ _ Hnt). simpl.
    rewrite (modify_Some _ _ n) by (by rewrite list_lookup_insert_ne). simpl.
    rewrite (modify_Some _ _ (with_next None n))
      by (apply list_lookup_insert_eq; by rewrite length_insert).
    simpl. rewrite list_insert_insert_eq.
    set (nn := with_prev (Some t) (with_next None n)).
    set (m' := <[node := nn]> (<[t := with_next (Some node) nt]> (mem l))).
    assert (Hn' : m' !! node = Some nn).
    { apply list_lookup_insert_eq. by rewrite length_insert. }
    assert (Hkv : kv_le (mem l) m').
    { apply lru_kv_le_trans with (<[t := with_next (Some node) nt]> (mem l));
        [by apply (lru_kv_le_insert _ t nt)|].
      apply (lru_kv_le_insert _ node n); [|done..].
      by rewrite list_lookup_insert_ne. }
    destruct ls as [|q ls].
    + simpl in Hd. rewrite Hd. simpl. eexists. split; [done|]. simpl.
      split_and!; try done. by exists nn.
    + assert (dllseg m' pv (head l) ((q :: ls) ++ [node]) None) as Hgoal.
      { apply (lru_dllseg_snoc (mem l) m' pv (head l) (q :: ls) t nt node nn);
          try done.
        * symmetry. by apply Hlast.
        * intros p Hp Hpt. unfold m'. rewrite !list_lookup_insert_ne; try done.
          by intros ->.
        * unfold m'. rewrite list_lookup_insert_ne by done.
          apply list_lookup_insert_eq. by eapply lookup_lt_Some. }
      destruct Hd as [Hh Hd']. simpl. rewrite Hh.
      eexists. split; [done|]. split; [|by split_and!].
      simpl. by rewrite Hh in Hgoal |- *.
  - assert (ls = []) as ->.
    { destruct ls; [done|]. specialize (Hlast ltac:(done)).
      symmetry in Hlast. by apply last_None in Hlast. }
    simpl in Hd. simpl.
    rewrite (modify_Some _ _ _ _ Hn). simpl.
    rewrite (modify_Some _ _ (with_next None n)) by (by apply list_lookup_insert_eq).
    simpl. rewrite list_insert_insert_eq, Hd. eexists. split; [done|]. simpl.
    split_and!; try done.
    + eexists. rewrite list_lookup_insert_eq by done. done.
    + by apply (lru_kv_le_insert _ node n).
Qed.

Lemma lru_moveToTail_spec l ls pv node n :
  dllseg (mem l) pv (head l) ls None →
  (pv = None ∨ (capacity l = 1)%Z) →
  ((capacity l = 1)%Z → length ls ≤ 1) →
  (ls ≠ [] → tail l = last ls) →
  (ls = [] → tail l = None ∨ (capacity l = 1)%Z) →
  (∀ t, tail l = Some t → t < length (mem l)) →
  NoDup ls →
  mem l !! node = Some n →
  (node ∈ ls ∨ ((node ∉ ls) ∧ tail l ≠ Some node ∧ prev n = None ∧ next n = None)) →
  ∃ l' ls' pv',
    moveToTail l node = Ok l' ∧
    dllseg (mem l') pv' (head l') ls' None ∧
    (pv' = None ∨ (capacity l' = 1)%Z) ∧
    tail l' = Some node ∧ last ls' = Some node ∧ NoDup ls' ∧
    (∀ p, p ∈ ls' ↔ p ∈ ls ∨ p = node) ∧
    length ls' = (if bool_decide (node ∈ ls) then length ls else S (length ls)) ∧
    kv_le (mem l) (mem l') ∧
    cache l' = cache l ∧ capacity l' = capacity l ∧ stopped l' = stopped l ∧
    ls' = filter (λ p, p ≠ node) ls ++ [node].
Proof.
  intros Hd Hpv Hcap1 Hlast Hempty Hbound Hnd Hn Hcase. unfold moveToTail.
  case_bool_decide as Ht.
  - (* the node is the tail already *)
    assert (node ∈ ls) as Hin by (destruct Hcase as [?|(_ & ? & _)]; done).
    assert (ls ≠ []) as Hne by (intros ->; by apply elem_of_nil in Hin).
    exists l, ls, pv. rewrite bool_decide_eq_true_2 by done.
    split_and!; try done.
    + rewrite <- Ht. symmetry. by apply Hlast.
    + intros p. split; [by left|]. by intros [?| ->].
    + apply lru_kv_le_refl.
    + destruct (list_snoc_or_nil ls) as [?|(xs & x & ->)]; [done|].
      rewrite Hlast, last_snoc in Ht by done. simplify_eq.
      rewrite (filter_ne_split node xs []) by done. by rewrite app_nil_r.
  - destruct Hcase as [Hin|(Hnin & _ & Hpn & Hnn)].
    + (* the node leaves its place and becomes the tail *)
      apply list_elem_of_split in Hin as (xs & rest & ->).
      destruct rest as [|q ys].
      { exfalso. apply Ht. rewrite Hlast by (by destruct xs).
        by rewrite last_snoc. }
      assert (pv = None) as ->.
      { destruct Hpv as [?|Hc]; [done|]. specialize (Hcap1 Hc).
        rewrite length_app in Hcap1. simpl in Hcap1. lia. }
      destruct (lru_detach_spec l xs node q ys Hd Hnd)
        as (l1 & -> & Hd1 & Hkv1 & Hc1 & Ht1 & Hcp1 & Hs1).
      simpl.
      pose proof Hnd as Hnd'.
      apply NoDup_app in Hnd' as (Hndx & Hdisj & Hndn).
      apply NoDup_cons in Hndn as [Hnode Hndy].
      assert (NoDup (xs ++ q :: ys)) as Hnd1.
      { apply NoDup_app. split_and!; [done| |done].
        intros x Hx Hx'. apply (Hdisj x Hx). by right. }
      assert (node ∉ xs ++ q :: ys) as Hnin.
      { intros Hin. apply elem_of_app in Hin as [Hin|Hin]; [|done].
        apply (Hdisj node Hin). by left. }
      destruct (proj2 Hkv1 _ _ Hn) as (n1 & Hn1 & _).
      assert (tail l1 = last (xs ++ q :: ys)) as Hlast1.
      { rewrite Ht1, Hlast by (by destruct xs).
        rewrite !last_app. simpl. by rewrite !last_cons. }
      destruct (lru_attach_spec l1 (xs ++ q :: ys) None node n1)
        as (l2 & -> & Hd2 & Ht2 & Hkv2 & Hc2 & Hcp2 & Hs2); try done.
      { intros t Ht'. rewrite (proj1 Hkv1). apply Hbound. congruence. }
      { congruence. }
      exists l2, ((xs ++ q :: ys) ++ [node]), None.
      rewrite bool_decide_eq_true_2
        by (apply elem_of_app; right; by left).
      split_and!; try done; try congruence.
      * by destruct xs.
      * by rewrite last_snoc.
      * apply NoDup_app. split_and!; [done| |apply NoDup_singleton].
        intros x Hx Hx'. apply list_elem_of_singleton in Hx' as ->. done.
      * intros p. rewrite elem_of_app, list_elem_of_singleton.
        rewrite !elem_of_app, !elem_of_cons. tauto.
      * rewrite !length_app. simpl. lia.
      * by eapply lru_kv_le_trans.
      * by rewrite (filter_ne_split node xs (q :: ys)).
    + (* a new node: it is linked behind the tail *)
      assert (head l ≠ Some node) as Hhd.
      { intros Hh. destruct ls as [|a ls]; [simpl in Hd; congruence|].
        destruct Hd as [Hh' _]. apply Hnin.
        assert (a = node) as -> by congruence. by left. }
      assert (detach l node = Ok l) as Hdet.
      { unfold detach. rewrite (load_Some _ _ _ Hn). simpl.
        rewrite bool_decide_eq_false_2 by done.
        rewrite (load_Some _ _ _ Hn). simpl. rewrite Hpn. simpl.
        rewrite (load_Some _ _ _ Hn). simpl. rewrite Hnn. simpl.
        by destruct l. }
      rewrite Hdet. simpl.
      destruct (lru_attach_spec l ls pv node n)
        as (l2 & -> & Hd2 & Ht2 & Hkv2 & Hc2 & Hcp2 & Hs2); try done.
      exists l2, (ls ++ [node]), (match ls with [] => tail l | _ => pv end).
      rewrite bool_decide_eq_false_2 by done.
      split_and!; try done.
      * destruct ls; [|by rewrite Hcp2].
        destruct Hempty as [?|?]; [done|by left|right; congruence].
      * by rewrite last_snoc.
      * apply NoDup_app. split_and!; [done| |apply NoDup_singleton].
        intros x Hx Hx'. apply list_elem_of_singleton in Hx' as ->. done.
      * intros p. by rewrite elem_of_app, list_elem_of_singleton.
      * rewrite length_app. simpl. lia.
      * by rewrite filter_ne_notin.
Qed.

Lemma lru_wf_nonempty l ls :
  wf l ls → size (cache l) ≠ 0 → ∃ p ls', ls = p :: ls'.
Proof.
  intros Hwf Hs. apply map_size_ne_0_lookup in Hs as (k & p & Hk).
  apply Hwf in Hk as [Hp _]. destruct ls; [by apply elem_of_nil in Hp|eauto].
Qed.

Lemma lru_wf_capacity_1 l ls : wf l ls → (capacity l = 1)%Z → length ls ≤ 1.
Proof.
  intros Hwf Hc. rewrite (wf_length _ _ Hwf).
  pose proof (wf_size _ _ Hwf). lia.
Qed.

(* moving an item of the list to the tail *)
Lemma lru_promote_wf l ls node :
  wf l ls → node ∈ ls →
  ∃ l' ls', moveToTail l node = Ok l' ∧ wf l' ls' ∧ tail l' = Some node ∧
    kv_le (mem l) (mem l') ∧
    cache l' = cache l ∧ capacity l' = capacity l ∧ stopped l' = stopped l ∧
    ls' = filter (λ p, p ≠ node) ls ++ [node].
Proof.
  intros Hwf Hin. destruct (wf_dll _ _ Hwf) as (pv & Hd & Hpv).
  destruct (wf_key _ _ Hwf node Hin) as (n & kn & Hn & _).
  destruct (lru_moveToTail_spec l ls pv node n)
    as (l' & ls' & pv' & Hmv & Hd' & Hpv' & Ht' & Hl' & Hnd' & Hmem & Hlen
        & Hkv & Hc & Hcp & Hs & Hls'); try apply Hwf; try done.
  { by apply lru_wf_capacity_1. }
  { by left. }
  rewrite bool_decide_eq_true_2 in Hlen by done.
  exists l', ls'. split_and!; try done. split.
  - by exists pv'.
  - intros _. congruence.
  - intros ->. done.
  - intros t Ht. rewrite (proj1 Hkv).
    assert (t = node) as -> by congruence. by eapply lookup_lt_Some.
  - done.
  - intros p Hp'. assert (p ∈ ls) as Hp by (apply Hmem in Hp' as [?| ->]; done).
    destruct (wf_key _ _ Hwf p Hp) as (np & kp & Hnp & Hkp & Hcp').
    destruct (proj2 Hkv _ _ Hnp) as (np' & Hnp' & Hk' & _).
    exists np', kp. split_and!; congruence.
  - intros k p Hp. rewrite Hc in Hp.
    destruct (wf_cache _ _ Hwf _ _ Hp) as [Hin' (np & Hnp & Hkp)].
    split; [apply Hmem; by left|].
    destruct (proj2 Hkv _ _ Hnp) as (np' & Hnp' & Hk' & _).
    exists np'. split; congruence.
  - rewrite Hcp. apply Hwf.
  - rewrite Hc, Hcp. apply Hwf.
  - rewrite Hlen, Hc. apply Hwf.
Qed.

Lemma lru_set_value_wf l ls node n v :
  wf l ls → mem l !! node = Some n →
  wf (with_mem (<[node := with_value v n]> (mem l)) l) ls.
Proof.
  intros Hwf Hn.
  assert (Hkv : kv_key_le (mem l) (<[node := with_value v n]> (mem l))).
  { split; [apply length_insert|]. intros p np Hp.
    destruct (decide (node = p)) as [->|Hne].
    - exists (with_value v n).
      rewrite list_lookup_insert_eq by (by eapply lookup_lt_Some).
      assert (np = n) as -> by congruence. done.
    - exists np. by rewrite list_lookup_insert_ne. }
  destruct (wf_dll _ _ Hwf) as (pv & Hd & Hpv).
  split; simpl; try apply Hwf.
  - exists pv. split; [|done]. by eapply lru_dllseg_update.
  - intros t Ht. rewrite length_insert. by eapply wf_tail.
  - intros p Hp. destruct (wf_key _ _ Hwf p Hp) as (np & kp & Hnp & Hkp & Hcp').
    destruct (proj2 Hkv _ _ Hnp) as (np' & Hnp' & Hk').
    exists np', kp. split_and!; congruence.
  - intros k p Hp. destruct (wf_cache _ _ Hwf _ _ Hp) as [Hin' (np & Hnp & Hkp)].
    split; [done|]. destruct (proj2 Hkv _ _ Hnp) as (np' & Hnp' & Hk').
    exists np'. split; congruence.
Qed.

Lemma lru_evict_wf l ls :
  wf l ls →
  ∃ l' ls', evict zeroV l = Ok l' ∧ wf l' ls' ∧
    (Z.of_nat (size (cache l')) < capacity l')%Z ∧
    capacity l' = capacity l ∧ stopped l' = stopped l ∧
    ls' = (if (capacity l <=? Z.of_nat (size (cache l)))%Z then drop 1 ls else ls) ∧
    ∀ q, q ∈ ls' → entry key value (mem l') q = entry key value (mem l) q.
Proof.
  intros Hwf. unfold evict.
  destruct (capacity l <=? Z.of_nat (size (cache l)))%Z eqn:Hcap; cycle 1.
  { apply Z.leb_gt in Hcap. by exists l, ls. }
  apply Z.leb_le in Hcap.
  pose proof (wf_capacity _ _ Hwf) as Hpos.
  pose proof (wf_size _ _ Hwf) as Hsz.
  pose proof (wf_length _ _ Hwf) as Hlen.
  destruct (lru_wf_nonempty l ls Hwf) as (p & ls' & ->); [lia|].
  destruct (wf_dll _ _ Hwf) as (pv & [Hhd (n & Hn & Hpn & Hd)] & Hpv).
  destruct (wf_key _ _ Hwf p) as (n' & k & Hn' & Hk & Hck); [by left|].
  assert (n' = n) as -> by congruence.
  pose proof (wf_nodup _ _ Hwf) as Hnd.
  apply NoDup_cons in Hnd as [Hp Hnd].
  rewrite Hhd, (load_Some _ _ _ Hn). simpl. rewrite Hk. simpl.
  rewrite (modify_Some _ _ _ _ Hn). simpl.
  assert (∃ m1,
    match next n with
    | Some _ => modify (<[p := zeroItem zeroV]> (mem l)) (next n) (with_prev None)
    | None => Ok (<[p := zeroItem zeroV]> (mem l))
    end = Ok m1 ∧ length m1 = length (mem l) ∧
    dllseg m1 None (next n) ls' None ∧
    ∀ a na, a ≠ p → mem l !! a = Some na →
      ∃ na', m1 !! a = Some na' ∧ key na' = key na ∧ value na' = value na)
    as (m1 & -> & Hlen1 & Hd1 & Hold).
  { destruct ls' as [|q ls''].
    - simpl in Hd. rewrite Hd. eexists. split; [done|].
      split_and!; [apply length_insert|done|].
      intros a na Ha Hna. exists na. by rewrite list_lookup_insert_ne.
    - destruct Hd as [Hnn (nq & Hq & Hpq & Hd)]. rewrite Hnn.
      assert (q ≠ p) by (intros ->; apply Hp; by left).
      apply NoDup_cons in Hnd as [Hq' _].
      rewrite (modify_Some _ _ nq) by (by rewrite list_lookup_insert_ne).
      eexists. split; [done|]. split_and!.
      + by rewrite !length_insert.
      + split; [done|]. exists (with_prev None nq).
        rewrite list_lookup_insert_eq
          by (rewrite length_insert; by eapply lookup_lt_Some).
        split_and!; [done..|]. simpl.
        apply lru_dllseg_frame; [done|]. apply lru_dllseg_frame; [|done].
        intros Hin. apply Hp. by right.
      + intros a na Ha Hna. destruct (decide (q = a)) as [->|Hne].
        * exists (with_prev None nq).
          rewrite list_lookup_insert_eq
            by (rewrite length_insert; by eapply lookup_lt_Some).
          assert (na = nq) as -> by congruence. done.
        * exists na. by rewrite !list_lookup_insert_ne. }
  simpl. eexists _, ls'. split; [done|]. split; [split; simpl|].
  - exists None. split; [done|by left].
  - intros Hne. rewrite (wf_last _ _ Hwf) by done.
    destruct ls'; [done|]. by rewrite last_cons_cons.
  - intros ->. right. simpl in Hlen. lia.
  - intros t Ht. rewrite Hlen1. by eapply wf_tail.
  - done.
  - intros q Hq. destruct (wf_key _ _ Hwf q) as (nq & kq & Hnq & Hkq & Hcq); [by right|].
    assert (q ≠ p) by (by intros ->).
    destruct (Hold q nq) as (nq' & Hnq' & Hkq' & _); [done..|].
    exists nq', kq. split_and!; [done|congruence|].
    rewrite lookup_delete_ne; [done|]. intros ->. congruence.
  - intros kq q Hq.
    apply lookup_delete_Some in Hq as [Hne Hq].
    destruct (wf_cache _ _ Hwf _ _ Hq) as [Hin (nq & Hnq & Hkq)].
    assert (q ≠ p) by (intros ->; congruence).
    apply elem_of_cons in Hin as [?|Hin]; [done|]. split; [done|].
    destruct (Hold q nq) as (nq' & Hnq' & Hkq' & _); [done..|].
    exists nq'. split; congruence.
  - done.
  - rewrite map_size_delete_Some by eauto. lia.
  - rewrite map_size_delete_Some by eauto. simpl in Hlen. lia.
  - simpl. split_and!; [|done..|].
    + rewrite map_size_delete_Some by eauto.
      pose proof (map_size_ne_0_lookup_2 _ _ (mk_is_Some _ _ Hck)). lia.
    + intros q Hq. assert (q ≠ p) by (by intros ->).
      destruct (wf_key _ _ Hwf q) as (nq & kq & Hnq & _); [by right|].
      destruct (Hold q nq) as (nq' & Hnq' & Hkq' & Hvq'); [done..|].
      unfold entry. by rewrite Hnq, Hnq'; simpl; rewrite Hkq', Hvq'.
Qed.

Lemma lru_store_wf l ls k v :
  wf l ls → (Z.of_nat (size (cache l)) < capacity l)%Z →
  ∃ l' ls', store zeroV l k v = Ok l' ∧ wf l' ls' ∧
    capacity l' = capacity l ∧ stopped l' = stopped l ∧
    ∃ p n, cache l' !! k = Some p ∧ mem l' !! p = Some n ∧ value n = v ∧
      tail l' = Some p ∧ key n = Some k ∧
      ls' = filter (λ q, q ≠ p) ls ++ [p] ∧
      (∀ q, q ∈ ls → q ≠ p → entry key value (mem l') q = entry key value (mem l) q) ∧
      ∀ k', k' ≠ k → cache l' !! k' = cache l !! k'.
Proof.
  intros Hwf Hsz. unfold store. destruct (cache l !! k) as [node|] eqn:Hk.
  - (* the key is cached: its item gets the value and moves to the tail *)
    destruct (wf_cache _ _ Hwf _ _ Hk) as [Hin (n & Hn & Hkn)].
    simpl. rewrite (modify_Some _ _ _ _ Hn). simpl.
    pose proof (lru_set_value_wf l ls node n v Hwf Hn) as Hwf0.
    destruct (lru_promote_wf _ ls node Hwf0 Hin)
      as (l' & ls' & -> & Hwf' & Ht' & Hkv & Hc & Hcp & Hs & Hls').
    exists l', ls'. split_and!; try done.
    destruct (proj2 Hkv node (with_value v n)) as (n' & Hn' & Hk' & Hv').
    { simpl. apply list_lookup_insert_eq. by eapply lookup_lt_Some. }
    exists node, n'. split_and!; try done.
    + by rewrite Hc.
    + by rewrite Hk'.
    + intros q Hq Hne. simpl in Hkv.
      rewrite (lru_kv_le_entry _ _ q Hkv), entry_insert_ne by
        (done || (rewrite length_insert; destruct (wf_key _ _ Hwf q Hq) as (? & ? & ? & _);
                  by eapply lookup_lt_Some)).
      done.
    + intros k' _. by rewrite Hc.
  - (* a new key: a new item is linked behind the tail *)
    unfold alloc. set (new := {| prev := None; next := None; key := Some k; value := zeroV |}).
    set (node := length (mem l)). simpl.
    destruct (wf_dll _ _ Hwf) as (pv & Hd & Hpv).
    assert (Hfresh : ∀ p, p ∈ ls → p ≠ node).
    { intros p Hp. pose proof (lru_dllseg_bound _ _ _ _ _ p Hd Hp). unfold node. lia. }
    assert (Hnew : (mem l ++ [new]) !! node = Some new).
    { unfold node. by rewrite lookup_app_r, Nat.sub_diag by done. }
    rewrite (modify_Some _ _ _ _ Hnew). simpl.
    set (m1 := <[node := with_value v new]> (mem l ++ [new])).
    assert (Hlen1 : length m1 = S node).
    { unfold m1. rewrite length_insert, length_app. simpl. unfold node. lia. }
    assert (Hn1 : m1 !! node = Some (with_value v new)).
    { unfold m1. apply list_lookup_insert_eq. rewrite length_app. simpl.
      unfold node. lia. }
    assert (Hold : ∀ p np, mem l !! p = Some np → m1 !! p = Some np).
    { intros p np Hp. pose proof (lookup_lt_Some _ _ _ Hp). unfold m1.
      rewrite list_lookup_insert_ne by (unfold node; lia).
      by apply lookup_app_l_Some. }
    set (l1 := with_mem m1 _).
    destruct (lru_moveToTail_spec l1 ls pv node (with_value v new))
      as (l' & ls' & pv' & -> & Hd' & Hpv' & Ht' & Hl' & Hnd' & Hmem & Hlen
          & Hkv & Hc & Hcp & Hs & Hls'); simpl; try apply Hwf; try done.
    { apply lru_dllseg_frame; [intros Hin; by apply (Hfresh node)|].
      by apply lru_dllseg_alloc. }
    { intros Hc. rewrite (wf_length _ _ Hwf). lia. }
    { intros t Ht. rewrite Hlen1. pose proof (wf_tail _ _ Hwf t Ht). lia. }
    { right. split_and!; try done.
      - intros Hin. by apply (Hfresh node).
      - intros Ht. pose proof (wf_tail _ _ Hwf node Ht). unfold node in *. lia. }
    rewrite bool_decide_eq_false_2 in Hlen
      by (intros Hin; by apply (Hfresh node)).
    simpl in Hc, Hcp, Hs, Hkv.
    exists l', ls'. split_and!; try done.
    + split.
      * by exists pv'.
      * intros _. congruence.
      * intros ->. done.
      * intros t Ht. rewrite (proj1 Hkv), Hlen1.
        assert (t = node) as -> by congruence. lia.
      * done.
      * intros p Hp. apply Hmem in Hp as [Hp| ->].
        -- destruct (wf_key _ _ Hwf p Hp) as (np & kp & Hnp & Hkp & Hcp').
           destruct (proj2 Hkv _ _ (Hold _ _ Hnp)) as (np' & Hnp' & Hk' & _).
           exists np', kp. split_and!; [done|congruence|].
           rewrite Hc, lookup_insert_ne; [done|congruence].
        -- destruct (proj2 Hkv _ _ Hn1) as (n' & Hn' & Hk' & _).
           exists n', k. split_and!; [done|by rewrite Hk'|].
           by rewrite Hc, lookup_insert_eq.
      * intros kp p Hp. rewrite Hc in Hp.
        apply lookup_insert_Some in Hp as [[<- <-]|[Hne Hp]].
        -- split; [apply Hmem; by right|].
           destruct (proj2 Hkv _ _ Hn1) as (n' & Hn' & Hk' & _).
           exists n'. split; [done|by rewrite Hk'].
        -- destruct (wf_cache _ _ Hwf _ _ Hp) as [Hin (np & Hnp & Hkp)].
           split; [apply Hmem; by left|].
           destruct (proj2 Hkv _ _ (Hold _ _ Hnp)) as (np' & Hnp' & Hk' & _).
           exists np'. split; congruence.
      * rewrite Hcp. apply Hwf.
      * rewrite Hc, Hcp, map_size_insert_None by done. lia.
      * rewrite Hlen, Hc, map_size_insert_None by done.
        by rewrite (wf_length _ _ Hwf).
    + destruct (proj2 Hkv _ _ Hn1) as (n' & Hn' & Hk' & Hv').
      exists node, n'. split_and!; try done.
      * by rewrite Hc, lookup_insert_eq.
      * intros q Hq Hne.
        pose proof (lru_dllseg_bound _ _ _ _ _ q Hd Hq) as Hlt.
        rewrite (lru_kv_le_entry _ _ q Hkv) by (rewrite Hlen1; lia).
        unfold m1. rewrite entry_insert_ne by done. by apply entry_alloc.
      * intros k' ?. by rewrite Hc, lookup_insert_ne.
Qed.

Lemma lru_set_wf l ls k v :
  wf l ls → stopped l = 0%N →
  ∃ l' ls', set zeroV l k v = Ok l' ∧ wf l' ls' ∧
    capacity l' = capacity l ∧ stopped l' = 0%N ∧
    ∃ p n, cache l' !! k = Some p ∧ mem l' !! p = Some n ∧ value n = v ∧
      tail l' = Some p.
Proof.
  intros Hwf Hs. unfold set, isStopped. rewrite Hs. simpl.
  destruct (lru_evict_wf l ls Hwf) as (l1 & ls1 & -> & Hwf1 & Hsz & Hc1 & Hs1 & _).
  simpl. destruct (lru_store_wf l1 ls1 k v Hwf1 Hsz)
    as (l2 & ls2 & -> & Hwf2 & Hc2 & Hs2 & p & n & ? & ? & ? & ? & _).
  exists l2, ls2. split_and!; [done|done|congruence|congruence|by exists p, n].
Qed.

Lemma lru_get_wf l ls k :
  wf l ls → stopped l = 0%N →
  match cache l !! k with
  | None => get zeroV l k = Ok ((zeroV, false), l)
  | Some p => ∃ n l' ls',
      mem l !! p = Some n ∧ get zeroV l k = Ok ((value n, true), l') ∧
      wf l' ls' ∧ tail l' = Some p ∧ kv_le (mem l) (mem l') ∧
      cache l' = cache l ∧ capacity l' = capacity l ∧ stopped l' = stopped l ∧
      ls' = filter (λ q, q ≠ p) ls ++ [p]
  end.
Proof.
  intros Hwf Hs. unfold get, isStopped. rewrite Hs. simpl.
  destruct (cache l !! k) as [p|] eqn:Hk; [|done].
  destruct (wf_cache _ _ Hwf _ _ Hk) as [Hin (n & Hn & _)].
  destruct (lru_promote_wf l ls p Hwf Hin)
    as (l' & ls' & -> & Hwf' & Ht' & Hkv & Hc & Hcp & Hs' & Hls').
  destruct (proj2 Hkv _ _ Hn) as (n' & Hn' & _ & Hv).
  exists n, l', ls'. simpl. rewrite (load_Some _ _ _ Hn'). simpl. rewrite Hv.
  split_and!; try done. congruence.
Qed.

Lemma lru_Stop_wf l ls :
  wf l ls → stop_inv l →
  ∃ l', Stop zeroV l = Ok l' ∧ wf l' [] ∧ stopped l' = 1%N ∧
    cache l' = ∅ ∧ head l' = None ∧ tail l' = None ∧
    (stopped l = 1%N → l' = l).
Proof.
  intros Hwf [Hs|(Hs & Hc & Hh & Ht)]; unfold Stop; rewrite Hs.
  - destruct (wf_dll _ _ Hwf) as (pv & Hd & _).
    apply lru_dllseg_chain in Hd.
    destruct (unlink_chain next (λ _, zeroItem zeroV) (S (length (mem l)))
                  (mem l) (head l) ls) as (m' & Hm & _); [done|apply Hwf| |].
    { apply Nat.le_le_succ_r. eapply chain_length; [done|apply Hwf]. }
    change (0 =? 0)%N with true. cbv iota. rewrite Hm. simpl.
    eexists. split; [done|]. split_and!; try done.
    split; simpl; try done; try apply Hwf.
    + exists None. split; [done|by left].
    + by left.
    + apply NoDup_nil_2.
    + intros p Hp. by apply elem_of_nil in Hp.
    + rewrite map_size_empty. pose proof (wf_capacity _ _ Hwf). lia.
  - exists l. split_and!; try done.
    assert (ls = []) as ->; [|done].
    destruct ls; [done|]. destruct (wf_dll _ _ Hwf) as (pv & [? _] & _). congruence.
Qed.

Lemma lru_reachable_inv l : reachable zeroV l → inv l.
Proof.
  induction 1 as [c l Hnew|l k v l' _ [Hs [ls Hwf]] Hset
                 |l k r l' _ [Hs [ls Hwf]] Hget|l l' _ [Hs [ls Hwf]] Hstop].
  - unfold NewLRU in Hnew. case_match eqn:Hc; [done|]. apply Z.leb_gt in Hc.
    simplify_eq. split; [by left|]. exists []. split; simpl; try done.
    + exists None. split; [done|by left].
    + by left.
    + apply NoDup_nil_2.
    + intros p Hp. by apply elem_of_nil in Hp.
    + rewrite map_size_empty. lia.
  - destruct Hs as [Hs|(Hs & _)]; cycle 1.
    { unfold set, isStopped in Hset. by rewrite Hs in Hset. }
    destruct (lru_set_wf l ls k v Hwf Hs) as (l2 & ls2 & Hset' & Hwf2 & _ & Hs2 & _).
    assert (l' = l2) as -> by congruence. split; [by left|by exists ls2].
  - destruct Hs as [Hs|(Hs & _)]; cycle 1.
    { unfold get, isStopped in Hget. by rewrite Hs in Hget. }
    pose proof (lru_get_wf l ls k Hwf Hs) as Hg.
    destruct (cache l !! k) as [p|].
    + destruct Hg as (n & l2 & ls2 & _ & Hget' & Hwf2 & _ & _ & _ & _ & Hs2 & _).
      assert (l' = l2) as -> by congruence.
      split; [left; congruence|by exists ls2].
    + assert (l' = l) as -> by congruence. split; [by left|by exists ls].
  - destruct (lru_Stop_wf l ls Hwf Hs) as (l2 & Hstop' & Hwf2 & Hs2 & ? & ? & ? & _).
    assert (l' = l2) as -> by congruence. split; [by right|by exists []].
Qed.

Lemma lru_active l :
  reachable zeroV l → isStopped l = false → stopped l = 0%N ∧ ∃ ls, wf l ls.
Proof.
  intros Hr Hst. destruct (lru_reachable_inv l Hr) as [[Hs|(Hs & _)] Hwf]; [done|].
  unfold isStopped in Hst. by rewrite Hs in Hst.
Qed.

Lemma lru_sets_wf l ls ops :
  wf l ls → stopped l = 0%N →
  ∃ l' ls', sets zeroV l ops = Ok l' ∧ wf l' ls' ∧
    capacity l' = capacity l ∧ stopped l' = 0%N.
Proof.
  revert l ls. induction ops as [|[k v] ops IH]; intros l ls Hwf Hs.
  { by exists l, ls. }
  destruct (lru_set_wf l ls k v Hwf Hs) as (l1 & ls1 & Hset & Hwf1 & Hc1 & Hs1 & _).
  destruct (IH l1 ls1 Hwf1 Hs1) as (l2 & ls2 & Hsets & Hwf2 & Hc2 & Hs2).
  exists l2, ls2. simpl. rewrite Hset. simpl. split_and!; [done..|congruence|done].
Qed.

Lemma lru_capacity_bound (N : Z) ops :
  (0 < N)%Z →
  ∃ l0 l l1, NewLRU N = Ok l0 ∧ sets zeroV l0 ops = Ok l ∧
    (Z.of_nat (size (cache l)) ≤ N)%Z ∧
    evict zeroV l = Ok l1 ∧ (Z.of_nat (size (cache l1)) < N)%Z.
Proof.
  intros HN. pose (l0 := {| cache := ∅; head := None; tail := None;
                            capacity := N; stopped := 0; mem := [] |} : LRU K V).
  assert (NewLRU N = Ok l0) as Hnew.
  { unfold NewLRU. by rewrite (proj2 (Z.leb_gt N 0)). }
  destruct (lru_active l0) as [Hs0 [ls0 Hwf0]]; [by eapply reach_new|done|].
  destruct (lru_sets_wf l0 ls0 ops Hwf0 Hs0) as (l & ls & Hsets & Hwf & Hc & Hs).
  destruct (lru_evict_wf l ls Hwf) as (l1 & ls1 & Hev & _ & Hlt & Hc1 & _).
  exists l0, l, l1. split_and!; [done..| |done|].
  - pose proof (wf_size _ _ Hwf). simpl in *. lia.
  - simpl in *. lia.
Qed.

(* a write puts the item of its key at the tail *)
Lemma lru_set_tail l k v :
  reachable zeroV l → isStopped l = false →
  ∃ l' p n, set zeroV l k v = Ok l' ∧ cache l' !! k = Some p ∧
    mem l' !! p = Some n ∧ value n = v ∧ tail l' = Some p ∧
    reachable zeroV l' ∧ isStopped l' = false.
Proof.
  intros Hr Hst. destruct (lru_active l Hr Hst) as [Hs [ls Hwf]].
  destruct (lru_set_wf l ls k v Hwf Hs)
    as (l' & ls' & Hset & Hwf' & _ & Hs' & p & n & Hc & Hn & Hv & Ht).
  exists l', p, n. split_and!; try done; [by eapply reach_set|].
  unfold isStopped. by rewrite Hs'.
Qed.


Lemma lru_get_miss l k :
  isStopped l = false → cache l !! k = None →
  get zeroV l k = Ok ((zeroV, false), l).
Proof. intros Hst Hk. unfold get. by rewrite Hst, Hk. Qed.

Lemma lru_set_get l k v :
  reachable zeroV l → isStopped l = false →
  ∃ l', set zeroV l k v = Ok l' ∧ get zeroV l' k = Ok ((v, true), l').
Proof.
  intros Hr Hst.
  destruct (lru_set_tail l k v Hr Hst)
    as (l' & p & n & Hset & Hc & Hn & Hv & Ht & Hr' & Hst').
  exists l'. split; [done|]. unfold get, moveToTail. rewrite Hst', Hc.
  rewrite bool_decide_eq_true_2 by done. simpl.
  rewrite (load_Some _ _ _ Hn). simpl. by rewrite Hv.
Qed.

Lemma lru_Fetch_error {E} l k (fn : FetchFunc V E) v (err : E) :
  isStopped l = false → cache l !! k = None → fn () = (v, Some err) →
  Fetch zeroV l k fn = Ok ((zeroV, Some err), l) ∧
  get zeroV l k = Ok ((zeroV, false), l).
Proof.
  intros Hst Hk Hfn. unfold Fetch, get. rewrite Hst, Hk. simpl. by rewrite Hfn.
Qed.

Lemma lru_Stop_spec l :
  reachable zeroV l →
  ∃ l', Stop zeroV l = Ok l' ∧
    cache l' = ∅ ∧ head l' = None ∧ tail l' = None ∧
    (∀ k, get zeroV l' k = Panicked CacheStopped) ∧
    (∀ k v, set zeroV l' k v = Panicked CacheStopped) ∧
    Stop zeroV l' = Ok l'.
Proof.
  intros Hr. destruct (lru_reachable_inv l Hr) as [Hsi [ls Hwf]].
  destruct (lru_Stop_wf l ls Hwf Hsi) as (l' & Hstop & _ & Hs' & Hc & Hh & Ht & _).
  exists l'. split_and!; try done.
  - intros k. unfold get, isStopped. by rewrite Hs'.
  - intros k v. unfold set, isStopped. by rewrite Hs'.
  - unfold Stop. by rewrite Hs'.
Qed.



Lemma lru_sets_reachable l ops l' :
  reachable zeroV l → sets zeroV l ops = Ok l' → reachable zeroV l'.
Proof.
  revert l. induction ops as [|[k v] ops IH]; intros l Hr Hsets.
  { simpl in Hsets. by simplify_eq. }
  simpl in Hsets. apply bind_Ok in Hsets as (l1 & Hset & Hsets).
  apply (IH l1); [by eapply reach_set|done].
Qed.

Lemma lru_wf_chain l ls : wf l ls → chain next (mem l) (head l) ls.
Proof. intros Hwf. destruct (wf_dll _ _ Hwf) as (pv & Hd & _). by eapply lru_dllseg_chain. Qed.

(* the entries of the cache are those of the items of its list *)
Lemma lru_wf_entries l ls :
  wf l ls → Forall2 (λ p x, entry key value (mem l) p = Some x) ls (entries l).
Proof.
  intros Hwf. destruct (list_entries_exist key value (mem l) ls) as [es Hes].
  { intros p Hp. destruct (wf_key _ _ Hwf p Hp) as (n & k & Hn & Hk & _).
    exists (k, value n). apply entry_Some. eauto. }
  unfold entries.
  by rewrite (list_entries_chain next key value (mem l) (head l) ls es)
    by (done || by apply lru_wf_chain || apply Hwf).
Qed.

Lemma lru_entries_length l ls : wf l ls → length (entries l) = size (cache l).
Proof.
  intros Hwf. rewrite <- (wf_length l ls Hwf). symmetry.
  eapply Forall2_length, lru_wf_entries, Hwf.
Qed.

(* an entry of the list is the entry of its key in the index *)
Lemma lru_entry_cache l ls p k v :
  wf l ls → p ∈ ls → entry key value (mem l) p = Some (k, v) → cache l !! k = Some p.
Proof.
  intros Hwf Hp He. apply entry_Some in He as (n & Hn & Hk & _).
  destruct (wf_key _ _ Hwf p Hp) as (n' & k' & Hn' & Hk' & Hc). simpl in *. congruence.
Qed.

Lemma lru_entries_key l ls k :
  wf l ls → k ∈ (entries l).*1 ↔ is_Some (cache l !! k).
Proof.
  intros Hwf. pose proof (lru_wf_entries l ls Hwf) as Hes. split.
  - intros Hk. apply list_elem_of_fmap in Hk as ([k' v] & -> & He).
    apply list_elem_of_lookup in He as [i Hi].
    destruct (Forall2_lookup_r _ _ _ _ _ Hes Hi) as (p & Hp & He).
    exists p. eapply lru_entry_cache; [done| |done]. by eapply list_elem_of_lookup_2.
  - intros [p Hk]. destruct (wf_cache _ _ Hwf _ _ Hk) as [Hp (n & Hn & Hkn)].
    apply list_elem_of_lookup in Hp as [i Hi].
    destruct (Forall2_lookup_l _ _ _ _ _ Hes Hi) as ([k' v] & He & Hpe).
    apply list_elem_of_fmap. exists (k', v). split; [|by eapply list_elem_of_lookup_2].
    apply entry_Some in Hpe as (n' & Hn' & Hk' & _). simpl in *. congruence.
Qed.

Lemma lru_entries_NoDup l ls : wf l ls → NoDup (entries l).*1.
Proof.
  intros Hwf. pose proof (lru_wf_entries l ls Hwf) as Hes.
  apply NoDup_alt. intros i j k Hi Hj.
  rewrite list_lookup_fmap in Hi, Hj.
  destruct (entries l !! i) as [[k1 v1]|] eqn:Ei; [|done].
  destruct (entries l !! j) as [[k2 v2]|] eqn:Ej; [|done]. simpl in *. simplify_eq.
  destruct (Forall2_lookup_r _ _ _ _ _ Hes Ei) as (p1 & Hp1 & He1).
  destruct (Forall2_lookup_r _ _ _ _ _ Hes Ej) as (p2 & Hp2 & He2).
  pose proof (lru_entry_cache l ls p1 k v1 Hwf (list_elem_of_lookup_2 _ _ _ Hp1) He1).
  pose proof (lru_entry_cache l ls p2 k v2 Hwf (list_elem_of_lookup_2 _ _ _ Hp2) He2).
  assert (p1 = p2) as -> by congruence.
  eapply NoDup_lookup; [apply Hwf|done..].
Qed.

(* the entries after an item of the list has moved to its end *)
Lemma lru_entries_moved l ls l' p k v :
  wf l ls → wf l' (filter (λ q, q ≠ p) ls ++ [p]) →
  (∀ q, q ∈ ls → q ≠ p → entry key value (mem l') q = entry key value (mem l) q) →
  cache l' !! k = Some p → entry key value (mem l') p = Some (k, v) →
  (∀ k', k' ≠ k → cache l' !! k' = cache l !! k') →
  entries l' = filter (λ x, x.1 ≠ k) (entries l) ++ [(k, v)].
Proof.
  intros Hwf Hwf' Hm Hk Hp Hc.
  pose proof (lru_wf_entries l ls Hwf) as Hes.
  eapply list_entries_chain; [by apply lru_wf_chain|apply Hwf'|].
  apply Forall2_app; [|by repeat constructor].
  apply (Forall2_filter_both _ (λ q, q ≠ p) (λ x, x.1 ≠ k)).
  apply Forall2_same_length_lookup. split; [by eapply Forall2_length|].
  intros i q [kq vq] Hq He.
  destruct (Forall2_lookup_l _ _ _ _ _ Hes Hq) as (e' & He' & Hqe).
  assert (e' = (kq, vq)) as -> by congruence.
  assert (q ∈ ls) as Hin by (by eapply list_elem_of_lookup_2).
  pose proof (lru_entry_cache l ls q kq vq Hwf Hin Hqe) as Hcq. simpl.
  split; [intros Hne; by rewrite Hm|]. split.
  - intros Hne ->. apply Hne.
    assert (q ∈ filter (λ q, q ≠ p) ls ++ [p]) as Hin'.
    { apply elem_of_app. left. by apply list_elem_of_filter. }
    rewrite <- Hm in Hqe by done.
    pose proof (lru_entry_cache l' _ q k vq Hwf' Hin' Hqe). congruence.
  - intros Hne ->. apply Hne. destruct (decide (kq = k)) as [|Hne']; [done|].
    rewrite <- Hc in Hcq by done.
    destruct (wf_cache _ _ Hwf' _ _ Hcq) as [_ (n1 & Hn1 & Hk1)].
    apply entry_Some in Hp as (n2 & Hn2 & Hk2 & _). simpl in *. congruence.
Qed.

(* [Get] reads the entries, and moves the entry it reads to the end *)
Lemma lru_get_entries_wf l ls k :
  wf l ls → stopped l = 0%N →
  (∀ v, (k, v) ∈ entries l →
     ∃ l' ls', get zeroV l k = Ok ((v, true), l') ∧ wf l' ls' ∧
       capacity l' = capacity l ∧ stopped l' = stopped l ∧
       entries l' = filter (λ x, x.1 ≠ k) (entries l) ++ [(k, v)]) ∧
  (k ∉ (entries l).*1 → get zeroV l k = Ok ((zeroV, false), l)).
Proof.
  intros Hwf Hs. pose proof (lru_wf_entries l ls Hwf) as Hes.
  pose proof (lru_get_wf l ls k Hwf Hs) as Hg. split.
  - intros v He. apply list_elem_of_lookup in He as [i Hi].
    destruct (Forall2_lookup_r _ _ _ _ _ Hes Hi) as (p & Hp & He).
    pose proof (list_elem_of_lookup_2 _ _ _ Hp) as Hin.
    pose proof (lru_entry_cache l ls p k v Hwf Hin He) as Hk.
    rewrite Hk in Hg.
    destruct Hg as (n & l' & ls' & Hn & Hget & Hwf' & Ht & Hkv & Hc & Hcp & Hs' & ->).
    assert (value n = v) as Hv.
    { apply entry_Some in He as (n' & Hn' & _ & Hv). simpl in Hv. congruence. }
    rewrite Hv in Hget. eexists l', _. split_and!; [done..|].
    assert (∀ q, q ∈ ls → entry key value (mem l') q = entry key value (mem l) q) as Hm.
    { intros q Hq. apply lru_kv_le_entry; [done|].
      destruct (wf_key _ _ Hwf q Hq) as (? & ? & ? & _). by eapply lookup_lt_Some. }
    eapply (lru_entries_moved l ls l' p k v); try done.
    + intros q Hq _. by apply Hm.
    + by rewrite Hc.
    + by rewrite Hm.
    + intros k' _. by rewrite Hc.
  - intros Hk. destruct (cache l !! k) as [p|] eqn:Hc; [|done].
    exfalso. apply Hk. apply (lru_entries_key l ls k Hwf). by rewrite Hc.
Qed.

(* [Set] on the entries: at capacity the first entry leaves; then the
   entry of the key, with the value, is the last one *)
Lemma lru_set_entries_wf l ls k v :
  wf l ls → stopped l = 0%N →
  ∃ l' ls', set zeroV l k v = Ok l' ∧ wf l' ls' ∧
    capacity l' = capacity l ∧ stopped l' = 0%N ∧
    entries l' =
      filter (λ x, x.1 ≠ k)
        (if (capacity l <=? Z.of_nat (length (entries l)))%Z
         then drop 1 (entries l) else entries l) ++ [(k, v)].
Proof.
  intros Hwf Hs. unfold set, isStopped. rewrite Hs. simpl.
  rewrite (lru_entries_length l ls Hwf).
  destruct (lru_evict_wf l ls Hwf) as (l1 & ls1 & -> & Hwf1 & Hsz & Hc1 & Hs1 & Hls1 & Hm1).
  simpl.
  set (es1 := if (capacity l <=? Z.of_nat (size (cache l)))%Z
              then drop 1 (entries l) else entries l).
  assert (entries l1 = es1) as He1.
  { eapply list_entries_chain; [by apply lru_wf_chain|apply Hwf1|].
    apply Forall2_same_length_lookup. split.
    - pose proof (Forall2_length _ _ _ (lru_wf_entries l ls Hwf)) as Hlen.
      rewrite Hls1. unfold es1. destruct (_ <=? _)%Z; [|done]. by rewrite !length_drop, Hlen.
    - intros i p e Hp He. rewrite Hm1 by (by eapply list_elem_of_lookup_2).
      pose proof (lru_wf_entries l ls Hwf) as Hes. revert Hp He. rewrite Hls1. unfold es1.
      destruct (_ <=? _)%Z; intros Hp He.
      + rewrite lookup_drop in Hp. rewrite lookup_drop in He.
        destruct (Forall2_lookup_l _ _ _ _ _ Hes Hp) as (e' & He' & Hpe). congruence.
      + destruct (Forall2_lookup_l _ _ _ _ _ Hes Hp) as (e' & He' & Hpe). congruence. }
  destruct (lru_store_wf l1 ls1 k v Hwf1 Hsz)
    as (l2 & ls2 & -> & Hwf2 & Hc2 & Hs2 & p & n & Hk2 & Hn2 & Hv2 & Ht2 & Hkn & -> & Hm2 & Hcc).
  eexists l2, _. split_and!; [done|done|congruence|congruence|].
  rewrite <- He1. eapply (lru_entries_moved l1 ls1 l2 p k v); try done.
  apply entry_Some. eauto.
Qed.

(* writes of keys that were never written before: the cache holds the
   last [capacity] of them *)
Lemma lru_sets_entries_wf kvs : ∀ l ls acc,
  wf l ls → stopped l = 0%N →
  entries l = drop (length acc - Z.to_nat (capacity l)) acc →
  NoDup (acc ++ kvs).*1 →
  ∃ l' ls', sets zeroV l kvs = Ok l' ∧ wf l' ls' ∧
    entries l' = drop (length (acc ++ kvs) - Z.to_nat (capacity l)) (acc ++ kvs).
Proof.
  induction kvs as [|[k v] kvs IH]; intros l ls acc Hwf Hs He Hnd.
  { exists l, ls. by rewrite app_nil_r. }
  destruct (lru_set_entries_wf l ls k v Hwf Hs) as (l1 & ls1 & Hset & Hwf1 & Hc1 & Hs1 & He1).
  simpl. rewrite Hset. simpl.
  pose proof (wf_capacity _ _ Hwf) as Hpos.
  assert (entries l1 =
          drop (length (acc ++ [(k, v)]) - Z.to_nat (capacity l1)) (acc ++ [(k, v)])) as He1'.
  { rewrite He1, Hc1. clear He1. simpl.
    assert (k ∉ acc.*1) as Hk.
    { rewrite fmap_app in Hnd. apply NoDup_app in Hnd as (_ & Hnd & _).
      intros Hin. apply (Hnd k Hin). by left. }
    rewrite filter_fst_ne_notin; cycle 1.
    { intros Hin. apply Hk. apply list_elem_of_fmap in Hin as (x & -> & Hx).
      apply list_elem_of_fmap. exists x. split; [done|].
      assert (x ∈ entries l) as Hx'.
      { destruct (_ <=? _)%Z; [by eapply subseteq_drop|done]. }
      rewrite He in Hx'. by eapply subseteq_drop. }
    rewrite He, length_drop, length_app. simpl.
    destruct (Z.leb_spec (capacity l)
                (Z.of_nat (length acc - (length acc - Z.to_nat (capacity l))))) as [Hle|Hgt].
    - rewrite drop_drop, drop_app_le by lia. do 2 f_equal. lia.
    - replace (length acc - Z.to_nat (capacity l)) with 0 by lia.
      by replace (length acc + 1 - Z.to_nat (capacity l)) with 0 by lia. }
  destruct (IH l1 ls1 (acc ++ [(k, v)]) Hwf1 Hs1 He1') as (l2 & ls2 & Hsets & Hwf2 & He2).
  { by rewrite <- app_assoc. }
  exists l2, ls2. split_and!; [done|done|]. by rewrite He2, Hc1, <- app_assoc.
Qed.

(* [Fetch] of a key that is not cached stores what the function
   returns, and the next [Fetch] does not call its function *)
Lemma lru_Fetch_miss {E} l k (fn : FetchFunc V E) v :
  reachable zeroV l → isStopped l = false →
  cache l !! k = None → fn () = (v, None) →
  ∃ l', Fetch zeroV l k fn = Ok ((v, None), l') ∧ set zeroV l k v = Ok l' ∧
    ∀ fn' : FetchFunc V E, Fetch zeroV l' k fn' = Ok ((v, None), l').
Proof.
  intros Hr Hst Hk Hfn.
  destruct (lru_set_tail l k v Hr Hst) as (l' & ? & ? & Hset & _ & _ & _ & _ & _ & Hst').
  destruct (lru_set_get l k v Hr Hst) as (l2 & Hset2 & Hget).
  assert (l2 = l') as -> by congruence.
  exists l'. unfold Fetch at 1, get. rewrite Hst, Hk. simpl. rewrite Hfn, Hset. simpl.
  split_and!; [done..|]. intros fn'. unfold Fetch. by rewrite Hst', Hget.
Qed.

(* [Fetch] is a [get] and maybe a [set] *)
Lemma lru_Fetch_reachable {E} l k (fn : FetchFunc V E) r l' :
  reachable zeroV l → Fetch zeroV l k fn = Ok (r, l') → reachable zeroV l'.
Proof.
  intros Hr Hf. unfold Fetch in Hf. destruct (isStopped l); [done|].
  apply bind_Ok in Hf as ([[x ok] l1] & Hget & Hf).
  assert (reachable zeroV l1) as Hr1 by (by eapply reach_get).
  destruct ok; [by simplify_eq|]. destruct (fn ()) as [v [e|]]; [by simplify_eq|].
  apply bind_Ok in Hf as (l2 & Hset & Hf). simplify_eq. by eapply reach_set.
Qed.

End facts.
End LRU_facts.

(** ** TTL (linked list): the invariant *)

Module TTL_facts.
Import TTL.
Section facts.
Context `{Countable K} {V : Type} (zeroV : V).
Implicit Types (l : TTL K V) (m : list (ttlListItem K V)) (c : gmap K loc).

(* a write that keeps the key, and an expiry where there was one *)
Lemma ttl_heap_inv_update c m a n n' :
  heap_inv c m → m !! a = Some n → key n' = key n →
  (expiresAt n' = expiresAt n ∨ (is_Some (expiresAt n) ∧ is_Some (expiresAt n'))) →
  (∀ q, next n' = Some q → q < length m) →
  heap_inv c (<[a := n']> m).
Proof.
  intros [Hitem Hcache Hclosed] Ha Hk He Hq.
  assert (Hlt : a < length m) by (by eapply lookup_lt_Some).
  split.
  - intros p np Hp. apply list_lookup_insert_Some in Hp as [(-> & <- & _)|[_ Hp]];
      [|by eauto].
    rewrite Hk. destruct (Hitem _ _ Ha) as [[Hkn Hen]|(k & e & Hkn & Hen & Hc)].
    + left. split; [done|]. destruct He as [->|[[? ?] _]]; congruence.
    + right. destruct He as [He|[_ [e' He']]]; exists k; eexists;
        split_and!; try done. by rewrite He.
  - intros k p Hp. destruct (Hcache _ _ Hp) as (np & e & Hnp & Hkp & Hep).
    destruct (decide (a = p)) as [->|Hne].
    + assert (np = n) as -> by congruence.
      rewrite list_lookup_insert_eq by done.
      destruct He as [He|[_ [e' He']]]; eexists _, _;
        (split_and!; [done|congruence|]); [by rewrite He|done].
    + exists np, e. by rewrite list_lookup_insert_ne.
  - by apply closed_insert.
Qed.

Lemma ttl_heap_inv_alloc c m k v e :
  heap_inv c m → c !! k = None →
  heap_inv (<[k := length m]> c)
    (m ++ [{| next := None; key := Some k; value := v; expiresAt := Some e |}]).
Proof.
  intros [Hitem Hcache Hclosed] Hk. split.
  - intros p np Hp. apply lookup_app_Some in Hp as [Hp|[Hge Hp]].
    + destruct (Hitem _ _ Hp) as [?|(k' & e' & ? & ? & Hc)]; [by left|right].
      exists k', e'. split_and!; [done..|]. rewrite lookup_insert_ne; [done|congruence].
    + apply list_lookup_singleton_Some in Hp as [Hp <-]. right. exists k, e. simpl.
      split_and!; [done..|]. rewrite lookup_insert_eq. f_equal. lia.
  - intros k' p Hp. apply lookup_insert_Some in Hp as [[<- <-]|[Hne Hp]].
    + eexists _, e. rewrite lookup_app_r, Nat.sub_diag by done. done.
    + destruct (Hcache _ _ Hp) as (np & e' & Hnp & ? & ?).
      exists np, e'. split; [by apply lookup_app_l_Some|done].
  - intros p np q Hp Hq. rewrite length_app. simpl.
    apply lookup_app_Some in Hp as [Hp|[Hge Hp]].
    + pose proof (Hclosed _ _ _ Hp Hq). lia.
    + by apply list_lookup_singleton_Some in Hp as [Hp <-].
Qed.

(* the end of [set]: the node becomes the tail *)
Lemma ttl_set_finish l c m2 node n2 k v e :
  wf l → stopped l = 0%N →
  heap_inv c m2 → c !! k = Some node → m2 !! node = Some n2 →
  value n2 = v → expiresAt n2 = Some e → length (mem l) ≤ length m2 →
  ∃ l',
    (m ← match tail l with
         | Some _ => modify m2 (tail l) (with_next (Some node))
         | None => Ok m2
         end;
     Ok {| cache := c;
           head := match head l with None => Some node | Some h => Some h end;
           tail := Some node; ttl := ttl l; stopped := stopped l; mem := m |})
    = Ok l' ∧ wf l' ∧ ttl l' = ttl l ∧ stopped l' = 0%N ∧
    ∃ p n, cache l' !! k = Some p ∧ mem l' !! p = Some n ∧ value n = v ∧
      expiresAt n = Some e.
Proof.
  intros Hwf Hs Hinv Hc Hnode Hv He Hlen.
  pose proof (lookup_lt_Some _ _ _ Hnode) as Hnlt.
  destruct (tail l) as [t|] eqn:Ht.
  - assert (t < length m2) as Htlt.
    { pose proof (wf_tail _ Hwf t Ht). lia. }
    destruct (lookup_lt_is_Some_2 m2 t Htlt) as [nt Hnt].
    rewrite (modify_Some _ _ _ _ Hnt). simpl. eexists. split; [done|].
    split_and!; try done.
    + split; simpl.
      * apply (ttl_heap_inv_update _ _ t nt); try done; [by left|].
        by intros q [= <-].
      * intros p Hp. rewrite length_insert. destruct (head l) as [h|] eqn:Hh.
        -- pose proof (wf_head _ Hwf h Hh). simplify_eq. lia.
        -- by simplify_eq.
      * intros p [= <-]. by rewrite length_insert.
      * apply Hwf.
      * by left.
    + simpl. destruct (decide (t = node)) as [->|Hne].
      * exists node, (with_next (Some node) nt).
        rewrite list_lookup_insert_eq by done.
        assert (nt = n2) as -> by congruence. by split_and!.
      * exists node, n2. rewrite list_lookup_insert_ne by done. by split_and!.
  - simpl. eexists. split; [done|]. split_and!; try done.
    + split; simpl; try done.
      * intros p Hp. destruct (head l) as [h|] eqn:Hh.
        -- pose proof (wf_head _ Hwf h Hh). simplify_eq. lia.
        -- by simplify_eq.
      * by intros p [= <-].
      * apply Hwf.
      * by left.
    + simpl. exists node, n2. by split_and!.
Qed.

Lemma ttl_set_wf l k v now :
  wf l → stopped l = 0%N →
  ∃ l', set zeroV l k v now = Ok l' ∧ wf l' ∧ ttl l' = ttl l ∧ stopped l' = 0%N ∧
    ∃ p n, cache l' !! k = Some p ∧ mem l' !! p = Some n ∧ value n = v ∧
      expiresAt n = Some (now + ttl l)%Z.
Proof.
  intros Hwf Hs. unfold set, isStopped.
  replace (stopped l =? 1)%N with false by (by rewrite Hs).
  destruct (cache l !! k) as [node|] eqn:Hk.
  - destruct (inv_cache _ _ (wf_heap _ Hwf) _ _ Hk) as (n & e & Hn & Hkn & Hen).
    pose proof (lookup_lt_Some _ _ _ Hn) as Hlt.
    rewrite (modify_Some _ _ _ _ Hn). simpl.
    rewrite (modify_Some _ _ (with_value v n)) by (by apply list_lookup_insert_eq).
    simpl. rewrite list_insert_insert_eq.
    eapply (ttl_set_finish l (cache l) _ node); try done.
    + apply (ttl_heap_inv_update _ _ node n); [apply Hwf|done|done| |].
      * right. simpl. rewrite Hen. eauto.
      * intros q Hq. eapply (inv_closed _ _ (wf_heap _ Hwf)); [exact Hn|done].
    + by apply list_lookup_insert_eq.
    + done.
    + done.
    + by rewrite length_insert.
  - set (new := {| next := None; key := Some k; value := zeroV; expiresAt := None |}).
    unfold alloc.
    assert ((mem l ++ [new]) !! length (mem l) = Some new) as Hnew
      by (by rewrite lookup_app_r, Nat.sub_diag).
    rewrite (modify_Some _ _ _ _ Hnew). simpl.
    rewrite (modify_Some _ _ (with_value v new))
      by (apply list_lookup_insert_eq; rewrite length_app; simpl; lia).
    simpl. rewrite list_insert_insert_eq.
    rewrite insert_app_r_alt, Nat.sub_diag by done. simpl.
    eapply (ttl_set_finish l _ _ (length (mem l))); try done.
    + apply ttl_heap_inv_alloc; [apply Hwf|done].
    + by rewrite lookup_insert_eq.
    + by rewrite lookup_app_r, Nat.sub_diag.
    + done.
    + done.
    + rewrite length_app. lia.
Qed.

Lemma ttl_get_wf l k now :
  wf l → stopped l = 0%N →
  match cache l !! k with
  | None => get zeroV l k now = Ok ((zeroV, false), l)
  | Some p => ∃ n e, mem l !! p = Some n ∧ expiresAt n = Some e ∧
      get zeroV l k now =
        Ok (if Before e now then (zeroV, false) else (value n, true), l)
  end.
Proof.
  intros Hwf Hs. unfold get, isStopped. rewrite Hs. simpl.
  destruct (cache l !! k) as [p|] eqn:Hk; [|done].
  destruct (inv_cache _ _ (wf_heap _ Hwf) _ _ Hk) as (n & e & Hn & _ & He).
  exists n, e. rewrite (load_Some _ _ _ Hn). simpl. rewrite He. simpl.
  by destruct (Before e now).
Qed.

Lemma ttl_sweep_loop_None fuel c m now :
  sweep_loop zeroV fuel c m None now = Ok (c, m, None).
Proof. by destruct fuel. Qed.

Lemma ttl_sweep_loop_inv fuel c m node now c' m' node' :
  sweep_loop zeroV fuel c m node now = Ok (c', m', node') →
  heap_inv c m → (∀ a, node = Some a → a < length m) →
  heap_inv c' m' ∧ length m' = length m ∧ (∀ a, node' = Some a → a < length m').
Proof.
  revert c m node. induction fuel as [|fuel IH]; intros c m node Hsw Hinv Hnode.
  { destruct node; [done|]. simpl in Hsw. by simplify_eq. }
  destruct node as [a|]; [|simpl in Hsw; by simplify_eq].
  simpl in Hsw. apply bind_Ok in Hsw as (n & Hn & Hsw).
  apply load_Ok in Hn as (? & [= <-] & Hn).
  apply bind_Ok in Hsw as (e & He & Hsw).
  destruct (expiresAt n) as [e'|] eqn:He'; [|done]. simpl in He. simplify_eq.
  destruct (After e now); [by simplify_eq|].
  apply bind_Ok in Hsw as (k & Hk & Hsw).
  destruct (key n) as [k'|] eqn:Hk'; [|done]. simpl in Hk. simplify_eq.
  rewrite (modify_Some _ _ _ _ Hn) in Hsw. simpl in Hsw.
  destruct Hinv as [Hitem Hcache Hclosed].
  assert (c !! k = Some a) as Hca.
  { destruct (Hitem _ _ Hn) as [[? _]|(k0 & ? & ? & _ & ?)]; congruence. }
  apply IH in Hsw as (Hinv' & Hlen & Hnode').
  - rewrite length_insert in Hlen. done.
  - split.
    + intros p np Hp. apply list_lookup_insert_Some in Hp as [(-> & <- & _)|[Hne Hp]];
        [by left|].
      destruct (Hitem _ _ Hp) as [?|(k0 & e0 & ? & ? & Hc0)]; [by left|right].
      exists k0, e0. split_and!; [done..|]. rewrite lookup_delete_ne; [done|].
      intros ->. congruence.
    + intros k0 p Hp. apply lookup_delete_Some in Hp as [Hne Hp].
      destruct (Hcache _ _ Hp) as (np & e0 & Hnp & ? & ?).
      exists np, e0. split; [|done]. rewrite list_lookup_insert_ne; [done|].
      intros ->. congruence.
    + apply closed_insert; [done|]. by intros q.
  - intros b Hb. rewrite length_insert. by eapply Hclosed.
Qed.

(* the fuel of [sweep] is enough *)
Lemma ttl_sweep_loop_fuel fuel c m node now :
  closed next m → (∀ a, node = Some a → a < length m) → links next m < fuel →
  sweep_loop zeroV fuel c m node now ≠ OutOfFuel.
Proof.
  revert c m node. induction fuel as [|fuel IH]; intros c m node Hc Hnode Hl; [lia|].
  destruct node as [a|]; [|done].
  destruct (lookup_lt_is_Some_2 m a) as [n Hn]; [by apply Hnode|].
  simpl. rewrite (load_Some _ _ _ Hn). simpl.
  destruct (expiresAt n) as [e|]; [|done]. simpl.
  destruct (After e now); [done|].
  destruct (key n) as [k|]; [|done]. simpl.
  rewrite (modify_Some _ _ _ _ Hn). simpl.
  pose proof (links_insert next m a n (zeroItem zeroV) Hn eq_refl) as Hli.
  destruct (next n) as [b|] eqn:Hb; [|by rewrite ttl_sweep_loop_None].
  apply IH.
  - apply closed_insert; [done|]. by intros q.
  - intros ? [= <-]. rewrite length_insert. by eapply Hc.
  - lia.
Qed.

Lemma ttl_sweep_wf l now l' : wf l → sweep zeroV l now = Ok l' → wf l'.
Proof.
  intros Hwf Hsw. unfold sweep in Hsw.
  apply bind_Ok in Hsw as ([[c m] node] & Hloop & Hsw). simplify_eq.
  destruct (ttl_sweep_loop_inv _ _ _ _ _ _ _ _ Hloop) as (Hinv & Hlen & Hnode);
    [apply Hwf..|].
  split; simpl; try done.
  - intros p. destruct node; [|done]. rewrite Hlen. apply Hwf.
  - apply Hwf.
  - destruct (wf_stopped _ Hwf) as [?|(Hs & Hc & Hh & Ht)]; [by left|right].
    rewrite Hh, ttl_sweep_loop_None in Hloop. by simplify_eq.
Qed.

Lemma ttl_sweep_not_OutOfFuel l now : wf l → sweep zeroV l now ≠ OutOfFuel.
Proof.
  intros Hwf. unfold sweep.
  pose proof (ttl_sweep_loop_fuel (S (length (mem l))) (cache l) (mem l) (head l) now)
    as Hf.
  destruct (sweep_loop _ _ _ _ _ _) as [[[c m] node]| |]; [done|done|].
  exfalso. apply Hf; [apply Hwf|apply Hwf| |done].
  pose proof (links_le_length next (mem l)). lia.
Qed.

(* the [range] loop of [Stop] *)
Lemma ttl_neutralize_all m (ps : list loc) :
  (∀ p, p ∈ ps → p < length m) →
  ∃ m', neutralize_all zeroV m ps = Ok m' ∧ length m' = length m ∧
    ∀ p n', m' !! p = Some n' →
      ∃ n, m !! p = Some n ∧
        ((p ∈ ps ∧ n' = neutralize zeroV n) ∨ ((p ∉ ps) ∧ n' = n)).
Proof.
  revert m. induction ps as [|p0 ps IH]; intros m Hps.
  { exists m. split_and!; [done..|]. intros p n' Hp. exists n'. split; [done|].
    right. split; [apply not_elem_of_nil|done]. }
  destruct (lookup_lt_is_Some_2 m p0) as [n0 Hn0]; [apply Hps; by left|].
  simpl. rewrite (modify_Some _ _ _ _ Hn0). simpl.
  destruct (IH (<[p0 := neutralize zeroV n0]> m)) as (m' & -> & Hlen & Hm').
  { intros p Hp. rewrite length_insert. apply Hps. by right. }
  exists m'. rewrite Hlen, length_insert. split_and!; [done..|].
  intros p n' Hp. destruct (Hm' _ _ Hp) as (n1 & Hn1 & Hor).
  apply list_lookup_insert_Some in Hn1 as [(-> & <- & _)|[Hne Hn1]].
  - exists n0. split; [done|]. left. split; [by left|].
    destruct Hor as [[_ ->]|[_ ->]]; done.
  - exists n1. split; [done|]. destruct Hor as [[Hin ->]|[Hnin ->]].
    + left. split; [by right|done].
    + right. split; [|done]. intros Hin. apply elem_of_cons in Hin as [?|?]; done.
Qed.

Lemma ttl_Stop_wf l :
  wf l →
  ∃ l', Stop zeroV l = Ok l' ∧ wf l' ∧ stopped l' = 1%N ∧
    cache l' = ∅ ∧ head l' = None ∧ tail l' = None ∧
    (stopped l = 1%N → l' = l).
Proof.
  intros Hwf. unfold Stop.
  destruct (wf_stopped _ Hwf) as [Hs|(Hs & Hc & Hh & Ht)]; rewrite Hs;
    [|by exists l].
  change (0 =? 0)%N with true. cbv iota.
  destruct (wf_heap _ Hwf) as [Hitem Hcache Hclosed].
  destruct (ttl_neutralize_all (mem l) (map_to_list (cache l)).*2)
    as (m1 & -> & Hlen1 & Hm1).
  { intros p Hp. apply list_elem_of_fmap in Hp as ([k p'] & -> & Hin).
    apply elem_of_map_to_list in Hin.
    destruct (Hcache _ _ Hin) as (n & _ & Hn & _). by eapply lookup_lt_Some. }
  rewrite bind_ret.
  set (P := λ n : ttlListItem K V,
         (key n = None ∧ expiresAt n = None) ∧
         ∀ q, next n = Some q → q < length m1).
  assert (HP1 : ∀ p n, m1 !! p = Some n → P n).
  { intros p n' Hp. destruct (Hm1 _ _ Hp) as (n & Hn & Hor). split.
    - destruct Hor as [[_ ->]|[Hnin ->]]; [done|].
      destruct (Hitem _ _ Hn) as [?|(k & e & _ & _ & Hc)]; [done|].
      exfalso. apply Hnin. apply list_elem_of_fmap. exists (k, p).
      split; [done|]. by apply elem_of_map_to_list.
    - intros q Hq. rewrite Hlen1. apply (Hclosed p n); [done|].
      by destruct Hor as [[_ ->]|[_ ->]]. }
  destruct (unlink_closed next (clear zeroV) P (S (length m1)) m1 (head l))
    as (m2 & -> & Hlen2 & HP2).
  - done.
  - intros n [[? ?] _]. split; [done|]. by intros q.
  - intros p n q Hp Hq. by apply (HP1 p n).
  - done.
  - intros a Ha. rewrite Hlen1. by apply Hwf.
  - pose proof (links_le_length next m1). lia.
  - simpl. eexists. split; [done|]. split_and!; try done.
    split; simpl; try done; [|apply Hwf|by right].
    split.
    + intros p n Hp. left. by apply (HP2 p n).
    + intros k p. by rewrite lookup_empty.
    + intros p n q Hp Hq. rewrite Hlen2. by apply (HP2 p n).
Qed.

Lemma ttl_reachable_wf l : reachable zeroV l → wf l.
Proof.
  induction 1 as [d l Hnew|l k v now l' _ Hwf Hset
                 |l k now r l' _ Hwf Hget|l now l' _ Hwf Hsw|l l' _ Hwf Hstop].
  - unfold NewTTL in Hnew. case_match eqn:Hc; [done|]. apply Z.leb_gt in Hc.
    simplify_eq. split; simpl; try done; by left.
  - destruct (wf_stopped _ Hwf) as [Hs|(Hs & _)]; cycle 1.
    { unfold set, isStopped in Hset. by rewrite Hs in Hset. }
    destruct (ttl_set_wf l k v now Hwf Hs) as (l2 & Hset' & Hwf2 & _).
    by assert (l' = l2) as -> by congruence.
  - unfold get in Hget. destruct (isStopped l); [done|].
    destruct (cache l !! k); [|by simplify_eq].
    apply bind_Ok in Hget as (? & _ & Hget).
    apply bind_Ok in Hget as (? & _ & Hget).
    destruct (Before _ _); by simplify_eq.
  - by eapply ttl_sweep_wf.
  - destruct (ttl_Stop_wf l Hwf) as (l2 & Hstop' & Hwf2 & _).
    by assert (l' = l2) as -> by congruence.
Qed.

Lemma ttl_active l :
  reachable zeroV l → isStopped l = false → stopped l = 0%N ∧ wf l.
Proof.
  intros Hr Hst. pose proof (ttl_reachable_wf l Hr) as Hwf. split; [|done].
  destruct (wf_stopped _ Hwf) as [Hs|(Hs & _)]; [done|].
  unfold isStopped in Hst. by rewrite Hs in Hst.
Qed.

(* an entry of the index has an expiry; a read after it reports the key
   missing and changes nothing *)
Lemma ttl_get_expired l k p now :
  reachable zeroV l → isStopped l = false → cache l !! k = Some p →
  ∃ n e, mem l !! p = Some n ∧ expiresAt n = Some e ∧
    ((e < now)%Z → get zeroV l k now = Ok ((zeroV, false), l)).
Proof.
  intros Hr Hst Hk. destruct (ttl_active l Hr Hst) as [Hs Hwf].
  pose proof (ttl_get_wf l k now Hwf Hs) as Hg. rewrite Hk in Hg.
  destruct Hg as (n & e & Hn & He & Hg). exists n, e. split_and!; [done..|].
  intros Hlt. rewrite Hg. unfold Before. by rewrite (proj2 (Z.ltb_lt e now)).
Qed.

Lemma ttl_get_pure l k now :
  reachable zeroV l → isStopped l = false → ∃ r, get zeroV l k now = Ok (r, l).
Proof.
  intros Hr Hst. destruct (ttl_active l Hr Hst) as [Hs Hwf].
  pose proof (ttl_get_wf l k now Hwf Hs) as Hg.
  destruct (cache l !! k); [destruct Hg as (? & ? & _ & _ & ->)|]; eauto.
Qed.

Lemma ttl_set_get l k v now now' :
  reachable zeroV l → isStopped l = false → (now' - now < ttl l)%Z →
  ∃ l', set zeroV l k v now = Ok l' ∧ get zeroV l' k now' = Ok ((v, true), l').
Proof.
  intros Hr Hst Hlt. destruct (ttl_active l Hr Hst) as [Hs Hwf].
  destruct (ttl_set_wf l k v now Hwf Hs)
    as (l' & Hset & Hwf' & _ & Hs' & p & n & Hc & Hn & Hv & He).
  exists l'. split; [done|]. pose proof (ttl_get_wf l' k now' Hwf' Hs') as Hg.
  rewrite Hc in Hg. destruct Hg as (n' & e' & Hn' & He' & ->).
  assert (n' = n) as -> by congruence.
  assert (e' = (now + ttl l)%Z) as -> by congruence.
  unfold Before. rewrite (proj2 (Z.ltb_ge _ _)) by lia. by rewrite Hv.
Qed.

Lemma ttl_get_missing l k now :
  isStopped l = false → missing l k now →
  get zeroV l k now = Ok ((zeroV, false), l).
Proof.
  intros Hst [Hk|(p & n & e & Hk & Hn & He & Hlt)]; unfold get; rewrite Hst, Hk;
    [done|].
  rewrite (load_Some _ _ _ Hn). simpl. rewrite He. simpl.
  unfold Before. by rewrite (proj2 (Z.ltb_lt e now)).
Qed.

Lemma ttl_Fetch_error {E} l k (fn : FetchFunc V E) v err now :
  isStopped l = false → missing l k now → fn () = (v, Some err) →
  Fetch zeroV l k fn now = Ok ((zeroV, Some err), l) ∧
  get zeroV l k now = Ok ((zeroV, false), l).
Proof.
  intros Hst Hk Hfn. pose proof (ttl_get_missing l k now Hst Hk) as Hg.
  unfold Fetch. rewrite Hst, Hg. simpl. by rewrite Hfn.
Qed.

Lemma ttl_Stop_spec l :
  reachable zeroV l →
  ∃ l', Stop zeroV l = Ok l' ∧
    cache l' = ∅ ∧ head l' = None ∧ tail l' = None ∧
    (∀ k now, get zeroV l' k now = Panicked CacheStopped) ∧
    (∀ k v now, set zeroV l' k v now = Panicked CacheStopped) ∧
    Stop zeroV l' = Ok l'.
Proof.
  intros Hr. pose proof (ttl_reachable_wf l Hr) as Hwf.
  destruct (ttl_Stop_wf l Hwf) as (l' & Hstop & _ & Hs' & Hc & Hh & Ht & _).
  exists l'. split_and!; try done.
  - intros k now. unfold get, isStopped. by rewrite Hs'.
  - intros k v now. unfold set, isStopped. by rewrite Hs'.
  - unfold Stop. by rewrite Hs'.
Qed.

Lemma ttl_expiry_Some m p e :
  expiry m p = Some e ↔ ∃ n, m !! p = Some n ∧ expiresAt n = Some e.
Proof.
  unfold expiry. destruct (m !! p) as [n|]; simpl; split.
  - eauto.
  - by intros (? & [= <-] & ?).
  - done.
  - by intros (? & ? & _).
Qed.

(* the loop of the sweeper on a list in the order of the expiries: the
   items that do not expire after [now] are the first ones, and they leave *)
Lemma ttl_sweep_loop_ordered now ls : ∀ c m h fuel,
  chain next m h ls → NoDup ls →
  (∀ p, p ∈ ls → ∃ n k e, m !! p = Some n ∧ key n = Some k ∧ expiresAt n = Some e) →
  (∀ i j p q e1 e2, i ≤ j → ls !! i = Some p → ls !! j = Some q →
     expiry m p = Some e1 → expiry m q = Some e2 → (e1 ≤ e2)%Z) →
  length ls < fuel →
  ∃ gone kept c' m',
    ls = gone ++ kept ∧
    sweep_loop zeroV fuel c m h now = Ok (c', m', kept !! 0) ∧
    chain next m' (kept !! 0) kept ∧
    (∀ p, p ∈ gone → ∃ n k e, m !! p = Some n ∧ key n = Some k ∧
       expiresAt n = Some e ∧ (e ≤ now)%Z ∧ c' !! k = None) ∧
    (∀ p, p ∈ kept → ∃ e, expiry m p = Some e ∧ (now < e)%Z) ∧
    (∀ p, p ∉ gone → m' !! p = m !! p) ∧
    (∀ k, c' !! k = None ∨ c' !! k = c !! k) ∧
    (∀ k, (∀ p n, p ∈ gone → m !! p = Some n → key n ≠ Some k) → c' !! k = c !! k).
Proof.
  induction ls as [|p ls IH]; intros c m h fuel Hc Hnd Hit Hso Hf.
  { simpl in Hc. subst h. exists [], [], c, m. rewrite ttl_sweep_loop_None.
    split_and!; try done; try (intros ? Hp; by apply elem_of_nil in Hp). by right. }
  destruct Hc as [-> (n & Hn & Hc)]. apply NoDup_cons in Hnd as [Hp Hnd].
  destruct (Hit p) as (n' & k & e & Hn' & Hk & He); [by left|].
  assert (n' = n) as -> by congruence.
  destruct fuel as [|fuel]; [lia|]. simpl.
  rewrite (load_Some _ _ _ Hn). simpl. rewrite He. simpl.
  unfold After. destruct (now <? e)%Z eqn:Hnow.
  - (* the first item expires after [now], and so do the others *)
    apply Z.ltb_lt in Hnow. exists [], (p :: ls), c, m.
    split_and!; try done; try (intros ? Hq; by apply elem_of_nil in Hq).
    + split; [done|]. by exists n.
    + intros q Hq. apply list_elem_of_lookup in Hq as [j Hj].
      destruct (Hit q) as (nq & kq & eq' & Hnq & _ & Heq); [by eapply list_elem_of_lookup_2|].
      exists eq'. split; [apply ttl_expiry_Some; eauto|].
      assert (e ≤ eq')%Z; [|lia].
      apply (Hso 0 j p q); [lia|done|done|apply ttl_expiry_Some; eauto..].
    + by right.
  - (* the first item leaves *)
    apply Z.ltb_ge in Hnow. rewrite Hk. simpl.
    rewrite (modify_Some _ _ _ _ Hn). simpl.
    set (m1 := <[p := zeroItem zeroV]> m).
    assert (∀ q, q ∈ ls → m1 !! q = m !! q) as Hm1.
    { intros q Hq. apply list_lookup_insert_ne. by intros ->. }
    destruct (IH (delete k c) m1 (next n) fuel) as (gone & kept & c' & m' & -> & -> & Hc' & Hg & Hkp & Hm' & Hcc & Hck).
    + apply chain_frame; done.
    + done.
    + intros q Hq. rewrite Hm1 by done. apply Hit. by right.
    + intros i j q1 q2 e1 e2 Hij Hq1 Hq2. unfold expiry.
      rewrite !Hm1 by (by eapply list_elem_of_lookup_2).
      apply (Hso (S i) (S j)); [lia|done..].
    + simpl in Hf. lia.
    + exists (p :: gone), kept, c', m'. split_and!; try done.
      * intros q Hq. apply elem_of_cons in Hq as [->|Hq].
        -- exists n, k, e. split_and!; try done.
           destruct (Hcc k) as [?|Heq]; [done|]. by rewrite Heq, lookup_delete_eq.
        -- destruct (Hg q Hq) as (nq & kq & eq' & Hnq & ?).
           exists nq, kq, eq'. split; [|done]. rewrite <- Hm1; [done|].
           apply elem_of_app. by left.
      * intros q Hq. destruct (Hkp q Hq) as (eq' & Heq & ?). exists eq'. split; [|done].
        unfold expiry in *. rewrite <- Hm1; [done|]. apply elem_of_app. by right.
      * intros q Hq. apply not_elem_of_cons in Hq as [Hne Hq].
        rewrite Hm' by done. by apply list_lookup_insert_ne.
      * intros k'. destruct (Hcc k') as [?|Heq]; [by left|]. rewrite Heq.
        destruct (decide (k' = k)) as [->|Hne]; [left; apply lookup_delete_eq|].
        right. by apply lookup_delete_ne.
      * intros k' Hk'. rewrite Hck.
        -- apply lookup_delete_ne. intros ->. by apply (Hk' p n); [left|..].
        -- intros q nq Hq Hnq. apply (Hk' q nq); [by right|].
           rewrite <- Hm1; [done|]. apply elem_of_app. by left.
Qed.

(* a tick of the sweeper in a run in order: the items that do not expire
   after [now] leave the index and the list, and the others stay as they
   are *)
Lemma ttl_sweep_ordered l t ls now :
  ordered l t ls →
  ∃ l' gone kept,
    sweep zeroV l now = Ok l' ∧ ls = gone ++ kept ∧ ordered l' t kept ∧
    ttl l' = ttl l ∧ stopped l' = stopped l ∧
    (∀ p, p ∈ gone → ∃ n k e, mem l !! p = Some n ∧ key n = Some k ∧
       expiresAt n = Some e ∧ (e ≤ now)%Z ∧ cache l' !! k = None) ∧
    (∀ p, p ∈ kept → ∃ n k e, mem l !! p = Some n ∧ mem l' !! p = Some n ∧
       key n = Some k ∧ expiresAt n = Some e ∧ (now < e)%Z ∧
       cache l' !! k = Some p) ∧
    (∀ k, cache l !! k = None → cache l' !! k = None).
Proof.
  intros Ho. unfold sweep.
  destruct (ttl_sweep_loop_ordered now ls (cache l) (mem l) (head l) (S (length (mem l))))
    as (gone & kept & c' & m' & -> & -> & Hc' & Hg & Hkp & Hm' & Hcc & Hck);
    [apply Ho|apply Ho| |apply Ho| |].
  { intros p Hp. destruct (ord_item _ _ _ Ho p Hp) as (n & k & e & ? & ? & ? & _).
    by exists n, k, e. }
  { pose proof (chain_length _ _ _ _ (ord_chain _ _ _ Ho) (ord_nodup _ _ _ Ho)). lia. }
  pose proof (ord_nodup _ _ _ Ho) as Hnd.
  apply NoDup_app in Hnd as (Hndg & Hdisj & Hndk).
  assert (∀ p, p ∈ kept → m' !! p = mem l !! p) as Hmk.
  { intros p Hp. apply Hm'. intros Hp'. by apply (Hdisj p). }
  assert (∀ p k n, p ∈ kept → mem l !! p = Some n → key n = Some k →
            c' !! k = cache l !! k) as Hkeep.
  { intros p k n Hp Hn Hk. apply Hck. intros q nq Hq Hnq Hkq.
    destruct (ord_item _ _ _ Ho q) as (nq' & kq & ? & ? & ? & ? & Hcq & _);
      [apply elem_of_app; by left|].
    destruct (ord_item _ _ _ Ho p) as (n' & k' & ? & ? & ? & ? & Hcp & _);
      [apply elem_of_app; by right|].
    assert (q = p) as -> by congruence. by apply (Hdisj p). }
  simpl. eexists _, gone, kept. split_and!; [done|done| |done|done| | |]; simpl.
  - split; simpl.
    + done.
    + destruct kept as [|q kept]; [done|]. simpl.
      rewrite (ord_last _ _ _ Ho), last_app.
      destruct (last (q :: kept)) eqn:E; [done|]. by apply last_None in E.
    + done.
    + intros p Hp.
      destruct (ord_item _ _ _ Ho p) as (n & k & e & Hn & Hk & He & Hcp & Hle);
        [apply elem_of_app; by right|].
      exists n, k, e. rewrite Hmk, (Hkeep p k n) by done. done.
    + intros k p Hk. destruct (Hcc k) as [?|Heq]; [congruence|]. rewrite Heq in Hk.
      destruct (ord_cache _ _ _ Ho k p Hk) as [Hin (n & Hn & Hkn)].
      apply elem_of_app in Hin as [Hin|Hin].
      * destruct (Hg p Hin) as (n' & k' & ? & ? & ? & _ & _ & Hnone).
        assert (k' = k) as -> by congruence. congruence.
      * split; [done|]. exists n. by rewrite Hmk.
    + intros i j p q e1 e2 Hij Hp Hq. unfold expiry.
      rewrite !Hmk by (by eapply list_elem_of_lookup_2).
      apply (ord_sorted _ _ _ Ho (length gone + i) (length gone + j)); [lia|..].
      * by rewrite lookup_app_r, Nat.add_comm, Nat.add_sub by lia.
      * by rewrite lookup_app_r, Nat.add_comm, Nat.add_sub by lia.
    + apply Ho.
  - done.
  - intros p Hp. destruct (Hkp p Hp) as (e & He & Hlt).
    destruct (ord_item _ _ _ Ho p) as (n & k & e' & Hn & Hk & He' & Hcp & _);
      [apply elem_of_app; by right|].
    apply ttl_expiry_Some in He as (n' & ? & ?).
    exists n, k, e. rewrite Hmk, (Hkeep p k n) by done.
    split_and!; try done; congruence.
  - intros k Hk. destruct (Hcc k) as [?|Heq]; congruence.
Qed.

(* a write of a key that is not in the index, not before the last write:
   the new item is the last of the list *)
Lemma ttl_set_ordered l t ls k v now :
  ordered l t ls → (t ≤ now)%Z → cache l !! k = None → isStopped l = false →
  ∃ l', set zeroV l k v now = Ok l' ∧ ordered l' now (ls ++ [length (mem l)]) ∧
    ttl l' = ttl l ∧ stopped l' = stopped l ∧
    cache l' = <[k := length (mem l)]> (cache l) ∧
    mem l' !! length (mem l) =
      Some {| next := None; key := Some k; value := v;
              expiresAt := Some (now + ttl l)%Z |} ∧
    ∀ q nq, mem l !! q = Some nq →
      ∃ nq', mem l' !! q = Some nq' ∧ key nq' = key nq ∧ value nq' = value nq ∧
        expiresAt nq' = expiresAt nq.
Proof.
  intros Ho Ht Hk Hs. unfold set. rewrite Hs, Hk. simpl.
  set (new := {| next := None; key := Some k; value := zeroV; expiresAt := None |}).
  set (node := length (mem l)).
  set (n2 := {| next := None; key := Some k; value := v;
                expiresAt := Some (now + ttl l)%Z |}).
  assert (Hfresh : ∀ p, p ∈ ls → p ≠ node).
  { intros p Hp. pose proof (chain_bound _ _ _ _ p (ord_chain _ _ _ Ho) Hp). unfold node. lia. }
  assert (Hnew : (mem l ++ [new]) !! node = Some new).
  { unfold node. by rewrite lookup_app_r, Nat.sub_diag by done. }
  assert (Hlen : node < length (mem l ++ [new])).
  { rewrite length_app. simpl. unfold node. lia. }
  rewrite (modify_Some _ _ _ _ Hnew). simpl.
  rewrite (modify_Some _ _ (with_value v new)) by (by apply list_lookup_insert_eq).
  simpl. rewrite list_insert_insert_eq.
  change (with_expiresAt (Some (now + ttl l)%Z) (with_value v new)) with n2.
  set (m2 := <[node := n2]> (mem l ++ [new])).
  assert (Hn2 : m2 !! node = Some n2) by (by apply list_lookup_insert_eq).
  assert (Hold2 : ∀ p np, mem l !! p = Some np → m2 !! p = Some np).
  { intros p np Hp. pose proof (lookup_lt_Some _ _ _ Hp). unfold m2.
    rewrite list_lookup_insert_ne by (unfold node; lia). by apply lookup_app_l_Some. }
  assert (Hc2 : chain next m2 (head l) ls).
  { apply chain_frame; [intros Hin; by apply (Hfresh node)|]. apply chain_alloc, Ho. }
  assert (∃ m3, match tail l with
                | Some _ => modify m2 (tail l) (with_next (Some node))
                | None => Ok m2
                end = Ok m3 ∧ m3 !! node = Some n2 ∧
          (∀ p np, mem l !! p = Some np →
             ∃ np', m3 !! p = Some np' ∧ key np' = key np ∧ value np' = value np ∧
               expiresAt np' = expiresAt np) ∧
          chain next m3 (match head l with None => Some node | Some h => Some h end)
            (ls ++ [node])) as (m3 & -> & Hn3 & Hold & Hchain).
  { destruct (list_snoc_or_nil ls) as [->|(ls0 & t0 & ->)].
    - assert (tail l = None) as -> by apply Ho.
      assert (head l = None) as -> by apply Ho.
      exists m2. split_and!; [done|done| |].
      + intros p np Hp. exists np. split; [by apply Hold2|done].
      + simpl. split; [done|]. by exists n2.
    - assert (tail l = Some t0) as Htl by (rewrite (ord_last _ _ _ Ho); apply last_snoc).
      rewrite Htl.
      assert (t0 ∈ ls0 ++ [t0]) as Hin by (apply elem_of_app; right; by left).
      destruct (ord_item _ _ _ Ho t0 Hin) as (nt & ? & ? & Hnt & _).
      rewrite (modify_Some _ _ nt) by (by apply Hold2).
      eexists. split; [done|]. split_and!.
      + rewrite list_lookup_insert_ne; [done|]. by apply Hfresh.
      + intros p np Hp. destruct (decide (t0 = p)) as [->|Hne].
        * exists (with_next (Some node) nt).
          rewrite list_lookup_insert_eq by (eapply lookup_lt_Some; by apply Hold2).
          assert (np = nt) as -> by congruence. done.
        * exists np. rewrite list_lookup_insert_ne by done. split; [by apply Hold2|done].
      + assert (∃ h, head l = Some h) as [h Hh'].
        { destruct ls0; destruct (ord_chain _ _ _ Ho) as [? _]; eauto. }
        rewrite Hh'. rewrite <- Hh'.
        eapply chain_snoc; [done|apply Ho|apply last_snoc|done| |done|done].
        intros Hin'. by apply (Hfresh node). }
  simpl. eexists. split; [done|]. simpl. split_and!; try done.
  split; simpl.
  - done.
  - by rewrite last_snoc.
  - apply NoDup_app. split_and!; [apply Ho| |apply NoDup_singleton].
    intros p Hp Hp'. apply list_elem_of_singleton in Hp'. by apply (Hfresh p).
  - intros p Hp. apply elem_of_app in Hp as [Hp|Hp].
    + destruct (ord_item _ _ _ Ho p Hp) as (np & kp & ep & Hnp & Hkp & Hep & Hcp & Hle).
      destruct (Hold _ _ Hnp) as (np' & Hnp' & Hkp' & _ & Hep').
      exists np', kp, ep. split_and!; [done|congruence|congruence| |lia].
      rewrite lookup_insert_ne; [done|congruence].
    + apply list_elem_of_singleton in Hp as ->.
      exists n2, k, (now + ttl l)%Z. split_and!; [done|done|done| |lia].
      by rewrite lookup_insert_eq.
  - intros kp p Hp. apply lookup_insert_Some in Hp as [[<- <-]|[Hne Hp]].
    + split; [apply elem_of_app; right; by left|]. by exists n2.
    + destruct (ord_cache _ _ _ Ho _ _ Hp) as [Hin (np & Hnp & Hkp)].
      split; [apply elem_of_app; by left|].
      destruct (Hold _ _ Hnp) as (np' & Hnp' & Hkp' & _).
      exists np'. split; [done|congruence].
  - intros i j p q e1 e2 Hij Hp Hq He1 He2.
    assert (∀ a ea, a ∈ ls → expiry m3 a = Some ea →
              expiry (mem l) a = Some ea ∧ (ea ≤ t + ttl l)%Z) as Hexp.
    { intros a ea Ha Hea.
      destruct (ord_item _ _ _ Ho a Ha) as (na & ? & ea' & Hna & _ & Hea' & _ & Hle).
      destruct (Hold _ _ Hna) as (na' & Hna' & _ & _ & Hea'').
      apply ttl_expiry_Some in Hea as (na'' & ? & ?).
      assert (ea' = ea) as -> by congruence.
      split; [|done]. apply ttl_expiry_Some. eauto. }
    assert (expiry m3 node = Some (now + ttl l)%Z) as Hen.
    { apply ttl_expiry_Some. by exists n2. }
    apply lookup_snoc_Some in Hp as [[Hi Hp]|[Hi <-]];
      apply lookup_snoc_Some in Hq as [[Hj Hq]|[Hj <-]].
    + destruct (Hexp p e1 (list_elem_of_lookup_2 _ _ _ Hp) He1) as [He1' _].
      destruct (Hexp q e2 (list_elem_of_lookup_2 _ _ _ Hq) He2) as [He2' _].
      by apply (ord_sorted _ _ _ Ho i j p q).
    + destruct (Hexp p e1 (list_elem_of_lookup_2 _ _ _ Hp) He1) as [_ Hle].
      assert (e2 = (now + ttl l)%Z) as -> by congruence. lia.
    + lia.
    + assert (e1 = e2) by congruence. lia.
  - apply Ho.
Qed.

Lemma ttl_Stop_ordered l t ls l' :
  ordered l t ls → Stop zeroV l = Ok l' → ∃ ls', ordered l' t ls'.
Proof.
  intros Ho Hst. unfold Stop in Hst. destruct (stopped l =? 0)%N; [|by exists ls; simplify_eq].
  apply bind_Ok in Hst as (m1 & _ & Hst). apply bind_Ok in Hst as (m2 & _ & Hst).
  simplify_eq. exists []. split; simpl; try done.
  - apply NoDup_nil_2.
  - intros p Hp. by apply elem_of_nil in Hp.
  - apply Ho.
Qed.

Lemma ttl_get_same l k now r l' : get zeroV l k now = Ok (r, l') → l' = l.
Proof.
  unfold get. destruct (isStopped l); [done|]. destruct (cache l !! k); [|by intros [= _ ->]].
  intros Hg. apply bind_Ok in Hg as (nk & _ & Hg). apply bind_Ok in Hg as (e & _ & Hg).
  by destruct (Before e now); simplify_eq.
Qed.

Lemma ttl_in_order_ordered t l : in_order zeroV t l → ∃ ls, ordered l t ls.
Proof.
  induction 1 as [d l t Hnew|t l k v now l' _ [ls Ho] Ht Hk Hset
                 |t l k now r l' _ IH Hget|t l now l' _ [ls Ho] Hsw
                 |t l l' _ [ls Ho] Hst].
  - unfold NewTTL in Hnew. case_match eqn:Hd; [done|]. apply Z.leb_gt in Hd.
    simplify_eq. exists []. split; simpl; try done.
    + apply NoDup_nil_2.
    + intros p Hp. by apply elem_of_nil in Hp.
  - assert (isStopped l = false) as Hs.
    { unfold set in Hset. by destruct (isStopped l). }
    destruct (ttl_set_ordered l t ls k v now Ho Ht Hk Hs) as (l2 & Hset' & Ho2 & _).
    assert (l' = l2) as -> by congruence. eauto.
  - by rewrite (ttl_get_same _ _ _ _ _ Hget).
  - destruct (ttl_sweep_ordered l t ls now Ho) as (l2 & gone & kept & Hsw' & _ & Ho2 & _).
    assert (l' = l2) as -> by congruence. eauto.
  - by eapply ttl_Stop_ordered.
Qed.

Lemma ttl_in_order_reachable t l : in_order zeroV t l → reachable zeroV l.
Proof.
  induction 1; [by eapply reach_new|by eapply reach_set|by eapply reach_get
               |by eapply reach_sweep|by eapply reach_stop].
Qed.

(* a value is read until its expiry, the instant of the expiry included *)
Lemma ttl_set_get_le l k v now now' :
  reachable zeroV l → isStopped l = false → (now' ≤ now + ttl l)%Z →
  ∃ l', set zeroV l k v now = Ok l' ∧ isStopped l' = false ∧
    get zeroV l' k now' = Ok ((v, true), l').
Proof.
  intros Hr Hst Hlt. destruct (ttl_active l Hr Hst) as [Hs Hwf].
  destruct (ttl_set_wf l k v now Hwf Hs)
    as (l' & Hset & Hwf' & _ & Hs' & p & n & Hc & Hn & Hv & He).
  exists l'. split; [done|]. split; [unfold isStopped; by rewrite Hs'|].
  pose proof (ttl_get_wf l' k now' Hwf' Hs') as Hg.
  rewrite Hc in Hg. destruct Hg as (n' & e' & Hn' & He' & ->).
  assert (n' = n) as -> by congruence.
  assert (e' = (now + ttl l)%Z) as -> by congruence.
  unfold Before. rewrite (proj2 (Z.ltb_ge _ _)) by lia. by rewrite Hv.
Qed.

(* [Fetch] of a key that is missing stores what the function returns,
   and until the expiry the next [Fetch] does not call its function *)
Lemma ttl_Fetch_miss {E} l k (fn : FetchFunc V E) v now :
  reachable zeroV l → isStopped l = false →
  missing l k now → fn () = (v, None) →
  ∃ l', Fetch zeroV l k fn now = Ok ((v, None), l') ∧ set zeroV l k v now = Ok l' ∧
    ∀ now' (fn' : FetchFunc V E), (now' ≤ now + ttl l)%Z →
      Fetch zeroV l' k fn' now' = Ok ((v, None), l').
Proof.
  intros Hr Hst Hk Hfn. unfold Fetch at 1.
  rewrite Hst, (ttl_get_missing l k now Hst Hk). simpl. rewrite Hfn.
  destruct (ttl_set_get_le l k v now now Hr Hst) as (l' & Hset & Hst' & _).
  { destruct (ttl_active l Hr Hst) as [_ Hwf]. pose proof (wf_ttl _ Hwf). lia. }
  rewrite Hset. simpl. exists l'. split_and!; [done..|]. intros now' fn' Hle.
  destruct (ttl_set_get_le l k v now now' Hr Hst Hle) as (l2 & Hset2 & _ & Hget).
  assert (l2 = l') as -> by congruence. unfold Fetch. by rewrite Hst', Hget.
Qed.

(* a tick of the sweeper, key by key *)
Lemma ttl_sweep_in_order t l now :
  in_order zeroV t l →
  ∃ l', sweep zeroV l now = Ok l' ∧ stopped l' = stopped l ∧
    ∀ k, match cache l !! k with
         | None => cache l' !! k = None
         | Some p => ∃ n e, mem l !! p = Some n ∧ expiresAt n = Some e ∧
             if (now <? e)%Z
             then cache l' !! k = Some p ∧ mem l' !! p = Some n
             else cache l' !! k = None
         end.
Proof.
  intros Hio. destruct (ttl_in_order_ordered t l Hio) as [ls Ho].
  destruct (ttl_sweep_ordered l t ls now Ho)
    as (l' & gone & kept & Hsw & -> & _ & _ & Hs & Hg & Hkp & Hnone).
  exists l'. split_and!; [done..|]. intros k.
  destruct (cache l !! k) as [p|] eqn:Hk; [|by apply Hnone].
  destruct (ord_cache _ _ _ Ho k p Hk) as [Hin (n & Hn & Hkn)].
  apply elem_of_app in Hin as [Hin|Hin].
  - destruct (Hg p Hin) as (n' & k' & e & Hn' & Hk' & He & Hle & Hc).
    assert (n' = n) as -> by congruence. assert (k' = k) as -> by congruence.
    exists n, e. split_and!; [done..|]. by rewrite (proj2 (Z.ltb_ge _ _)) by lia.
  - destruct (Hkp p Hin) as (n' & k' & e & Hn' & Hn'' & Hk' & He & Hlt & Hc).
    assert (n' = n) as -> by congruence. assert (k' = k) as -> by congruence.
    exists n, e. split_and!; [done..|]. by rewrite (proj2 (Z.ltb_lt _ _)) by lia.
Qed.

(* at the instant of its expiry an entry is still read, and the sweeper
   removes it *)
Lemma ttl_expiry_instant t l k p n now :
  in_order zeroV t l → isStopped l = false →
  cache l !! k = Some p → mem l !! p = Some n → expiresAt n = Some now →
  get zeroV l k now = Ok ((value n, true), l) ∧
  ∃ l', sweep zeroV l now = Ok l' ∧ get zeroV l' k now = Ok ((zeroV, false), l').
Proof.
  intros Hio Hst Hk Hn He. split.
  - unfold get. rewrite Hst, Hk, (load_Some _ _ _ Hn). simpl. rewrite He. simpl.
    unfold Before. by rewrite Z.ltb_irrefl.
  - destruct (ttl_sweep_in_order t l now Hio) as (l' & Hsw & Hs & Hc).
    exists l'. split; [done|]. specialize (Hc k). rewrite Hk in Hc.
    destruct Hc as (n' & e & Hn' & He' & Hc).
    assert (e = now) as -> by congruence. rewrite Z.ltb_irrefl in Hc.
    unfold get, isStopped in *. by rewrite Hs, Hst, Hc.
Qed.

(* the keys and the expiries of the list of a run in order *)
Lemma ttl_ordered_expiries l t ls :
  ordered l t ls →
  Forall2 (λ p x, entry key expiresAt (mem l) p = Some x) ls (expiries l).
Proof.
  intros Ho. destruct (list_entries_exist key expiresAt (mem l) ls) as [es Hes].
  { intros p Hp. destruct (ord_item _ _ _ Ho p Hp) as (n & k & e & Hn & Hk & _).
    exists (k, expiresAt n). apply entry_Some. eauto. }
  unfold expiries.
  by rewrite (list_entries_chain next key expiresAt (mem l) (head l) ls es)
    by (done || apply Ho).
Qed.

(* the list of a run in order is in the order of the expiries *)
Lemma ttl_in_order_sorted t l i j k1 k2 e1 e2 :
  in_order zeroV t l → i ≤ j →
  expiries l !! i = Some (k1, Some e1) → expiries l !! j = Some (k2, Some e2) →
  (e1 ≤ e2 ∧ e2 ≤ t + ttl l)%Z.
Proof.
  intros Hio Hij Hi Hj. destruct (ttl_in_order_ordered t l Hio) as [ls Ho].
  pose proof (ttl_ordered_expiries l t ls Ho) as Hes.
  destruct (Forall2_lookup_r _ _ _ _ _ Hes Hi) as (p & Hp & Hpe).
  destruct (Forall2_lookup_r _ _ _ _ _ Hes Hj) as (q & Hq & Hqe).
  apply entry_Some in Hpe as (np & Hnp & _ & Hep).
  apply entry_Some in Hqe as (nq & Hnq & _ & Heq). simpl in *. split.
  - apply (ord_sorted _ _ _ Ho i j p q); [done..| |]; apply ttl_expiry_Some; eauto.
  - destruct (ord_item _ _ _ Ho q) as (nq' & ? & e & ? & _ & ? & _ & Hle);
      [by eapply list_elem_of_lookup_2|].
    assert (e = e2) as -> by congruence. done.
Qed.

(* a write of a key that is not in the index adds the key at the end of
   the list *)
Lemma ttl_set_in_order t l k v now :
  in_order zeroV t l → isStopped l = false → (t ≤ now)%Z → cache l !! k = None →
  ∃ l', set zeroV l k v now = Ok l' ∧ in_order zeroV now l' ∧
    expiries l' = expiries l ++ [(k, Some (now + ttl l)%Z)].
Proof.
  intros Hio Hst Ht Hk. destruct (ttl_in_order_ordered t l Hio) as [ls Ho].
  destruct (ttl_set_ordered l t ls k v now Ho Ht Hk Hst)
    as (l' & Hset & Ho' & _ & _ & _ & Hnew & Hold).
  exists l'. split_and!; [done|by eapply order_set|].
  eapply list_entries_chain; [apply Ho'..|].
  apply Forall2_app; [|repeat constructor; apply entry_Some; eauto].
  pose proof (ttl_ordered_expiries l t ls Ho) as Hes.
  apply Forall2_same_length_lookup. split; [by eapply Forall2_length|].
  intros i p x Hp Hx.
  destruct (Forall2_lookup_l _ _ _ _ _ Hes Hp) as (x' & Hx' & Hpx).
  assert (x' = x) as -> by congruence.
  apply entry_Some in Hpx as (np & Hnp & Hkp & Hep).
  destruct (Hold _ _ Hnp) as (np' & Hnp' & Hkp' & _ & Hep').
  apply entry_Some. exists np'. split_and!; congruence.
Qed.

(* [Fetch] is a [get] and maybe a [set] *)
Lemma ttl_Fetch_reachable {E} l k (fn : FetchFunc V E) now r l' :
  reachable zeroV l → Fetch zeroV l k fn now = Ok (r, l') → reachable zeroV l'.
Proof.
  intros Hr Hf. unfold Fetch in Hf. destruct (isStopped l); [done|].
  apply bind_Ok in Hf as ([[x ok] l1] & Hget & Hf).
  assert (reachable zeroV l1) as Hr1 by (by eapply reach_get).
  destruct ok; [by simplify_eq|]. destruct (fn ()) as [v [e|]]; [by simplify_eq|].
  apply bind_Ok in Hf as (l2 & Hset & Hf). simplify_eq. by eapply reach_set.
Qed.

End facts.
End TTL_facts.

(** ** TTL (heap): the invariant *)

Module TTLHeap_facts.
Import TTLHeap.
Section facts.
Context `{Countable K} {V : Type} (zeroV : V).
Implicit Types (l : TTL K V) (m : list (ttlItem K V)) (c : gmap K loc).
Implicit Types (h : list loc).

Lemma heap_Swap_elem h i j h' :
  Swap h i j = Ok h' → length h' = length h ∧ ∀ p, p ∈ h' → p ∈ h.
Proof.
  unfold Swap, index. intros Hsw.
  destruct (h !! i) as [pi|] eqn:Hi; [|done].
  destruct (h !! j) as [pj|] eqn:Hj; [|done]. simpl in Hsw. simplify_eq.
  split; [by rewrite !length_insert|]. intros p Hp.
  apply list_elem_of_lookup in Hp as [a Ha].
  apply list_lookup_insert_Some in Ha as [(_ & <- & _)|[_ Ha]];
    [by eapply list_elem_of_lookup_2|].
  apply list_lookup_insert_Some in Ha as [(_ & <- & _)|[_ Ha]];
    by eapply list_elem_of_lookup_2.
Qed.

Lemma heap_up_elem fuel m h j h' :
  up fuel m h j = Ok h' → length h' = length h ∧ ∀ p, p ∈ h' → p ∈ h.
Proof.
  revert h j. induction fuel as [|fuel IH]; intros h j Hup; [done|].
  simpl in Hup. case_bool_decide; [by simplify_eq|].
  apply bind_Ok in Hup as (b & _ & Hup). destruct b; simpl in Hup; [|by simplify_eq].
  apply bind_Ok in Hup as (h1 & Hsw & Hup).
  apply heap_Swap_elem in Hsw as [Hl1 He1]. apply IH in Hup as [Hl2 He2].
  split; [congruence|auto].
Qed.

Lemma heap_down_elem fuel m h i n h' :
  down fuel m h i n = Ok h' → length h' = length h ∧ ∀ p, p ∈ h' → p ∈ h.
Proof.
  revert h i. induction fuel as [|fuel IH]; intros h i Hd; [done|].
  simpl in Hd. case_bool_decide; [by simplify_eq|].
  apply bind_Ok in Hd as (b1 & _ & Hd).
  apply bind_Ok in Hd as (b & _ & Hd). destruct b; simpl in Hd; [|by simplify_eq].
  apply bind_Ok in Hd as (h1 & Hsw & Hd).
  apply heap_Swap_elem in Hsw as [Hl1 He1]. apply IH in Hd as [Hl2 He2].
  split; [congruence|auto].
Qed.

Lemma heap_Pop_method_elem h p : p ∈ Pop h → p ∈ h.
Proof.
  destruct (list_snoc_or_nil h) as [->|(h0 & x & ->)]; [done|].
  unfold Pop. destruct (h0 ++ [x]) eqn:Heq; [by destruct h0|]. rewrite <- Heq.
  rewrite removelast_last. intros Hp. apply elem_of_app. by left.
Qed.

Lemma heap_Pop_method_length h : length (Pop h) = length h - 1.
Proof.
  destruct (list_snoc_or_nil h) as [->|(h0 & x & ->)]; [done|].
  unfold Pop. destruct (h0 ++ [x]) eqn:Heq; [by destruct h0|]. rewrite <- Heq.
  rewrite removelast_last, length_app. simpl. lia.
Qed.

Lemma heap_Push_elem m h x h' :
  heap_Push m h x = Ok h' → ∀ p, p ∈ h' → p ∈ h ∨ p = x.
Proof.
  unfold heap_Push. intros Hup p Hp. apply heap_up_elem in Hup as [_ He].
  apply He, elem_of_app in Hp as [?|Hp]; [by left|right].
  by apply list_elem_of_singleton in Hp.
Qed.

Lemma heap_Pop_elem m h h' :
  heap_Pop m h = Ok h' → length h' = length h - 1 ∧ ∀ p, p ∈ h' → p ∈ h.
Proof.
  unfold heap_Pop. destruct (length h) as [|n] eqn:Hlen; [done|]. intros Hp.
  apply bind_Ok in Hp as (h1 & Hsw & Hp). apply bind_Ok in Hp as (h2 & Hd & Hp).
  simplify_eq. apply heap_Swap_elem in Hsw as [Hl1 He1].
  apply heap_down_elem in Hd as [Hl2 He2]. split.
  - rewrite heap_Pop_method_length. lia.
  - intros p Hp. by apply He1, He2, heap_Pop_method_elem.
Qed.

Lemma heap_Less_fuel m h i j : Less m h i j ≠ OutOfFuel.
Proof.
  unfold Less, index, load, deref.
  destruct (h !! i) as [pi|]; [|done]. simpl.
  destruct (m !! pi) as [ni|]; [|done]. simpl.
  destruct (h !! j) as [pj|]; [|done]. simpl.
  destruct (m !! pj) as [nj|]; [|done]. simpl.
  destruct (expiresAt nj); [|done]. simpl. by destruct (expiresAt ni).
Qed.

Lemma heap_Swap_fuel h i j : Swap h i j ≠ OutOfFuel.
Proof.
  unfold Swap, index. destruct (h !! i); [|done]. simpl. by destruct (h !! j).
Qed.

(* the loops of container/heap end *)
Lemma heap_up_fuel fuel m h j : j < fuel → up fuel m h j ≠ OutOfFuel.
Proof.
  revert h j. induction fuel as [|fuel IH]; intros h j Hj; [lia|].
  assert ((j - 1) / 2 ≤ j - 1) as Hdiv by (apply Nat.Div0.div_le_upper_bound; lia).
  change (up (S fuel) m h j) with
    (let i := (j - 1) / 2 in
     if bool_decide (i = j) then Ok h
     else Less m h j i ≫= λ b, if negb b then Ok h
                               else Swap h i j ≫= λ h, up fuel m h i).
  generalize dependent ((j - 1) / 2). intros i Hi. cbv zeta.
  case_bool_decide as Hij; [done|].
  pose proof (heap_Less_fuel m h j i) as HL.
  destruct (Less m h j i) as [b| |]; simpl; [|done|done].
  destruct b; simpl; [|done].
  pose proof (heap_Swap_fuel h i j) as HS.
  destruct (Swap h i j) as [h1| |]; simpl; [|done|done].
  apply IH. lia.
Qed.

Lemma heap_down_fuel fuel m h i n :
  0 < fuel → n < i + fuel → down fuel m h i n ≠ OutOfFuel.
Proof.
  revert h i. induction fuel as [|fuel IH]; intros h i Hf Hn; [lia|].
  simpl. case_bool_decide as Hj1; [done|].
  assert (∃ j, i < j ∧
    (if bool_decide (2 * i + 1 + 1 < n) then Less m h (2 * i + 1 + 1) (2 * i + 1)
     else Ok false) ≫=
    (λ b, let j := if b : bool then 2 * i + 1 + 1 else 2 * i + 1 in
          Less m h j i ≫= λ b0, if negb b0 then Ok h
                                else Swap h i j ≫= λ h0, down fuel m h0 j n)
    ≠ OutOfFuel) as (j & _ & Hj); [|by simpl in *].
  assert (∀ j, i < j →
    Less m h j i ≫= (λ b0, if negb b0 then Ok h
                           else Swap h i j ≫= λ h0, down fuel m h0 j n)
    ≠ OutOfFuel) as Hstep.
  { intros j Hij. pose proof (heap_Less_fuel m h j i) as HL.
    destruct (Less m h j i) as [b| |]; simpl; [|done|done].
    destruct b; simpl; [|done].
    pose proof (heap_Swap_fuel h i j) as HS.
    destruct (Swap h i j) as [h1| |]; simpl; [|done|done].
    apply IH; lia. }
  exists (S i). split; [lia|].
  case_bool_decide.
  - pose proof (heap_Less_fuel m h (2 * i + 1 + 1) (2 * i + 1)) as HL.
    destruct (Less m h (2 * i + 1 + 1) (2 * i + 1)) as [b| |]; simpl; [|done|done].
    destruct b; apply Hstep; lia.
  - simpl. apply Hstep. lia.
Qed.

Lemma heap_Push_fuel m h x : heap_Push m h x ≠ OutOfFuel.
Proof.
  unfold heap_Push. apply heap_up_fuel. rewrite length_app. simpl. lia.
Qed.

Lemma heap_Pop_fuel m h : heap_Pop m h ≠ OutOfFuel.
Proof.
  unfold heap_Pop. destruct (length h) as [|n]; [done|].
  pose proof (heap_Swap_fuel h 0 n) as HS.
  destruct (Swap h 0 n) as [h1| |]; [|done|done]. rewrite bind_ret.
  pose proof (heap_down_fuel (S n) m h1 0 n) as HD.
  destruct (down (S n) m h1 0 n) as [h2| |]; [done|done|].
  exfalso. apply HD; [lia|lia|done].
Qed.

Lemma ttlheap_set_wf l k v now l' :
  wf l → set zeroV l k v now = Ok l' →
  wf l' ∧ ttl l' = ttl l ∧ stopped l' = stopped l ∧
  ∃ p n, cache l' !! k = Some p ∧ mem l' !! p = Some n ∧ value n = v ∧
    expiresAt n = Some (now + ttl l)%Z.
Proof.
  intros Hwf Hset. unfold set in Hset.
  destruct (isStopped l) eqn:Hst; [done|].
  apply bind_Ok in Hset as (m0 & Hm0 & Hset). unfold alloc in Hset.
  apply bind_Ok in Hset as (h' & Hpush & Hset). simplify_eq. simpl.
  set (new := {| key := Some k; value := v; expiresAt := Some (now + ttl l)%Z |}).
  assert (length m0 = length (mem l) ∧
          (∀ p n, m0 !! p = Some n →
             (key n = None ∧ expiresAt n = None) ∨
             (∃ k' e, key n = Some k' ∧ expiresAt n = Some e ∧ k' ≠ k ∧
                cache l !! k' = Some p)) ∧
          (∀ k' p, k' ≠ k → cache l !! k' = Some p →
             ∃ n e, m0 !! p = Some n ∧ key n = Some k' ∧ expiresAt n = Some e))
    as (Hlen0 & Hitem0 & Hcache0).
  { destruct (cache l !! k) as [old|] eqn:Hk.
    - destruct (wf_cache _ Hwf _ _ Hk) as (no & eo & Hno & Hko & Heo).
      rewrite (modify_Some _ _ _ _ Hno) in Hm0. simplify_eq.
      split_and!; [apply length_insert| |].
      + intros p n Hp. apply list_lookup_insert_Some in Hp as [(-> & <- & _)|[Hne Hp]];
          [by left|].
        destruct (wf_item _ Hwf _ _ Hp) as [?|(k' & e & ? & ? & Hc)]; [by left|right].
        exists k', e. split_and!; [done..| |done]. intros ->. congruence.
      + intros k' p Hne Hp.
        destruct (wf_cache _ Hwf _ _ Hp) as (n & e & Hn & Hkn & Hen).
        exists n, e. split; [|done]. rewrite list_lookup_insert_ne; [done|].
        intros ->. congruence.
    - simplify_eq. split_and!; [done| |].
      + intros p n Hp.
        destruct (wf_item _ Hwf _ _ Hp) as [?|(k' & e & ? & ? & Hc)]; [by left|right].
        exists k', e. split_and!; [done..| |done]. intros ->. congruence.
      + intros k' p _ Hp. by apply (wf_cache _ Hwf). }
  split_and!; try done.
  - split; simpl; try apply Hwf.
    + intros p n Hp. apply lookup_app_Some in Hp as [Hp|[Hge Hp]].
      * destruct (Hitem0 _ _ Hp) as [?|(k' & e & ? & ? & ? & Hc)]; [by left|right].
        exists k', e. split_and!; [done..|]. by rewrite lookup_insert_ne.
      * apply list_lookup_singleton_Some in Hp as [Hp <-]. right.
        exists k, (now + ttl l)%Z. split_and!; [done..|].
        rewrite lookup_insert_eq. f_equal. lia.
    + intros k' p Hp. apply lookup_insert_Some in Hp as [[<- <-]|[Hne Hp]].
      * exists new, (now + ttl l)%Z.
        rewrite lookup_app_r, Nat.sub_diag by done. done.
      * destruct (Hcache0 k' p) as (n & e & Hn & ? & ?); [done..|].
        exists n, e. split; [by apply lookup_app_l_Some|done].
    + intros p Hp. rewrite length_app. simpl.
      apply (heap_Push_elem _ _ _ _ Hpush) in Hp as [Hp| ->]; [|lia].
      pose proof (wf_heap _ Hwf p Hp). lia.
    + destruct (wf_stopped _ Hwf) as [?|(Hs & _)]; [by left|].
      unfold isStopped in Hst. by rewrite Hs in Hst.
  - exists (length m0), new. rewrite lookup_insert_eq.
    by rewrite lookup_app_r, Nat.sub_diag.
Qed.

Lemma ttlheap_set_fuel l k v now : set zeroV l k v now ≠ OutOfFuel.
Proof.
  unfold set. destruct (isStopped l); [done|].
  assert (∀ m0, (let '(item, m) :=
                   alloc m0 {| key := Some k; value := v;
                               expiresAt := Some (now + ttl l)%Z |} in
                 heap_Push m (heap l) item ≫= λ h,
                   Ok {| cache := <[k := item]> (cache l); heap := h;
                         ttl := ttl l; stopped := stopped l; mem := m |})
                ≠ OutOfFuel) as Hrest.
  { intros m0. unfold alloc.
    pose proof (heap_Push_fuel (m0 ++ [{| key := Some k; value := v;
                  expiresAt := Some (now + ttl l)%Z |}]) (heap l) (length m0)) as HP.
    by destruct (heap_Push _ _ _). }
  destruct (cache l !! k) as [old|].
  - unfold modify. destruct (mem l !! old); [|done]. rewrite bind_ret. apply Hrest.
  - rewrite bind_ret. apply Hrest.
Qed.

Lemma ttlheap_get_wf l k now :
  wf l → stopped l = 0%N →
  match cache l !! k with
  | None => get zeroV l k now = Ok ((zeroV, false), l)
  | Some p => ∃ n e, mem l !! p = Some n ∧ expiresAt n = Some e ∧
      get zeroV l k now =
        Ok (if Before e now then (zeroV, false) else (value n, true), l)
  end.
Proof.
  intros Hwf Hs. unfold get, isStopped. rewrite Hs. simpl.
  destruct (cache l !! k) as [p|] eqn:Hk; [|done].
  destruct (wf_cache _ Hwf _ _ Hk) as (n & e & Hn & _ & He).
  exists n, e. rewrite (load_Some _ _ _ Hn). simpl. rewrite He. simpl.
  by destruct (Before e now).
Qed.

Lemma ttlheap_sweep_loop_inv fuel c h m now c' h' m' ttl0 st :
  sweep_loop zeroV fuel c h m now = Ok (c', h', m') →
  wf {| cache := c; heap := h; ttl := ttl0; stopped := st; mem := m |} →
  wf {| cache := c'; heap := h'; ttl := ttl0; stopped := st; mem := m' |}.
Proof.
  revert c h m. induction fuel as [|fuel IH]; intros c h m Hsw Hwf.
  { simpl in Hsw. destruct (Peek h); by simplify_eq. }
  simpl in Hsw. destruct (Peek h) as [item|] eqn:Hpeek; [|by simplify_eq].
  apply bind_Ok in Hsw as (n & Hn & Hsw).
  apply load_Ok in Hn as (? & [= <-] & Hn).
  apply bind_Ok in Hsw as (e & He & Hsw).
  destruct (expiresAt n) as [e'|] eqn:He'; [|done]. simpl in He. simplify_eq.
  destruct (Before e now); [|by simplify_eq].
  apply bind_Ok in Hsw as (h1 & Hpop & Hsw).
  apply bind_Ok in Hsw as (k & Hk & Hsw).
  destruct (key n) as [k'|] eqn:Hk'; [|done]. simpl in Hk. simplify_eq.
  rewrite (modify_Some _ _ _ _ Hn) in Hsw. simpl in Hsw.
  apply heap_Pop_elem in Hpop as [Hlen Helem].
  destruct Hwf as [Hitem Hcache Hheap Httl Hstop]. simpl in *.
  assert (c !! k = Some item) as Hca.
  { destruct (Hitem _ _ Hn) as [[? _]|(k0 & ? & ? & _ & ?)]; congruence. }
  apply IH in Hsw; [done|]. split; simpl.
  - intros p np Hp. apply list_lookup_insert_Some in Hp as [(-> & <- & _)|[Hne Hp]];
      [by left|].
    destruct (Hitem _ _ Hp) as [?|(k0 & e0 & ? & ? & Hc0)]; [by left|right].
    exists k0, e0. split_and!; [done..|]. rewrite lookup_delete_ne; [done|].
    intros ->. congruence.
  - intros k0 p Hp. apply lookup_delete_Some in Hp as [Hne Hp].
    destruct (Hcache _ _ Hp) as (np & e0 & Hnp & ? & ?).
    exists np, e0. split; [|done]. rewrite list_lookup_insert_ne; [done|].
    intros ->. congruence.
  - intros p Hp. rewrite length_insert. by apply Hheap, Helem.
  - done.
  - destruct Hstop as [?|(? & -> & ->)]; [by left|done].
Qed.

Lemma ttlheap_sweep_wf l now l' : wf l → sweep zeroV l now = Ok l' → wf l'.
Proof.
  intros Hwf Hsw. unfold sweep in Hsw.
  apply bind_Ok in Hsw as ([[c h] m] & Hloop & Hsw). simplify_eq.
  eapply ttlheap_sweep_loop_inv; [done|]. by destruct l.
Qed.

Lemma ttlheap_sweep_loop_fuel fuel c h m now :
  length h ≤ fuel → sweep_loop zeroV fuel c h m now ≠ OutOfFuel.
Proof.
  revert c h m. induction fuel as [|fuel IH]; intros c h m Hf.
  { destruct h; [done|simpl in Hf; lia]. }
  simpl. destruct (Peek h) as [item|] eqn:Hpeek; [|done].
  unfold load. destruct (m !! item) as [n|] eqn:Hn; [|done]. simpl.
  destruct (expiresAt n) as [e|]; [|done]. simpl.
  destruct (Before e now); [|done].
  pose proof (heap_Pop_fuel m h) as HP.
  destruct (heap_Pop m h) as [h1| |] eqn:Hpop; [|done|done]. simpl.
  destruct (key n) as [k|]; [|done]. simpl.
  unfold modify. rewrite Hn. simpl.
  apply IH. apply heap_Pop_elem in Hpop as [Hlen _]. lia.
Qed.

Lemma ttlheap_sweep_fuel l now : sweep zeroV l now ≠ OutOfFuel.
Proof.
  unfold sweep.
  pose proof (ttlheap_sweep_loop_fuel (length (heap l)) (cache l) (heap l) (mem l) now)
    as Hf.
  destruct (sweep_loop _ _ _ _ _ _) as [[[c h] m]| |]; [done|done|].
  exfalso. by apply Hf.
Qed.

Lemma ttlheap_drain fuel h : length h ≤ fuel → drain fuel h = Ok [].
Proof.
  revert h. induction fuel as [|fuel IH]; intros h Hf.
  { destruct h; [done|simpl in Hf; lia]. }
  destruct h as [|p h]; [done|].
  change (drain (S fuel) (p :: h)) with (drain fuel (Pop (p :: h))). apply IH.
  rewrite heap_Pop_method_length. simpl in *. lia.
Qed.

(* the [range] loop of [Stop] *)
Lemma ttlheap_neutralize_all m (ps : list loc) :
  (∀ p, p ∈ ps → p < length m) →
  ∃ m', neutralize_all zeroV m ps = Ok m' ∧ length m' = length m ∧
    ∀ p n', m' !! p = Some n' →
      (p ∈ ps ∧ n' = zeroItem zeroV) ∨ ((p ∉ ps) ∧ m !! p = Some n').
Proof.
  revert m. induction ps as [|p0 ps IH]; intros m Hps.
  { exists m. split_and!; [done..|]. intros p n' Hp.
    right. split; [apply not_elem_of_nil|done]. }
  destruct (lookup_lt_is_Some_2 m p0) as [n0 Hn0]; [apply Hps; by left|].
  simpl. rewrite (modify_Some _ _ _ _ Hn0). simpl.
  destruct (IH (<[p0 := zeroItem zeroV]> m)) as (m' & -> & Hlen & Hm').
  { intros p Hp. rewrite length_insert. apply Hps. by right. }
  exists m'. rewrite Hlen, length_insert. split_and!; [done..|].
  intros p n' Hp. destruct (Hm' _ _ Hp) as [[Hin ->]|[Hnin Hn1]].
  - left. split; [by right|done].
  - apply list_lookup_insert_Some in Hn1 as [(-> & <- & _)|[Hne Hn1]].
    + left. split; [by left|done].
    + right. split; [|done]. intros Hin. apply elem_of_cons in Hin as [?|?]; done.
Qed.

Lemma ttlheap_Stop_wf l :
  wf l →
  ∃ l', Stop zeroV l = Ok l' ∧ wf l' ∧ stopped l' = 1%N ∧
    cache l' = ∅ ∧ heap l' = [] ∧ (stopped l = 1%N → l' = l).
Proof.
  intros Hwf. unfold Stop.
  destruct (wf_stopped _ Hwf) as [Hs|(Hs & Hc & Hh)]; rewrite Hs;
    [|by exists l].
  change (0 =? 0)%N with true. cbv iota.
  destruct (ttlheap_neutralize_all (mem l) (map_to_list (cache l)).*2)
    as (m1 & -> & Hlen1 & Hm1).
  { intros p Hp. apply list_elem_of_fmap in Hp as ([k p'] & -> & Hin).
    apply elem_of_map_to_list in Hin.
    destruct (wf_cache _ Hwf _ _ Hin) as (n & _ & Hn & _). by eapply lookup_lt_Some. }
  rewrite bind_ret, ttlheap_drain by done. simpl.
  eexists. split; [done|]. split_and!; try done.
  split; simpl; try done; [| |apply Hwf|by right].
  - intros p n' Hp. left. destruct (Hm1 _ _ Hp) as [[_ ->]|[Hnin Hn]]; [done|].
    destruct (wf_item _ Hwf _ _ Hn) as [?|(k & e & _ & _ & Hc)]; [done|].
    exfalso. apply Hnin. apply list_elem_of_fmap. exists (k, p).
    split; [done|]. by apply elem_of_map_to_list.
  - intros p Hp. by apply elem_of_nil in Hp.
Qed.

Lemma ttlheap_reachable_wf l : reachable zeroV l → wf l.
Proof.
  induction 1 as [d l Hnew|l k v now l' _ Hwf Hset
                 |l k now r l' _ Hwf Hget|l now l' _ Hwf Hsw|l l' _ Hwf Hstop].
  - unfold NewTTL in Hnew. case_match eqn:Hc; [done|]. apply Z.leb_gt in Hc.
    simplify_eq. split; simpl; try done; try (by left).
    intros p Hp. by apply elem_of_nil in Hp.
  - by destruct (ttlheap_set_wf l k v now l' Hwf Hset).
  - unfold get in Hget. destruct (isStopped l); [done|].
    destruct (cache l !! k); [|by simplify_eq].
    apply bind_Ok in Hget as (? & _ & Hget).
    apply bind_Ok in Hget as (? & _ & Hget).
    destruct (Before _ _); by simplify_eq.
  - by eapply ttlheap_sweep_wf.
  - destruct (ttlheap_Stop_wf l Hwf) as (l2 & Hstop' & Hwf2 & _).
    by assert (l' = l2) as -> by congruence.
Qed.

Lemma ttlheap_active l :
  reachable zeroV l → isStopped l = false → stopped l = 0%N ∧ wf l.
Proof.
  intros Hr Hst. pose proof (ttlheap_reachable_wf l Hr) as Hwf. split; [|done].
  destruct (wf_stopped _ Hwf) as [Hs|(Hs & _)]; [done|].
  unfold isStopped in Hst. by rewrite Hs in Hst.
Qed.

Lemma ttlheap_get_expired l k p now :
  reachable zeroV l → isStopped l = false → cache l !! k = Some p →
  ∃ n e, mem l !! p = Some n ∧ expiresAt n = Some e ∧
    ((e < now)%Z → get zeroV l k now = Ok ((zeroV, false), l)).
Proof.
  intros Hr Hst Hk. destruct (ttlheap_active l Hr Hst) as [Hs Hwf].
  pose proof (ttlheap_get_wf l k now Hwf Hs) as Hg. rewrite Hk in Hg.
  destruct Hg as (n & e & Hn & He & Hg). exists n, e. split_and!; [done..|].
  intros Hlt. rewrite Hg. unfold Before. by rewrite (proj2 (Z.ltb_lt e now)).
Qed.

Lemma ttlheap_get_pure l k now :
  reachable zeroV l → isStopped l = false → ∃ r, get zeroV l k now = Ok (r, l).
Proof.
  intros Hr Hst. destruct (ttlheap_active l Hr Hst) as [Hs Hwf].
  pose proof (ttlheap_get_wf l k now Hwf Hs) as Hg.
  destruct (cache l !! k); [destruct Hg as (? & ? & _ & _ & ->)|]; eauto.
Qed.

Lemma ttlheap_get_missing l k now :
  isStopped l = false → missing l k now →
  get zeroV l k now = Ok ((zeroV, false), l).
Proof.
  intros Hst [Hk|(p & n & e & Hk & Hn & He & Hlt)]; unfold get; rewrite Hst, Hk;
    [done|].
  rewrite (load_Some _ _ _ Hn). simpl. rewrite He. simpl.
  unfold Before. by rewrite (proj2 (Z.ltb_lt e now)).
Qed.

Lemma ttlheap_Fetch_error {E} l k (fn : FetchFunc V E) v err now :
  isStopped l = false → missing l k now → fn () = (v, Some err) →
  Fetch zeroV l k fn now = Ok ((zeroV, Some err), l) ∧
  get zeroV l k now = Ok ((zeroV, false), l).
Proof.
  intros Hst Hk Hfn. pose proof (ttlheap_get_missing l k now Hst Hk) as Hg.
  unfold Fetch. rewrite Hst, Hg. simpl. by rewrite Hfn.
Qed.

Lemma ttlheap_Stop_spec l :
  reachable zeroV l →
  ∃ l', Stop zeroV l = Ok l' ∧ cache l' = ∅ ∧ heap l' = [] ∧
    (∀ k now, get zeroV l' k now = Panicked CacheStopped) ∧
    (∀ k v now, set zeroV l' k v now = Panicked CacheStopped) ∧
    Stop zeroV l' = Ok l'.
Proof.
  intros Hr. pose proof (ttlheap_reachable_wf l Hr) as Hwf.
  destruct (ttlheap_Stop_wf l Hwf) as (l' & Hstop & _ & Hs' & Hc & Hh & _).
  exists l'. split_and!; try done.
  - intros k now. unfold get, isStopped. by rewrite Hs'.
  - intros k v now. unfold set, isStopped. by rewrite Hs'.
  - unfold Stop. by rewrite Hs'.
Qed.

(** The heap order *)

Lemma heap_parent_spec (a i : nat) :
  0 < a → (a - 1) / 2 = i ↔ a = 2 * i + 1 ∨ a = 2 * i + 2.
Proof.
  intros Ha. split.
  - intros <-. pose proof (Nat.div_mod_eq (a - 1) 2) as Hd.
    pose proof (Nat.mod_upper_bound (a - 1) 2). lia.
  - intros [->| ->].
    + replace (2 * i + 1 - 1) with (i * 2) by lia. apply Nat.div_mul. lia.
    + replace (2 * i + 2 - 1) with (1 + i * 2) by lia.
      rewrite Nat.div_add by lia. done.
Qed.

Lemma heap_parent_lt (a : nat) : 0 < a → (a - 1) / 2 < a.
Proof. intros Ha. pose proof (Nat.div_mod_eq (a - 1) 2). lia. Qed.

Lemma heap_expiry_Some m p e :
  expiry m p = Some e ↔ ∃ n, m !! p = Some n ∧ expiresAt n = Some e.
Proof.
  unfold expiry. destruct (m !! p) as [n|]; simpl; split.
  - eauto.
  - by intros (? & [= <-] & ?).
  - done.
  - by intros (? & ? & _).
Qed.

Lemma heap_expiry_at m h a p e :
  h !! a = Some p → expiry m p = Some e → expiry_at m h a = e.
Proof. intros Hp He. unfold expiry_at. rewrite Hp. simpl. by rewrite He. Qed.

(* the expiries after [h[i], h[j] = h[j], h[i]] *)
Lemma heap_expiry_at_swap m h i j pi pj a :
  h !! i = Some pi → h !! j = Some pj →
  expiry_at m (<[j := pi]> (<[i := pj]> h)) a =
    if decide (a = j) then expiry_at m h i
    else if decide (a = i) then expiry_at m h j
    else expiry_at m h a.
Proof.
  intros Hi Hj. unfold expiry_at.
  pose proof (lookup_lt_Some _ _ _ Hi). pose proof (lookup_lt_Some _ _ _ Hj).
  destruct (decide (a = j)) as [->|Hne].
  - rewrite list_lookup_insert_eq by (by rewrite length_insert). by rewrite Hi.
  - rewrite list_lookup_insert_ne by done. destruct (decide (a = i)) as [->|Hne'].
    + rewrite list_lookup_insert_eq by done. by rewrite Hj.
    + by rewrite list_lookup_insert_ne.
Qed.

Lemma heap_swap_head {A} (t : list A) j (x y : A) :
  t !! j = Some y → y :: <[j := x]> t ≡ₚ x :: t.
Proof.
  revert j. induction t as [|z t IH]; intros j Hj; [done|].
  destruct j as [|j]; simpl in *.
  - simplify_eq. apply perm_swap.
  - rewrite perm_swap, (IH j Hj). apply perm_swap.
Qed.

Lemma heap_swap_Permutation {A} (h : list A) i j (x y : A) :
  h !! i = Some x → h !! j = Some y → <[j := x]> (<[i := y]> h) ≡ₚ h.
Proof.
  revert i j. induction h as [|z h IH]; intros i j Hi Hj; [done|].
  destruct i as [|i], j as [|j]; simpl in *; simplify_eq.
  - done.
  - by apply heap_swap_head.
  - by apply heap_swap_head.
  - by rewrite (IH i j).
Qed.

Lemma heap_Swap_Ok h i j :
  i < length h → j < length h →
  ∃ pi pj, h !! i = Some pi ∧ h !! j = Some pj ∧
    Swap h i j = Ok (<[j := pi]> (<[i := pj]> h)).
Proof.
  intros Hi Hj. destruct (lookup_lt_is_Some_2 h i Hi) as [pi Hpi].
  destruct (lookup_lt_is_Some_2 h j Hj) as [pj Hpj].
  exists pi, pj. unfold Swap, index. by rewrite Hpi, Hpj.
Qed.

(* [Less] on items that have an expiry *)
Lemma heap_Less_live m h i j :
  (∀ p, p ∈ h → is_Some (expiry m p)) → i < length h → j < length h →
  Less m h i j = Ok (expiry_at m h i <? expiry_at m h j)%Z.
Proof.
  intros Hlive Hi Hj. destruct (lookup_lt_is_Some_2 h i Hi) as [pi Hpi].
  destruct (lookup_lt_is_Some_2 h j Hj) as [pj Hpj].
  destruct (Hlive pi) as [ei Hei]; [by eapply list_elem_of_lookup_2|].
  destruct (Hlive pj) as [ej Hej]; [by eapply list_elem_of_lookup_2|].
  rewrite (heap_expiry_at m h i pi ei), (heap_expiry_at m h j pj ej) by done.
  apply heap_expiry_Some in Hei as (ni & Hni & Hei).
  apply heap_expiry_Some in Hej as (nj & Hnj & Hej).
  unfold Less, index. rewrite Hpi, Hpj. simpl.
  rewrite (load_Some _ _ _ Hni). simpl. rewrite (load_Some _ _ _ Hnj). simpl.
  by rewrite Hei, Hej.
Qed.

Lemma heap_up_S fuel m h j :
  up (S fuel) m h j =
    if bool_decide ((j - 1) / 2 = j) then Ok h
    else b ← Less m h j ((j - 1) / 2);
         if negb b then Ok h
         else h ← Swap h ((j - 1) / 2) j; up fuel m h ((j - 1) / 2).
Proof. done. Qed.

(* [up] from the index [j]: the heap order holds but for the item at [j],
   which may expire before its parent, and does not expire after its
   children *)
Lemma heap_up_ordered m fuel : ∀ h j,
  (∀ p, p ∈ h → is_Some (expiry m p)) → j < length h → j < fuel →
  (∀ a, 0 < a < length h → a ≠ j →
     (expiry_at m h ((a - 1) / 2) ≤ expiry_at m h a)%Z) →
  (∀ a, 0 < a < length h → (a - 1) / 2 = j → 0 < j →
     (expiry_at m h ((j - 1) / 2) ≤ expiry_at m h a)%Z) →
  ∃ h', up fuel m h j = Ok h' ∧ h' ≡ₚ h ∧ heap_ordered m h' (length h').
Proof.
  induction fuel as [|fuel IH]; intros h j Hlive Hj Hf Ha Hb; [lia|].
  rewrite heap_up_S. case_bool_decide as Hi.
  { (* the root *)
    assert (j = 0) as -> by (destruct j; [done|]; pose proof (heap_parent_lt (S j)); lia).
    exists h. split_and!; [done..|]. intros a Ha'. apply Ha; lia. }
  assert (0 < j) as Hpos by (destruct j; [done|lia]).
  pose proof (heap_parent_lt j Hpos) as Hlt.
  remember ((j - 1) / 2) as i eqn:Heqi.
  rewrite (heap_Less_live m h j i Hlive) by lia.
  destruct (expiry_at m h j <? expiry_at m h i)%Z eqn:Hless; simpl.
  - (* the item moves up *)
    apply Z.ltb_lt in Hless.
    destruct (heap_Swap_Ok h i j) as (pi & pj & Hpi & Hpj & ->); [lia..|]. simpl.
    pose proof (heap_swap_Permutation h i j pi pj Hpi Hpj) as Hperm.
    destruct (IH (<[j := pi]> (<[i := pj]> h)) i) as (h' & Hup & Hperm' & Hord).
    + intros p Hp. apply Hlive. by rewrite <- Hperm.
    + rewrite !length_insert. lia.
    + lia.
    + intros a Ha1 Hai. rewrite !length_insert in Ha1.
      rewrite !(heap_expiry_at_swap m h i j pi pj) by done.
      pose proof (heap_parent_lt a (proj1 Ha1)) as Hpa.
      destruct (decide (a = j)) as [->|Haj].
      * rewrite <- Heqi. rewrite decide_False by lia. rewrite decide_True by done. lia.
      * rewrite (decide_False (P := a = i)) by done.
        specialize (Ha a Ha1 Haj).
        destruct (decide ((a - 1) / 2 = j)) as [Hpj'|Hpj'].
        { specialize (Hb a Ha1 Hpj' Hpos). lia. }
        destruct (decide ((a - 1) / 2 = i)) as [Hpi'|Hpi']; [rewrite Hpi' in Ha|]; lia.
    + intros a Ha1 Hpa Hi0. rewrite !length_insert in Ha1.
      rewrite !(heap_expiry_at_swap m h i j pi pj) by done.
      pose proof (heap_parent_lt i Hi0) as Hpi'.
      rewrite (decide_False (P := (i - 1) / 2 = j)) by lia.
      rewrite (decide_False (P := (i - 1) / 2 = i)) by lia.
      assert (expiry_at m h ((i - 1) / 2) ≤ expiry_at m h i)%Z as Hii.
      { apply Ha; lia. }
      pose proof (heap_parent_lt a (proj1 Ha1)) as Hpa'.
      destruct (decide (a = j)) as [->|Haj]; [lia|].
      rewrite decide_False by lia.
      specialize (Ha a Ha1 Haj). rewrite Hpa in Ha. lia.
    + exists h'. split_and!; [done| |done]. by rewrite Hperm'.
  - (* the item stays *)
    apply Z.ltb_ge in Hless. exists h. split_and!; [done..|].
    intros a Ha'. destruct (decide (a = j)) as [->|Hne]; [by rewrite <- Heqi|].
    by apply Ha.
Qed.

Lemma heap_down_S fuel m h i n :
  down (S fuel) m h i n =
    if bool_decide (n ≤ 2 * i + 1) then Ok h
    else
      b ← (if bool_decide (2 * i + 1 + 1 < n)
           then Less m h (2 * i + 1 + 1) (2 * i + 1) else Ok false);
      b' ← Less m h (if b : bool then 2 * i + 1 + 1 else 2 * i + 1) i;
      if negb b' then Ok h
      else h ← Swap h i (if b : bool then 2 * i + 1 + 1 else 2 * i + 1);
           down fuel m h (if b : bool then 2 * i + 1 + 1 else 2 * i + 1) n.
Proof. done. Qed.

(* [down] from the index [i] among the first [n] items: the heap order
   holds but for the item at [i], which may expire after its children, and
   does not expire before its parent *)
Lemma heap_down_ordered m n fuel : ∀ h i,
  (∀ p, p ∈ h → is_Some (expiry m p)) → n ≤ length h →
  0 < fuel → n < i + fuel →
  (∀ a, 0 < a < n → (a - 1) / 2 ≠ i →
     (expiry_at m h ((a - 1) / 2) ≤ expiry_at m h a)%Z) →
  (∀ a, 0 < a < n → (a - 1) / 2 = i → 0 < i →
     (expiry_at m h ((i - 1) / 2) ≤ expiry_at m h a)%Z) →
  ∃ h', down fuel m h i n = Ok h' ∧ h' ≡ₚ h ∧ heap_ordered m h' n ∧
    ∀ a, n ≤ a → h' !! a = h !! a.
Proof.
  induction fuel as [|fuel IH]; intros h i Hlive Hn Hf0 Hf Ha Hb; [lia|].
  rewrite heap_down_S. case_bool_decide as Hj1.
  { (* no child *)
    exists h. split_and!; [done..| |done]. intros a Ha'. apply Ha; [done|].
    intros Hpa. apply heap_parent_spec in Hpa; lia. }
  assert (∃ j, (j = 2 * i + 1 ∨ j = 2 * i + 2) ∧ j < n ∧
            (b ← (if bool_decide (2 * i + 1 + 1 < n)
                  then Less m h (2 * i + 1 + 1) (2 * i + 1) else Ok false);
             b' ← Less m h (if b : bool then 2 * i + 1 + 1 else 2 * i + 1) i;
             if negb b' then Ok h
             else h ← Swap h i (if b : bool then 2 * i + 1 + 1 else 2 * i + 1);
                  down fuel m h (if b : bool then 2 * i + 1 + 1 else 2 * i + 1) n)
            = (if (expiry_at m h j <? expiry_at m h i)%Z
               then h ← Swap h i j; down fuel m h j n else Ok h) ∧
            ∀ a, 0 < a < n → (a - 1) / 2 = i →
              (expiry_at m h j ≤ expiry_at m h a)%Z) as (j & Hj & Hjn & -> & Hmin).
  { case_bool_decide as Hj2.
    - rewrite (heap_Less_live m h _ _ Hlive) by lia. rewrite bind_ret. cbv beta.
      destruct (expiry_at m h (2 * i + 1 + 1) <? expiry_at m h (2 * i + 1))%Z eqn:Hlt.
      + apply Z.ltb_lt in Hlt. exists (2 * i + 1 + 1). split_and!; [lia|lia| |].
        * rewrite (heap_Less_live m h _ _ Hlive) by lia. rewrite bind_ret. cbv beta.
          by destruct (_ <? _)%Z.
        * intros a Ha' Hpa. apply heap_parent_spec in Hpa as [->| ->]; [lia| |lia].
          replace (2 * i + 2) with (2 * i + 1 + 1) by lia. lia.
      + apply Z.ltb_ge in Hlt. exists (2 * i + 1). split_and!; [lia|lia| |].
        * rewrite (heap_Less_live m h _ _ Hlive) by lia. rewrite bind_ret. cbv beta.
          by destruct (_ <? _)%Z.
        * intros a Ha' Hpa. apply heap_parent_spec in Hpa as [->| ->]; [lia| |lia].
          replace (2 * i + 2) with (2 * i + 1 + 1) by lia. lia.
    - rewrite bind_ret. cbv beta iota. exists (2 * i + 1). split_and!; [lia|lia| |].
      * rewrite (heap_Less_live m h _ _ Hlive) by lia. rewrite bind_ret. cbv beta.
        by destruct (_ <? _)%Z.
      * intros a Ha' Hpa. apply heap_parent_spec in Hpa as [->| ->]; lia. }
  assert ((j - 1) / 2 = i) as Hpj by (apply heap_parent_spec; lia).
  destruct (expiry_at m h j <? expiry_at m h i)%Z eqn:Hless.
  - (* the item moves down *)
    apply Z.ltb_lt in Hless.
    destruct (heap_Swap_Ok h i j) as (pi & pj & Hpi & Hpj' & ->); [lia..|]. simpl.
    pose proof (heap_swap_Permutation h i j pi pj Hpi Hpj') as Hperm.
    destruct (IH (<[j := pi]> (<[i := pj]> h)) j) as (h' & Hd & Hperm' & Hord & Htail).
    + intros p Hp. apply Hlive. by rewrite <- Hperm.
    + by rewrite !length_insert.
    + lia.
    + lia.
    + intros a Ha1 Hpa.
      rewrite !(heap_expiry_at_swap m h i j pi pj) by done.
      pose proof (heap_parent_lt a (proj1 Ha1)) as Hpa'.
      rewrite (decide_False (P := (a - 1) / 2 = j)) by done.
      destruct (decide (a = j)) as [->|Haj].
      { rewrite Hpj. rewrite decide_True by done. lia. }
      destruct (decide (a = i)) as [->|Hai].
      { rewrite decide_False by lia.
        assert (0 < i) as Hi0 by lia. assert (0 < j < n) as Hj' by lia.
        specialize (Hb j Hj' Hpj Hi0). lia. }
      destruct (decide ((a - 1) / 2 = i)) as [Hpi'|Hpi'].
      { by apply Hmin. }
      by apply Ha.
    + intros a Ha1 Hpa Hj0. rewrite Hpj.
      rewrite !(heap_expiry_at_swap m h i j pi pj) by done.
      pose proof (heap_parent_lt a (proj1 Ha1)) as Hpa'.
      rewrite (decide_False (P := i = j)) by lia. rewrite decide_True by done.
      rewrite (decide_False (P := a = j)) by lia.
      rewrite (decide_False (P := a = i)) by lia.
      specialize (Ha a Ha1). rewrite Hpa in Ha. apply Ha. lia.
    + exists h'. split_and!; [done|by rewrite Hperm'|done|].
      intros a Hna. rewrite (Htail a Hna).
      by rewrite !list_lookup_insert_ne by lia.
  - (* the item stays *)
    apply Z.ltb_ge in Hless. exists h. split_and!; [done..| |done].
    intros a Ha'. destruct (decide ((a - 1) / 2 = i)) as [Hpa|Hpa]; [|by apply Ha].
    rewrite Hpa. specialize (Hmin a Ha' Hpa). lia.
Qed.

Lemma heap_expiry_at_app m h x a :
  a < length h → expiry_at m (h ++ [x]) a = expiry_at m h a.
Proof. intros Ha. unfold expiry_at. by rewrite lookup_app_l. Qed.

(* container/heap's [Push] keeps the heap order *)
Lemma heap_Push_ordered m h x :
  (∀ p, p ∈ h → is_Some (expiry m p)) → is_Some (expiry m x) →
  heap_ordered m h (length h) →
  ∃ h', heap_Push m h x = Ok h' ∧ h' ≡ₚ h ++ [x] ∧ heap_ordered m h' (length h').
Proof.
  intros Hlive Hx Hord. unfold heap_Push.
  assert (length (h ++ [x]) = S (length h)) as Hlen by (rewrite length_app; simpl; lia).
  rewrite Hlen.
  replace (S (length h) - 1) with (length h) by lia.
  apply (heap_up_ordered m (S (length h)) (h ++ [x]) (length h)); [|lia|lia| |].
  - intros p Hp. apply elem_of_app in Hp as [Hp|Hp]; [by apply Hlive|].
    by apply list_elem_of_singleton in Hp as ->.
  - intros a Ha Hne. rewrite Hlen in Ha. pose proof (heap_parent_lt a (proj1 Ha)).
    rewrite !heap_expiry_at_app by lia. apply Hord. lia.
  - intros a Ha Hpa. rewrite Hlen in Ha. pose proof (heap_parent_lt a (proj1 Ha)). lia.
Qed.

Lemma heap_expiry_at_take m h n a :
  a < n → expiry_at m (take n h) a = expiry_at m h a.
Proof. intros Ha. unfold expiry_at. by rewrite lookup_take_lt. Qed.

(* container/heap's [Pop] removes the first item and keeps the heap order *)
Lemma heap_Pop_ordered m h p0 :
  (∀ p, p ∈ h → is_Some (expiry m p)) → h !! 0 = Some p0 →
  heap_ordered m h (length h) →
  ∃ h', heap_Pop m h = Ok h' ∧ p0 :: h' ≡ₚ h ∧ heap_ordered m h' (length h').
Proof.
  intros Hlive Hp0 Hord. unfold heap_Pop.
  destruct (length h) as [|n] eqn:Hlen.
  { apply lookup_lt_Some in Hp0. lia. }
  destruct (heap_Swap_Ok h 0 n) as (p0' & pn & Hp0' & Hpn & ->); [lia..|].
  assert (p0' = p0) as -> by congruence. rewrite bind_ret.
  pose proof (heap_swap_Permutation h 0 n p0 pn Hp0 Hpn) as Hperm.
  set (h1 := <[n := p0]> (<[0 := pn]> h)) in *.
  assert (length h1 = S n) as Hlen1 by (unfold h1; by rewrite !length_insert).
  destruct (heap_down_ordered m n (S n) h1 0) as (h2 & -> & Hperm2 & Hord2 & Htail).
  - intros p Hp. apply Hlive. by rewrite <- Hperm.
  - lia.
  - lia.
  - lia.
  - intros a Ha Hpa. pose proof (heap_parent_lt a (proj1 Ha)).
    unfold h1. rewrite !(heap_expiry_at_swap m h 0 n p0 pn) by done.
    rewrite !(decide_False (P := _ = n)) by lia.
    rewrite !(decide_False (P := _ = 0)) by lia.
    apply Hord. lia.
  - intros a Ha Hpa ?. lia.
  - rewrite bind_ret.
    assert (length h2 = S n) as Hlen2 by (by rewrite Hperm2).
    assert (h2 !! n = Some p0) as Hn2.
    { rewrite Htail by done. unfold h1.
      apply list_lookup_insert_eq. rewrite length_insert. lia. }
    assert (Pop h2 = take n h2) as ->.
    { unfold Pop. destruct h2 as [|q h2]; [done|].
      rewrite removelast_firstn_len. by rewrite Hlen2. }
    assert (h2 = take n h2 ++ [p0]) as Hsplit.
    { rewrite <- (take_drop n h2) at 1. f_equal.
      apply list_eq. intros [|a]; rewrite lookup_drop; simpl.
      - by rewrite Nat.add_0_r.
      - apply lookup_ge_None_2. lia. }
    exists (take n h2). split_and!; [done| |].
    + rewrite <- Hperm, <- Hperm2. rewrite Hsplit at 2.
      by rewrite Permutation_app_comm.
    + rewrite length_take, Hlen2, Nat.min_l by lia.
      intros a Ha. pose proof (heap_parent_lt a (proj1 Ha)).
      rewrite !heap_expiry_at_take by lia. by apply Hord2.
Qed.

(* the first item of a heap in order expires first *)
Lemma heap_min m h a :
  heap_ordered m h (length h) → a < length h →
  (expiry_at m h 0 ≤ expiry_at m h a)%Z.
Proof.
  intros Hord. induction a as [a IH] using lt_wf_ind. intros Ha.
  destruct (decide (a = 0)) as [->|Hne]; [done|].
  pose proof (heap_parent_lt a ltac:(lia)) as Hlt.
  specialize (IH _ Hlt ltac:(lia)). specialize (Hord a ltac:(lia)). lia.
Qed.

Lemma heap_expiry_at_agree m m' h a :
  (∀ p, p ∈ h → m' !! p = m !! p) → expiry_at m' h a = expiry_at m h a.
Proof.
  intros Hm. unfold expiry_at. destruct (h !! a) as [p|] eqn:Hp; [|done]. simpl.
  unfold expiry. by rewrite Hm by (by eapply list_elem_of_lookup_2).
Qed.

Lemma ttlheap_tidy_live c h m p : tidy c h m → p ∈ h → is_Some (expiry m p).
Proof.
  intros Ht Hp. destruct (tidy_item _ _ _ Ht p Hp) as (n & k & e & Hn & _ & He & _).
  exists e. apply heap_expiry_Some. eauto.
Qed.

(* the loop of the sweeper on a heap in order: the items that expire
   before [now] leave, and no other *)
Lemma ttlheap_sweep_loop_tidy now fuel : ∀ c h m,
  tidy c h m → length h ≤ fuel →
  ∃ c' h' m', sweep_loop zeroV fuel c h m now = Ok (c', h', m') ∧ tidy c' h' m' ∧
    ∀ k, match c !! k with
         | None => c' !! k = None
         | Some p => ∃ n e, m !! p = Some n ∧ expiresAt n = Some e ∧
             if (e <? now)%Z then c' !! k = None
             else c' !! k = Some p ∧ m' !! p = Some n
         end.
Proof.
  induction fuel as [|fuel IH]; intros c h m Ht Hf.
  { destruct h; [|simpl in Hf; lia]. exists c, [], m. split_and!; [done..|].
    intros k. destruct (c !! k) as [p|] eqn:Hk; [|done].
    destruct (tidy_cache _ _ _ Ht k p Hk) as [Hp _]. by apply elem_of_nil in Hp. }
  destruct h as [|p0 t] eqn:Hh.
  { exists c, [], m. split_and!; [done..|].
    intros k. destruct (c !! k) as [p|] eqn:Hk; [|done].
    destruct (tidy_cache _ _ _ Ht k p Hk) as [Hp _]. by apply elem_of_nil in Hp. }
  rewrite <- Hh in *. assert (h !! 0 = Some p0) as Hp0 by (by rewrite Hh).
  assert (p0 ∈ h) as Hin0 by (by eapply list_elem_of_lookup_2).
  destruct (tidy_item _ _ _ Ht p0 Hin0) as (n0 & k0 & e0 & Hn0 & Hk0 & He0 & Hc0).
  assert (expiry_at m h 0 = e0) as Hmin0.
  { apply (heap_expiry_at m h 0 p0); [done|]. apply heap_expiry_Some. eauto. }
  simpl. unfold Peek. rewrite Hp0.
  rewrite (load_Some _ _ _ Hn0). simpl. rewrite He0. simpl. unfold Before.
  destruct (e0 <? now)%Z eqn:Hlt.
  - (* the first item has expired *)
    destruct (heap_Pop_ordered m h p0) as (h1 & -> & Hperm & Hord1);
      [intros p; by apply (ttlheap_tidy_live c h m p)|done|apply Ht|].
    simpl. rewrite Hk0. simpl. rewrite (modify_Some _ _ _ _ Hn0). simpl.
    pose proof (tidy_nodup _ _ _ Ht) as Hnd. rewrite <- Hperm in Hnd.
    apply NoDup_cons in Hnd as [Hp01 Hnd1].
    assert (∀ p, p ∈ h1 → p ∈ h ∧ p ≠ p0) as Hh1.
    { intros p Hp. split; [rewrite <- Hperm; by right|by intros ->]. }
    assert (∀ p, p ∈ h → p = p0 ∨ p ∈ h1) as Hh1'.
    { intros p Hp. rewrite <- Hperm in Hp. by apply elem_of_cons in Hp. }
    set (m1 := <[p0 := zeroItem zeroV]> m).
    assert (∀ p, p ≠ p0 → m1 !! p = m !! p) as Hm1.
    { intros p Hne. by apply list_lookup_insert_ne. }
    assert (tidy (delete k0 c) h1 m1) as Ht1.
    { split.
      - done.
      - intros p Hp. destruct (Hh1 p Hp) as [Hp' Hne].
        destruct (tidy_item _ _ _ Ht p Hp') as (n & k & e & Hn & Hk & He & Hc).
        exists n, k, e. rewrite Hm1 by done. split_and!; [done..|].
        rewrite lookup_delete_ne; [done|]. intros ->. congruence.
      - intros k p Hk. apply lookup_delete_Some in Hk as [Hne Hk].
        destruct (tidy_cache _ _ _ Ht k p Hk) as [Hp (n & Hn & Hkn)].
        assert (p ≠ p0) as Hne' by (intros ->; congruence).
        split; [by destruct (Hh1' p Hp)|]. exists n. by rewrite Hm1.
      - intros a Ha. rewrite !(heap_expiry_at_agree m m1 h1); [by apply Hord1|..];
          intros p Hp; apply Hm1; by apply Hh1. }
    destruct (IH (delete k0 c) h1 m1 Ht1) as (c' & h' & m' & -> & Ht' & Hres).
    { apply Permutation_length in Hperm. simpl in *. lia. }
    exists c', h', m'. split_and!; [done..|]. intros k.
    destruct (c !! k) as [p|] eqn:Hk.
    + destruct (tidy_cache _ _ _ Ht k p Hk) as [Hp (n & Hn & Hkn)].
      destruct (tidy_item _ _ _ Ht p Hp) as (n' & k' & e & Hn' & _ & He & _).
      assert (n' = n) as -> by congruence. exists n, e. split_and!; [done..|].
      specialize (Hres k). destruct (decide (k = k0)) as [->|Hne].
      * rewrite lookup_delete_eq in Hres. assert (p = p0) as -> by congruence.
        assert (e = e0) as -> by congruence. by rewrite Hlt.
      * rewrite lookup_delete_ne, Hk in Hres by done.
        assert (p ≠ p0) as Hne' by (intros ->; congruence).
        destruct Hres as (n1 & e1 & Hn1 & He1 & Hres). rewrite Hm1 in Hn1 by done.
        assert (n1 = n) as -> by congruence. assert (e1 = e) as -> by congruence. done.
    + specialize (Hres k).
      assert (delete k0 c !! k = None) as Hd by (apply lookup_delete_None; by right).
      by rewrite Hd in Hres.
  - (* the first item has not expired, nor have the others *)
    apply Z.ltb_ge in Hlt. exists c, h, m. split_and!; [done..|]. intros k.
    destruct (c !! k) as [p|] eqn:Hk; [|done].
    destruct (tidy_cache _ _ _ Ht k p Hk) as [Hp (n & Hn & Hkn)].
    destruct (tidy_item _ _ _ Ht p Hp) as (n' & k' & e & Hn' & _ & He & _).
    assert (n' = n) as -> by congruence. exists n, e. split_and!; [done..|].
    apply list_elem_of_lookup in Hp as [a Ha].
    pose proof (heap_min m h a (tidy_order _ _ _ Ht) (lookup_lt_Some _ _ _ Ha)) as Hle.
    rewrite Hmin0, (heap_expiry_at m h a p e) in Hle
      by (done || apply heap_expiry_Some; eauto).
    by rewrite (proj2 (Z.ltb_ge _ _)) by lia.
Qed.

(* a write of a key that is not in the index: the new item is pushed *)
Lemma ttlheap_set_tidy l k v now :
  tidy (cache l) (heap l) (mem l) → isStopped l = false → cache l !! k = None →
  ∃ l', set zeroV l k v now = Ok l' ∧ tidy (cache l') (heap l') (mem l') ∧
    ttl l' = ttl l ∧ stopped l' = stopped l ∧
    cache l' = <[k := length (mem l)]> (cache l) ∧
    mem l' = mem l ++ [{| key := Some k; value := v;
                          expiresAt := Some (now + ttl l)%Z |}].
Proof.
  intros Ht Hst Hk. unfold set. rewrite Hst, Hk. rewrite bind_ret. unfold alloc.
  set (new := {| key := Some k; value := v; expiresAt := Some (now + ttl l)%Z |}).
  set (item := length (mem l)). set (m1 := mem l ++ [new]).
  assert (∀ p, p ∈ heap l → p < item) as Hold.
  { intros p Hp. destruct (tidy_item _ _ _ Ht p Hp) as (n & _ & _ & Hn & _).
    by eapply lookup_lt_Some. }
  assert (∀ p, p ∈ heap l → m1 !! p = mem l !! p) as Hm1.
  { intros p Hp. apply lookup_app_l. by apply Hold. }
  assert (m1 !! item = Some new) as Hnew.
  { unfold m1, item. by rewrite lookup_app_r, Nat.sub_diag by done. }
  destruct (heap_Push_ordered m1 (heap l) item) as (h' & -> & Hperm & Hord).
  - intros p Hp. unfold expiry. rewrite Hm1 by done.
    by apply (ttlheap_tidy_live (cache l) (heap l) (mem l)).
  - exists (now + ttl l)%Z. apply heap_expiry_Some. by exists new.
  - intros a Ha. rewrite !(heap_expiry_at_agree (mem l) m1) by done. by apply Ht.
  - rewrite bind_ret. eexists. split; [done|]. simpl. split_and!; [|done..].
    split.
    + rewrite Hperm. apply NoDup_app. split_and!; [apply Ht| |apply NoDup_singleton].
      intros p Hp Hp'. apply list_elem_of_singleton in Hp' as ->.
      specialize (Hold _ Hp). lia.
    + intros p Hp. rewrite Hperm in Hp. apply elem_of_app in Hp as [Hp|Hp].
      * destruct (tidy_item _ _ _ Ht p Hp) as (n & kp & e & Hn & Hkp & He & Hc).
        exists n, kp, e. rewrite Hm1 by done. split_and!; [done..|].
        rewrite lookup_insert_ne; [done|congruence].
      * apply list_elem_of_singleton in Hp as ->.
        exists new, k, (now + ttl l)%Z. split_and!; [done..|].
        by rewrite lookup_insert_eq.
    + intros kp p Hp. rewrite Hperm.
      apply lookup_insert_Some in Hp as [[<- <-]|[Hne Hp]].
      * split; [apply elem_of_app; right; by left|]. by exists new.
      * destruct (tidy_cache _ _ _ Ht kp p Hp) as [Hin (n & Hn & Hkn)].
        split; [apply elem_of_app; by left|]. exists n. by rewrite Hm1.
    + done.
Qed.

Lemma ttlheap_sweep_tidy l now :
  tidy (cache l) (heap l) (mem l) →
  ∃ l', sweep zeroV l now = Ok l' ∧ tidy (cache l') (heap l') (mem l') ∧
    ttl l' = ttl l ∧ stopped l' = stopped l ∧
    ∀ k, match cache l !! k with
         | None => cache l' !! k = None
         | Some p => ∃ n e, mem l !! p = Some n ∧ expiresAt n = Some e ∧
             if (e <? now)%Z then cache l' !! k = None
             else cache l' !! k = Some p ∧ mem l' !! p = Some n
         end.
Proof.
  intros Ht. unfold sweep.
  destruct (ttlheap_sweep_loop_tidy now (length (heap l)) _ _ _ Ht)
    as (c' & h' & m' & -> & Ht' & Hres); [done|].
  rewrite bind_ret. by eexists.
Qed.

Lemma ttlheap_get_same l k now r l' : get zeroV l k now = Ok (r, l') → l' = l.
Proof.
  unfold get. destruct (isStopped l); [done|]. destruct (cache l !! k); [|by intros [= _ ->]].
  intros Hg. apply bind_Ok in Hg as (nk & _ & Hg). apply bind_Ok in Hg as (e & _ & Hg).
  by destruct (Before e now); simplify_eq.
Qed.

Lemma ttlheap_write_once_tidy l :
  write_once zeroV l → tidy (cache l) (heap l) (mem l).
Proof.
  induction 1 as [d l Hnew|l k v now l' _ Ht Hk Hset
                 |l k now r l' _ IH Hget|l now l' _ Ht Hsw|l l' _ Ht Hst].
  - unfold NewTTL in Hnew. case_match; [done|]. simplify_eq. split; simpl.
    + apply NoDup_nil_2.
    + intros p Hp. by apply elem_of_nil in Hp.
    + done.
    + intros a Ha. simpl in Ha. lia.
  - assert (isStopped l = false) as Hs.
    { unfold set in Hset. by destruct (isStopped l). }
    destruct (ttlheap_set_tidy l k v now Ht Hs Hk) as (l2 & Hset' & Ht2 & _).
    by assert (l' = l2) as -> by congruence.
  - by rewrite (ttlheap_get_same _ _ _ _ _ Hget).
  - destruct (ttlheap_sweep_tidy l now Ht) as (l2 & Hsw' & Ht2 & _).
    by assert (l' = l2) as -> by congruence.
  - unfold Stop in Hst. destruct (stopped l =? 0)%N; [|by simplify_eq].
    apply bind_Ok in Hst as (m1 & _ & Hst).
    rewrite (ttlheap_drain _ _ (Nat.le_refl _)) in Hst. simpl in Hst. simplify_eq.
    split; simpl.
    + apply NoDup_nil_2.
    + intros p Hp. by apply elem_of_nil in Hp.
    + done.
    + intros a Ha. simpl in Ha. lia.
Qed.

Lemma ttlheap_write_once_reachable l : write_once zeroV l → reachable zeroV l.
Proof.
  induction 1; [by eapply reach_new|by eapply reach_set|by eapply reach_get
               |by eapply reach_sweep|by eapply reach_stop].
Qed.

(* a tick of the sweeper in a run without a write to a key of the index *)
Lemma ttlheap_sweep_write_once l now :
  write_once zeroV l →
  ∃ l', sweep zeroV l now = Ok l' ∧
    ∀ k, match cache l !! k with
         | None => cache l' !! k = None
         | Some p => ∃ n e, mem l !! p = Some n ∧ expiresAt n = Some e ∧
             if (e <? now)%Z then cache l' !! k = None
             else cache l' !! k = Some p ∧ mem l' !! p = Some n
         end.
Proof.
  intros Hw. destruct (ttlheap_sweep_tidy l now (ttlheap_write_once_tidy l Hw))
    as (l' & ? & _ & _ & _ & ?). by exists l'.
Qed.

(* a write in such a run, and the reads until the expiry *)
Lemma ttlheap_set_write_once l k v now :
  write_once zeroV l → isStopped l = false → cache l !! k = None →
  ∃ l', set zeroV l k v now = Ok l' ∧ write_once zeroV l' ∧
    ∀ now', (now' ≤ now + ttl l)%Z → get zeroV l' k now' = Ok ((v, true), l').
Proof.
  intros Hw Hst Hk.
  destruct (ttlheap_set_tidy l k v now (ttlheap_write_once_tidy l Hw) Hst Hk)
    as (l' & Hset & _ & _ & Hs & Hc & Hm).
  exists l'. split_and!; [done|by eapply once_set|]. intros now' Hle.
  unfold get, isStopped in *. rewrite Hs, Hst, Hc, lookup_insert_eq.
  rewrite (load_Some _ _ {| key := Some k; value := v;
                            expiresAt := Some (now + ttl l)%Z |})
    by (by rewrite Hm, lookup_app_r, Nat.sub_diag by done).
  simpl. unfold Before. by rewrite (proj2 (Z.ltb_ge _ _)) by lia.
Qed.

(* the first item of the heap expires first *)
Lemma ttlheap_peek_first l p0 k p n e :
  write_once zeroV l → Peek (heap l) = Some p0 →
  cache l !! k = Some p → mem l !! p = Some n → expiresAt n = Some e →
  ∃ n0 k0 e0, mem l !! p0 = Some n0 ∧ key n0 = Some k0 ∧ expiresAt n0 = Some e0 ∧
    cache l !! k0 = Some p0 ∧ (e0 ≤ e)%Z.
Proof.
  intros Hw Hp0 Hk Hn He. pose proof (ttlheap_write_once_tidy l Hw) as Ht.
  unfold Peek in Hp0.
  destruct (tidy_item _ _ _ Ht p0) as (n0 & k0 & e0 & Hn0 & Hk0 & He0 & Hc0);
    [by eapply list_elem_of_lookup_2|].
  exists n0, k0, e0. split_and!; [done..|].
  destruct (tidy_cache _ _ _ Ht k p Hk) as [Hp _].
  apply list_elem_of_lookup in Hp as [a Ha].
  pose proof (heap_min (mem l) (heap l) a (tidy_order _ _ _ Ht) (lookup_lt_Some _ _ _ Ha))
    as Hle.
  rewrite (heap_expiry_at (mem l) (heap l) 0 p0 e0),
    (heap_expiry_at (mem l) (heap l) a p e) in Hle
    by (done || apply heap_expiry_Some; eauto).
  done.
Qed.

(* a write to a key of the index whose old item is the parent of the slot
   that the new item takes in the heap: [up] compares the new item with
   the old one, whose expiry is [nil] by then *)
Lemma ttlheap_set_parent_panics l k p v now :
  wf l → isStopped l = false → cache l !! k = Some p →
  heap l !! ((length (heap l) - 1) / 2) = Some p →
  set zeroV l k v now = Panicked NilDereference.
Proof.
  intros Hwf Hst Hk Hp.
  destruct (wf_cache _ Hwf k p Hk) as (n & e & Hn & _ & _).
  pose proof (lookup_lt_Some _ _ _ Hn) as Hlt.
  pose proof (lookup_lt_Some _ _ _ Hp) as Hi.
  unfold set. rewrite Hst, Hk. unfold modify. rewrite Hn. simpl.
  unfold heap_Push. rewrite length_app. simpl.
  replace (length (heap l) + 1) with (S (length (heap l))) by lia.
  rewrite heap_up_S. cbv zeta.
  replace (S (length (heap l)) - 1) with (length (heap l)) by lia.
  rewrite bool_decide_false by lia.
  set (m' := <[p:=zeroItem zeroV]> (mem l)).
  set (x := {| key := Some k; value := v; expiresAt := Some (now + ttl l)%Z |}).
  assert ((heap l ++ [length m']) !! length (heap l) = Some (length m')) as Hj.
  { by rewrite lookup_app_r, Nat.sub_diag by done. }
  assert ((heap l ++ [length m']) !! ((length (heap l) - 1) / 2) = Some p) as Hi'.
  { by rewrite lookup_app_l by done. }
  assert ((m' ++ [x]) !! length m' = Some x) as Hx.
  { by rewrite lookup_app_r, Nat.sub_diag by done. }
  assert ((m' ++ [x]) !! p = Some (zeroItem zeroV)) as Hz.
  { rewrite lookup_app_l by (by unfold m'; rewrite length_insert).
    by apply list_lookup_insert_eq. }
  unfold Less, index, load. by rewrite Hj, Hi'; simpl; rewrite Hx, Hz.
Qed.

(* [Fetch] is a [get] and maybe a [set] *)
Lemma ttlheap_Fetch_reachable {E} l k (fn : FetchFunc V E) now r l' :
  reachable zeroV l → Fetch zeroV l k fn now = Ok (r, l') → reachable zeroV l'.
Proof.
  intros Hr Hf. unfold Fetch in Hf. destruct (isStopped l); [done|].
  apply bind_Ok in Hf as ([[x ok] l1] & Hget & Hf).
  assert (reachable zeroV l1) as Hr1 by (by eapply reach_get).
  destruct ok; [by simplify_eq|]. destruct (fn ()) as [v [e|]]; [by simplify_eq|].
  apply bind_Ok in Hf as (l2 & Hset & Hf). simplify_eq. by eapply reach_set.
Qed.

End facts.
End TTLHeap_facts.

(** * The claims of the specification *)

Import Scenario.

(** C1.  The specification says that a write to a key already in a FIFO or
    LIFO cache changes the value only, at capacity too.  The code checks the
    capacity before it looks the key up, so at capacity such a write evicts
    the head first.  In a FIFO of capacity 2 holding "a" then "b", the write
    of "b" evicts "a", and the write of "a" evicts "a" itself and inserts it
    again behind "b"; in a LIFO of capacity 2 holding "a" then "b", the
    write of "a" evicts "b". *)
Theorem C1_overwrite_at_capacity_evicts_head :
  (l ← fifo_ab; Ok (FIFO.order l)) = Ok ["a"; "b"] ∧
  (l ← fifo_ab; l ← FIFO.set 0 l "b" 3; Ok (FIFO.order l)) = Ok ["b"] ∧
  fifo_get (l ← fifo_ab; FIFO.set 0 l "b" 3) "a" = Ok (0, false) ∧
  (l ← fifo_ab; l ← FIFO.set 0 l "a" 3; Ok (FIFO.order l)) = Ok ["b"; "a"] ∧
  (l ← lifo_ab; Ok (LIFO.order l)) = Ok ["b"; "a"] ∧
  (l ← lifo_ab; l ← LIFO.set 0 l "a" 3; Ok (LIFO.order l)) = Ok ["a"] ∧
  lifo_get (l ← lifo_ab; LIFO.set 0 l "a" 3) "b" = Ok (0, false).
Proof. by vm_compute. Qed.

(** C2.  The specification says that a write to a key already in a TTL
    cache appends a fresh entry at the tail and keeps the list in
    non-decreasing expiry order, in lock-step with the index.  In [ttl.go]
    the write reuses the item of the key where it is and links the tail to
    it: with a TTL of 10, after "a" at 0, "b" at 1 and "a" again at 5 the
    list from the head is a cycle "a", "b", "a", ... with the expiries 15,
    11, 15, ... and the next sweep after both have expired dereferences
    [nil]; a write of "c" at 6 instead leaves "b" in the index and out
    of the list, where no sweep finds it.  In the heap-ordered engine the
    neutralized item stays in the heap without an entry in the index, and
    a second write of the only key dereferences its [nil] expiry. *)
Theorem C2_ttl_overwrite_breaks_the_order :
  (l ← ttl_aba; Ok (walk TTL.next 4 (TTL.mem l) (TTL.head l), TTL.tail l))
    = Ok ([0; 1; 0; 1], Some 0) ∧
  (l ← ttl_aba; Ok (ttl_expiries 4 l))
    = Ok [Some 15%Z; Some 11%Z; Some 15%Z; Some 11%Z] ∧
  (l ← ttl_aba; TTL.sweep 0 l 16) = Panicked NilDereference ∧
  (l ← ttl_aba; l ← TTL.set 0 l "c" 4 6;
   Ok (walk TTL.next 4 (TTL.mem l) (TTL.head l), TTL.cache l !! "b"))
    = Ok ([0; 2], Some 1) ∧
  (l ← ttl_aba; l ← TTL.set 0 l "c" 4 6; l ← TTL.sweep 0 l 100;
   Ok (TTL.head l, TTL.cache l !! "b")) = Ok (None, Some 1) ∧
  (l ← heap_abb; Ok (TTLHeap.heap l, heap_keys l, size (TTLHeap.cache l)))
    = Ok ([0; 1; 2], [Some "a"; None; Some "b"], 2) ∧
  heap_aa = Panicked NilDereference.
Proof. by vm_compute. Qed.

(** C3.  In a TTL cache that is not stopped, an entry of the index has an
    expiry, and [Get] at an instant after it reports the key missing and
    returns the cache as it was: the entry stays in the index and in the
    order structure.  Both engines of the policy. *)
Theorem C3_ttl_get_after_expiry `{Countable K} {V : Type} (zeroV : V)
    (k : K) (p : loc) (now : Z) :
  (∀ l : TTL.TTL K V,
     TTL.reachable zeroV l → TTL.isStopped l = false →
     TTL.cache l !! k = Some p →
     ∃ n e, TTL.mem l !! p = Some n ∧ TTL.expiresAt n = Some e ∧
       ((e < now)%Z → TTL.get zeroV l k now = Ok ((zeroV, false), l))) ∧
  (∀ l : TTLHeap.TTL K V,
     TTLHeap.reachable zeroV l → TTLHeap.isStopped l = false →
     TTLHeap.cache l !! k = Some p →
     ∃ n e, TTLHeap.mem l !! p = Some n ∧ TTLHeap.expiresAt n = Some e ∧
       ((e < now)%Z → TTLHeap.get zeroV l k now = Ok ((zeroV, false), l))).
Proof.
  split; intros l Hr Hst Hk.
  - by apply TTL_facts.ttl_get_expired.
  - by apply TTLHeap_facts.ttlheap_get_expired.
Qed.

Lemma ttl_a_reachable : TTL.reachable 0 ttl_a.
Proof.
  apply (TTL.reach_set 0 ttl_new "a" 1 0%Z); [|by vm_compute].
  by apply (TTL.reach_new 0 10%Z).
Defined.

Lemma heap_a_reachable : TTLHeap.reachable 0 heap_a.
Proof.
  apply (TTLHeap.reach_set 0 heap_new "a" 1 0%Z); [|by vm_compute].
  by apply (TTLHeap.reach_new 0 10%Z).
Defined.

Lemma C3_witness :
  TTL.get 0 ttl_a "a" 11 = Ok ((0, false), ttl_a) ∧
  TTLHeap.get 0 heap_a "a" 11 = Ok ((0, false), heap_a).
Proof.
  destruct (C3_ttl_get_after_expiry 0 "a" 0 11%Z) as [HL HH]. split.
  - destruct (HL ttl_a ttl_a_reachable eq_refl eq_refl) as (n & e & Hn & He & Hg).
    apply Hg. vm_compute in Hn. injection Hn as <-. injection He as <-. done.
  - destruct (HH heap_a heap_a_reachable eq_refl eq_refl) as (n & e & Hn & He & Hg).
    apply Hg. vm_compute in Hn. injection Hn as <-. injection He as <-. done.
Defined.

(** C4.  A FIFO, LIFO, LRU or Random cache built with the capacity [N]
    runs any list of [Set]s without a panic, and its index then holds at
    most [N] keys; in the [Set] that follows, the index holds fewer than
    [N] keys after the eviction block, so the one insertion that comes next
    does not exceed [N] either.  For Random, whatever the orders in which
    the [range] statements visit the map. *)
Theorem C4_capacity_bound `{Countable K} {V : Type} (zeroV : V)
    (N : Z) (ops : list (K * V)) :
  (0 < N)%Z →
  (∃ l0 l l1 : FIFO.FIFO K V,
     FIFO.NewFIFO N = Ok l0 ∧ FIFO.sets zeroV l0 ops = Ok l ∧
     (Z.of_nat (size (FIFO.cache l)) ≤ N)%Z ∧
     FIFO.evict zeroV l = Ok l1 ∧ (Z.of_nat (size (FIFO.cache l1)) < N)%Z) ∧
  (∃ l0 l l1 : LIFO.LIFO K V,
     LIFO.NewLIFO N = Ok l0 ∧ LIFO.sets zeroV l0 ops = Ok l ∧
     (Z.of_nat (size (LIFO.cache l)) ≤ N)%Z ∧
     LIFO.evict zeroV l = Ok l1 ∧ (Z.of_nat (size (LIFO.cache l1)) < N)%Z) ∧
  (∃ l0 l l1 : LRU.LRU K V,
     LRU.NewLRU N = Ok l0 ∧ LRU.sets zeroV l0 ops = Ok l ∧
     (Z.of_nat (size (LRU.cache l)) ≤ N)%Z ∧
     LRU.evict zeroV l = Ok l1 ∧ (Z.of_nat (size (LRU.cache l1)) < N)%Z) ∧
  (∃ l0 : Random.Random K V,
     Random.NewRandom N = Ok l0 ∧ (∃ l, Random.sets l0 ops l) ∧
     ∀ l, Random.sets l0 ops l →
       (Z.of_nat (size (Random.cache l)) ≤ N)%Z ∧
       ∀ order, Random.range_order (Random.cache l) order →
         (Z.of_nat (size (Random.evicted order l)) < N)%Z).
Proof.
  intros HN. split_and!.
  - by apply FIFO_facts.fifo_capacity_bound.
  - by apply LIFO_facts.lifo_capacity_bound.
  - by apply LRU_facts.lru_capacity_bound.
  - by apply (Random_facts.random_capacity_bound zeroV).
Qed.

Lemma C4_witness :
  ∃ l0 l l1 : FIFO.FIFO string nat,
    FIFO.NewFIFO 2 = Ok l0 ∧
    FIFO.sets 0 l0 [("a", 1); ("b", 2); ("c", 3)] = Ok l ∧
    (Z.of_nat (size (FIFO.cache l)) ≤ 2)%Z ∧
    FIFO.evict 0 l = Ok l1 ∧ (Z.of_nat (size (FIFO.cache l1)) < 2)%Z.
Proof.
  apply (C4_capacity_bound 0 2%Z [("a", 1); ("b", 2); ("c", 3)]). lia.
Defined.


Lemma lru_ab_reachable : LRU.reachable 0 lru_ab.
Proof.
  apply (LRU_facts.lru_sets_reachable 0 lru_new [("a", 1); ("b", 2)]);
    [|by vm_compute].
  by apply (LRU.reach_new 0 3%Z).
Defined.


(** C6.  In a LIFO cache of capacity 2, after [Set] of "a" and "b" the
    list from the head is "b", "a"; [Set] of "c" evicts "b", and "a" and
    "c" are still read.  In general, in a LIFO cache that is not stopped, a
    [Set] of a key that is not cached leaves the item of the key at the
    head, and the eviction block of [Set] does nothing below capacity and
    at capacity removes the key of the item at the head. *)
Theorem C6_lifo_evicts_most_recent :
  ((l ← lifo_ab; Ok (LIFO.order l)) = Ok ["b"; "a"] ∧
   (l ← lifo_ab; l ← LIFO.set 0 l "c" 3; Ok (LIFO.order l)) = Ok ["c"; "a"] ∧
   lifo_get (l ← lifo_ab; LIFO.set 0 l "c" 3) "b" = Ok (0, false) ∧
   lifo_get (l ← lifo_ab; LIFO.set 0 l "c" 3) "a" = Ok (1, true) ∧
   lifo_get (l ← lifo_ab; LIFO.set 0 l "c" 3) "c" = Ok (3, true)) ∧
  ∀ `{Countable K} {V : Type} (zeroV : V) (l : LIFO.LIFO K V),
    LIFO.reachable zeroV l → LIFO.isStopped l = false →
    (∀ k v, LIFO.cache l !! k = None →
       ∃ l' p, LIFO.set zeroV l k v = Ok l' ∧ LIFO.cache l' !! k = Some p ∧
         LIFO.head l' = Some p) ∧
    (∃ l', LIFO.evict zeroV l = Ok l' ∧
       (((Z.of_nat (size (LIFO.cache l)) < LIFO.capacity l)%Z ∧ l' = l) ∨
        ((LIFO.capacity l ≤ Z.of_nat (size (LIFO.cache l)))%Z ∧
         ∃ p n k, LIFO.head l = Some p ∧ LIFO.mem l !! p = Some n ∧
           LIFO.key n = Some k ∧ LIFO.cache l' = delete k (LIFO.cache l) ∧
           LIFO.head l' = LIFO.next n))).
Proof.
  split; [by vm_compute|]. intros K ? ? V zeroV l Hr Hst. split.
  - intros k v Hk. by apply LIFO_facts.lifo_set_new_head.
  - destruct (LIFO_facts.lifo_active zeroV l Hr Hst) as [_ [ls Hwf]].
    destruct (LIFO_facts.lifo_evict_wf zeroV l ls Hwf) as (l' & _ & Hev & _).
    exists l'. split; [done|]. by apply (LIFO_facts.lifo_evict_head zeroV).
Qed.

Lemma C6_witness :
  ∃ l' p, LIFO.set 0 lifo_new "a" 1 = Ok l' ∧ LIFO.cache l' !! "a" = Some p ∧
    LIFO.head l' = Some p.
Proof.
  destruct C6_lifo_evicts_most_recent as [_ Hgen].
  destruct (Hgen string _ _ nat 0 lifo_new) as [Hset _];
    [by apply (LIFO.reach_new 0 2%Z)|done|].
  by apply Hset.
Defined.

(** C7.  When the compute function fails, [Fetch] of a key that is
    missing (for TTL: not in the index, or expired at the instant of the
    call) returns the zero value with that error and the cache as it was,
    and [Get] of the key still reports it missing.  Every engine. *)
Theorem C7_fetch_error_leaves_the_cache `{Countable K} {V E : Type} (zeroV : V)
    (k : K) (v : V) (err : E) (fn : unit → V * option E) :
  fn () = (v, Some err) →
  (∀ l : FIFO.FIFO K V,
     FIFO.isStopped l = false → FIFO.cache l !! k = None →
     FIFO.Fetch zeroV l k fn = Ok ((zeroV, Some err), l) ∧
     FIFO.get zeroV l k = Ok ((zeroV, false), l)) ∧
  (∀ l : LIFO.LIFO K V,
     LIFO.isStopped l = false → LIFO.cache l !! k = None →
     LIFO.Fetch zeroV l k fn = Ok ((zeroV, Some err), l) ∧
     LIFO.get zeroV l k = Ok ((zeroV, false), l)) ∧
  (∀ l : LRU.LRU K V,
     LRU.isStopped l = false → LRU.cache l !! k = None →
     LRU.Fetch zeroV l k fn = Ok ((zeroV, Some err), l) ∧
     LRU.get zeroV l k = Ok ((zeroV, false), l)) ∧
  (∀ (l : Random.Random K V) order,
     Random.isStopped l = false → Random.cache l !! k = None →
     Random.Fetch zeroV order l k fn = Ok ((zeroV, Some err), l) ∧
     Random.get zeroV l k = Ok ((zeroV, false), l)) ∧
  (∀ (l : TTL.TTL K V) now,
     TTL.isStopped l = false → TTL.missing l k now →
     TTL.Fetch zeroV l k fn now = Ok ((zeroV, Some err), l) ∧
     TTL.get zeroV l k now = Ok ((zeroV, false), l)) ∧
  (∀ (l : TTLHeap.TTL K V) now,
     TTLHeap.isStopped l = false → TTLHeap.missing l k now →
     TTLHeap.Fetch zeroV l k fn now = Ok ((zeroV, Some err), l) ∧
     TTLHeap.get zeroV l k now = Ok ((zeroV, false), l)).
Proof.
  intros Hfn. split_and!.
  - intros l Hst Hk. by eapply FIFO_facts.fifo_Fetch_error.
  - intros l Hst Hk. by eapply LIFO_facts.lifo_Fetch_error.
  - intros l Hst Hk. by eapply LRU_facts.lru_Fetch_error.
  - intros l order Hst Hk. by eapply Random_facts.random_Fetch_error.
  - intros l now Hst Hk. by eapply TTL_facts.ttl_Fetch_error.
  - intros l now Hst Hk. by eapply TTLHeap_facts.ttlheap_Fetch_error.
Qed.

Lemma C7_witness :
  (FIFO.Fetch 0 fifo_new "a" failing = Ok ((0, Some "boom"), fifo_new) ∧
   FIFO.get 0 fifo_new "a" = Ok ((0, false), fifo_new)) ∧
  (TTL.Fetch 0 ttl_a "a" failing 11 = Ok ((0, Some "boom"), ttl_a) ∧
   TTL.get 0 ttl_a "a" 11 = Ok ((0, false), ttl_a)).
Proof.
  destruct (C7_fetch_error_leaves_the_cache 0 "a" 5 "boom" failing eq_refl)
    as (HF & _ & _ & _ & HT & _).
  split; [by apply HF|]. apply HT; [done|]. right.
  eexists 0, _, 10%Z. by split_and!.
Defined.

(** C8.  [Stop] of a cache returns; after it the index and the order
    structure are empty, [Get] and [Set] panic with "cache is stopped", and
    a second [Stop] returns the same cache.  Every engine. *)
Theorem C8_stop `{Countable K} {V : Type} (zeroV : V) :
  (∀ l : FIFO.FIFO K V, FIFO.reachable zeroV l →
     ∃ l', FIFO.Stop zeroV l = Ok l' ∧
       FIFO.cache l' = ∅ ∧ FIFO.head l' = None ∧ FIFO.tail l' = None ∧
       (∀ k, FIFO.get zeroV l' k = Panicked CacheStopped) ∧
       (∀ k v, FIFO.set zeroV l' k v = Panicked CacheStopped) ∧
       FIFO.Stop zeroV l' = Ok l') ∧
  (∀ l : LIFO.LIFO K V, LIFO.reachable zeroV l →
     ∃ l', LIFO.Stop zeroV l = Ok l' ∧
       LIFO.cache l' = ∅ ∧ LIFO.head l' = None ∧
       (∀ k, LIFO.get zeroV l' k = Panicked CacheStopped) ∧
       (∀ k v, LIFO.set zeroV l' k v = Panicked CacheStopped) ∧
       LIFO.Stop zeroV l' = Ok l') ∧
  (∀ l : LRU.LRU K V, LRU.reachable zeroV l →
     ∃ l', LRU.Stop zeroV l = Ok l' ∧
       LRU.cache l' = ∅ ∧ LRU.head l' = None ∧ LRU.tail l' = None ∧
       (∀ k, LRU.get zeroV l' k = Panicked CacheStopped) ∧
       (∀ k v, LRU.set zeroV l' k v = Panicked CacheStopped) ∧
       LRU.Stop zeroV l' = Ok l') ∧
  (∀ l : Random.Random K V, Random.reachable zeroV l →
     ∃ l', Random.Stop l = Ok l' ∧ Random.cache l' = ∅ ∧
       (∀ k, Random.get zeroV l' k = Panicked CacheStopped) ∧
       (∀ order k v, Random.set order l' k v = Panicked CacheStopped) ∧
       Random.Stop l' = Ok l') ∧
  (∀ l : TTL.TTL K V, TTL.reachable zeroV l →
     ∃ l', TTL.Stop zeroV l = Ok l' ∧
       TTL.cache l' = ∅ ∧ TTL.head l' = None ∧ TTL.tail l' = None ∧
       (∀ k now, TTL.get zeroV l' k now = Panicked CacheStopped) ∧
       (∀ k v now, TTL.set zeroV l' k v now = Panicked CacheStopped) ∧
       TTL.Stop zeroV l' = Ok l') ∧
  (∀ l : TTLHeap.TTL K V, TTLHeap.reachable zeroV l →
     ∃ l', TTLHeap.Stop zeroV l = Ok l' ∧
       TTLHeap.cache l' = ∅ ∧ TTLHeap.heap l' = [] ∧
       (∀ k now, TTLHeap.get zeroV l' k now = Panicked CacheStopped) ∧
       (∀ k v now, TTLHeap.set zeroV l' k v now = Panicked CacheStopped) ∧
       TTLHeap.Stop zeroV l' = Ok l').
Proof.
  split_and!; intros l Hr.
  - by apply FIFO_facts.fifo_Stop_spec.
  - by apply LIFO_facts.lifo_Stop_spec.
  - by apply LRU_facts.lru_Stop_spec.
  - by apply Random_facts.random_Stop_spec.
  - by apply TTL_facts.ttl_Stop_spec.
  - by apply TTLHeap_facts.ttlheap_Stop_spec.
Qed.

Lemma C8_witness :
  ∃ l', LRU.Stop 0 lru_ab = Ok l' ∧
    LRU.cache l' = ∅ ∧ LRU.head l' = None ∧ LRU.tail l' = None ∧
    (∀ k, LRU.get 0 l' k = Panicked CacheStopped) ∧
    (∀ k v, LRU.set 0 l' k v = Panicked CacheStopped) ∧
    LRU.Stop 0 l' = Ok l'.
Proof.
  destruct (C8_stop (K := string) 0) as (_ & _ & HU & _).
  apply HU, lru_ab_reachable.
Defined.

(** C9.  The specification says that in every cache that is not stopped
    [Set] of a key and a value followed by [Get] of the key returns the
    value and [true]; for TTL, when less than the TTL lies between the
    instants of the two calls.  The engines of [fifo.go], [lifo.go],
    [lru.go], [random.go] and [ttl.go] do so in every state they reach; for
    Random, whatever the order in which the [range] statement of [Set]
    visits the map.  The heap-ordered TTL engine does so for a key that is
    not in the index, in the runs in which no write was to a key of the
    index.  Its [Set] of a key of the index does not return when the old
    item of the key is the parent of the slot that the new item takes in
    the heap, as it is when the key is the only one of the cache: [Set]
    clears the expiry of the old item and leaves the item in the heap, and
    [heap.Push] compares the new item with it and dereferences [nil]. *)
Theorem C9_set_then_get `{Countable K} {V : Type} (zeroV : V) (k : K) (v : V) :
  (∀ l : FIFO.FIFO K V,
     FIFO.reachable zeroV l → FIFO.isStopped l = false →
     ∃ l', FIFO.set zeroV l k v = Ok l' ∧
       FIFO.get zeroV l' k = Ok ((v, true), l')) ∧
  (∀ l : LIFO.LIFO K V,
     LIFO.reachable zeroV l → LIFO.isStopped l = false →
     ∃ l', LIFO.set zeroV l k v = Ok l' ∧
       LIFO.get zeroV l' k = Ok ((v, true), l')) ∧
  (∀ l : LRU.LRU K V,
     LRU.reachable zeroV l → LRU.isStopped l = false →
     ∃ l', LRU.set zeroV l k v = Ok l' ∧
       LRU.get zeroV l' k = Ok ((v, true), l')) ∧
  (∀ (l : Random.Random K V) order,
     Random.reachable zeroV l → Random.isStopped l = false →
     Random.range_order (Random.cache l) order →
     ∃ l', Random.set order l k v = Ok l' ∧
       Random.get zeroV l' k = Ok ((v, true), l')) ∧
  (∀ (l : TTL.TTL K V) now now',
     TTL.reachable zeroV l → TTL.isStopped l = false →
     (now' - now < TTL.ttl l)%Z →
     ∃ l', TTL.set zeroV l k v now = Ok l' ∧
       TTL.get zeroV l' k now' = Ok ((v, true), l')) ∧
  (∀ (l : TTLHeap.TTL K V) now now',
     TTLHeap.write_once zeroV l → TTLHeap.isStopped l = false →
     TTLHeap.cache l !! k = None →
     (now' - now < TTLHeap.ttl l)%Z →
     ∃ l', TTLHeap.set zeroV l k v now = Ok l' ∧
       TTLHeap.get zeroV l' k now' = Ok ((v, true), l')) ∧
  (∀ (l : TTLHeap.TTL K V) (p : loc) now,
     TTLHeap.reachable zeroV l → TTLHeap.isStopped l = false →
     TTLHeap.cache l !! k = Some p →
     TTLHeap.heap l !! ((length (TTLHeap.heap l) - 1) / 2) = Some p →
     TTLHeap.set zeroV l k v now = Panicked NilDereference).
Proof.
  split_and!.
  - intros l Hr Hst. by apply FIFO_facts.fifo_set_get.
  - intros l Hr Hst. by apply LIFO_facts.lifo_set_get.
  - intros l Hr Hst. by apply LRU_facts.lru_set_get.
  - intros l order Hr Hst Hord. by apply Random_facts.random_set_get.
  - intros l now now' Hr Hst Hlt. by apply TTL_facts.ttl_set_get.
  - intros l now now' Hw Hst Hk Hlt.
    destruct (TTLHeap_facts.ttlheap_set_write_once zeroV l k v now Hw Hst Hk)
      as (l' & Hset & _ & Hget).
    exists l'. split; [done|]. apply Hget. lia.
  - intros l p now Hr Hst Hk Hp.
    apply (TTLHeap_facts.ttlheap_set_parent_panics zeroV l k p); [|done..].
    by apply (TTLHeap_facts.ttlheap_reachable_wf zeroV).
Qed.

Lemma heap_ba_write_once : TTLHeap.write_once 0 heap_ba.
Proof.
  apply (TTLHeap.once_set 0
           (match TTLHeap.set 0 heap_new "a" 1 5 with Ok l => l | _ => heap_new end)
           "b" 2 1); [|done|by vm_compute].
  apply (TTLHeap.once_set 0 heap_new "a" 1 5); [|done|by vm_compute].
  by apply (TTLHeap.once_new 0 10%Z).
Defined.

Lemma C9_witness :
  (∃ l', LRU.set 0 lru_ab "a" 7 = Ok l' ∧ LRU.get 0 l' "a" = Ok ((7, true), l')) ∧
  (∃ l', TTL.set 0 ttl_a "a" 7 11 = Ok l' ∧
     TTL.get 0 l' "a" 20 = Ok ((7, true), l')) ∧
  (∃ l', TTLHeap.set 0 heap_ba "c" 7 11 = Ok l' ∧
     TTLHeap.get 0 l' "c" 20 = Ok ((7, true), l')) ∧
  TTLHeap.set 0 heap_a "a" 7 11 = Panicked NilDereference.
Proof.
  destruct (C9_set_then_get 0 "a" 7) as (_ & _ & HU & _ & HT & _).
  destruct (C9_set_then_get 0 "c" 7) as (_ & _ & _ & _ & _ & HH & _).
  destruct (C9_set_then_get 0 "a" 7) as (_ & _ & _ & _ & _ & _ & HP).
  split_and!.
  - by apply HU; [apply lru_ab_reachable|].
  - by apply HT; [apply ttl_a_reachable| |].
  - by apply HH; [apply heap_ba_write_once| | |].
  - by apply (HP heap_a 0 11%Z); [apply heap_a_reachable| | |].
Defined.

(** C10.  In a FIFO, LIFO, Random or TTL cache that is not stopped, [Get]
    returns an answer and the cache as it was, whether it hits, misses or
    finds an expired entry.  [Get] of an LRU cache is not such a read: in
    the LRU holding "a" then "b", [Get] of "a" returns another cache. *)
Theorem C10_get_is_a_pure_read `{Countable K} {V : Type} (zeroV : V) (k : K) :
  (∀ l : FIFO.FIFO K V,
     FIFO.reachable zeroV l → FIFO.isStopped l = false →
     ∃ r, FIFO.get zeroV l k = Ok (r, l)) ∧
  (∀ l : LIFO.LIFO K V,
     LIFO.reachable zeroV l → LIFO.isStopped l = false →
     ∃ r, LIFO.get zeroV l k = Ok (r, l)) ∧
  (∀ l : Random.Random K V,
     Random.reachable zeroV l → Random.isStopped l = false →
     ∃ r, Random.get zeroV l k = Ok (r, l)) ∧
  (∀ (l : TTL.TTL K V) now,
     TTL.reachable zeroV l → TTL.isStopped l = false →
     ∃ r, TTL.get zeroV l k now = Ok (r, l)) ∧
  (∀ (l : TTLHeap.TTL K V) now,
     TTLHeap.reachable zeroV l → TTLHeap.isStopped l = false →
     ∃ r, TTLHeap.get zeroV l k now = Ok (r, l)) ∧
  (∃ r l', LRU.reachable 0 lru_ab ∧ LRU.get 0 lru_ab "a" = Ok (r, l') ∧
     LRU.order lru_ab = ["a"; "b"] ∧ LRU.order l' = ["b"; "a"]).
Proof.
  split_and!.
  - intros l Hr Hst. by apply FIFO_facts.fifo_get_pure.
  - intros l Hr Hst. by apply LIFO_facts.lifo_get_pure.
  - intros l Hr Hst. by apply Random_facts.random_get_pure.
  - intros l now Hr Hst. by apply TTL_facts.ttl_get_pure.
  - intros l now Hr Hst. by apply TTLHeap_facts.ttlheap_get_pure.
  - eexists _, _. split; [apply lru_ab_reachable|]. by vm_compute.
Qed.

Lemma C10_witness :
  (∃ r, TTL.get 0 ttl_a "a" 11 = Ok (r, ttl_a)) ∧
  (∃ r, TTL.get 0 ttl_a "a" 3 = Ok (r, ttl_a)) ∧
  (∃ r, FIFO.get 0 fifo_new "a" = Ok (r, fifo_new)).
Proof.
  destruct (C10_get_is_a_pure_read 0 "a") as (HF & _ & _ & HT & _). split_and!.
  - by apply HT; [apply ttl_a_reachable|].
  - by apply HT; [apply ttl_a_reachable|].
  - by apply HF; [apply (FIFO.reach_new 0 2%Z)|].
Defined.

(** * Further properties of the engines

    What [Set] and [Get] do to the entries of a cache, from the head of its
    list; how [Fetch] composes with itself; what the sweepers of the two
    TTL engines remove. *)

Lemma fifo_full_reachable : FIFO.reachable 0 fifo_full.
Proof.
  apply (FIFO.reach_set 0 (match FIFO.set 0 fifo_new "a" 1 with Ok l => l | _ => fifo_new end)
           "b" 2); [|by vm_compute].
  apply (FIFO.reach_set 0 fifo_new "a" 1); [|by vm_compute].
  by apply (FIFO.reach_new 0 2%Z).
Defined.

Lemma lifo_full_reachable : LIFO.reachable 0 lifo_full.
Proof.
  apply (LIFO.reach_set 0 (match LIFO.set 0 lifo_new "a" 1 with Ok l => l | _ => lifo_new end)
           "b" 2); [|by vm_compute].
  apply (LIFO.reach_set 0 lifo_new "a" 1); [|by vm_compute].
  by apply (LIFO.reach_new 0 2%Z).
Defined.

Lemma random_full_reachable : Random.reachable 0 random_full.
Proof.
  pose (l1 := match Random.set [] random_new "a" 1 with Ok l => l | _ => random_new end).
  destruct (Random_facts.random_range_order_exists (Random.cache random_new))
    as [order0 Hord0].
  destruct (Random_facts.random_range_order_exists (Random.cache l1)) as [order1 Hord1].
  apply (Random.reach_set 0 l1 order1 "b" 2); [|done|by vm_compute].
  apply (Random.reach_set 0 random_new order0 "a" 1); [|done|by vm_compute].
  by apply (Random.reach_new 0 2%Z).
Defined.

Lemma ttl_ab_in_order : TTL.in_order 0 1 ttl_ab.
Proof.
  apply (TTL.order_set 0 0 ttl_a "b" 2 1); [|done|done|by vm_compute].
  apply (TTL.order_set 0 0 ttl_new "a" 1 0); [|done|done|by vm_compute].
  by apply (TTL.order_new 0 10%Z).
Defined.

(** X1.  [Set] of a FIFO cache that is not stopped returns, and does to
    the entries from the head what a queue of the capacity does: if the
    cache holds [capacity] entries the first one leaves, whatever the key
    that is written; then the entry of the key gets the value where it is,
    or, if the key has no entry, the new entry is added at the end. *)
Theorem X1_fifo_set_entries `{Countable K} {V : Type} (zeroV : V)
    (l : FIFO.FIFO K V) (k : K) (v : V) :
  FIFO.reachable zeroV l → FIFO.isStopped l = false →
  ∃ l', FIFO.set zeroV l k v = Ok l' ∧
    FIFO.entries l' =
      (let es := if (FIFO.capacity l <=? Z.of_nat (length (FIFO.entries l)))%Z
                 then drop 1 (FIFO.entries l) else FIFO.entries l in
       if decide (k ∈ es.*1)
       then (λ e, if decide (e.1 = k) then (k, v) else e) <$> es
       else es ++ [(k, v)]).
Proof.
  intros Hr Hst. destruct (FIFO_facts.fifo_active zeroV l Hr Hst) as [Hs [ls Hwf]].
  destruct (FIFO_facts.fifo_set_entries_wf zeroV l ls k v Hwf Hs)
    as (l' & _ & ? & _ & _ & _ & ?).
  by exists l'.
Qed.

Lemma X1_witness :
  ∃ l', FIFO.set 0 fifo_full "c" 3 = Ok l' ∧ FIFO.entries l' = [("b", 2); ("c", 3)].
Proof.
  destruct (X1_fifo_set_entries 0 fifo_full "c" 3) as (l' & Hset & He);
    [apply fifo_full_reachable|done|].
  exists l'. split; [done|]. rewrite He. by vm_compute.
Defined.

(** X2.  [Get] of a FIFO cache that is not stopped reads the entries: it
    returns the value of the entry of the key, and the zero value and
    [false] when the key has no entry; the cache stays as it was.  No two
    entries have the same key, there are as many entries as keys in the
    index, and at most [capacity]. *)
Theorem X2_fifo_get_entries `{Countable K} {V : Type} (zeroV : V)
    (l : FIFO.FIFO K V) (k : K) :
  FIFO.reachable zeroV l → FIFO.isStopped l = false →
  (∀ v, (k, v) ∈ FIFO.entries l → FIFO.get zeroV l k = Ok ((v, true), l)) ∧
  (k ∉ (FIFO.entries l).*1 → FIFO.get zeroV l k = Ok ((zeroV, false), l)) ∧
  NoDup (FIFO.entries l).*1 ∧
  length (FIFO.entries l) = size (FIFO.cache l) ∧
  (Z.of_nat (length (FIFO.entries l)) ≤ FIFO.capacity l)%Z.
Proof.
  intros Hr Hst. destruct (FIFO_facts.fifo_active zeroV l Hr Hst) as [Hs [ls Hwf]].
  destruct (FIFO_facts.fifo_get_entries_wf zeroV l ls k Hwf Hs) as [Hhit Hmiss].
  pose proof (FIFO_facts.fifo_entries_length l ls Hwf) as Hlen.
  split_and!; [done|done|by eapply FIFO_facts.fifo_entries_NoDup|done|].
  rewrite Hlen. apply Hwf.
Qed.

Lemma X2_witness :
  FIFO.get 0 fifo_full "b" = Ok ((2, true), fifo_full) ∧
  FIFO.get 0 fifo_full "c" = Ok ((0, false), fifo_full).
Proof.
  split.
  - apply (X2_fifo_get_entries 0 fifo_full "b");
      [apply fifo_full_reachable|done|].
    by apply (list_elem_of_lookup_2 _ 1).
  - apply (X2_fifo_get_entries 0 fifo_full "c");
      [apply fifo_full_reachable|done|].
    by apply (bool_decide_unpack _).
Defined.

(** X3.  A new FIFO cache of the capacity [N] runs the writes of a list
    of entries with different keys without a panic, and then holds the
    last [N] of them, in the order of the writes. *)
Theorem X3_fifo_keeps_the_last_writes `{Countable K} {V : Type} (zeroV : V)
    (N : Z) (kvs : list (K * V)) :
  (0 < N)%Z → NoDup kvs.*1 →
  ∃ l0 l : FIFO.FIFO K V,
    FIFO.NewFIFO N = Ok l0 ∧ FIFO.sets zeroV l0 kvs = Ok l ∧
    FIFO.entries l = drop (length kvs - Z.to_nat N) kvs.
Proof.
  intros HN Hnd.
  pose (l0 := {| FIFO.cache := ∅; FIFO.head := None; FIFO.tail := None;
                 FIFO.capacity := N; FIFO.stopped := 0; FIFO.mem := [] |} : FIFO.FIFO K V).
  assert (FIFO.NewFIFO N = Ok l0) as Hnew.
  { unfold FIFO.NewFIFO. by rewrite (proj2 (Z.leb_gt N 0)). }
  destruct (FIFO_facts.fifo_active zeroV l0) as [Hs0 [ls0 Hwf0]];
    [by eapply FIFO.reach_new|done|].
  destruct (FIFO_facts.fifo_sets_entries_wf zeroV kvs l0 ls0 [] Hwf0 Hs0)
    as (l & ls & Hsets & _ & He); [done|done|].
  by exists l0, l.
Qed.

Lemma X3_witness :
  ∃ l0 l : FIFO.FIFO string nat,
    FIFO.NewFIFO 2 = Ok l0 ∧
    FIFO.sets 0 l0 [("a", 1); ("b", 2); ("c", 3)] = Ok l ∧
    FIFO.entries l = [("b", 2); ("c", 3)].
Proof.
  apply (X3_fifo_keeps_the_last_writes 0 2%Z [("a", 1); ("b", 2); ("c", 3)]); [lia|].
  by apply (bool_decide_unpack _).
Defined.

(** X4.  [Set] of a LIFO cache that is not stopped returns, and does to
    the entries from the head what a stack of the capacity does: if the
    cache holds [capacity] entries the first one, the last that was added,
    leaves, whatever the key that is written; then the entry of the key
    gets the value where it is, or, if the key has no entry, the new entry
    is added in front. *)
Theorem X4_lifo_set_entries `{Countable K} {V : Type} (zeroV : V)
    (l : LIFO.LIFO K V) (k : K) (v : V) :
  LIFO.reachable zeroV l → LIFO.isStopped l = false →
  ∃ l', LIFO.set zeroV l k v = Ok l' ∧
    LIFO.entries l' =
      (let es := if (LIFO.capacity l <=? Z.of_nat (length (LIFO.entries l)))%Z
                 then drop 1 (LIFO.entries l) else LIFO.entries l in
       if decide (k ∈ es.*1)
       then (λ e, if decide (e.1 = k) then (k, v) else e) <$> es
       else (k, v) :: es).
Proof.
  intros Hr Hst. destruct (LIFO_facts.lifo_active zeroV l Hr Hst) as [Hs [ls Hwf]].
  destruct (LIFO_facts.lifo_set_entries_wf zeroV l ls k v Hwf Hs)
    as (l' & _ & ? & _ & _ & _ & ?).
  by exists l'.
Qed.

Lemma X4_witness :
  ∃ l', LIFO.set 0 lifo_full "c" 3 = Ok l' ∧ LIFO.entries l' = [("c", 3); ("a", 1)].
Proof.
  destruct (X4_lifo_set_entries 0 lifo_full "c" 3) as (l' & Hset & He);
    [apply lifo_full_reachable|done|].
  exists l'. split; [done|]. rewrite He. by vm_compute.
Defined.

(** X5.  [Get] of a LIFO cache that is not stopped reads the entries: it
    returns the value of the entry of the key, and the zero value and
    [false] when the key has no entry; the cache stays as it was.  No two
    entries have the same key, there are as many entries as keys in the
    index, and at most [capacity]. *)
Theorem X5_lifo_get_entries `{Countable K} {V : Type} (zeroV : V)
    (l : LIFO.LIFO K V) (k : K) :
  LIFO.reachable zeroV l → LIFO.isStopped l = false →
  (∀ v, (k, v) ∈ LIFO.entries l → LIFO.get zeroV l k = Ok ((v, true), l)) ∧
  (k ∉ (LIFO.entries l).*1 → LIFO.get zeroV l k = Ok ((zeroV, false), l)) ∧
  NoDup (LIFO.entries l).*1 ∧
  length (LIFO.entries l) = size (LIFO.cache l) ∧
  (Z.of_nat (length (LIFO.entries l)) ≤ LIFO.capacity l)%Z.
Proof.
  intros Hr Hst. destruct (LIFO_facts.lifo_active zeroV l Hr Hst) as [Hs [ls Hwf]].
  destruct (LIFO_facts.lifo_get_entries_wf zeroV l ls k Hwf Hs) as [Hhit Hmiss].
  pose proof (LIFO_facts.lifo_entries_length l ls Hwf) as Hlen.
  split_and!; [done|done|by eapply LIFO_facts.lifo_entries_NoDup|done|].
  rewrite Hlen. apply Hwf.
Qed.

Lemma X5_witness :
  LIFO.get 0 lifo_full "a" = Ok ((1, true), lifo_full) ∧
  LIFO.get 0 lifo_full "c" = Ok ((0, false), lifo_full).
Proof.
  split.
  - apply (X5_lifo_get_entries 0 lifo_full "a");
      [apply lifo_full_reachable|done|].
    by apply (list_elem_of_lookup_2 _ 1).
  - apply (X5_lifo_get_entries 0 lifo_full "c");
      [apply lifo_full_reachable|done|].
    by apply (bool_decide_unpack _).
Defined.

(** X6.  [Set] of an LRU cache that is not stopped returns, and does this
    to the entries from the head: if the cache holds [capacity] entries the
    first one leaves, whatever the key that is written; then the entry of
    the key, with the value, is the last one, and the other entries keep
    their order and their values. *)
Theorem X6_lru_set_entries `{Countable K} {V : Type} (zeroV : V)
    (l : LRU.LRU K V) (k : K) (v : V) :
  LRU.reachable zeroV l → LRU.isStopped l = false →
  ∃ l', LRU.set zeroV l k v = Ok l' ∧
    LRU.entries l' =
      filter (λ e, e.1 ≠ k)
        (if (LRU.capacity l <=? Z.of_nat (length (LRU.entries l)))%Z
         then drop 1 (LRU.entries l) else LRU.entries l) ++ [(k, v)].
Proof.
  intros Hr Hst. destruct (LRU_facts.lru_active zeroV l Hr Hst) as [Hs [ls Hwf]].
  destruct (LRU_facts.lru_set_entries_wf zeroV l ls k v Hwf Hs)
    as (l' & _ & ? & _ & _ & _ & ?).
  by exists l'.
Qed.

Lemma X6_witness :
  ∃ l', LRU.set 0 lru_ab "a" 7 = Ok l' ∧ LRU.entries l' = [("b", 2); ("a", 7)].
Proof.
  destruct (X6_lru_set_entries 0 lru_ab "a" 7) as (l' & Hset & He);
    [apply lru_ab_reachable|done|].
  exists l'. split; [done|]. rewrite He. by vm_compute.
Defined.

(** X7.  [Get] of an LRU cache that is not stopped returns the value of the
    entry of the key and makes this entry the last one, the other entries
    keeping their order and their values; when the key has no entry it
    returns the zero value and [false], and the cache stays as it was.  No
    two entries have the same key, and there are at most [capacity]. *)
Theorem X7_lru_get_entries `{Countable K} {V : Type} (zeroV : V)
    (l : LRU.LRU K V) (k : K) :
  LRU.reachable zeroV l → LRU.isStopped l = false →
  (∀ v, (k, v) ∈ LRU.entries l →
     ∃ l', LRU.get zeroV l k = Ok ((v, true), l') ∧
       LRU.entries l' = filter (λ e, e.1 ≠ k) (LRU.entries l) ++ [(k, v)]) ∧
  (k ∉ (LRU.entries l).*1 → LRU.get zeroV l k = Ok ((zeroV, false), l)) ∧
  NoDup (LRU.entries l).*1 ∧
  length (LRU.entries l) = size (LRU.cache l) ∧
  (Z.of_nat (length (LRU.entries l)) ≤ LRU.capacity l)%Z.
Proof.
  intros Hr Hst. destruct (LRU_facts.lru_active zeroV l Hr Hst) as [Hs [ls Hwf]].
  destruct (LRU_facts.lru_get_entries_wf zeroV l ls k Hwf Hs) as [Hhit Hmiss].
  pose proof (LRU_facts.lru_entries_length l ls Hwf) as Hlen.
  split_and!; [|done|by eapply LRU_facts.lru_entries_NoDup|done|].
  - intros v Hv. destruct (Hhit v Hv) as (l' & ls' & ? & _ & _ & _ & ?). by exists l'.
  - rewrite Hlen. apply Hwf.
Qed.

Lemma X7_witness :
  ∃ l', LRU.get 0 lru_ab "a" = Ok ((1, true), l') ∧
    LRU.entries l' = [("b", 2); ("a", 1)].
Proof.
  destruct (X7_lru_get_entries 0 lru_ab "a") as (Hhit & _);
    [apply lru_ab_reachable|done|].
  destruct (Hhit 1) as (l' & Hget & He); [by apply (list_elem_of_lookup_2 _ 0)|].
  exists l'. split; [done|]. rewrite He. by vm_compute.
Defined.

(** X8.  A new LRU cache of the capacity [N] runs the writes of a list of
    entries with different keys without a panic, and then holds the last
    [N] of them, in the order of the writes. *)
Theorem X8_lru_keeps_the_last_writes `{Countable K} {V : Type} (zeroV : V)
    (N : Z) (kvs : list (K * V)) :
  (0 < N)%Z → NoDup kvs.*1 →
  ∃ l0 l : LRU.LRU K V,
    LRU.NewLRU N = Ok l0 ∧ LRU.sets zeroV l0 kvs = Ok l ∧
    LRU.entries l = drop (length kvs - Z.to_nat N) kvs.
Proof.
  intros HN Hnd.
  pose (l0 := {| LRU.cache := ∅; LRU.head := None; LRU.tail := None;
                 LRU.capacity := N; LRU.stopped := 0; LRU.mem := [] |} : LRU.LRU K V).
  assert (LRU.NewLRU N = Ok l0) as Hnew.
  { unfold LRU.NewLRU. by rewrite (proj2 (Z.leb_gt N 0)). }
  destruct (LRU_facts.lru_active zeroV l0) as [Hs0 [ls0 Hwf0]];
    [by eapply LRU.reach_new|done|].
  destruct (LRU_facts.lru_sets_entries_wf zeroV kvs l0 ls0 [] Hwf0 Hs0)
    as (l & ls & Hsets & _ & He); [done|done|].
  by exists l0, l.
Qed.

Lemma X8_witness :
  ∃ l0 l : LRU.LRU string nat,
    LRU.NewLRU 1 = Ok l0 ∧
    LRU.sets 0 l0 [("a", 1); ("b", 2)] = Ok l ∧
    LRU.entries l = [("b", 2)].
Proof.
  apply (X8_lru_keeps_the_last_writes 0 1%Z [("a", 1); ("b", 2)]); [lia|].
  by apply (bool_decide_unpack _).
Defined.

(** X9.  [Set] of a Random cache that is not stopped returns.  Below
    capacity it adds or overwrites the entry of the key and loses nothing.
    At capacity it first deletes the first key that its [range] statement
    visits, a key of the cache, whatever the key that is written, and no
    other key. *)
Theorem X9_random_set_evicts_one `{Countable K} {V : Type} (zeroV : V)
    (l : Random.Random K V) (order : list K) (k : K) (v : V) :
  Random.reachable zeroV l → Random.isStopped l = false →
  Random.range_order (Random.cache l) order →
  ∃ l', Random.set order l k v = Ok l' ∧
    ((Z.of_nat (size (Random.cache l)) < Random.capacity l)%Z →
       Random.cache l' = <[k := v]> (Random.cache l)) ∧
    ((Random.capacity l ≤ Z.of_nat (size (Random.cache l)))%Z →
       ∃ k0 v0 rest, order = k0 :: rest ∧ Random.cache l !! k0 = Some v0 ∧
         Random.cache l' = <[k := v]> (delete k0 (Random.cache l))).
Proof. apply Random_facts.random_set_evicts_one. Qed.

Lemma X9_witness :
  ∃ order l' k0 v0,
    Random.set order random_full "c" 3 = Ok l' ∧
    Random.cache random_full !! k0 = Some v0 ∧
    Random.cache l' = <["c" := 3]> (delete k0 (Random.cache random_full)).
Proof.
  destruct (Random_facts.random_range_order_exists (Random.cache random_full))
    as [order Hord].
  destruct (X9_random_set_evicts_one 0 random_full order "c" 3)
    as (l' & Hset & _ & Hfull); [apply random_full_reachable|done|done|].
  destruct Hfull as (k0 & v0 & rest & _ & Hk0 & Hc); [by vm_compute|].
  by exists order, l', k0, v0.
Defined.

(** X10.  In a FIFO, LIFO, LRU or Random cache that is not stopped,
    [Fetch] of a key that [Get] does not find, with a function that
    returns a value and no error, returns the value and leaves the cache
    that [Set] of the key and the value leaves; [Fetch] of the key in this
    cache returns the value and the cache as it is, whatever its function
    is. *)
Theorem X10_fetch_stores_what_it_computes `{Countable K} {V E : Type} (zeroV : V)
    (k : K) (v : V) (fn : unit → V * option E) :
  fn () = (v, None) →
  (∀ l : FIFO.FIFO K V,
     FIFO.reachable zeroV l → FIFO.isStopped l = false →
     FIFO.get zeroV l k = Ok ((zeroV, false), l) →
     ∃ l', FIFO.Fetch zeroV l k fn = Ok ((v, None), l') ∧
       FIFO.set zeroV l k v = Ok l' ∧
       ∀ fn' : unit → V * option E, FIFO.Fetch zeroV l' k fn' = Ok ((v, None), l')) ∧
  (∀ l : LIFO.LIFO K V,
     LIFO.reachable zeroV l → LIFO.isStopped l = false →
     LIFO.get zeroV l k = Ok ((zeroV, false), l) →
     ∃ l', LIFO.Fetch zeroV l k fn = Ok ((v, None), l') ∧
       LIFO.set zeroV l k v = Ok l' ∧
       ∀ fn' : unit → V * option E, LIFO.Fetch zeroV l' k fn' = Ok ((v, None), l')) ∧
  (∀ l : LRU.LRU K V,
     LRU.reachable zeroV l → LRU.isStopped l = false →
     LRU.get zeroV l k = Ok ((zeroV, false), l) →
     ∃ l', LRU.Fetch zeroV l k fn = Ok ((v, None), l') ∧
       LRU.set zeroV l k v = Ok l' ∧
       ∀ fn' : unit → V * option E, LRU.Fetch zeroV l' k fn' = Ok ((v, None), l')) ∧
  (∀ (l : Random.Random K V) order,
     Random.reachable zeroV l → Random.isStopped l = false →
     Random.range_order (Random.cache l) order →
     Random.get zeroV l k = Ok ((zeroV, false), l) →
     ∃ l', Random.Fetch zeroV order l k fn = Ok ((v, None), l') ∧
       Random.set order l k v = Ok l' ∧
       ∀ order' (fn' : unit → V * option E),
         Random.Fetch zeroV order' l' k fn' = Ok ((v, None), l')).
Proof.
  intros Hfn. split_and!.
  - intros l Hr Hst Hg. apply FIFO_facts.fifo_Fetch_miss; [done..| |done].
    unfold FIFO.get in Hg. rewrite Hst in Hg.
    destruct (FIFO.cache l !! k); [|done].
    by apply bind_Ok in Hg as (? & _ & ?).
  - intros l Hr Hst Hg. apply LIFO_facts.lifo_Fetch_miss; [done..| |done].
    unfold LIFO.get in Hg. rewrite Hst in Hg.
    destruct (LIFO.cache l !! k); [|done].
    by apply bind_Ok in Hg as (? & _ & ?).
  - intros l Hr Hst Hg. apply LRU_facts.lru_Fetch_miss; [done..| |done].
    unfold LRU.get in Hg. rewrite Hst in Hg.
    destruct (LRU.cache l !! k); [|done].
    apply bind_Ok in Hg as (? & _ & Hg). by apply bind_Ok in Hg as (? & _ & ?).
  - intros l order Hr Hst Hord Hg. apply Random_facts.random_Fetch_miss; [done..| |done].
    unfold Random.get in Hg. rewrite Hst in Hg.
    by destruct (Random.cache l !! k).
Qed.

Lemma X10_witness :
  ∃ l', FIFO.Fetch 0 fifo_full "c" fetching = Ok ((5, None), l') ∧
    FIFO.set 0 fifo_full "c" 5 = Ok l' ∧
    FIFO.Fetch 0 l' "c" failing = Ok ((5, None), l').
Proof.
  destruct (X10_fetch_stores_what_it_computes 0 "c" 5 fetching eq_refl) as (HF & _).
  destruct (HF fifo_full fifo_full_reachable eq_refl eq_refl) as (l' & ? & ? & Hhit).
  exists l'. split_and!; [done..|]. apply Hhit.
Defined.

(** X11.  In a TTL cache that is not stopped, [Fetch] at the instant
    [now] of a key that [Get] does not find then, with a function that
    returns a value and no error, returns the value and leaves the cache
    that [Set] of the key and the value at [now] leaves; [Fetch] of the key
    in this cache at an instant that is not after [now + ttl] returns the
    value and the cache as it is, whatever its function is. *)
Theorem X11_ttl_fetch_stores_what_it_computes `{Countable K} {V E : Type} (zeroV : V)
    (l : TTL.TTL K V) (k : K) (v : V) (fn : unit → V * option E) (now : Z) :
  TTL.reachable zeroV l → TTL.isStopped l = false →
  TTL.get zeroV l k now = Ok ((zeroV, false), l) → fn () = (v, None) →
  ∃ l', TTL.Fetch zeroV l k fn now = Ok ((v, None), l') ∧
    TTL.set zeroV l k v now = Ok l' ∧
    ∀ now' (fn' : unit → V * option E), (now' ≤ now + TTL.ttl l)%Z →
      TTL.Fetch zeroV l' k fn' now' = Ok ((v, None), l').
Proof.
  intros Hr Hst Hg Hfn. apply TTL_facts.ttl_Fetch_miss; [done..| |done].
  unfold TTL.get in Hg. rewrite Hst in Hg.
  destruct (TTL.cache l !! k) as [p|] eqn:Hk; [|by left].
  apply bind_Ok in Hg as (n & Hn & Hg). apply bind_Ok in Hg as (e & He & Hg).
  apply load_Ok in Hn as (a & [= <-] & Hn).
  destruct (TTL.expiresAt n) as [e'|] eqn:He'; [|done]. simpl in He. simplify_eq.
  unfold TTL.Before in Hg. destruct (e <? now)%Z eqn:Hlt; [|done].
  apply Z.ltb_lt in Hlt. right. by exists p, n, e.
Qed.

Lemma X11_witness :
  ∃ l', TTL.Fetch 0 ttl_a "a" fetching 11 = Ok ((5, None), l') ∧
    TTL.set 0 ttl_a "a" 5 11 = Ok l' ∧
    TTL.Fetch 0 l' "a" failing 21 = Ok ((5, None), l').
Proof.
  destruct (X11_ttl_fetch_stores_what_it_computes 0 ttl_a "a" 5 fetching 11)
    as (l' & ? & ? & Hhit); [apply ttl_a_reachable|done..|].
  exists l'. split_and!; [done..|]. by apply Hhit.
Defined.

(** X12.  In a run of a TTL cache in which no [Set] is to a key of the
    index and the instants of the [Set]s do not decrease, a tick of the
    sweeper at the instant [now] returns, and removes from the index the
    keys whose expiry is not after [now], and no other key; the item of a
    key that stays is as it was. *)
Theorem X12_ttl_sweep_removes_the_expired `{Countable K} {V : Type} (zeroV : V)
    (t : Z) (l : TTL.TTL K V) (now : Z) :
  TTL.in_order zeroV t l →
  ∃ l', TTL.sweep zeroV l now = Ok l' ∧
    ∀ k, match TTL.cache l !! k with
         | None => TTL.cache l' !! k = None
         | Some p => ∃ n e, TTL.mem l !! p = Some n ∧ TTL.expiresAt n = Some e ∧
             if (now <? e)%Z
             then TTL.cache l' !! k = Some p ∧ TTL.mem l' !! p = Some n
             else TTL.cache l' !! k = None
         end.
Proof.
  intros Hio. destruct (TTL_facts.ttl_sweep_in_order zeroV t l now Hio) as (l' & ? & _ & ?).
  by exists l'.
Qed.

Lemma X12_witness :
  ∃ l', TTL.sweep 0 ttl_ab 10 = Ok l' ∧
    TTL.cache l' !! "a" = None ∧ TTL.cache l' !! "b" = Some 1.
Proof.
  destruct (X12_ttl_sweep_removes_the_expired 0 1 ttl_ab 10 ttl_ab_in_order)
    as (l' & Hsw & Hk).
  exists l'. split; [done|]. split.
  - specialize (Hk "a"). change (TTL.cache ttl_ab !! "a") with (Some 0) in Hk.
    destruct Hk as (n & e & Hn & He & Hc).
    injection Hn as <-. injection He as <-. exact Hc.
  - specialize (Hk "b"). change (TTL.cache ttl_ab !! "b") with (Some 1) in Hk.
    destruct Hk as (n & e & Hn & He & Hc).
    injection Hn as <-. injection He as <-. exact (proj1 Hc).
Defined.

(** X13.  In such a run, at the instant of the expiry of an entry [Get]
    still returns its value, a tick of the sweeper at this instant
    removes the entry, and [Get] at this instant does not find it
    then. *)
Theorem X13_ttl_expiry_instant `{Countable K} {V : Type} (zeroV : V)
    (t : Z) (l : TTL.TTL K V) (k : K) (p : loc) (n : TTL.ttlListItem K V) (now : Z) :
  TTL.in_order zeroV t l → TTL.isStopped l = false →
  TTL.cache l !! k = Some p → TTL.mem l !! p = Some n →
  TTL.expiresAt n = Some now →
  TTL.get zeroV l k now = Ok ((TTL.value n, true), l) ∧
  ∃ l', TTL.sweep zeroV l now = Ok l' ∧
    TTL.get zeroV l' k now = Ok ((zeroV, false), l').
Proof. apply TTL_facts.ttl_expiry_instant. Qed.

Lemma X13_witness :
  TTL.get 0 ttl_ab "a" 10 = Ok ((1, true), ttl_ab) ∧
  ∃ l', TTL.sweep 0 ttl_ab 10 = Ok l' ∧ TTL.get 0 l' "a" 10 = Ok ((0, false), l').
Proof.
  exact (X13_ttl_expiry_instant 0 1 ttl_ab "a" 0 _ 10 ttl_ab_in_order
           eq_refl eq_refl eq_refl eq_refl).
Defined.

(** X14.  In such a run, the list from the head is in the order of the
    expiries, and no expiry is after the instant of the last [Set] plus
    the TTL; [Set], not before the last [Set], of a key that is not in the
    index returns and adds the key, with the expiry [now + ttl], at the end
    of the list. *)
Theorem X14_ttl_set_keeps_the_order `{Countable K} {V : Type} (zeroV : V)
    (t : Z) (l : TTL.TTL K V) :
  TTL.in_order zeroV t l →
  (∀ i j k1 k2 e1 e2, i ≤ j →
     TTL.expiries l !! i = Some (k1, Some e1) →
     TTL.expiries l !! j = Some (k2, Some e2) →
     (e1 ≤ e2 ∧ e2 ≤ t + TTL.ttl l)%Z) ∧
  (∀ k v now,
     TTL.isStopped l = false → (t ≤ now)%Z → TTL.cache l !! k = None →
     ∃ l', TTL.set zeroV l k v now = Ok l' ∧ TTL.in_order zeroV now l' ∧
       TTL.expiries l' = TTL.expiries l ++ [(k, Some (now + TTL.ttl l)%Z)]).
Proof.
  intros Hio. split.
  - intros i j k1 k2 e1 e2. by apply (TTL_facts.ttl_in_order_sorted zeroV).
  - intros k v now. by apply TTL_facts.ttl_set_in_order.
Qed.

Lemma X14_witness :
  ∃ l', TTL.set 0 ttl_ab "c" 3 4 = Ok l' ∧
    TTL.expiries l' = [("a", Some 10%Z); ("b", Some 11%Z); ("c", Some 14%Z)].
Proof.
  destruct (X14_ttl_set_keeps_the_order 0 1 ttl_ab ttl_ab_in_order) as [_ Hset].
  destruct (Hset "c" 3 4%Z) as (l' & ? & _ & He); [done..|].
  exists l'. split; [done|]. rewrite He. by vm_compute.
Defined.

Lemma ttl_cycle_reachable : TTL.reachable 0 ttl_cycle.
Proof.
  apply (TTL.reach_set 0 ttl_ab "a" 3 5); [|by vm_compute].
  apply (TTL_facts.ttl_in_order_reachable 0 1), ttl_ab_in_order.
Defined.

(** X15.  The loop of the sweeper of a TTL cache ends: on every state
    that [NewTTL], [Set], [Get], the sweeper and [Stop] lead to, and so on
    the lists with a cycle that a [Set] of a key of the index builds, a
    tick takes at most one round for every item of the store, and one. *)
Theorem X15_ttl_sweep_ends `{Countable K} {V : Type} (zeroV : V)
    (l : TTL.TTL K V) (now : Z) :
  TTL.reachable zeroV l → TTL.sweep zeroV l now ≠ OutOfFuel.
Proof.
  intros Hr. apply (TTL_facts.ttl_sweep_not_OutOfFuel zeroV l now).
  by apply (TTL_facts.ttl_reachable_wf zeroV).
Qed.

Lemma X15_witness :
  walk TTL.next 4 (TTL.mem ttl_cycle) (TTL.head ttl_cycle) = [0; 1; 0; 1] ∧
  TTL.sweep 0 ttl_cycle 12 ≠ OutOfFuel.
Proof.
  split; [done|]. apply X15_ttl_sweep_ends, ttl_cycle_reachable.
Defined.

(** X16.  In a run of the heap-ordered TTL cache in which no [Set] is to
    a key of the index, whatever the order of the instants of the [Set]s,
    a tick of the sweeper at the instant [now] returns, and removes from
    the index the keys whose expiry is before [now], and no other key; the
    item of a key that stays is as it was. *)
Theorem X16_heap_sweep_removes_the_expired `{Countable K} {V : Type} (zeroV : V)
    (l : TTLHeap.TTL K V) (now : Z) :
  TTLHeap.write_once zeroV l →
  ∃ l', TTLHeap.sweep zeroV l now = Ok l' ∧
    ∀ k, match TTLHeap.cache l !! k with
         | None => TTLHeap.cache l' !! k = None
         | Some p => ∃ n e, TTLHeap.mem l !! p = Some n ∧
             TTLHeap.expiresAt n = Some e ∧
             if (e <? now)%Z then TTLHeap.cache l' !! k = None
             else TTLHeap.cache l' !! k = Some p ∧ TTLHeap.mem l' !! p = Some n
         end.
Proof. apply TTLHeap_facts.ttlheap_sweep_write_once. Qed.

Lemma X16_witness :
  ∃ l', TTLHeap.sweep 0 heap_ba 12 = Ok l' ∧
    TTLHeap.cache l' !! "b" = None ∧ TTLHeap.cache l' !! "a" = Some 0.
Proof.
  destruct (X16_heap_sweep_removes_the_expired 0 heap_ba 12 heap_ba_write_once)
    as (l' & Hsw & Hk).
  exists l'. split; [done|]. split.
  - specialize (Hk "b"). change (TTLHeap.cache heap_ba !! "b") with (Some 1) in Hk.
    destruct Hk as (n & e & Hn & He & Hc).
    injection Hn as <-. injection He as <-. exact Hc.
  - specialize (Hk "a"). change (TTLHeap.cache heap_ba !! "a") with (Some 0) in Hk.
    destruct Hk as (n & e & Hn & He & Hc).
    injection Hn as <-. injection He as <-. exact (proj1 Hc).
Defined.

(** X17.  In such a run of the heap-ordered TTL cache, the first item of
    the heap, the one that the sweeper looks at, is the item of a key of
    the index, and no entry of the index expires before it. *)
Theorem X17_heap_peek_expires_first `{Countable K} {V : Type} (zeroV : V)
    (l : TTLHeap.TTL K V) (p0 : loc) (k : K) (p : loc) (n : TTLHeap.ttlItem K V)
    (e : Z) :
  TTLHeap.write_once zeroV l → TTLHeap.Peek (TTLHeap.heap l) = Some p0 →
  TTLHeap.cache l !! k = Some p → TTLHeap.mem l !! p = Some n →
  TTLHeap.expiresAt n = Some e →
  ∃ n0 k0 e0, TTLHeap.mem l !! p0 = Some n0 ∧ TTLHeap.key n0 = Some k0 ∧
    TTLHeap.expiresAt n0 = Some e0 ∧ TTLHeap.cache l !! k0 = Some p0 ∧ (e0 ≤ e)%Z.
Proof. apply TTLHeap_facts.ttlheap_peek_first. Qed.

Lemma X17_witness :
  ∃ n0 k0 e0, TTLHeap.mem heap_ba !! 1 = Some n0 ∧ TTLHeap.key n0 = Some k0 ∧
    TTLHeap.expiresAt n0 = Some e0 ∧ TTLHeap.cache heap_ba !! k0 = Some 1 ∧
    (e0 ≤ 15)%Z.
Proof.
  exact (X17_heap_peek_expires_first 0 heap_ba 1 "a" 0 _ 15 heap_ba_write_once
           eq_refl eq_refl eq_refl eq_refl).
Defined.

(** X18.  A new LIFO cache of the capacity [N] runs the writes of a list
    of entries with different keys without a panic.  Fewer than [N] writes
    are all kept, the last one first; from [N] writes on the cache holds
    the last entry written, and behind it the first [N - 1] ones, the
    latest of them first. *)
Theorem X18_lifo_keeps_the_first_writes `{Countable K} {V : Type} (zeroV : V)
    (N : Z) (kvs : list (K * V)) :
  (0 < N)%Z → NoDup kvs.*1 →
  ∃ l0 l : LIFO.LIFO K V,
    LIFO.NewLIFO N = Ok l0 ∧ LIFO.sets zeroV l0 kvs = Ok l ∧
    LIFO.entries l =
      if decide (length kvs < Z.to_nat N) then reverse kvs
      else drop (length kvs - 1) kvs ++ reverse (take (Z.to_nat N - 1) kvs).
Proof.
  intros HN Hnd.
  pose (l0 := {| LIFO.cache := ∅; LIFO.head := None;
                 LIFO.capacity := N; LIFO.stopped := 0; LIFO.mem := [] |} : LIFO.LIFO K V).
  assert (LIFO.NewLIFO N = Ok l0) as Hnew.
  { unfold LIFO.NewLIFO. by rewrite (proj2 (Z.leb_gt N 0)). }
  destruct (LIFO_facts.lifo_active zeroV l0) as [Hs0 [ls0 Hwf0]];
    [by eapply LIFO.reach_new|done|].
  destruct (LIFO_facts.lifo_sets_entries_wf zeroV kvs l0 ls0 [] Hwf0 Hs0)
    as (l & ls & Hsets & _ & He); [|done|].
  { simpl. by rewrite decide_True by lia. }
  by exists l0, l.
Qed.

Lemma X18_witness :
  ∃ l0 l : LIFO.LIFO string nat,
    LIFO.NewLIFO 2 = Ok l0 ∧
    LIFO.sets 0 l0 [("a", 1); ("b", 2); ("c", 3); ("d", 4)] = Ok l ∧
    LIFO.entries l = [("d", 4); ("a", 1)].
Proof.
  apply (X18_lifo_keeps_the_first_writes 0 2%Z
           [("a", 1); ("b", 2); ("c", 3); ("d", 4)]); [lia|].
  by apply (bool_decide_unpack _).
Defined.
